(** * Auto Patrol Manager: a shallow embedding of the planning engine

    The development follows [src/auto-patrol-manager.js].  The plugin keeps
    one mutable [Plan] object and a mutable [Settings] object; here every
    pass takes the parts of the plan it reads and returns the parts it
    writes.

    Representation choices:
    - a JavaScript [Set] is a duplicate-free list in insertion order
      ([set_add] appends, [set_delete] removes), because several loops
      iterate over sets and the iteration order decides tie-breaks;
    - a JavaScript [Map] or object used as a dictionary is a [gmap];
    - the key string [x + "," + y] of [key(x,y)] is the pair [(x,y)]
      (the decimal rendering is injective on pairs of integers);
    - arrays are lists read with [!!!]; node ids handed around by the
      engine are always indices of [Plan.nodes] (they come from
      [nodes.map(n => n.id)]), so a read never leaves the array on a plan
      built by [buildPathGraph]; outside the array JavaScript would yield
      [undefined] and throw on the next member access, where the model
      reads the default value;
    - the literal [1e9] is the integer [INF];
    - [Math.round(a/b)] and [Math.ceil(a/b)] on non-negative integers are
      the exact integer roundings;
    - [while] loops whose termination is not structural carry a fuel
      argument and return [None] when it runs out; the totality lemmas
      show that the fuel supplied by the callers is always enough. *)

From stdpp Require Import base gmap list strings.
From Stdlib Require Import ZArith Lia Ascii.

#[local] Open Scope list_scope.

(** ** JavaScript sets as insertion-ordered lists *)

Section JSSet.
Context {A : Type} `{EqDecision A}.

Definition set_has (s : list A) (x : A) : bool := bool_decide (x ∈ s).

Definition set_add (s : list A) (x : A) : list A :=
  if decide (x ∈ s) then s else s ++ [x].

Definition set_delete (s : list A) (x : A) : list A :=
  filter (λ y, y ≠ x) s.

Definition set_of_list (l : list A) : list A := foldl set_add [] l.
End JSSet.

Definition INF : Z := 1000000000%Z.

(** [Math.round(a / b)] for integers [a] and [b > 0]: halves round up. *)
Definition round_div (a b : Z) : Z := ((2 * a + b) / (2 * b))%Z.

(** [Math.ceil(a / b)] for natural numbers and a divisor [b > 0]; the
    divisors are settings that the spinners keep in positive ranges. *)
Definition ceil_div (a b : nat) : nat := (a + b - 1) / b.

(** [hay.indexOf(needle) >= 0] *)
Definition contains (needle hay : string) : bool :=
  match String.index 0 needle hay with Some _ => true | None => false end.

Definition lower_ascii (c : ascii) : ascii :=
  let n := nat_of_ascii c in
  if (65 <=? n) && (n <=? 90) then ascii_of_nat (n + 32) else c.

Fixpoint toLowerCase (s : string) : string :=
  match s with
  | EmptyString => EmptyString
  | String c s' => String (lower_ascii c) (toLowerCase s')
  end.

(** ** The host map *)

(** The fields of a tile element the engine looks at.  [el_isQueue] and
    [el_queue] are [true] exactly when the JavaScript field [=== true]. *)
Record Element := mkElement {
  el_type : string;
  el_isQueue : bool;
  el_queue : bool;
  el_flags : string;
  el_ride : nat;
  el_object : string
}.

Record Ride := mkRide {
  ride_type : string;
  ride_name : string;
  ride_classification : string
}.

(** [map.getTile(x,y)] gives the element list of the tile, or nothing
    ([null]) which [buildPathGraph] guards against. *)
Record GameMap := mkGameMap {
  map_w : nat;
  map_h : nat;
  getTile : nat → nat → option (list Element);
  map_rides : nat → option Ride
}.

(** The order of [for x < w: for y < h]. *)
Definition grid (w h : nat) : list (nat * nat) :=
  x ← seq 0 w; y ← seq 0 h; [(x, y)].

Definition key (x y : Z) : Z * Z := (x, y).

(** ** Plan data *)

Record Node := mkNode {
  n_id : nat;
  n_x : Z;
  n_y : Z;
  n_deg : nat;
  n_attractor : bool;
  n_component : Z;
  n_valid : bool
}.

#[global] Instance Node_inhabited : Inhabited Node :=
  populate (mkNode 0 0 0 0 false (-1) true).

Record Graph := mkGraph {
  nodes : list Node;
  idByXY : gmap (Z * Z) nat;
  edges : list (list nat)
}.

(** ** buildPathGraph *)

Definition isFootpath (el : Element) : bool := String.eqb (el_type el) "footpath".

Definition isQueueFlagged (el : Element) : bool :=
  el_isQueue el || el_queue el || contains "queue" (el_flags el).

Definition isRidePort (el : Element) : bool :=
  String.eqb (el_type el) "rideEntrance" || String.eqb (el_type el) "rideExit".

(** State of the element loop of one tile: [hasPath], [isQueue] and the
    set of attractor keys. *)
Definition scan_element (k : Z * Z) (st : bool * bool * list (Z * Z)) (el : Element)
  : bool * bool * list (Z * Z) :=
  let '(hasPath, isQueue, attractors) := st in
  let '(hasPath, isQueue) :=
    if isFootpath el
    then (true, if isQueueFlagged el then true else isQueue)
    else (hasPath, isQueue) in
  let attractors := if isRidePort el then set_add attractors k else attractors in
  (hasPath, isQueue, attractors).

Record ScanState := mkScan {
  sc_nodes : list Node;
  sc_ids : gmap (Z * Z) nat;
  sc_attr : list (Z * Z)
}.

Definition scan_tile (m : GameMap) (st : ScanState) (xy : nat * nat) : ScanState :=
  let '(x, y) := xy in
  match getTile m x y with
  | None => st
  | Some els =>
    let k := key (Z.of_nat x) (Z.of_nat y) in
    let '(hasPath, isQueue, attractors) :=
      foldl (scan_element k) (false, false, sc_attr st) els in
    if hasPath && negb isQueue then
      let id := length (sc_nodes st) in
      mkScan (sc_nodes st ++
                [mkNode id (Z.of_nat x) (Z.of_nat y) 0 (set_has attractors k) (-1) true])
             (<[k := id]> (sc_ids st)) attractors
    else mkScan (sc_nodes st) (sc_ids st) attractors
  end.

Definition scan_tiles (m : GameMap) : ScanState :=
  foldl (scan_tile m) (mkScan [] ∅ []) (grid (map_w m) (map_h m)).

Definition nbrs : list (Z * Z) := [(1, 0); (-1, 0); (0, 1); (0, -1)]%Z.

(** The adjacency list of node [n]: one entry per direction of [nbrs]
    whose target tile has an id. *)
Definition node_edges (ids : gmap (Z * Z) nat) (n : Node) : list nat :=
  omap (λ d : Z * Z, ids !! key (n_x n + d.1) (n_y n + d.2)) nbrs.

Definition with_deg (n : Node) (d : nat) : Node :=
  mkNode (n_id n) (n_x n) (n_y n) d (n_attractor n) (n_component n) (n_valid n).

Definition with_attractor (n : Node) : Node :=
  mkNode (n_id n) (n_x n) (n_y n) (n_deg n) true (n_component n) (n_valid n).

(** [String(el.object)||"".toLowerCase().indexOf("bench")>=0 || ...]:
    [||] binds weaker than [>=], so the test is truthy as soon as
    [String(el.object)] is a non-empty string. *)
Definition softAttractorTest (el : Element) : bool :=
  negb (String.eqb (el_object el) "")
  || contains "bench" (toLowerCase "")
  || negb (String.eqb (el_object el) "")
  || contains "bin" (toLowerCase "").

Definition isScenery (el : Element) : bool :=
  String.eqb (el_type el) "smallScenery" || String.eqb (el_type el) "largeScenery".

Definition mark_soft (seatingBins : bool) (ids : gmap (Z * Z) nat) (k : Z * Z)
    (ns : list Node) (el : Element) : list Node :=
  if isScenery el && seatingBins && softAttractorTest el then
    match ids !! k with
    | Some id => <[id := with_attractor (ns !!! id)]> ns
    | None => ns
    end
  else ns.

(** The optional facilities pass reads [tile.elements] without a guard:
    a [null] tile throws, which is [None] here. *)
Definition facilities_tile (m : GameMap) (seatingBins : bool) (ids : gmap (Z * Z) nat)
    (acc : option (list Node)) (xy : nat * nat) : option (list Node) :=
  ns ← acc;
  els ← getTile m xy.1 xy.2;
  Some (foldl (mark_soft seatingBins ids (key (Z.of_nat xy.1) (Z.of_nat xy.2))) ns els).

Record BuiltGraph := mkBuilt {
  bg_graph : Graph;
  bg_valid : list nat;
  bg_attractors : list nat
}.

Definition buildPathGraph (includeFacilities seatingBins : bool) (m : GameMap)
  : option BuiltGraph :=
  let sc := scan_tiles m in
  let es := map (node_edges (sc_ids sc)) (sc_nodes sc) in
  let ns := zip_with (λ n e, with_deg n (length e)) (sc_nodes sc) es in
  ns' ← (if includeFacilities
         then foldl (facilities_tile m seatingBins (sc_ids sc)) (Some ns)
                    (grid (map_w m) (map_h m))
         else Some ns);
  Some (mkBuilt (mkGraph ns' (sc_ids sc) es)
                (set_of_list (map n_id ns'))
                (foldl (λ s n, if n_attractor n then set_add s (n_id n) else s) [] ns')).

(** ** pruneSceneryBranches *)

Section Prune.
Variable E : list (list nat).       (* Plan.edges *)
Variable attractors : list nat.     (* Plan.attractorNodeIds *)

Definition adjacentToAttractor (id : nat) : bool :=
  set_has attractors id || existsb (set_has attractors) (E !!! id).

(** [deg = new Array(n).fill(0)], then [deg[id]++] for every valid
    neighbour of every valid node. *)
Definition deg_incr (deg : list Z) (id : nat) : list Z :=
  <[id := (deg !!! id + 1)%Z]> deg.

Definition deg_decr (deg : list Z) (id : nat) : list Z :=
  <[id := (deg !!! id - 1)%Z]> deg.

Definition init_deg (n : nat) (valid : list nat) : list Z :=
  foldl (λ deg id,
           foldl (λ deg nb, if set_has valid nb then deg_incr deg id else deg)
                 deg (E !!! id))
        (replicate n 0%Z) valid.

(** [queue] is only used with [push] and [pop]: a stack, kept here with
    its top at the head of the list. *)
Definition init_queue (deg : list Z) (valid : list nat) : list nat :=
  foldl (λ q id,
           if (deg !!! id <=? 1)%Z && negb (adjacentToAttractor id)
           then id :: q else q)
        [] valid.

(** The neighbour loop run after [valid.delete(id)]. *)
Definition relax (valid : list nat) (st : list Z * list nat) (nb : nat)
  : list Z * list nat :=
  let '(deg, q) := st in
  if set_has valid nb then
    let deg := deg_decr deg nb in
    if (deg !!! nb <=? 1)%Z && negb (adjacentToAttractor nb)
    then (deg, nb :: q) else (deg, q)
  else (deg, q).

Fixpoint prune_loop (fuel : nat) (valid : list nat) (deg : list Z) (queue : list nat)
  : option (list nat * list Z) :=
  match queue with
  | [] => Some (valid, deg)
  | id :: queue =>
    match fuel with
    | O => None
    | S fuel =>
      if negb (set_has valid id) then prune_loop fuel valid deg queue
      else if adjacentToAttractor id then prune_loop fuel valid deg queue
      else
        let valid := set_delete valid id in
        let '(deg, queue) := foldl (relax valid) (deg, queue) (E !!! id) in
        prune_loop fuel valid deg queue
    end
  end.

(** Every pop either skips or deletes a valid node [id] and pushes at
    most [length (E !!! id)] ids, so this many iterations suffice. *)
Definition prune_fuel (valid queue : list nat) : nat :=
  length queue + sum_list_with (λ id, S (length (E !!! id))) valid.

Definition pruneSceneryBranches (n : nat) (valid : list nat) : option (list nat) :=
  let deg := init_deg n valid in
  let queue := init_queue deg valid in
  fst <$> prune_loop (prune_fuel valid queue) valid deg queue.
End Prune.

(** ** Settings *)

Inductive StaffPolicy := AutoHire | AssignOnlyExisting | StretchZones.

Record Settings := mkSettings {
  enableHandymen : bool;
  enableMechanics : bool;
  tilesPerHandyman : nat;
  allowDeadEndRescue : bool;
  includeFacilitiesCuldesacs : bool;
  enableFoodCourts : bool;
  foodCourtStallThreshold : nat;
  foodCourtRadius : Z;
  foodCourtIncludeSeatingBins : bool;
  foodCourtMaxTiles : nat;
  foodCourtTilesPerCleaner : nat;
  mechMaxExits : nat;
  mechMstCap : Z;
  mechDiameterCap : Z;
  staffInsufficient : StaffPolicy
}.

(** The defaults of the source: "Balanced Patrols", "Standard Routes". *)
Definition default_settings : Settings :=
  mkSettings true true 180 true false true 3 8 false 160 120 4 180 120 AutoHire.

(** What the run reads from the host besides the map: the number of
    handymen already employed and the value drawn by [randint]. *)
Record Env := mkEnv {
  env_handymen : nat;
  env_random : nat
}.

(** The names [`Food Court ${k}`] and [`Zone ${k}`]. *)
Inductive ZoneName := FoodCourtName (k : nat) | ZoneNumber (k : nat).

Record FoodCourt := mkCourt {
  fc_tiles : list nat;
  fc_center : Z * Z;
  fc_name : ZoneName;
  fc_staffNeeded : nat
}.

Record Zone := mkZone {
  z_tiles : list nat;
  z_centroid : Z * Z;
  z_name : ZoneName
}.

(** ** Food court detection *)

Definition isStallRide (r : option Ride) : bool :=
  match r with
  | None => false
  | Some r =>
    let t := toLowerCase (ride_type r) in
    let name := toLowerCase (ride_name r) in
    let cat := toLowerCase (ride_classification r) in
    contains "stall" t || contains "shop" t || contains "stall" cat
    || contains "shop" cat || contains "stall" name || contains "shop" name
  end.

(** Reads [tile.elements] unguarded: [None] when a tile is [null]. *)
Definition getLikelyShopEntranceCoords (m : GameMap) : option (list (Z * Z)) :=
  foldl (λ acc xy,
           coords ← acc;
           els ← getTile m xy.1 xy.2;
           Some (foldl (λ coords el,
                          if String.eqb (el_type el) "rideEntrance"
                             && isStallRide (map_rides m (el_ride el))
                          then coords ++ [(Z.of_nat xy.1, Z.of_nat xy.2)]
                          else coords)
                       coords els))
        (Some []) (grid (map_w m) (map_h m)).

Definition sqdist (p q : Z * Z) : Z :=
  ((q.1 - p.1) * (q.1 - p.1) + (q.2 - p.2) * (q.2 - p.2))%Z.

Definition stallCenters (R2 : Z) (threshold : nat) (shops : list (Z * Z)) : list (Z * Z) :=
  filter (λ pt, threshold ≤ length (filter (λ pt2, (sqdist pt pt2 ≤ R2)%Z) shops)) shops.

Section FoodCourts.
Variable g : Graph.
Variable valid : list nat.          (* Plan.validNodeIds *)
Variable R2 : Z.
Variable maxTiles : nat.
Variable tilesPerCleaner : nat.

Definition node_xy (id : nat) : Z * Z :=
  (n_x (nodes g !!! id), n_y (nodes g !!! id)).

(** The neighbour loop of the flood fill: state [visited], [q]. *)
Definition court_visit (c : Z * Z) (st : list nat * list nat) (nb : nat)
  : list nat * list nat :=
  let '(visited, q) := st in
  if negb (set_has valid nb) then st
  else if set_has visited nb then st
  else if (R2 <? sqdist c (node_xy nb))%Z then st
  else (set_add visited nb, q ++ [nb]).

Fixpoint court_grow (fuel : nat) (c : Z * Z) (visited tiles q : list nat)
  : option (list nat * list nat) :=
  match q with
  | [] => Some (visited, tiles)
  | v :: q =>
    if length tiles <? maxTiles then
      match fuel with
      | O => None
      | S fuel =>
        let tiles := set_add tiles v in
        let '(visited, q) := foldl (court_visit c) (visited, q) (edges g !!! v) in
        court_grow fuel c visited tiles q
      end
    else Some (visited, tiles)
  end.

Record CourtState := mkCourtState {
  cs_courts : list FoodCourt;
  cs_reserved : list nat;
  cs_visited : list nat
}.

(** One pass of [for (const c of stallCenters)]. *)
Definition court_seed (st : CourtState) (c : Z * Z) : option CourtState :=
  match idByXY g !! key c.1 c.2 with
  | None => Some st
  | Some nid =>
    if negb (set_has valid nid) then Some st
    else if set_has (cs_visited st) nid then Some st
    else
      '(visited, tiles) ← court_grow (S (length valid)) c
                                      (set_add (cs_visited st) nid) [] [nid];
      if 20 <=? length tiles then
        Some (mkCourtState
                (cs_courts st ++
                   [mkCourt tiles c (FoodCourtName (length (cs_courts st) + 1))
                            (Nat.max 1 (ceil_div (length tiles) tilesPerCleaner))])
                (foldl set_add (cs_reserved st) tiles)
                visited)
      else Some (mkCourtState (cs_courts st) (cs_reserved st) visited)
  end.

Definition court_seeds (st : CourtState) (cs : list (Z * Z)) : option CourtState :=
  foldl (λ acc c, st ← acc; court_seed st c) (Some st) cs.

Definition detectFoodCourts (threshold : nat) (shops : list (Z * Z))
  : option (list FoodCourt * list nat) :=
  st ← court_seeds (mkCourtState [] [] []) (stallCenters R2 threshold shops);
  Some (cs_courts st, cs_reserved st).
End FoodCourts.

(** ** Handyman zoning *)

Section Zoning.
Variable g : Graph.

Definition manhattan (p q : Z * Z) : Z := (Z.abs (p.1 - q.1) + Z.abs (p.2 - q.2))%Z.

(** Only called on non-empty sets: both callers skip empty zones. *)
Definition centroidOfTiles (s : list nat) : Z * Z :=
  let sx := foldl (λ a id, (a + n_x (nodes g !!! id))%Z) 0%Z s in
  let sy := foldl (λ a id, (a + n_y (nodes g !!! id))%Z) 0%Z s in
  let c := Z.of_nat (length s) in
  (round_div sx c, round_div sy c).

(** Distance of [id] to its nearest seed, starting from [1e9]. *)
Definition seed_dmin (seeds : list nat) (id : nat) : Z :=
  foldl (λ dmin s,
           let d := manhattan (node_xy g s) (node_xy g id) in
           if (d <? dmin)%Z then d else dmin)
        INF seeds.

Definition farthest (validSet seeds : list nat) : option nat :=
  fst (foldl (λ '(best, bestScore) id,
                let dmin := seed_dmin seeds id in
                if (bestScore <? dmin)%Z then (Some id, dmin) else (best, bestScore))
             (None, (-1)%Z) validSet).

(** [while (seeds.length < k)]: one seed is pushed per pass. *)
Fixpoint more_seeds (n : nat) (validSet seeds : list nat) : list nat :=
  match n with
  | O => seeds
  | S n =>
    match farthest validSet seeds with
    | Some best => more_seeds n validSet (seeds ++ [best])
    | None => seeds
    end
  end.

Definition pickSeeds (rnd : nat) (validSet : list nat) (k : nat) : list nat :=
  if (length validSet =? 0) || (k =? 0) then []
  else more_seeds (k - 1) validSet [validSet !!! (rnd mod length validSet)].

Record Flood := mkFlood {
  fl_zones : list (list nat);
  fl_frontier : list (list nat);
  fl_claimed : gmap nat nat;
  fl_progressed : bool
}.

Definition zone_size (zones : list (list nat)) (i : nat) : nat := length (zones !!! i).

Definition claim_seed (validSet : list nat) (st : list (list nat) * gmap nat nat)
    (p : nat * nat) : list (list nat) * gmap nat nat :=
  let '(zones, claimed) := st in
  let '(i, s) := p in
  if set_has validSet s
  then (<[i := set_add (zones !!! i) s]> zones, <[s := i]> claimed)
  else st.

(** [for (const nb of Plan.edges[v])] with its [break]. *)
Fixpoint claim_nbs (validSet : list nat) (target i : nat) (nbs : list nat)
    (zones : list (list nat)) (claimed : gmap nat nat) (next : list nat) (progressed : bool)
  : list (list nat) * gmap nat nat * list nat * bool :=
  match nbs with
  | [] => (zones, claimed, next, progressed)
  | nb :: nbs =>
    if negb (set_has validSet nb) then claim_nbs validSet target i nbs zones claimed next progressed
    else if bool_decide (is_Some (claimed !! nb))
    then claim_nbs validSet target i nbs zones claimed next progressed
    else
      let claimed := <[nb := i]> claimed in
      let zones := <[i := set_add (zones !!! i) nb]> zones in
      let next := next ++ [nb] in
      if target <=? zone_size zones i then (zones, claimed, next, true)
      else claim_nbs validSet target i nbs zones claimed next true
  end.

(** [while (wave.length && zones[i].size < target)] *)
Fixpoint drain (validSet : list nat) (target i : nat) (wave : list nat)
    (zones : list (list nat)) (claimed : gmap nat nat) (next : list nat) (progressed : bool)
  : list (list nat) * gmap nat nat * list nat * bool :=
  match wave with
  | [] => (zones, claimed, next, progressed)
  | v :: wave =>
    if zone_size zones i <? target then
      let '(zones, claimed, next, progressed) :=
        claim_nbs validSet target i (edges g !!! v) zones claimed next progressed in
      drain validSet target i wave zones claimed next progressed
    else (zones, claimed, next, progressed)
  end.

(** The body of [for (let i=0;i<zones.length;i++)] in one round. *)
Definition flood_zone (validSet : list nat) (target : nat) (st : Flood) (i : nat) : Flood :=
  if target <=? zone_size (fl_zones st) i then st
  else
    let '(zones, claimed, next, progressed) :=
      drain validSet target i (fl_frontier st !!! i) (fl_zones st) (fl_claimed st) []
            (fl_progressed st) in
    mkFlood zones (<[i := next]> (fl_frontier st)) claimed progressed.

Definition flood_round (validSet : list nat) (target : nat) (st : Flood) : Flood :=
  foldl (flood_zone validSet target)
        (mkFlood (fl_zones st) (fl_frontier st) (fl_claimed st) false)
        (seq 0 (length (fl_zones st))).

Definition allMet (target : nat) (zones : list (list nat)) : bool :=
  forallb (λ z, target <=? length z) zones.

(** [while(true)] *)
Fixpoint flood_loop (fuel : nat) (validSet : list nat) (target : nat) (st : Flood)
  : option Flood :=
  match fuel with
  | O => None
  | S fuel =>
    let st := flood_round validSet target st in
    if negb (fl_progressed st) then Some st
    else if allMet target (fl_zones st) then Some st
    else flood_loop fuel validSet target st
  end.

Definition nearestZoneIndex (id : nat) (zones : list (list nat)) : option nat :=
  fst (foldl (λ '(best, bestd) i,
                if length (zones !!! i) =? 0 then (best, bestd)
                else
                  let d := manhattan (centroidOfTiles (zones !!! i)) (node_xy g id) in
                  if (d <? bestd)%Z then (Some i, d) else (best, bestd))
             (None, INF) (seq 0 (length zones))).

Definition assign_remaining (zones : list (list nat)) (id : nat) : list (list nat) :=
  match nearestZoneIndex id zones with
  | Some z => <[z := set_add (zones !!! z) id]> zones
  | None => zones
  end.

Definition balancedFlood (validSet seeds : list nat) (target : nat)
  : option (list (list nat)) :=
  let '(zones, claimed) :=
    foldl (claim_seed validSet) (map (λ _, []) seeds, ∅) (imap (λ i s, (i, s)) seeds) in
  st ← flood_loop (S (length validSet)) validSet target
                  (mkFlood zones (map (λ s, [s]) seeds) claimed false);
  let remaining :=
    filter (λ id, fl_claimed st !! id = None) validSet in
  Some (foldl assign_remaining (fl_zones st) remaining).

(** *** Dead-end rescue *)

Definition zones_union (zones : list Zone) : list nat :=
  foldl (λ valid z, foldl set_add valid (z_tiles z)) [] zones.

Definition rescue_deg (valid : list nat) : gmap nat nat :=
  foldl (λ deg id, <[id := length (filter (λ nb, nb ∈ valid) (edges g !!! id))]> deg)
        ∅ valid.

Definition in_some_zone (zones : list Zone) (t : nat) : bool :=
  existsb (λ z, set_has (z_tiles z) t) zones.

(** First zone index holding [nb], as the inner [for zi] finds it. *)
Definition zone_index_of (zones : list Zone) (nb : nat) : option nat :=
  fst <$> list_find (λ z, nb ∈ z_tiles z) zones.

(** First neighbour, in adjacency order, that some zone holds. *)
Fixpoint rescue_choice (zones : list Zone) (nbs : list nat) : option nat :=
  match nbs with
  | [] => None
  | nb :: nbs =>
    match zone_index_of zones nb with
    | Some zi => Some zi
    | None => rescue_choice zones nbs
    end
  end.

Definition zone_add (z : Zone) (t : nat) : Zone :=
  mkZone (set_add (z_tiles z) t) (z_centroid z) (z_name z).

Definition rescue_leaf (zones : list Zone) (leaf : nat) : list Zone :=
  if negb (in_some_zone zones leaf) then
    match rescue_choice zones (edges g !!! leaf) with
    | Some zi => alter (λ z, zone_add z leaf) zi zones
    | None => zones
    end
  else zones.

Definition rescueDeadEnds (zones : list Zone) : list Zone :=
  let valid := zones_union zones in
  let deg := rescue_deg valid in
  let leaves := filter (λ id, default 0 (deg !! id) ≤ 1) valid in
  foldl rescue_leaf zones leaves.

(** *** buildHandymanZones *)

Definition court_zone (validIds : list nat) (st : list Zone * list nat) (court : FoodCourt)
  : list Zone * list nat :=
  let '(zones, valid) := st in
  let ztiles := foldl (λ s t, if set_has validIds t then set_add s t else s) [] (fc_tiles court) in
  if length ztiles =? 0 then st
  else (zones ++ [mkZone ztiles (centroidOfTiles ztiles) (fc_name court)],
        foldl set_delete valid ztiles).

Definition push_grown (zones : list Zone) (tiles : list nat) : list Zone :=
  if length tiles =? 0 then zones
  else zones ++ [mkZone tiles (centroidOfTiles tiles) (ZoneNumber (length zones + 1))].

(** The number of seeds [buildHandymanZones] asks for. *)
Definition zones_needed (s : Settings) (env : Env) (tcount : nat) : nat :=
  let needed := ceil_div tcount (tilesPerHandyman s) in
  let needed := if enableHandymen s then needed else 0 in
  let needed :=
    match staffInsufficient s with
    | AssignOnlyExisting => Nat.min needed (env_handymen env)
    | StretchZones => needed
    | AutoHire => needed
    end in
  if (needed =? 0) && (0 <? tcount) then 1 else needed.

(** The candidate pool and the food-court zones, before seeding. *)
Definition handyman_pool (s : Settings) (validIds reserved : list nat)
    (courts : list FoodCourt) : list Zone * list nat :=
  let valid := filter (λ id, id ∉ reserved) validIds in
  if enableFoodCourts s && negb (length courts =? 0)
  then foldl (court_zone validIds) ([], valid) courts
  else ([], valid).

(** [old] is [Plan.handymanZones] before the call: the early [return]
    on an empty pool leaves it as it is. *)
Definition buildHandymanZones (s : Settings) (env : Env) (validIds reserved : list nat)
    (courts : list FoodCourt) (old : list Zone) : option (list Zone) :=
  if length (filter (λ id, id ∉ reserved) validIds) =? 0 then Some old
  else
    let '(zones, valid) := handyman_pool s validIds reserved courts in
    let needed := zones_needed s env (length valid) in
    let seeds := pickSeeds (env_random env) valid needed in
    grown ← balancedFlood valid seeds (tilesPerHandyman s);
    let zones := foldl push_grown zones grown in
    Some (if allowDeadEndRescue s then rescueDeadEnds zones else zones).
End Zoning.

(** ** Mechanic routes *)

Record ExitPoint := mkExit {
  ex_nodeId : nat;
  ex_x : Z;
  ex_y : Z;
  ex_rideId : nat;
  (** the ride's name, or [None] for the fallback ["Ride " + id] *)
  ex_rideName : option string
}.

Record Route := mkRoute {
  r_from : nat;
  r_to : nat;
  r_pathIds : list nat
}.

Record MechCluster := mkCluster {
  mc_exits : list nat;
  mc_tiles : list nat;
  mc_routes : list Route
}.

Section Mechanics.
Variable g : Graph.
Variable valid : list nat.          (* Plan.validNodeIds *)

(** Reads [tile.elements] unguarded: [None] when a tile is [null]. *)
Definition collect_exits (m : GameMap) : option (list ExitPoint) :=
  foldl (λ acc xy,
           exits ← acc;
           els ← getTile m xy.1 xy.2;
           Some (foldl (λ exits el,
                          if String.eqb (el_type el) "rideExit" then
                            match idByXY g !! key (Z.of_nat xy.1) (Z.of_nat xy.2) with
                            | Some nid =>
                              if set_has valid nid
                              then exits ++ [mkExit nid (Z.of_nat xy.1) (Z.of_nat xy.2)
                                                    (el_ride el)
                                                    (ride_name <$> map_rides m (el_ride el))]
                              else exits
                            | None => exits
                            end
                          else exits)
                       exits els))
        (Some []) (grid (map_w m) (map_h m)).

Record Bfs := mkBfs {
  bfs_dist : gmap nat Z;
  bfs_prev : gmap nat nat
}.

(** The neighbour loop of [bfsDistances]: state [dist], [prev], [q]. *)
Definition bfs_visit (v : nat) (st : Bfs * list nat) (nb : nat) : Bfs * list nat :=
  let '(d, q) := st in
  if negb (set_has valid nb) then st
  else if bool_decide (is_Some (bfs_dist d !! nb)) then st
  else (mkBfs (<[nb := (bfs_dist d !!! v + 1)%Z]> (bfs_dist d)) (<[nb := v]> (bfs_prev d)),
        q ++ [nb]).

Fixpoint bfs_loop (fuel : nat) (d : Bfs) (q : list nat) : option Bfs :=
  match q with
  | [] => Some d
  | v :: q =>
    match fuel with
    | O => None
    | S fuel =>
      let '(d, q) := foldl (bfs_visit v) (d, q) (edges g !!! v) in
      bfs_loop fuel d q
    end
  end.

Definition bfsDistances (startId : nat) : option Bfs :=
  bfs_loop (S (length valid)) (mkBfs {[startId := 0%Z]} ∅) [startId].

(** [d.dist[b] || 1e9]: [undefined] and [0] are both falsy. *)
Definition dist_or_inf (d : gmap nat Z) (b : nat) : Z :=
  match d !! b with
  | Some dj => if (dj =? 0)%Z then INF else dj
  | None => INF
  end.

(** The rows of the distance matrix.  The companion array [paths] is
    written and never read, so it is left out. *)
Definition dist_row (exits : list ExitPoint) (e : ExitPoint) : option (list Z) :=
  d ← bfsDistances (ex_nodeId e);
  Some (map (λ e', dist_or_inf (bfs_dist d) (ex_nodeId e')) exits).

Definition dist_matrix (exits : list ExitPoint) : option (list (list Z)) :=
  mapM (dist_row exits) exits.

(** [cur = d.prev[cur]] until [a] is reached; the list grows by [push]
    and is reversed at the end. *)
Fixpoint walk_prev (fuel : nat) (prev : gmap nat nat) (a cur : nat) (path : list nat)
  : option (list nat) :=
  if decide (cur = a) then Some path
  else
    match fuel with
    | O => None
    | S fuel =>
      match prev !! cur with
      | None => Some path
      | Some p => walk_prev fuel prev a p (path ++ [p])
      end
    end.

Definition shortestPathBetween (a b : nat) : option (list nat) :=
  d ← bfsDistances a;
  match bfs_dist d !! b with
  | None => Some []
  | Some _ => reverse <$> walk_prev (S (length valid)) (bfs_prev d) a b [b]
  end.
End Mechanics.

Section Clusters.
Variable dist : list (list Z).

Definition dist_at (i j : nat) : Z := (dist !!! i) !!! j.

(** All pairs [i < j] of positions of [set], in loop order. *)
Fixpoint pairs (set : list nat) : list (nat * nat) :=
  match set with
  | [] => []
  | a :: rest => map (λ b, (a, b)) rest ++ pairs rest
  end.

Definition diameterWith (arr : list nat) (idx : nat) : Z :=
  foldl (λ dia p, Z.max dia (dist_at p.1 p.2)) 0%Z (pairs (arr ++ [idx])).

(** The [for (const v of list)] of [mstLengthApprox]: state [best], [bestV]. *)
Definition approx_pick (used list : list nat) : Z * option nat :=
  foldl (λ '(best, bestV) v,
           if set_has used v then (best, bestV)
           else
             let nd := foldl (λ nd u, Z.min nd (dist_at u v)) INF used in
             if (nd <? best)%Z then (nd, Some v) else (best, bestV))
        (INF, None) list.

Fixpoint approx_loop (fuel : nat) (list used : list nat) (len : Z) : Z :=
  match fuel with
  | O => len
  | S fuel =>
    if length used <? length list then
      match approx_pick used list with
      | (best, Some bestV) => approx_loop fuel list (set_add used bestV) (len + best)%Z
      | (_, None) => len
      end
    else len
  end.

(** Every pass adds a new element to [used], so [length list] passes
    are enough. *)
Definition mstLengthApprox (list : list nat) : Z :=
  match list with
  | [] => 0%Z
  | v0 :: _ => approx_loop (length list) list [v0] 0%Z
  end.

Section Grow.
Variable maxExits : nat.
Variable mstCap diameterCap : Z.

(** The candidate scan of the greedy growth: state [best], [bestd]. *)
Definition nearest_candidate (current unassigned : list nat) : option nat :=
  fst (foldl (λ '(best, bestd) idx,
                if (diameterCap <? diameterWith current idx)%Z then (best, bestd)
                else
                  let nd := foldl (λ nd c, Z.min nd (dist_at idx c)) INF current in
                  if (nd <? bestd)%Z then (Some idx, nd) else (best, bestd))
             (None, INF) unassigned).

(** [while (current.length < Settings.mechMaxExits)]; the cluster
    grows by one on every pass that does not leave the loop. *)
Fixpoint grow_cluster (fuel : nat) (current unassigned : list nat)
  : list nat * list nat :=
  match fuel with
  | O => (current, unassigned)
  | S fuel =>
    if length current <? maxExits then
      match nearest_candidate current unassigned with
      | None => (current, unassigned)
      | Some best =>
        let current' := current ++ [best] in
        let unassigned' := set_delete unassigned best in
        if (mstCap <? mstLengthApprox current')%Z
        then (current, set_add unassigned' best)
        else grow_cluster fuel current' unassigned'
      end
    else (current, unassigned)
  end.

(** [while (unassigned.size)] *)
Fixpoint cluster_loop (fuel : nat) (unassigned : list nat) (clusters : list (list nat))
  : option (list (list nat)) :=
  match unassigned with
  | [] => Some clusters
  | seedIndex :: unassigned =>
    match fuel with
    | O => None
    | S fuel =>
      let '(current, unassigned) := grow_cluster maxExits [seedIndex] unassigned in
      cluster_loop fuel unassigned (clusters ++ [current])
    end
  end.

Definition cluster_exits (n : nat) : option (list (list nat)) :=
  cluster_loop n (seq 0 n) [].
End Grow.

(** *** The route tree of one cluster (Prim) *)

(** The double loop [for u of used, for v of c]: state [best] as the
    pair [(bestU, bestV)] and [bestw]. *)
Definition prim_pick (c used : list nat) : option (nat * nat) * Z :=
  foldl (λ st u,
           foldl (λ '(best, bestw) v,
                    if set_has used v then (best, bestw)
                    else
                      let w := dist_at u v in
                      if (w <? bestw)%Z then (Some (u, v), w) else (best, bestw))
                 st c)
        (None, INF) used.

Fixpoint prim_loop (fuel : nat) (c used : list nat) (edgesC : list (nat * nat))
  : list (nat * nat) :=
  match fuel with
  | O => edgesC
  | S fuel =>
    if length used <? length c then
      match prim_pick c used with
      | (Some (bestU, bestV), _) =>
        prim_loop fuel c (set_add used bestV) (edgesC ++ [(bestU, bestV)])
      | (None, _) => edgesC
      end
    else edgesC
  end.

(** [edgesC] of a non-empty cluster [c]; every pass adds a new element
    to [used], so [length c] passes are enough. *)
Definition prim_edges (c : list nat) : list (nat * nat) :=
  match c with
  | [] => []
  | c0 :: _ => prim_loop (length c) c [c0] []
  end.

Definition edges_weight (es : list (nat * nat)) : Z :=
  foldr (λ e acc, (dist_at e.1 e.2 + acc)%Z) 0%Z es.
End Clusters.

Section Routes.
Variable g : Graph.
Variable valid : list nat.
Variable dist : list (list Z).
Variable exits : list ExitPoint.

Definition exit_node (i : nat) : nat :=
  match exits !! i with Some e => ex_nodeId e | None => 0 end.

Definition build_route (acc : option (list nat * list Route)) (e : nat * nat)
  : option (list nat * list Route) :=
  '(routeTiles, routes) ← acc;
  sp ← shortestPathBetween g valid (exit_node e.1) (exit_node e.2);
  Some (foldl set_add routeTiles sp, routes ++ [mkRoute e.1 e.2 sp]).

Definition build_cluster (c : list nat) : option MechCluster :=
  '(routeTiles, routes) ← foldl build_route (Some ([], [])) (prim_edges dist c);
  Some (mkCluster c routeTiles routes).

Definition build_clusters (clusters : list (list nat)) : option (list MechCluster) :=
  mapM build_cluster (filter (λ c, c ≠ []) clusters).
End Routes.

Definition buildMechanicRoutes (s : Settings) (m : GameMap) (g : Graph) (valid : list nat)
  : option (list ExitPoint * list MechCluster) :=
  exits ← collect_exits g valid m;
  dist ← dist_matrix g valid exits;
  clusters ← cluster_exits dist (mechMaxExits s) (mechMstCap s) (mechDiameterCap s)
                           (length exits);
  mcs ← build_clusters g valid dist exits clusters;
  Some (exits, mcs).

(** ** KPIs, warnings and the preview run *)

Record Kpis := mkKpis {
  validPathTiles : nat;
  coveredTiles : nat;
  handymanAvgTiles : Z;
  handymanMaxTiles : nat;
  k_mechClusters : nat;
  mechAvgExits : Z;
  mechLongestRoute : nat;
  k_foodCourts : nat
}.

(** The three warning templates of [computeKpis], with the values they
    interpolate. *)
Inductive Warning :=
| CoverageWarning (ratio : Z)
| NoMechanicClusters
| LargeFoodCourt (name : ZoneName) (tiles need : nat).

Record Plan := mkPlan {
  built : bool;
  warnings : list Warning;
  kpis : Kpis;
  graph : Graph;
  validNodeIds : list nat;
  attractorNodeIds : list nat;
  foodCourts : list FoodCourt;
  reservedFoodTiles : list nat;
  handymanZones : list Zone;
  mechExits : list ExitPoint;
  mechClusters : list MechCluster
}.

Definition coverage_ratio (covered validTiles : nat) : Z :=
  if validTiles =? 0 then 0%Z
  else round_div (100 * Z.of_nat covered) (Z.of_nat validTiles).

Definition kpi_warnings (s : Settings) (covered validTiles : nat)
    (clusters : list MechCluster) (courts : list FoodCourt) : list Warning :=
  (if enableHandymen s then
     let ratio := coverage_ratio covered validTiles in
     if (ratio <? 100)%Z then [CoverageWarning ratio] else []
   else [])
  ++ (if enableMechanics s then
        if length clusters =? 0 then [NoMechanicClusters] else []
      else [])
  ++ (if enableFoodCourts s && negb (length courts =? 0) then
        flat_map (λ fc,
                    let need := Nat.max 1 (ceil_div (length (fc_tiles fc))
                                                    (foodCourtTilesPerCleaner s)) in
                    if 1 <? need then [LargeFoodCourt (fc_name fc) (length (fc_tiles fc)) need]
                    else [])
                 courts
      else []).

Definition computeKpis (s : Settings) (validTiles nCourts : nat) (zones : list Zone)
    (clusters : list MechCluster) (courts : list FoodCourt) : Kpis * list Warning :=
  let loads := map (λ z, length (z_tiles z)) zones in
  let covered := sum_list loads in
  let totalExits := sum_list (map (λ mc, length (mc_exits mc)) clusters) in
  let longestRoute :=
    foldl (λ lr mc,
             Nat.max lr (foldl (λ l r, Nat.max l (length (r_pathIds r))) 0 (mc_routes mc)))
          0 clusters in
  (mkKpis validTiles covered
          (if length loads =? 0 then 0%Z
           else round_div (Z.of_nat covered) (Z.of_nat (length loads)))
          (foldl Nat.max 0 loads)
          (length clusters)
          (if length clusters =? 0 then 0%Z
           else round_div (Z.of_nat totalExits) (Z.of_nat (length clusters)))
          longestRoute
          nCourts,
   kpi_warnings s covered validTiles clusters courts).

(** [onPreview]: reset, build, prune, detect, zone, route, KPIs.  [None]
    is an uncaught [TypeError] on a [null] tile. *)
Definition onPreview (s : Settings) (env : Env) (m : GameMap) : option Plan :=
  bg ← buildPathGraph (includeFacilitiesCuldesacs s) (foodCourtIncludeSeatingBins s) m;
  let g := bg_graph bg in
  valid ← pruneSceneryBranches (edges g) (bg_attractors bg) (length (nodes g)) (bg_valid bg);
  '(courts, reserved) ←
    (if enableFoodCourts s then
       shops ← getLikelyShopEntranceCoords m;
       detectFoodCourts g valid (foodCourtRadius s * foodCourtRadius s)%Z
                        (foodCourtMaxTiles s) (foodCourtTilesPerCleaner s)
                        (foodCourtStallThreshold s) shops
     else Some ([], []));
  zones ← (if enableHandymen s
           then buildHandymanZones g s env valid reserved courts []
           else Some []);
  '(exits, clusters) ← (if enableMechanics s
                        then buildMechanicRoutes s m g valid
                        else Some ([], []));
  let '(k, w) := computeKpis s (length valid) (length courts) zones clusters courts in
  Some (mkPlan true w k g valid (bg_attractors bg) courts reserved zones exits clusters).

(** * Specification-side notions

    Predicates in which the theorems are stated, the invariants of the
    loops, and the concrete maps of the scenarios. *)

(** ** Graph builder *)

(** The graph builder created a node for tile [(x,y)]. *)
Definition has_node (g : Graph) (x y : nat) : Prop :=
  ∃ n, n ∈ nodes g ∧ n_x n = Z.of_nat x ∧ n_y n = Z.of_nat y.

(** The tile carries at least one non-queue footpath element and no
    queue-flagged footpath element. *)
Definition walkable_tile (m : GameMap) (x y : nat) : Prop :=
  ∃ els, getTile m x y = Some els
         ∧ (∃ el, el ∈ els ∧ isFootpath el = true ∧ isQueueFlagged el = false)
         ∧ (∀ el, el ∈ els → isFootpath el = true → isQueueFlagged el = false).

(** [hasPath && !isQueue] after the element loop of a tile. *)
Definition tile_ok (els : list Element) : bool :=
  existsb isFootpath els
  && negb (existsb (λ el, isFootpath el && isQueueFlagged el) els).

Definition scanned_ok (m : GameMap) (x y : nat) : Prop :=
  ∃ els, getTile m x y = Some els ∧ tile_ok els = true.

(** Invariant of the tile scan over a prefix [l] of the grid. *)
Record scan_inv (m : GameMap) (l : list (nat * nat)) (st : ScanState) : Prop := {
  si_ids : ∀ x y id,
      sc_ids st !! (Z.of_nat x, Z.of_nat y) = Some id ↔
      ∃ n, sc_nodes st !! id = Some n ∧ n_x n = Z.of_nat x ∧ n_y n = Z.of_nat y;
  si_nodes : ∀ id n, sc_nodes st !! id = Some n →
      n_id n = id ∧ ∃ x y, (x, y) ∈ l ∧ scanned_ok m x y
                           ∧ n_x n = Z.of_nat x ∧ n_y n = Z.of_nat y;
  si_complete : ∀ x y, (x, y) ∈ l → scanned_ok m x y →
      ∃ id, sc_ids st !! (Z.of_nat x, Z.of_nat y) = Some id;
  si_dom : ∀ k id, sc_ids st !! k = Some id → ∃ x y, k = (Z.of_nat x, Z.of_nat y) ∧ (x, y) ∈ l
}.

(** The later passes of the builder only rewrite [deg] and [attractor]. *)
Definition node_place (n : Node) : nat * Z * Z := (n_id n, n_x n, n_y n).

(** The graph the builder makes of a map (facilities pass off). *)
Definition graph_of_map (m : GameMap) : Graph :=
  match buildPathGraph false false m with
  | Some bg => bg_graph bg
  | None => mkGraph [] ∅ []
  end.

(** ** Pruning *)

(** Number of neighbours of [id] inside [valid]: the degree of [id] in
    the valid subgraph. *)
Definition valid_degree (E : list (list nat)) (valid : list nat) (id : nat) : nat :=
  length (filter (λ nb, nb ∈ valid) (E !!! id)).

(** What the pruning pass relies on: the adjacency lists are symmetric and
    duplicate-free, and [valid] is a set of indices of the node array. *)
Record wf_graph (E : list (list nat)) (n : nat) (valid : list nat) : Prop := {
  wf_sym : ∀ a b, b ∈ E !!! a → a ∈ E !!! b;
  wf_nodup : ∀ a, NoDup (E !!! a);
  wf_range : ∀ id, id ∈ valid → id < n;
  wf_set : NoDup valid
}.

(** The loop invariant of [pruneSceneryBranches]: [deg] holds the degree
    in the valid subgraph, and every valid leaf away from the attractors
    is waiting in the queue. *)
Record prune_inv (E : list (list nat)) (attractors valid : list nat)
    (deg : list Z) (queue : list nat) : Prop := {
  pi_deg : ∀ v, v ∈ valid → deg !!! v = Z.of_nat (valid_degree E valid v);
  pi_queue : ∀ v, v ∈ valid → valid_degree E valid v ≤ 1 →
                  adjacentToAttractor E attractors v = false → v ∈ queue;
  pi_range : ∀ v, v ∈ valid → v < length deg
}.

(** The valid set the preview run works with after pruning. *)
Definition pruned_valid (s : Settings) (m : GameMap) : option (list nat) :=
  bg ← buildPathGraph (includeFacilitiesCuldesacs s) (foodCourtIncludeSeatingBins s) m;
  pruneSceneryBranches (edges (bg_graph bg)) (bg_attractors bg)
                       (length (nodes (bg_graph bg))) (bg_valid bg).

(** Coordinates of the tiles that survive pruning on map [m], with the
    facilities pass switched off. *)
Definition pruned_coords (m : GameMap) : option (list (Z * Z)) :=
  bg ← buildPathGraph false false m;
  valid ← pruneSceneryBranches (edges (bg_graph bg)) (bg_attractors bg)
                               (length (nodes (bg_graph bg))) (bg_valid bg);
  Some (map (node_xy (bg_graph bg)) valid).

(** Scenario A as the specification states its outcome: the surviving
    tiles are exactly (7,0), (8,0), (9,0). *)
Definition scenarioA_expected (l : list (Z * Z)) : Prop :=
  (∀ p, p ∈ l ↔ p ∈ [(7, 0); (8, 0); (9, 0)]%Z) ∧ length l = 3.

(** ** Food-court detector *)

(** Valid tiles the detector has not visited yet. *)
Definition court_unvisited (valid visited : list nat) : nat :=
  length (filter (λ v, (v ∉ visited)) valid).

(** Tiles reached while growing from a seed: visited now, not visited
    before the seed ([pre]), and valid. *)
Definition court_fresh (valid pre visited : list nat) (t : nat) : Prop :=
  t ∈ visited ∧ ¬ t ∈ pre ∧ t ∈ valid.

(** The state invariant: the tiles of every court are visited and valid,
    courts are pairwise disjoint, [reserved] is their union, and every
    court has at least 20 tiles. *)
Record courts_inv (valid : list nat) (st : CourtState) : Prop := {
  ci_visited : ∀ court t, court ∈ cs_courts st → t ∈ fc_tiles court →
                          t ∈ cs_visited st ∧ t ∈ valid;
  ci_disjoint : ∀ i j ci cj t, i ≠ j →
      cs_courts st !! i = Some ci → cs_courts st !! j = Some cj →
      t ∈ fc_tiles ci → ¬ t ∈ fc_tiles cj;
  ci_reserved : ∀ t, t ∈ cs_reserved st ↔ ∃ court, court ∈ cs_courts st ∧ t ∈ fc_tiles court;
  ci_size : ∀ court, court ∈ cs_courts st → 20 ≤ length (fc_tiles court)
}.

(** ** Balanced flood fill *)

Section FloodSpec.
Variable validSet : list nat.

(** Candidate tiles no zone has claimed yet. *)
Definition unclaimed (claimed : gmap nat nat) : nat :=
  length (filter (λ v, claimed !! v = None) validSet).

(** [n] zones, made of candidate tiles only, and every claimed tile sits
    in the zone that claimed it. *)
Definition flood_ok (n : nat) (zones : list (list nat)) (claimed : gmap nat nat) : Prop :=
  length zones = n
  ∧ (∀ i z t, zones !! i = Some z → t ∈ z → t ∈ validSet)
  ∧ (∀ id i, claimed !! id = Some i → ∃ z, zones !! i = Some z ∧ id ∈ z).

(** Claims are never withdrawn, and [progressed] is only raised by a
    new claim. *)
Definition progress_ok (c : gmap nat nat) (p : bool) (c' : gmap nat nat) (p' : bool) : Prop :=
  unclaimed c' ≤ unclaimed c
  ∧ (p' = true → p = true ∨ unclaimed c' < unclaimed c)
  ∧ (∀ id, is_Some (c !! id) → is_Some (c' !! id)).

(** Tile [id] belongs to at least one zone. *)
Definition covered (zones : list (list nat)) (id : nat) : Prop :=
  ∃ i z, zones !! i = Some z ∧ id ∈ z.
End FloodSpec.

(** Coordinates for which every Manhattan distance stays below [1e9]. *)
Definition in_box (p : Z * Z) : Prop :=
  (0 ≤ p.1 < 500000000)%Z ∧ (0 ≤ p.2 < 500000000)%Z.

(** Every zone is made of tiles of [validSet]. *)
Definition zones_within (validSet : list nat) (zones : list (list nat)) : Prop :=
  ∀ i z t, zones !! i = Some z → t ∈ z → t ∈ validSet.

(** [b] is a candidate neighbour of the candidate [a]. *)
Definition linked (g : Graph) (validSet : list nat) (a b : nat) : Prop :=
  a ∈ validSet ∧ b ∈ validSet ∧ b ∈ edges g !!! a.

(** [id] lies in a connected component of the candidate graph that
    contains no seed. *)
Definition seedless (g : Graph) (validSet seeds : list nat) (id : nat) : Prop :=
  ∀ s, s ∈ seeds → ¬ rtc (linked g validSet) s id.

(** The coverage guarantee as the specification words it: candidate tiles
    of seedless components stay out of every zone, all others are in one. *)
Definition isolated_left_out (g : Graph) (validSet seeds : list nat) (target : nat) : Prop :=
  ∃ zones, balancedFlood g validSet seeds target = Some zones
           ∧ ∀ id, id ∈ validSet →
                   (seedless g validSet seeds id → ¬ covered zones id)
                   ∧ (¬ seedless g validSet seeds id → covered zones id).

(** ** Breadth-first search *)

(** Valid nodes that the breadth-first search has not reached yet. *)
Definition bfs_unseen (valid : list nat) (d : Bfs) : nat :=
  length (filter (λ v, bfs_dist d !! v = None) valid).

(** The invariant of [bfsDistances]: distances are natural numbers below
    the number of reached nodes, a predecessor is one hop closer, and
    queued nodes have a distance. *)
Record bfs_wf (valid : list nat) (d : Bfs) (q : list nat) : Prop := {
  bw_range : ∀ v z, bfs_dist d !! v = Some z → (0 ≤ z < Z.of_nat (size (bfs_dist d)))%Z;
  bw_prev : ∀ v p, bfs_prev d !! v = Some p →
                   ∃ z, bfs_dist d !! p = Some z ∧ bfs_dist d !! v = Some (z + 1)%Z;
  bw_queue : ∀ v, v ∈ q → is_Some (bfs_dist d !! v);
  bw_size : size (bfs_dist d) + bfs_unseen valid d ≤ S (length valid)
}.

(** A walk of [k] steps from [a] to [b] along edges of the graph whose
    targets are valid nodes: what [bfsDistances a] explores. *)
Inductive walk (g : Graph) (valid : list nat) (a : nat) : nat → nat → Prop :=
| walk_nil : walk g valid a 0 a
| walk_snoc k b c :
    walk g valid a k b → c ∈ edges g !!! b → c ∈ valid → walk g valid a (S k) c.

(** The invariant of the search from [a]; [pending] holds the node being
    expanded followed by the queue.  Distances are lengths of shortest
    walks, nodes outside [pending] have all their valid neighbours
    reached, and [pending] is sorted by distance with at most two
    consecutive values. *)
Record bfs_inv (g : Graph) (valid : list nat) (a : nat) (d : Bfs) (pending : list nat)
  : Prop := {
  bi_start : bfs_dist d !! a = Some 0%Z;
  bi_sound : ∀ v k, bfs_dist d !! v = Some k →
                    (0 ≤ k)%Z ∧ walk g valid a (Z.to_nat k) v;
  bi_min : ∀ v k j, bfs_dist d !! v = Some k → walk g valid a j v → Z.to_nat k ≤ j;
  bi_closed : ∀ u x, is_Some (bfs_dist d !! u) → u ∉ pending →
                     x ∈ edges g !!! u → x ∈ valid → is_Some (bfs_dist d !! x);
  bi_pending : ∀ v, v ∈ pending → is_Some (bfs_dist d !! v);
  bi_sorted : ∀ i j vi vj, i ≤ j → pending !! i = Some vi → pending !! j = Some vj →
                           (bfs_dist d !!! vi ≤ bfs_dist d !!! vj)%Z;
  bi_range : ∀ h v, pending !! 0 = Some h → v ∈ pending →
                    (bfs_dist d !!! v ≤ bfs_dist d !!! h + 1)%Z
}.

(** ** Clusters and spanning trees *)

(** The undirected edge list [T] links [x] to some element of [U]. *)
Inductive reaches (T : list (nat * nat)) (U : list nat) : nat → Prop :=
| reaches_in x : x ∈ U → reaches T U x
| reaches_step x y : (x, y) ∈ T ∨ (y, x) ∈ T → reaches T U y → reaches T U x.

(** [T] is a connected spanning edge set of the complete graph on the
    members [c]: its edges join members, and every member is linked to
    the first one. *)
Definition spanning (c : list nat) (T : list (nat * nat)) : Prop :=
  (∀ e, e ∈ T → e.1 ∈ c ∧ e.2 ∈ c) ∧ ∀ x, x ∈ c → reaches T (take 1 c) x.

Definition spanning_tree (c : list nat) (T : list (nat * nat)) : Prop :=
  spanning c T ∧ length T = length c - 1.

(** [w] is the weight of a minimum spanning tree of the members [c]
    under the distance matrix [dist]. *)
Definition mst_weight (dist : list (list Z)) (c : list nat) (w : Z) : Prop :=
  (∃ T, spanning_tree c T ∧ edges_weight dist T = w)
  ∧ ∀ T, spanning_tree c T → (w ≤ edges_weight dist T)%Z.

(** What [prim_pick] has established after looking at the candidate
    pairs [S]. *)
Definition pick_ok (dist : list (list Z)) (S : nat → nat → Prop)
    (st : option (nat * nat) * Z) : Prop :=
  (∀ u v, S u v → (st.2 ≤ dist_at dist u v)%Z)
  ∧ match st.1 with
    | Some (u, v) => S u v ∧ st.2 = dist_at dist u v ∧ (st.2 < INF)%Z
    | None => st.2 = INF
    end.

(** The invariant of the Prim loop on the members [c] with first member
    [c0]. *)
Record prim_inv (c : list nat) (c0 : nat) (used : list nat) (edgesC : list (nat * nat))
  : Prop := {
  pv_nodup : NoDup used;
  pv_sub : ∀ x, x ∈ used → x ∈ c;
  pv_len : length used = S (length edgesC);
  pv_edges : ∀ e, e ∈ edgesC → e.1 ∈ c ∧ e.2 ∈ c;
  pv_reach : ∀ x, x ∈ used → reaches edgesC [c0] x
}.

(** What the greedy growth maintains: the exits of the cluster and the
    unassigned exits are all different, and every pair inside the cluster
    (in the order of [diameterWith]) is within the diameter cap. *)
Definition cluster_ok (dist : list (list Z)) (cap : Z) (current unassigned : list nat) : Prop :=
  NoDup (current ++ unassigned)
  ∧ ∀ p, p ∈ pairs current → (dist_at dist p.1 p.2 ≤ cap)%Z.

(** The end points of the routes of a cluster, in order. *)
Definition route_ends (routes : list Route) : list (nat * nat) :=
  map (λ r, (r_from r, r_to r)) routes.

(** ** Maps and settings of the scenarios *)

(** Scenario A of the specification: a corridor [(0,0) .. (9,0)] of plain
    footpath with a ride exit on the last tile. *)
Definition footpath_el : Element := mkElement "footpath" false false "" 0 "".
Definition rideExit_el (r : nat) : Element := mkElement "rideExit" false false "" r "".
Definition rideEntrance_el (r : nat) : Element := mkElement "rideEntrance" false false "" r "".

Definition corridor_map : GameMap :=
  mkGameMap 10 1
    (λ x y, if (x <? 10) && (y =? 0)
            then Some (if x =? 9 then [footpath_el; rideExit_el 0] else [footpath_el])
            else None)
    (λ _, None).

(** Two tiles: plain footpath on (0,0); footpath and a queue on (1,0). *)
Definition mixed_tile_map : GameMap :=
  mkGameMap 2 1
    (λ x y, Some (if x =? 0 then [footpath_el]
                  else [footpath_el; mkElement "footpath" true false "" 0 ""]))
    (λ _, None).

(** Two footpath tiles (0,0) and (5,0), each with a ride exit, and
    nothing in between. *)
Definition islands_map : GameMap :=
  mkGameMap 6 1
    (λ x y, Some (if (x =? 0) || (x =? 5) then [footpath_el; rideExit_el x] else []))
    (λ _, None).

(** A 4 x 5 plaza (x in 0..3, y in 0..4) with a corridor (4,2)..(11,2)
    leaving it; stalls stand at (11,2) and (1,2). *)
Definition plaza_map : GameMap :=
  mkGameMap 12 5
    (λ x y, Some (if (x <? 4) || ((y =? 2) && (x <? 12)) then [footpath_el] else []))
    (λ _, None).

Definition plaza_graph : Graph := graph_of_map plaza_map.
Definition plaza_valid : list nat := seq 0 (length (nodes plaza_graph)).
Definition stall_far : Z * Z := (11, 2)%Z.
Definition stall_plaza : Z * Z := (1, 2)%Z.

(** [detectFoodCourts] on the plaza: radius 8, one stall makes a seed,
    160 tiles at most, 120 tiles per cleaner. *)
Definition plaza_courts (shops : list (Z * Z)) : option (list FoodCourt * list nat) :=
  detectFoodCourts plaza_graph plaza_valid 64 160 120 1 shops.

(** The default settings with both staff kinds switched off. *)
Definition quiet_settings : Settings :=
  mkSettings false false 180 true false true 3 8 false 160 120 4 180 120 AutoHire.

(** Three footpath tiles in a row and no ride anywhere. *)
Definition bare_path_map : GameMap :=
  mkGameMap 3 1 (λ x y, Some [footpath_el]) (λ _, None).

(** Scenario D as a map: a corridor of 201 tiles with a ride exit on
    every fiftieth tile. *)
Definition line_map : GameMap :=
  mkGameMap 201 1
    (λ x y, if (x <? 201) && (y =? 0)
            then Some (if x mod 50 =? 0 then [footpath_el; rideExit_el x] else [footpath_el])
            else None)
    (λ _, None).

Definition line_built : BuiltGraph :=
  default (mkBuilt (mkGraph [] ∅ []) [] []) (buildPathGraph false false line_map).
Definition line_graph : Graph := bg_graph line_built.
Definition line_valid : list nat := seq 0 201.
Definition line_exits : list ExitPoint :=
  default [] (collect_exits line_graph line_valid line_map).

(** Scenario D of the specification: five exits on a line, 50 hops from
    one to the next; the diagonal holds [1e9]. *)
Definition line_dist : list (list Z) :=
  [[INF; 50; 100; 150; 200];
   [50; INF; 50; 100; 150];
   [100; 50; INF; 50; 100];
   [150; 100; 50; INF; 50];
   [200; 150; 100; 50; INF]]%Z.

(** * The rest of the engine: further notions *)

(** ** Graph builder *)

Definition node_pos (n : Node) : Z * Z := (n_x n, n_y n).

(** The tile [(x,y)] carries a ride entrance or a ride exit. *)
Definition ride_port_tile (m : GameMap) (x y : nat) : Prop :=
  ∃ els el, getTile m x y = Some els ∧ el ∈ els ∧ isRidePort el = true.

(** What the later passes of the builder leave of a scanned node apart
    from its attractor flag. *)
Definition node_frame (n : Node) : nat * Z * Z * nat := (n_id n, n_x n, n_y n, n_deg n).

(** Invariant of the tile scan over a prefix [l] of the grid, for the
    attractor keys and the flags of the nodes. *)
Definition scan_attr_ok (m : GameMap) (l : list (nat * nat)) (st : ScanState) : Prop :=
  (∀ k, k ∈ sc_attr st → ∃ x y, (x, y) ∈ l ∧ k = key (Z.of_nat x) (Z.of_nat y))
  ∧ ∀ id n, sc_nodes st !! id = Some n →
       n_deg n = 0 ∧ ∃ x y els, n_x n = Z.of_nat x ∧ n_y n = Z.of_nat y
                                 ∧ getTile m x y = Some els
                                 ∧ n_attractor n = existsb isRidePort els.


(** ** Pruning *)

(** Every node of [S] has at least two adjacency entries inside [S]: [S]
    is made of loops of path, without a dangling end. *)
Definition two_core (E : list (list nat)) (S : list nat) : Prop :=
  ∀ v, v ∈ S → 2 ≤ length (filter (λ nb, nb ∈ S) (E !!! v)).

(** A 2 x 2 block of footpath and a corridor (2,0)..(4,0) leaving it; no
    ride anywhere. *)
Definition block_map : GameMap :=
  mkGameMap 5 2
    (λ x y, Some (if (x <? 2) || (y =? 0) then [footpath_el] else []))
    (λ _, None).

(** ** Shortest paths *)

(** [p] lists the tiles of a walk from [a] to [b]: it starts with [a],
    every further tile is a valid neighbour of the one before, and the
    last tile is [b]. *)
Inductive route (g : Graph) (valid : list nat) (a : nat) : list nat → nat → Prop :=
| route_start : route g valid a [a] a
| route_snoc p x y :
    route g valid a p x → y ∈ edges g !!! x → y ∈ valid → route g valid a (p ++ [y]) y.

(** The invariant of [bfsDistances a] for the predecessor map: a
    predecessor is a neighbour one hop closer, and every reached node
    other than the start has one. *)
Record prev_ok (g : Graph) (valid : list nat) (a : nat) (d : Bfs) (q : list nat) : Prop := {
  po_start : bfs_dist d !! a = Some 0%Z;
  po_nonneg : ∀ v z, bfs_dist d !! v = Some z → (0 ≤ z)%Z;
  po_edge : ∀ v p, bfs_prev d !! v = Some p →
      v ∈ edges g !!! p ∧ v ∈ valid
      ∧ ∃ z, bfs_dist d !! p = Some z ∧ bfs_dist d !! v = Some (z + 1)%Z;
  po_def : ∀ v, is_Some (bfs_dist d !! v) → v = a ∨ is_Some (bfs_prev d !! v);
  po_queue : ∀ v, v ∈ q → is_Some (bfs_dist d !! v)
}.

(** The predecessors followed by [shortestPathBetween] from [cur] back to
    [a], in the order they are pushed. *)
Inductive chain (prev : gmap nat nat) (a : nat) : nat → list nat → Prop :=
| chain_here : chain prev a a []
| chain_step cur p c :
    cur ≠ a → prev !! cur = Some p → chain prev a p c → chain prev a cur (p :: c).

(** ** Tile scans *)

(** Some tile of the grid is [null]. *)
Definition null_tile (m : GameMap) : Prop :=
  ∃ x y, x < map_w m ∧ y < map_h m ∧ getTile m x y = None.

(** The tile [(x,y)] carries a ride entrance of a ride that
    [isStallRide] takes for a stall. *)
Definition stall_entrance_tile (m : GameMap) (x y : nat) : Prop :=
  ∃ els el, getTile m x y = Some els ∧ el ∈ els
            ∧ el_type el = "rideEntrance"
            ∧ isStallRide (map_rides m (el_ride el)) = true.

(** ** Zoning *)

(** The Manhattan distance from tile [id] to the centroid of zone [i]. *)
Definition zone_distance (g : Graph) (zones : list (list nat)) (id i : nat) : Z :=
  manhattan (centroidOfTiles g (zones !!! i)) (node_xy g id).

(** ** Small maps for the examples *)

(** The graph the builder makes of [m] with the facilities pass off. *)
Definition built_of (m : GameMap) : BuiltGraph :=
  default (mkBuilt (mkGraph [] ∅ []) [] []) (buildPathGraph false false m).

Definition corridor_built : BuiltGraph := built_of corridor_map.
Definition islands_built : BuiltGraph := built_of islands_map.
Definition block_built : BuiltGraph := built_of block_map.

(** A corridor (0,0)..(5,0) with a ride exit at either end. *)
Definition pair_map : GameMap :=
  mkGameMap 6 1
    (λ x y, Some (if (x =? 0) || (x =? 5) then [footpath_el; rideExit_el x] else [footpath_el]))
    (λ _, None).

Definition pair_built : BuiltGraph := built_of pair_map.
Definition pair_valid : list nat := seq 0 6.

(** What [buildMechanicRoutes] makes of [pair_map] under the defaults. *)
Definition pair_routes : list ExitPoint * list MechCluster :=
  default ([], []) (buildMechanicRoutes default_settings pair_map (bg_graph pair_built) pair_valid).

(** ** The zones of the balanced flood as a partition *)

(** [n] zones that share no tile, list no tile twice and hold exactly the
    claimed tiles. *)
Definition flood_part (n : nat) (zones : list (list nat)) (claimed : gmap nat nat) : Prop :=
  length zones = n
  ∧ NoDup (concat zones)
  ∧ ∀ t, t ∈ concat zones ↔ is_Some (claimed !! t).

(** ** The shape of a food court *)

(** One hop between two tiles of [tiles]. *)
Definition court_step (g : Graph) (tiles : list nat) (a b : nat) : Prop :=
  a ∈ tiles ∧ b ∈ tiles ∧ b ∈ edges g !!! a.

(** The flood fill of one court, started on the node [nid] of the stall
    centre [c]: the tiles taken so far and the queue. *)
Record grow_inv (g : Graph) (valid : list nat) (R2 : Z) (maxTiles : nat)
    (c : Z * Z) (nid : nat) (tiles q : list nat) : Prop := {
  gi_nodup : NoDup tiles;
  gi_size : length tiles ≤ maxTiles;
  gi_valid : ∀ t, t ∈ tiles ∨ t ∈ q → t ∈ valid;
  gi_radius : ∀ t, t ∈ tiles ∨ t ∈ q → t = nid ∨ (sqdist c (node_xy g t) ≤ R2)%Z;
  gi_reach : ∀ t, t ∈ tiles → rtc (court_step g tiles) nid t;
  gi_queue : ∀ v, v ∈ q → v = nid ∨ ∃ u, u ∈ tiles ∧ v ∈ edges g !!! u;
  gi_seed : tiles = [] ∨ nid ∈ tiles
}.

(** What [detectFoodCourts] records of a court. *)
Record court_shape (g : Graph) (valid : list nat) (R2 : Z) (maxTiles tilesPerCleaner : nat)
    (court : FoodCourt) : Prop := {
  shape_nodup : NoDup (fc_tiles court);
  shape_size : 20 ≤ length (fc_tiles court) ≤ maxTiles;
  shape_valid : ∀ t, t ∈ fc_tiles court → t ∈ valid;
  shape_seed : ∃ nid,
      idByXY g !! key (fc_center court).1 (fc_center court).2 = Some nid
      ∧ nid ∈ fc_tiles court
      ∧ (∀ t, t ∈ fc_tiles court → rtc (court_step g (fc_tiles court)) nid t)
      ∧ (∀ t, t ∈ fc_tiles court → t ≠ nid →
              (sqdist (fc_center court) (node_xy g t) ≤ R2)%Z);
  shape_staff : fc_staffNeeded court
                = Nat.max 1 (ceil_div (length (fc_tiles court)) tilesPerCleaner)
}.

(** ** A plaza of stalls *)

(** [Plan] as [onReset] leaves it. *)
Definition reset_plan : Plan :=
  mkPlan false [] (mkKpis 0 0 0 0 0 0 0 0) (mkGraph [] ∅ []) [] [] [] [] [] [] [].

(** A 5 x 5 plaza of footpath; the tiles (1,2), (2,2) and (3,2) carry the
    entrance of a stall. *)
Definition court_map : GameMap :=
  mkGameMap 5 5
    (λ x y, Some (if (y =? 2) && (1 <=? x) && (x <=? 3)
                  then [footpath_el; rideEntrance_el x] else [footpath_el]))
    (λ _, Some (mkRide "food_stall" "Burger Bar" "stall")).

(** The defaults with the smallest detection radius of the window. *)
Definition small_radius_settings : Settings :=
  mkSettings true true 180 true false true 3 3 false 160 120 4 180 120 AutoHire.

Definition court_plan_small : Plan :=
  default reset_plan (onPreview small_radius_settings (mkEnv 0 0) court_map).
Definition court_plan_all : Plan :=
  default reset_plan (onPreview default_settings (mkEnv 0 0) court_map).

(** ** The settings window *)

Definition clamp (v lo hi : Z) : Z := Z.max lo (Z.min hi v).

(** The fields of [Settings] that only the window and the apply step
    read.  A preset or policy name is [None] when it is [undefined], which
    indexing a list of names outside its bounds yields. *)
Record UiSettings := mkUi {
  zonePreset : option string;
  mechPreset : option string;
  foodCourtStaffInsufficient : option string;
  mechAvoidPlazas : bool;
  mechSmallRedundancy : bool;
  spawnNewInsideZone : bool;
  moveExistingToZone : bool;
  lockAssignments : bool
}.

Definition default_ui : UiSettings :=
  mkUi (Some "Balanced Patrols") (Some "Standard Routes") (Some "Auto-hire")
       true false true true false.

Definition name_is (name : option string) (n : string) : bool :=
  match name with Some x => String.eqb x n | None => false end.

Definition set_tilesPerHandyman (v : nat) (s : Settings) : Settings :=
  mkSettings (enableHandymen s) (enableMechanics s) v (allowDeadEndRescue s)
    (includeFacilitiesCuldesacs s) (enableFoodCourts s) (foodCourtStallThreshold s)
    (foodCourtRadius s) (foodCourtIncludeSeatingBins s) (foodCourtMaxTiles s)
    (foodCourtTilesPerCleaner s) (mechMaxExits s) (mechMstCap s) (mechDiameterCap s)
    (staffInsufficient s).

Definition set_mech (maxExits : nat) (mstCap diameterCap : Z) (s : Settings) : Settings :=
  mkSettings (enableHandymen s) (enableMechanics s) (tilesPerHandyman s) (allowDeadEndRescue s)
    (includeFacilitiesCuldesacs s) (enableFoodCourts s) (foodCourtStallThreshold s)
    (foodCourtRadius s) (foodCourtIncludeSeatingBins s) (foodCourtMaxTiles s)
    (foodCourtTilesPerCleaner s) maxExits mstCap diameterCap (staffInsufficient s).

Definition set_foodCourt (threshold : nat) (radius : Z) (maxTiles tilesPerCleaner : nat)
    (s : Settings) : Settings :=
  mkSettings (enableHandymen s) (enableMechanics s) (tilesPerHandyman s) (allowDeadEndRescue s)
    (includeFacilitiesCuldesacs s) (enableFoodCourts s) threshold radius
    (foodCourtIncludeSeatingBins s) maxTiles tilesPerCleaner (mechMaxExits s) (mechMstCap s)
    (mechDiameterCap s) (staffInsufficient s).

Definition set_staffInsufficient (p : StaffPolicy) (s : Settings) : Settings :=
  mkSettings (enableHandymen s) (enableMechanics s) (tilesPerHandyman s) (allowDeadEndRescue s)
    (includeFacilitiesCuldesacs s) (enableFoodCourts s) (foodCourtStallThreshold s)
    (foodCourtRadius s) (foodCourtIncludeSeatingBins s) (foodCourtMaxTiles s)
    (foodCourtTilesPerCleaner s) (mechMaxExits s) (mechMstCap s) (mechDiameterCap s) p.

Definition setHandymanPreset (name : option string) (s : Settings) (ui : UiSettings)
  : Settings * UiSettings :=
  (set_tilesPerHandyman
     (if name_is name "Tight Patrols" then 140
      else if name_is name "Balanced Patrols" then 180 else 220) s,
   mkUi name (mechPreset ui) (foodCourtStaffInsufficient ui) (mechAvoidPlazas ui)
        (mechSmallRedundancy ui) (spawnNewInsideZone ui) (moveExistingToZone ui)
        (lockAssignments ui)).

Definition setMechPreset (name : option string) (s : Settings) (ui : UiSettings)
  : Settings * UiSettings :=
  ((if name_is name "Compact Routes" then set_mech 3 120 100 s
    else if name_is name "Standard Routes" then set_mech 4 180 120 s
    else set_mech 5 200 140 s),
   mkUi (zonePreset ui) name (foodCourtStaffInsufficient ui) (mechAvoidPlazas ui)
        (mechSmallRedundancy ui) (spawnNewInsideZone ui) (moveExistingToZone ui)
        (lockAssignments ui)).

Inductive Spinner := SpTiles | SpFct | SpFcr | SpFctc | SpFcms | SpMx | SpMst | SpDia.

Inductive Checkbox :=
| ChkHandy | ChkMech | ChkRescue | ChkFac | ChkFC | ChkFcb
| ChkPlz | ChkRed | ChkSpawn | ChkMove | ChkLock.

(** The bounds each spinner clamps its setting to. *)
Definition spin_lo (sp : Spinner) : Z :=
  match sp with
  | SpTiles => 80 | SpFct => 1 | SpFcr => 3 | SpFctc => 60 | SpFcms => 60
  | SpMx => 1 | SpMst => 40 | SpDia => 40
  end.

Definition spin_hi (sp : Spinner) : Z :=
  match sp with
  | SpTiles => 400 | SpFct => 10 | SpFcr => 20 | SpFctc => 240 | SpFcms => 500
  | SpMx => 10 | SpMst => 400 | SpDia => 400
  end.

(** The setting behind a spinner. *)
Definition spin_get (sp : Spinner) (s : Settings) : Z :=
  match sp with
  | SpTiles => Z.of_nat (tilesPerHandyman s)
  | SpFct => Z.of_nat (foodCourtStallThreshold s)
  | SpFcr => foodCourtRadius s
  | SpFctc => Z.of_nat (foodCourtTilesPerCleaner s)
  | SpFcms => Z.of_nat (foodCourtMaxTiles s)
  | SpMx => Z.of_nat (mechMaxExits s)
  | SpMst => mechMstCap s
  | SpDia => mechDiameterCap s
  end.

(** [onChangeNum] of a spinner: the setting is the clamped value. *)
Definition spin_change (sp : Spinner) (v : Z) (s : Settings) : Settings :=
  let c := clamp v (spin_lo sp) (spin_hi sp) in
  match sp with
  | SpTiles => set_tilesPerHandyman (Z.to_nat c) s
  | SpFct => set_foodCourt (Z.to_nat c) (foodCourtRadius s) (foodCourtMaxTiles s)
                           (foodCourtTilesPerCleaner s) s
  | SpFcr => set_foodCourt (foodCourtStallThreshold s) c (foodCourtMaxTiles s)
                           (foodCourtTilesPerCleaner s) s
  | SpFctc => set_foodCourt (foodCourtStallThreshold s) (foodCourtRadius s)
                            (foodCourtMaxTiles s) (Z.to_nat c) s
  | SpFcms => set_foodCourt (foodCourtStallThreshold s) (foodCourtRadius s)
                            (Z.to_nat c) (foodCourtTilesPerCleaner s) s
  | SpMx => set_mech (Z.to_nat c) (mechMstCap s) (mechDiameterCap s) s
  | SpMst => set_mech (mechMaxExits s) c (mechDiameterCap s) s
  | SpDia => set_mech (mechMaxExits s) (mechMstCap s) c s
  end.

(** The setting behind a checkbox, and its [onChange]. *)
Definition chk_get (c : Checkbox) (s : Settings) (ui : UiSettings) : bool :=
  match c with
  | ChkHandy => enableHandymen s
  | ChkMech => enableMechanics s
  | ChkRescue => allowDeadEndRescue s
  | ChkFac => includeFacilitiesCuldesacs s
  | ChkFC => enableFoodCourts s
  | ChkFcb => foodCourtIncludeSeatingBins s
  | ChkPlz => mechAvoidPlazas ui
  | ChkRed => mechSmallRedundancy ui
  | ChkSpawn => spawnNewInsideZone ui
  | ChkMove => moveExistingToZone ui
  | ChkLock => lockAssignments ui
  end.

Definition chk_change (c : Checkbox) (v : bool) (s : Settings) (ui : UiSettings)
  : Settings * UiSettings :=
  let flags (h m r f fc fcb : bool) :=
    mkSettings h m (tilesPerHandyman s) r f fc (foodCourtStallThreshold s)
      (foodCourtRadius s) fcb (foodCourtMaxTiles s) (foodCourtTilesPerCleaner s)
      (mechMaxExits s) (mechMstCap s) (mechDiameterCap s) (staffInsufficient s) in
  let uiflags (p r sp mv l : bool) :=
    mkUi (zonePreset ui) (mechPreset ui) (foodCourtStaffInsufficient ui) p r sp mv l in
  let h := enableHandymen s in let m := enableMechanics s in
  let r := allowDeadEndRescue s in let f := includeFacilitiesCuldesacs s in
  let fc := enableFoodCourts s in let fcb := foodCourtIncludeSeatingBins s in
  let p := mechAvoidPlazas ui in let rd := mechSmallRedundancy ui in
  let sp := spawnNewInsideZone ui in let mv := moveExistingToZone ui in
  let l := lockAssignments ui in
  match c with
  | ChkHandy => (flags v m r f fc fcb, ui)
  | ChkMech => (flags h v r f fc fcb, ui)
  | ChkRescue => (flags h m v f fc fcb, ui)
  | ChkFac => (flags h m r v fc fcb, ui)
  | ChkFC => (flags h m r f v fcb, ui)
  | ChkFcb => (flags h m r f fc v, ui)
  | ChkPlz => (s, uiflags v rd sp mv l)
  | ChkRed => (s, uiflags p v sp mv l)
  | ChkSpawn => (s, uiflags p rd v mv l)
  | ChkMove => (s, uiflags p rd sp v l)
  | ChkLock => (s, uiflags p rd sp mv v)
  end.

(** The window: the settings, the integer each spinner displays (its
    text is always the decimal rendering of an integer) and the state of
    each checkbox widget. *)
Record Window := mkWindow {
  w_set : Settings;
  w_ui : UiSettings;
  w_text : Spinner → Z;
  w_checked : Checkbox → bool
}.

Definition spinner_eq (a b : Spinner) : bool :=
  match a, b with
  | SpTiles, SpTiles | SpFct, SpFct | SpFcr, SpFcr | SpFctc, SpFctc
  | SpFcms, SpFcms | SpMx, SpMx | SpMst, SpMst | SpDia, SpDia => true
  | _, _ => false
  end.

Definition checkbox_eq (a b : Checkbox) : bool :=
  match a, b with
  | ChkHandy, ChkHandy | ChkMech, ChkMech | ChkRescue, ChkRescue | ChkFac, ChkFac
  | ChkFC, ChkFC | ChkFcb, ChkFcb | ChkPlz, ChkPlz | ChkRed, ChkRed
  | ChkSpawn, ChkSpawn | ChkMove, ChkMove | ChkLock, ChkLock => true
  | _, _ => false
  end.

(** [openWindow]: every widget shows the current setting. *)
Definition openWindow (s : Settings) (ui : UiSettings) : Window :=
  mkWindow s ui (λ sp, spin_get sp s) (λ c, chk_get c s ui).

(** [refreshWindow]: the four preset spinners show the settings again. *)
Definition refreshWindow (w : Window) : Window :=
  mkWindow (w_set w) (w_ui w)
    (λ sp, match sp with
           | SpTiles | SpMx | SpMst | SpDia => spin_get sp (w_set w)
           | _ => w_text w sp
           end)
    (w_checked w).

Inductive Event :=
| Increment (sp : Spinner)
| Decrement (sp : Spinner)
| Toggle (c : Checkbox)
| SelectZone (i : nat)
| SelectMech (i : nat)
| SelectCourtStaff (i : nat)
| SelectStaff (i : nat).

(** The spinner handlers: the text moves by one, the setting is clamped. *)
Definition spin_step (sp : Spinner) (delta : Z) (w : Window) : Window :=
  let v := (w_text w sp + delta)%Z in
  mkWindow (spin_change sp v (w_set w)) (w_ui w)
           (λ sp', if spinner_eq sp' sp then v else w_text w sp')
           (w_checked w).

(** One event of the window.  [None] stands for a staff policy that is
    [undefined], which an index outside the three items would store. *)
Definition ui_step (w : Window) (e : Event) : option Window :=
  match e with
  | Increment sp => Some (spin_step sp 1 w)
  | Decrement sp => Some (spin_step sp (-1) w)
  | Toggle c =>
    let v := negb (w_checked w c) in
    let '(s, ui) := chk_change c v (w_set w) (w_ui w) in
    Some (mkWindow s ui (w_text w) (λ c', if checkbox_eq c' c then v else w_checked w c'))
  | SelectZone i =>
    let '(s, ui) := setHandymanPreset (["Tight Patrols"; "Balanced Patrols"; "Wide Patrols"] !! i)
                                      (w_set w) (w_ui w) in
    Some (refreshWindow (mkWindow s ui (w_text w) (w_checked w)))
  | SelectMech i =>
    let '(s, ui) := setMechPreset (["Compact Routes"; "Standard Routes"; "Extended Routes"] !! i)
                                  (w_set w) (w_ui w) in
    Some (refreshWindow (mkWindow s ui (w_text w) (w_checked w)))
  | SelectCourtStaff i =>
    Some (mkWindow (w_set w)
            (mkUi (zonePreset (w_ui w)) (mechPreset (w_ui w))
                  (["Auto-hire"; "Assign only existing"; "Fold into general"] !! i)
                  (mechAvoidPlazas (w_ui w)) (mechSmallRedundancy (w_ui w))
                  (spawnNewInsideZone (w_ui w)) (moveExistingToZone (w_ui w))
                  (lockAssignments (w_ui w)))
            (w_text w) (w_checked w))
  | SelectStaff i =>
    p ← [AutoHire; AssignOnlyExisting; StretchZones] !! i;
    Some (mkWindow (set_staffInsufficient p (w_set w)) (w_ui w) (w_text w) (w_checked w))
  end.

Definition ui_run (w : Window) (es : list Event) : option Window :=
  foldl (λ acc e, w ← acc; ui_step w e) (Some w) es.

(** The ranges the spinners keep the settings in. *)
Definition in_ranges (s : Settings) : Prop :=
  ∀ sp, (spin_lo sp ≤ spin_get sp s ≤ spin_hi sp)%Z.

(** Every widget agrees with its setting: a checkbox shows it, a spinner
    shows a value that clamps to it. *)
Definition window_ok (w : Window) : Prop :=
  in_ranges (w_set w)
  ∧ (∀ sp, spin_get sp (w_set w) = clamp (w_text w sp) (spin_lo sp) (spin_hi sp))
  ∧ (∀ c, w_checked w c = chk_get c (w_set w) (w_ui w)).

Definition pair_plan : Plan :=
  default reset_plan (onPreview default_settings (mkEnv 0 0) pair_map).

(** A session at the window: the radius spinner is clicked down six
    times, and presets, a checkbox and the staff policy are changed. *)
Definition clicks : list Event :=
  [Decrement SpFcr; Decrement SpFcr; Decrement SpFcr; Decrement SpFcr;
   Decrement SpFcr; Decrement SpFcr; Increment SpMx; SelectZone 7;
   Toggle ChkRescue; SelectMech 0; SelectStaff 1].

Definition clicked : Window :=
  default (openWindow default_settings default_ui)
          (ui_run (openWindow default_settings default_ui) clicks).

(** * Theorems *)

(** * Sets as lists *)

Section JSSetFacts.
Context {A : Type} `{EqDecision A}.
Implicit Types (s : list A) (x y : A).

Lemma set_has_true s x : set_has s x = true ↔ x ∈ s.
Proof. unfold set_has. apply bool_decide_eq_true. Qed.

Lemma set_has_false s x : set_has s x = false ↔ x ∉ s.
Proof. unfold set_has. apply bool_decide_eq_false. Qed.

Lemma elem_of_set_add s x y : y ∈ set_add s x ↔ y ∈ s ∨ y = x.
Proof.
  unfold set_add. destruct (decide (x ∈ s)) as [Hin|Hin].
  - split; [auto|]. intros [?| ->]; done.
  - rewrite elem_of_app, list_elem_of_singleton. done.
Qed.

Lemma set_add_old s x y : y ∈ s → y ∈ set_add s x.
Proof. intros. apply elem_of_set_add. auto. Qed.

Lemma set_add_new s x : x ∈ set_add s x.
Proof. apply elem_of_set_add. auto. Qed.

Lemma set_add_fresh s x : x ∉ s → set_add s x = s ++ [x].
Proof. intros. unfold set_add. by rewrite decide_False. Qed.

Lemma set_add_member s x : x ∈ s → set_add s x = s.
Proof. intros. unfold set_add. by rewrite decide_True. Qed.

Lemma NoDup_set_add s x : NoDup s → NoDup (set_add s x).
Proof.
  intros Hnd. unfold set_add. destruct (decide (x ∈ s)); [done|].
  apply NoDup_app. split; [done|]. split; [|apply NoDup_singleton].
  intros y Hy Hy'. apply list_elem_of_singleton in Hy'. by subst.
Qed.

Lemma length_set_add_le s x : length s ≤ length (set_add s x).
Proof.
  unfold set_add. destruct (decide (x ∈ s)); [done|]. rewrite length_app. lia.
Qed.

Lemma elem_of_set_delete s x y : y ∈ set_delete s x ↔ y ∈ s ∧ y ≠ x.
Proof. unfold set_delete. rewrite list_elem_of_filter. tauto. Qed.

Lemma NoDup_set_delete s x : NoDup s → NoDup (set_delete s x).
Proof. apply NoDup_filter. Qed.

Lemma set_delete_absent s x : x ∉ s → set_delete s x = s.
Proof.
  unfold set_delete. induction s as [|a s IH]; intros Hn; [done|].
  rewrite filter_cons, decide_True.
  - rewrite IH; [done|]. intros Hc. apply Hn. by right.
  - intros ->. apply Hn. left.
Qed.

Lemma set_delete_perm s x : NoDup s → x ∈ s → s ≡ₚ x :: set_delete s x.
Proof.
  unfold set_delete. induction 1 as [|a s Ha Hnd IH]; intros Hin.
  - by apply elem_of_nil in Hin.
  - rewrite filter_cons. destruct (decide (a = x)) as [->|Hne].
    + rewrite decide_False by (by intros ?).
      fold (set_delete s x). by rewrite set_delete_absent.
    + rewrite decide_True by done.
      apply elem_of_cons in Hin as [->|Hin]; [done|].
      rewrite (IH Hin) at 1. apply perm_swap.
Qed.

Lemma elem_of_foldl_set_add s (l : list A) y : y ∈ foldl set_add s l ↔ y ∈ s ∨ y ∈ l.
Proof.
  revert s. induction l as [|x l IH]; intros s; simpl.
  - rewrite elem_of_nil. tauto.
  - rewrite IH, elem_of_set_add, elem_of_cons. tauto.
Qed.

Lemma NoDup_foldl_set_add s (l : list A) : NoDup s → NoDup (foldl set_add s l).
Proof.
  revert s. induction l as [|x l IH]; intros s Hnd; simpl; [done|].
  apply IH. by apply NoDup_set_add.
Qed.

Lemma set_of_list_NoDup (l : list A) : NoDup l → set_of_list l = l.
Proof.
  unfold set_of_list. intros Hnd.
  enough (∀ s, (∀ x, x ∈ s → x ∉ l) → foldl set_add s l = s ++ l) as H
      by (apply (H []); intros x Hx; by apply elem_of_nil in Hx).
  induction Hnd as [|x l Hx Hnd IH]; intros s Hs; simpl.
  - by rewrite app_nil_r.
  - rewrite set_add_fresh.
    + rewrite IH, <- app_assoc; [done|].
      intros y Hy. apply elem_of_app in Hy as [Hy|Hy].
      * apply Hs in Hy. set_solver.
      * apply list_elem_of_singleton in Hy. by subst.
    + intros Hin. apply Hs in Hin. set_solver.
Qed.
End JSSetFacts.

(** * Graph builder *)

Lemma elem_of_grid w h x y : (x, y) ∈ grid w h ↔ x < w ∧ y < h.
Proof.
  unfold grid. rewrite list_elem_of_bind. split.
  - intros (x' & Hy & Hx). apply elem_of_seq in Hx.
    apply list_elem_of_bind in Hy as (y' & Hxy & Hy).
    apply elem_of_seq in Hy. apply list_elem_of_singleton in Hxy.
    injection Hxy as -> ->. lia.
  - intros [Hx Hy]. exists x. split; [|apply elem_of_seq; lia].
    apply list_elem_of_bind. exists y. split; [set_solver|apply elem_of_seq; lia].
Qed.

Lemma scan_elements_flags k els hp iq at0 :
  ∃ at1,
    foldl (scan_element k) (hp, iq, at0) els =
    (hp || existsb isFootpath els,
     iq || existsb (λ el, isFootpath el && isQueueFlagged el) els, at1).
Proof.
  revert hp iq at0. induction els as [|el els IH]; intros hp iq at0; simpl.
  - exists at0. by rewrite !orb_false_r.
  - destruct (isFootpath el) eqn:Hf; simpl.
    + destruct (isQueueFlagged el) eqn:Hq; simpl;
        edestruct IH as [at1 ->]; exists at1; by rewrite ?orb_true_r, ?orb_true_l.
    + edestruct IH as [at1 ->]; exists at1; done.
Qed.


Lemma tile_ok_spec m x y :
  walkable_tile m x y ↔ ∃ els, getTile m x y = Some els ∧ tile_ok els = true.
Proof.
  unfold walkable_tile, tile_ok. split.
  - intros (els & Hget & (el & Hin & Hf & Hq) & Hall). exists els. split; [done|].
    apply andb_true_iff. split.
    + apply existsb_exists. exists el. by rewrite <- list_elem_of_In.
    + apply negb_true_iff, not_true_is_false. intros Hex.
      apply existsb_exists in Hex as (el' & Hin' & Hb).
      apply andb_true_iff in Hb as [Hf' Hq'].
      rewrite <- list_elem_of_In in Hin'. rewrite (Hall el' Hin' Hf') in Hq'. done.
  - intros (els & Hget & Hok). exists els. split; [done|].
    apply andb_true_iff in Hok as [Hex Hno].
    apply negb_true_iff in Hno.
    assert (Hall : ∀ el, el ∈ els → isFootpath el = true → isQueueFlagged el = false).
    { intros el Hin Hf. destruct (isQueueFlagged el) eqn:Hq; [|done].
      assert (existsb (λ el, isFootpath el && isQueueFlagged el) els = true) as Hc; [|congruence].
      apply existsb_exists. exists el. rewrite <- list_elem_of_In. by rewrite Hf, Hq. }
    split; [|done].
    apply existsb_exists in Hex as (el & Hin & Hf). rewrite <- list_elem_of_In in Hin.
    exists el. eauto.
Qed.

Lemma scan_tile_nodes m st x y :
  ∃ at1,
    scan_tile m st (x, y) =
    match getTile m x y with
    | Some els =>
      if tile_ok els
      then mkScan (sc_nodes st ++
                     [mkNode (length (sc_nodes st)) (Z.of_nat x) (Z.of_nat y) 0
                             (set_has at1 (key (Z.of_nat x) (Z.of_nat y))) (-1) true])
                  (<[key (Z.of_nat x) (Z.of_nat y) := length (sc_nodes st)]> (sc_ids st)) at1
      else mkScan (sc_nodes st) (sc_ids st) at1
    | None => st
    end.
Proof.
  unfold scan_tile. destruct (getTile m x y) as [els|]; [|by exists []].
  destruct (scan_elements_flags (key (Z.of_nat x) (Z.of_nat y)) els false false (sc_attr st))
    as [at1 ->].
  exists at1. simpl. unfold tile_ok. done.
Qed.



Lemma scan_inv_nil m : scan_inv m [] (mkScan [] ∅ []).
Proof.
  split; simpl.
  - intros x y id. rewrite lookup_empty. split; [done|]. by intros (n & ? & _).
  - intros id n. rewrite lookup_nil. done.
  - intros x y Hin. by apply elem_of_nil in Hin.
  - intros k id. by rewrite lookup_empty.
Qed.

Lemma scan_inv_step m l st x y :
  (x, y) ∉ l → scan_inv m l st → scan_inv m (l ++ [(x, y)]) (scan_tile m st (x, y)).
Proof.
  intros Hfresh [Hids Hnodes Hcomp Hdom].
  destruct (scan_tile_nodes m st x y) as [at1 ->].
  assert (Hnone : sc_ids st !! (Z.of_nat x, Z.of_nat y) = None).
  { destruct (sc_ids st !! (Z.of_nat x, Z.of_nat y)) as [id|] eqn:E; [|done].
    apply Hdom in E as (x' & y' & Heq & Hin). injection Heq as Hx Hy.
    apply Nat2Z.inj in Hx, Hy. by subst. }
  destruct (getTile m x y) as [els|] eqn:Hget; [destruct (tile_ok els) eqn:Hok|].
  - (* a node is pushed *)
    split; simpl.
    + intros x' y' id. unfold key.
      destruct (decide ((Z.of_nat x, Z.of_nat y) = (Z.of_nat x', Z.of_nat y'))) as [Heq|Hne].
      * rewrite <- Heq, lookup_insert_eq. split.
        -- intros [= <-]. eexists. rewrite lookup_app_r, Nat.sub_diag by lia.
           split; [done|]. simpl. by injection Heq.
        -- intros (n & Hn & Hx & Hy).
           destruct (decide (id < length (sc_nodes st))) as [Hlt|Hge].
           ++ rewrite lookup_app_l in Hn by done.
              assert (sc_ids st !! (Z.of_nat x', Z.of_nat y') = Some id) as Hc
                  by (apply Hids; eauto).
              rewrite <- Heq in Hc. congruence.
           ++ apply lookup_lt_Some in Hn as Hlen. rewrite length_app in Hlen. simpl in Hlen.
              f_equal. lia.
      * rewrite lookup_insert_ne by done. rewrite Hids. split.
        -- intros (n & Hn & Hxy). exists n. split; [|done]. by apply lookup_app_l_Some.
        -- intros (n & Hn & Hx & Hy). exists n. split; [|done].
           apply lookup_app_Some in Hn as [Hn|[Hlen Hn]]; [done|].
           apply list_lookup_singleton_Some in Hn as [_ <-]. simpl in *.
           exfalso. apply Hne. by rewrite Hx, Hy.
    + intros id n Hn. apply lookup_app_Some in Hn as [Hn|[Hlen Hn]].
      * destruct (Hnodes id n Hn) as [Hid (x' & y' & Hin & Hok' & Hxy)].
        split; [done|]. exists x', y'. split; [set_solver|done].
      * apply list_lookup_singleton_Some in Hn as [Hz <-]. simpl.
        split; [lia|]. exists x, y. split; [set_solver|]. split; [by exists els|done].
    + intros x' y' Hin Hok'. apply elem_of_app in Hin as [Hin|Hin].
      * destruct (Hcomp x' y' Hin Hok') as [id Hid]. exists id.
        rewrite lookup_insert_ne; [done|]. unfold key. intros [= Hx Hy].
        apply Nat2Z.inj in Hx, Hy. by subst.
      * apply list_elem_of_singleton in Hin as [= -> ->].
        eexists. apply lookup_insert_eq.
    + intros k id Hk. destruct (decide (key (Z.of_nat x) (Z.of_nat y) = k)) as [<-|Hne].
      * exists x, y. split; [done|set_solver].
      * rewrite lookup_insert_ne in Hk by done.
        destruct (Hdom k id Hk) as (x' & y' & -> & Hin). exists x', y'. split; [done|set_solver].
  - (* no node for this tile *)
    split; simpl.
    + done.
    + intros id n Hn. destruct (Hnodes id n Hn) as [Hid (x' & y' & Hin & Hok' & Hxy)].
      split; [done|]. exists x', y'. split; [set_solver|done].
    + intros x' y' Hin Hok'. apply elem_of_app in Hin as [Hin|Hin]; [by apply Hcomp|].
      apply list_elem_of_singleton in Hin as [= -> ->].
      destruct Hok' as (els' & Hget' & Hok'). congruence.
    + intros k id Hk. destruct (Hdom k id Hk) as (x' & y' & -> & Hin).
      exists x', y'. split; [done|set_solver].
  - split.
    + done.
    + intros id n Hn. destruct (Hnodes id n Hn) as [Hid (x' & y' & Hin & Hok' & Hxy)].
      split; [done|]. exists x', y'. split; [set_solver|done].
    + intros x' y' Hin Hok'. apply elem_of_app in Hin as [Hin|Hin]; [by apply Hcomp|].
      apply list_elem_of_singleton in Hin as [= -> ->].
      destruct Hok' as (els' & Hget' & Hok'). congruence.
    + intros k id Hk. destruct (Hdom k id Hk) as (x' & y' & -> & Hin).
      exists x', y'. split; [done|set_solver].
Qed.

Lemma NoDup_grid w h : NoDup (grid w h).
Proof.
  unfold grid. apply NoDup_bind.
  - intros x1 x2 p _ _ H1 H2.
    apply list_elem_of_bind in H1 as (y1 & H1 & _).
    apply list_elem_of_bind in H2 as (y2 & H2 & _).
    apply list_elem_of_singleton in H1, H2. congruence.
  - intros x _. apply NoDup_bind.
    + intros y1 y2 p _ _ H1 H2. apply list_elem_of_singleton in H1, H2. congruence.
    + intros y _. apply NoDup_singleton.
    + apply NoDup_seq.
  - apply NoDup_seq.
Qed.

Lemma scan_inv_foldl m l st0 l0 :
  NoDup (l0 ++ l) → scan_inv m l0 st0 → scan_inv m (l0 ++ l) (foldl (scan_tile m) st0 l).
Proof.
  revert st0 l0. induction l as [|[x y] l IH]; intros st0 l0 Hnd Hinv; simpl.
  - by rewrite app_nil_r.
  - replace (l0 ++ (x, y) :: l) with ((l0 ++ [(x, y)]) ++ l) in * by by rewrite <- app_assoc.
    apply IH; [done|]. apply scan_inv_step; [|done].
    apply NoDup_app in Hnd as [Hnd _]. apply NoDup_app in Hnd as (_ & Hnd & _).
    intros Hin. apply (Hnd _ Hin). set_solver.
Qed.

Lemma scan_tiles_inv m : scan_inv m (grid (map_w m) (map_h m)) (scan_tiles m).
Proof.
  unfold scan_tiles. apply (scan_inv_foldl m _ _ []); [apply NoDup_grid|apply scan_inv_nil].
Qed.


Lemma mark_soft_place sb ids k ns el :
  node_place <$> mark_soft sb ids k ns el = node_place <$> ns.
Proof.
  unfold mark_soft. destruct (isScenery el && sb && softAttractorTest el); [|done].
  destruct (ids !! k) as [id|]; [|done].
  rewrite list_fmap_insert.
  destruct (decide (id < length ns)) as [Hlt|Hge].
  - apply list_insert_id. rewrite list_lookup_fmap.
    destruct (lookup_lt_is_Some_2 ns id Hlt) as [n Hn].
    rewrite (list_lookup_total_correct _ _ _ Hn), Hn. done.
  - apply list_insert_ge. rewrite length_fmap. lia.
Qed.

Lemma facilities_place m sb ids l acc ns' :
  foldl (facilities_tile m sb ids) acc l = Some ns' →
  ∃ ns, acc = Some ns ∧ node_place <$> ns' = node_place <$> ns.
Proof.
  revert acc. induction l as [|xy l IH]; intros acc; simpl.
  - intros ->. eauto.
  - intros H. apply IH in H as (ns1 & Hstep & Heq).
    unfold facilities_tile in Hstep.
    destruct acc as [ns|]; [|done]. simpl in Hstep.
    destruct (getTile m xy.1 xy.2) as [els|]; [|done]. simpl in Hstep.
    injection Hstep as <-. exists ns. split; [done|]. rewrite Heq.
    clear. revert ns. induction els as [|el els IH]; intros ns; simpl; [done|].
    rewrite IH. apply mark_soft_place.
Qed.

Lemma zip_with_map_self {A B C} (f : A → B → C) (h : A → B) (l : list A) :
  zip_with f l (map h l) = map (λ x, f x (h x)) l.
Proof. induction l; simpl; congruence. Qed.

Lemma buildPathGraph_place fac sb m bg :
  buildPathGraph fac sb m = Some bg →
  node_place <$> nodes (bg_graph bg) = node_place <$> sc_nodes (scan_tiles m)
  ∧ idByXY (bg_graph bg) = sc_ids (scan_tiles m)
  ∧ edges (bg_graph bg) = map (node_edges (sc_ids (scan_tiles m))) (sc_nodes (scan_tiles m)).
Proof.
  unfold buildPathGraph. intros H.
  apply bind_Some in H as (ns' & Hns & [= <-]). simpl. split; [|done].
  rewrite zip_with_map_self in Hns.
  assert (node_place <$> ns' =
          node_place <$> map (λ x, with_deg x (length (node_edges (sc_ids (scan_tiles m)) x)))
                             (sc_nodes (scan_tiles m))) as ->.
  { destruct fac.
    - apply facilities_place in Hns as (ns & [= <-] & ->). done.
    - by injection Hns as <-. }
  rewrite <- list_fmap_compose. by apply list_fmap_ext.
Qed.

Lemma has_node_place g x y :
  has_node g x y ↔ ∃ id, (id, Z.of_nat x, Z.of_nat y) ∈ node_place <$> nodes g.
Proof.
  unfold has_node. split.
  - intros (n & Hin & Hx & Hy). exists (n_id n). apply list_elem_of_fmap.
    exists n. split; [|done]. unfold node_place. by rewrite Hx, Hy.
  - intros (id & Hin). apply list_elem_of_fmap in Hin as (n & [= Hid Hx Hy] & Hin).
    exists n. done.
Qed.

(** C7: for every tile of the scanned grid, [buildPathGraph] creates a node
    (and an id for its key) exactly when the tile has a non-queue footpath
    element and no queue-flagged footpath element; a tile that carries a
    queue-flagged footpath element gets no node, whatever else it
    carries. *)
Theorem buildPathGraph_node_iff fac sb m bg x y :
  buildPathGraph fac sb m = Some bg →
  x < map_w m → y < map_h m →
  (has_node (bg_graph bg) x y ↔ walkable_tile m x y)
  ∧ (walkable_tile m x y ↔
     ∃ id, idByXY (bg_graph bg) !! key (Z.of_nat x) (Z.of_nat y) = Some id)
  ∧ (∀ els el, getTile m x y = Some els → el ∈ els →
               isFootpath el = true → isQueueFlagged el = true →
               ¬ has_node (bg_graph bg) x y).
Proof.
  intros Hb Hx Hy.
  enough ((has_node (bg_graph bg) x y ↔ walkable_tile m x y)
          ∧ (walkable_tile m x y ↔
             ∃ id, idByXY (bg_graph bg) !! key (Z.of_nat x) (Z.of_nat y) = Some id))
    as [H1 H2].
  { split; [done|]. split; [done|]. intros els el Hget Hel Hf Hq Hn.
    apply H1 in Hn as (els' & Hget' & _ & Hall). rewrite Hget in Hget'.
    injection Hget' as <-. rewrite (Hall el Hel Hf) in Hq. done. }
  destruct (buildPathGraph_place _ _ _ _ Hb) as (Hpl & Hids & _).
  pose proof (scan_tiles_inv m) as [Hi Hn Hc Hd].
  assert (Hgrid : (x, y) ∈ grid (map_w m) (map_h m)) by by apply elem_of_grid.
  rewrite Hids, tile_ok_spec. fold (scanned_ok m x y).
  assert (Hmid : scanned_ok m x y ↔
                 ∃ id, sc_ids (scan_tiles m) !! key (Z.of_nat x) (Z.of_nat y) = Some id).
  { split; [by apply Hc|]. intros [id Hid]. apply Hi in Hid as (n & Hn' & Hnx & Hny).
    destruct (Hn _ _ Hn') as (_ & x' & y' & _ & Hok & Hx' & Hy').
    assert (x' = x) as -> by lia. assert (y' = y) as -> by lia. done. }
  split; [|done]. rewrite Hmid, has_node_place, Hpl. split.
  - intros [id Hin]. apply list_elem_of_fmap in Hin as (n & [= Hid Hnx Hny] & Hin).
    apply list_elem_of_lookup in Hin as [i Hin]. exists i. apply Hi. eauto.
  - intros [id Hid]. apply Hi in Hid as (n & Hn' & Hnx & Hny). exists (n_id n).
    apply list_elem_of_fmap. exists n. split; [unfold node_place; congruence|].
    apply list_elem_of_lookup. eauto.
Qed.


Lemma buildPathGraph_node_iff_witness :
  ∃ bg, buildPathGraph false false mixed_tile_map = Some bg
        ∧ (has_node (bg_graph bg) 0 0 ↔ walkable_tile mixed_tile_map 0 0)
        ∧ (walkable_tile mixed_tile_map 0 0 ↔
           ∃ id, idByXY (bg_graph bg) !! key (Z.of_nat 0) (Z.of_nat 0) = Some id)
        ∧ (∀ els el, getTile mixed_tile_map 0 0 = Some els → el ∈ els →
                     isFootpath el = true → isQueueFlagged el = true →
                     ¬ has_node (bg_graph bg) 0 0).
Proof.
  eexists. split; [vm_compute; reflexivity|].
  apply (buildPathGraph_node_iff false false mixed_tile_map _ 0 0);
    [reflexivity | simpl; lia | simpl; lia].
Defined.

(** * Pruning, Scenario A *)

Lemma scenarioA_graph :
  ∃ bg, buildPathGraph false false corridor_map = Some bg
        ∧ map (node_xy (bg_graph bg)) (bg_valid bg)
          = map (λ x, (Z.of_nat x, 0%Z)) (seq 0 10)
        ∧ bg_attractors bg = [9].
Proof.
  eexists. split; [vm_compute; reflexivity|]. split; vm_compute; reflexivity.
Qed.

(** C1, as stated, fails: on the Scenario A corridor the pruning pass does
    not leave the three tiles (7,0), (8,0), (9,0). *)
Lemma scenarioA_not_three_tiles :
  ¬ ∃ l, pruned_coords corridor_map = Some l ∧ scenarioA_expected l.
Proof.
  intros (l & Hl & _ & Hlen).
  assert (pruned_coords corridor_map = Some [(8, 0); (9, 0)]%Z) as E by (vm_compute; reflexivity).
  rewrite E in Hl. injection Hl as <-. simpl in Hlen. lia.
Qed.

(** C1, amended: on the Scenario A corridor (ten plain footpath tiles
    (0,0)..(9,0), one ride exit on (9,0), hence ten valid nodes and the
    single attractor (9,0)) the pruning pass leaves exactly the two tiles
    (8,0) and (9,0): (7,0) is peeled as well, because a leaf is kept only
    when it is an attractor or a direct neighbour of one. *)
Theorem scenarioA_pruned :
  pruned_coords corridor_map = Some [(8, 0); (9, 0)]%Z
  ∧ (∃ bg, buildPathGraph false false corridor_map = Some bg
           ∧ map (node_xy (bg_graph bg)) (bg_valid bg)
             = map (λ x, (Z.of_nat x, 0%Z)) (seq 0 10)
           ∧ bg_attractors bg = [9]
           ∧ adjacentToAttractor (edges (bg_graph bg)) (bg_attractors bg) 7 = false
           ∧ adjacentToAttractor (edges (bg_graph bg)) (bg_attractors bg) 8 = true).
Proof.
  split; [vm_compute; reflexivity|].
  eexists. split; [vm_compute; reflexivity|].
  split; [vm_compute; reflexivity|]. split; [vm_compute; reflexivity|].
  split; vm_compute; reflexivity.
Qed.

(** On the two-tile map the plain tile (0,0) is a node and the mixed tile
    (1,0), footpath plus queue, is not. *)
Lemma mixed_tile_excluded :
  ∃ bg, buildPathGraph false false mixed_tile_map = Some bg
        ∧ map (node_xy (bg_graph bg)) (bg_valid bg) = [(0, 0)%Z]
        ∧ idByXY (bg_graph bg) !! key 1 0 = None.
Proof.
  eexists. split; [vm_compute; reflexivity|]. split; vm_compute; reflexivity.
Qed.

(** * The pruning pass *)

Section PruneFacts.
Variable E : list (list nat).
Variable attractors : list nat.

#[local] Abbreviation adj := (adjacentToAttractor E attractors).

Lemma adjacentToAttractor_spec id :
  adj id = true ↔ id ∈ attractors ∨ ∃ nb, nb ∈ E !!! id ∧ nb ∈ attractors.
Proof.
  unfold adjacentToAttractor. rewrite orb_true_iff, set_has_true, existsb_exists.
  split; (intros [H|(nb & H1 & H2)]; [by left|right; exists nb]).
  - rewrite list_elem_of_In. by rewrite set_has_true in H2.
  - rewrite <- list_elem_of_In. by rewrite set_has_true.
Qed.

Lemma deg_decr_lookup deg nb v :
  nb < length deg →
  deg_decr deg nb !!! v = if decide (v = nb) then (deg !!! v - 1)%Z else deg !!! v.
Proof.
  intros Hlt. unfold deg_decr. destruct (decide (v = nb)) as [->|Hne].
  - by rewrite list_lookup_total_insert_eq.
  - by rewrite list_lookup_total_insert_ne.
Qed.

Lemma deg_incr_lookup deg id v :
  id < length deg →
  deg_incr deg id !!! v = if decide (v = id) then (deg !!! v + 1)%Z else deg !!! v.
Proof.
  intros Hlt. unfold deg_incr. destruct (decide (v = id)) as [->|Hne].
  - by rewrite list_lookup_total_insert_eq.
  - by rewrite list_lookup_total_insert_ne.
Qed.

Lemma relax_foldl valid nbs : ∀ deg q deg' q',
  foldl (relax E attractors valid) (deg, q) nbs = (deg', q') →
  NoDup nbs →
  (∀ nb, nb ∈ nbs → nb ∈ valid → nb < length deg) →
  length deg' = length deg
  ∧ (∀ v, deg' !!! v = if decide (v ∈ nbs ∧ v ∈ valid) then (deg !!! v - 1)%Z else deg !!! v)
  ∧ (∀ v, v ∈ q → v ∈ q')
  ∧ (∀ v, v ∈ nbs → v ∈ valid → (deg !!! v - 1 ≤ 1)%Z → adj v = false → v ∈ q')
  ∧ length q' ≤ length q + length nbs.
Proof.
  induction nbs as [|nb nbs IH]; intros deg q deg' q' Hf Hnd Hrange; cbn [foldl] in Hf.
  - injection Hf as <- <-. split; [done|]. split.
    { intros v. rewrite decide_False; [done|]. intros [H _]. by apply elem_of_nil in H. }
    split; [done|]. split; [|simpl; lia]. intros v H. by apply elem_of_nil in H.
  - apply NoDup_cons in Hnd as [Hnb Hnd].
    destruct (relax E attractors valid (deg, q) nb) as [deg1 q1] eqn:Hr.
    assert (Hstep : length deg1 = length deg
              ∧ (∀ v, deg1 !!! v = if decide (v = nb ∧ v ∈ valid)
                                   then (deg !!! v - 1)%Z else deg !!! v)
              ∧ (∀ v, v ∈ q → v ∈ q1)
              ∧ (nb ∈ valid → (deg !!! nb - 1 ≤ 1)%Z → adj nb = false → nb ∈ q1)
              ∧ length q1 ≤ S (length q)).
    { unfold relax in Hr. destruct (set_has valid nb) eqn:Hv.
      - apply set_has_true in Hv.
        assert (nb < length deg) as Hlt by (apply Hrange; [left|done]).
        assert (Hd : deg1 = deg_decr deg nb).
        { destruct (_ && _) in Hr; by injection Hr. }
        split; [subst deg1; unfold deg_decr; by rewrite length_insert|].
        split.
        { intros v. subst deg1. rewrite deg_decr_lookup by done.
          destruct (decide (v = nb)) as [->|]; [by rewrite decide_True|].
          rewrite decide_False; [done|]. tauto. }
        rewrite Hd in Hr. rewrite deg_decr_lookup, decide_True in Hr by done.
        destruct ((deg !!! nb - 1 <=? 1)%Z) eqn:Hle; simpl in Hr.
        + destruct (adj nb) eqn:Ha; simpl in Hr; injection Hr as <-.
          * split; [done|]. split; [done|lia].
          * split; [by right|]. split; [left|simpl; lia].
        + injection Hr as <-. split; [done|]. split; [|lia].
          intros _ Hc. apply Z.leb_gt in Hle. lia.
      - apply set_has_false in Hv. injection Hr as <- <-.
        split; [done|]. split.
        { intros v. rewrite decide_False; [done|]. intros [-> ?]. done. }
        split; [done|]. split; [done|lia]. }
    destruct Hstep as (Hl1 & Hd1 & Hq1 & Hpush & Hlen1).
    apply IH in Hf as (Hl & Hd & Hq & Hp & Hlen); [|done|].
    2:{ intros v Hv Hvv. rewrite Hl1. apply Hrange; [by right|done]. }
    split; [congruence|]. split.
    { intros v. rewrite Hd, Hd1.
      destruct (decide (v = nb)) as [->|Hne].
      - rewrite (decide_False (P := nb ∈ nbs ∧ _)) by tauto.
        destruct (decide (nb ∈ valid)).
        + rewrite !decide_True; [done|split; [left|done]|done].
        + rewrite !decide_False; [done|tauto|tauto].
      - rewrite (decide_False (P := v = nb ∧ _)) by tauto.
        destruct (decide (v ∈ nbs ∧ v ∈ valid)) as [[? ?]|Hn].
        + rewrite decide_True; [done|]. split; [by right|done].
        + rewrite decide_False; [done|]. intros [Hc ?]. apply Hn.
          apply elem_of_cons in Hc as [?|?]; done. }
    split; [auto|]. split; [|simpl; lia].
    intros v Hv Hvv Hle Ha. apply elem_of_cons in Hv as [->|Hv].
    + apply Hq, Hpush; done.
    + apply Hp; [done|done| |done]. rewrite Hd1.
      rewrite decide_False; [done|]. intros [-> _]. done.
Qed.

(** ** Termination *)

Lemma sum_delete_le (f : nat → nat) valid id :
  id ∈ valid →
  sum_list_with f (set_delete valid id) + f id ≤ sum_list_with f valid.
Proof.
  unfold set_delete. induction valid as [|v valid IH]; intros Hin.
  - by apply elem_of_nil in Hin.
  - rewrite filter_cons. simpl. destruct (decide (v ≠ id)) as [Hne|Heq].
    + simpl. apply elem_of_cons in Hin as [->|Hin]; [done|]. specialize (IH Hin). lia.
    + assert (v = id) as -> by (destruct (decide (v = id)); [done|contradiction]).
      pose proof (length_filter (λ y, y ≠ id) valid).
      assert (sum_list_with f (filter (λ y, y ≠ id) valid) ≤ sum_list_with f valid).
      { clear. induction valid as [|a l IH]; [done|]. rewrite filter_cons.
        destruct (decide (a ≠ id)); simpl; lia. }
      lia.
Qed.

Lemma prune_loop_total fuel : ∀ valid deg queue,
  prune_fuel E valid queue ≤ fuel →
  is_Some (prune_loop E attractors fuel valid deg queue).
Proof.
  induction fuel as [|fuel IH]; intros valid deg queue Hfuel.
  - destruct queue as [|id queue]; [by eexists|]. unfold prune_fuel in Hfuel. simpl in Hfuel. lia.
  - destruct queue as [|id queue]; [by eexists|]. simpl.
    unfold prune_fuel in Hfuel. simpl in Hfuel.
    destruct (set_has valid id) eqn:Hv; simpl.
    2:{ apply IH. unfold prune_fuel. lia. }
    destruct (adj id); [apply IH; unfold prune_fuel; lia|].
    destruct (foldl _ _ _) as [deg' q'] eqn:Hf.
    apply IH. unfold prune_fuel.
    apply set_has_true in Hv.
    pose proof (sum_delete_le (λ id, S (length (E !!! id))) valid id Hv) as Hs.
    simpl in Hs.
    assert (length q' ≤ length queue + length (E !!! id)); [|lia].
    clear -Hf. revert deg queue deg' q' Hf.
    induction (E !!! id) as [|nb nbs IHn]; intros deg queue deg' q' Hf; cbn [foldl] in Hf.
    + injection Hf as _ <-. lia.
    + destruct (relax E attractors (set_delete valid id) (deg, queue) nb) as [d1 q1] eqn:Hr.
      apply IHn in Hf. simpl.
      assert (length q1 ≤ S (length queue)); [|lia].
      unfold relax in Hr. destruct (set_has _ nb); [|injection Hr as _ <-; lia].
      destruct (_ && _); injection Hr as _ <-; simpl; lia.
Qed.

Lemma pruneSceneryBranches_total n valid :
  is_Some (pruneSceneryBranches E attractors n valid).
Proof.
  unfold pruneSceneryBranches.
  destruct (prune_loop_total (prune_fuel E valid (init_queue E attractors (init_deg E n valid) valid))
              valid (init_deg E n valid) (init_queue E attractors (init_deg E n valid) valid))
    as [r ->]; [done|]. by eexists.
Qed.
End PruneFacts.

Section PruneInvariant.
Variable E : list (list nat).
Variable attractors : list nat.

#[local] Abbreviation adj := (adjacentToAttractor E attractors).

Lemma init_inner (valid0 : list nat) id (nbs : list nat) : ∀ deg,
  id < length deg →
  length (foldl (λ deg nb, if set_has valid0 nb then deg_incr deg id else deg) deg nbs)
  = length deg
  ∧ ∀ v, foldl (λ deg nb, if set_has valid0 nb then deg_incr deg id else deg) deg nbs !!! v
         = if decide (v = id)
           then (deg !!! v + Z.of_nat (length (filter (λ nb, nb ∈ valid0) nbs)))%Z
           else deg !!! v.
Proof.
  induction nbs as [|nb nbs IH]; intros deg Hlt; cbn [foldl].
  - split; [done|]. intros v. destruct (decide (v = id)); [|done]. simpl. lia.
  - rewrite filter_cons. destruct (set_has valid0 nb) eqn:Hv.
    + apply set_has_true in Hv. rewrite decide_True by done.
      destruct (IH (deg_incr deg id)) as [Hl Hd].
      { unfold deg_incr. by rewrite length_insert. }
      split; [rewrite Hl; unfold deg_incr; by rewrite length_insert|].
      intros v. rewrite Hd, deg_incr_lookup by done.
      destruct (decide (v = id)); [|done]. simpl. lia.
    + apply set_has_false in Hv. rewrite decide_False by done. by apply IH.
Qed.

Lemma init_outer (valid0 l : list nat) : ∀ deg,
  NoDup l → (∀ id, id ∈ l → id < length deg) →
  let deg' :=
    foldl (λ deg id,
             foldl (λ deg nb, if set_has valid0 nb then deg_incr deg id else deg)
                   deg (E !!! id)) deg l in
  length deg' = length deg
  ∧ ∀ v, deg' !!! v = if decide (v ∈ l)
                      then (deg !!! v + Z.of_nat (valid_degree E valid0 v))%Z
                      else deg !!! v.
Proof.
  induction l as [|id l IH]; intros deg Hnd Hr; cbn [foldl].
  - split; [done|]. intros v. rewrite decide_False; [done|]. apply not_elem_of_nil.
  - apply NoDup_cons in Hnd as [Hid Hnd].
    destruct (init_inner valid0 id (E !!! id) deg) as [Hl1 Hd1]; [apply Hr; left|].
    destruct (IH (foldl (λ deg nb, if set_has valid0 nb then deg_incr deg id else deg)
                        deg (E !!! id)) Hnd) as [Hl Hd].
    { intros v Hv. rewrite Hl1. apply Hr. by right. }
    cbn zeta in *. split; [congruence|]. intros v. rewrite Hd, Hd1.
    destruct (decide (v = id)) as [->|Hne].
    + rewrite (decide_False (P := id ∈ l)) by done.
      rewrite decide_True by left. done.
    + destruct (decide (v ∈ l)).
      * rewrite decide_True by by right. done.
      * rewrite decide_False; [done|]. intros Hc. apply elem_of_cons in Hc as [?|?]; done.
Qed.

Lemma init_queue_complete deg valid v :
  v ∈ valid → (deg !!! v ≤ 1)%Z → adj v = false → v ∈ init_queue E attractors deg valid.
Proof.
  unfold init_queue. intros Hin Hle Ha.
  enough (∀ l q, (v ∈ q ∨ v ∈ l) →
            v ∈ foldl (λ q id, if (deg !!! id <=? 1)%Z && negb (adj id) then id :: q else q) q l)
    as H by (apply H; auto).
  induction l as [|id l IH]; intros q [Hq|Hl]; cbn [foldl].
  - done.
  - by apply elem_of_nil in Hl.
  - apply IH. left. destruct (_ && _); [by right|done].
  - apply elem_of_cons in Hl as [<-|Hl]; [|apply IH; by right].
    apply IH. left. apply Z.leb_le in Hle. rewrite Hle, Ha. simpl. left.
Qed.

Lemma init_inv n valid :
  NoDup valid → (∀ id, id ∈ valid → id < n) →
  prune_inv E attractors valid (init_deg E n valid)
            (init_queue E attractors (init_deg E n valid) valid).
Proof.
  intros Hnd Hr.
  destruct (init_outer valid valid (replicate n 0%Z) Hnd) as [Hl Hd].
  { intros id Hid. rewrite length_replicate. by apply Hr. }
  cbn zeta in *. fold (init_deg E n valid) in Hl, Hd. rewrite length_replicate in Hl.
  assert (Hdeg : ∀ v, v ∈ valid → init_deg E n valid !!! v = Z.of_nat (valid_degree E valid v)).
  { intros v Hv. rewrite Hd, decide_True by done.
    rewrite lookup_total_replicate_2 by by apply Hr. lia. }
  split.
  - done.
  - intros v Hv Hle Ha. apply init_queue_complete; [done| |done]. rewrite Hdeg by done. lia.
  - intros v Hv. rewrite Hl. by apply Hr.
Qed.

Lemma valid_degree_delete valid id v :
  id ∈ valid → NoDup (E !!! v) →
  valid_degree E (set_delete valid id) v + (if decide (id ∈ E !!! v) then 1 else 0)
  = valid_degree E valid v.
Proof.
  unfold valid_degree. intros Hid. induction (E !!! v) as [|a l IH]; intros Hnd.
  - rewrite decide_False; [done|]. apply not_elem_of_nil.
  - apply NoDup_cons in Hnd as [Ha Hnd]. specialize (IH Hnd).
    rewrite !filter_cons. destruct (decide (a = id)) as [->|Hne].
    + rewrite (decide_True (P := id ∈ id :: l)) by left.
      rewrite (decide_False (P := id ∈ set_delete valid id)).
      2:{ rewrite elem_of_set_delete. tauto. }
      rewrite (decide_True (P := id ∈ valid)) by done.
      rewrite decide_False in IH by done. simpl. lia.
    + destruct (decide (a ∈ valid)) as [Hav|Hav].
      * rewrite (decide_True (P := a ∈ set_delete valid id)).
        2:{ rewrite elem_of_set_delete. done. }
        simpl. destruct (decide (id ∈ l)).
        -- rewrite decide_True by by right. lia.
        -- rewrite decide_False; [lia|]. intros Hc.
           apply elem_of_cons in Hc as [?|?]; [by subst|done].
      * rewrite (decide_False (P := a ∈ set_delete valid id)).
        2:{ rewrite elem_of_set_delete. tauto. }
        destruct (decide (id ∈ l)).
        -- rewrite decide_True by by right. lia.
        -- rewrite decide_False; [lia|]. intros Hc.
           apply elem_of_cons in Hc as [?|?]; [by subst|done].
Qed.

Hypothesis E_sym : ∀ a b, b ∈ E !!! a → a ∈ E !!! b.
Hypothesis E_nodup : ∀ a, NoDup (E !!! a).

Lemma prune_step_inv valid deg queue id deg' q' :
  prune_inv E attractors valid deg (id :: queue) →
  id ∈ valid →
  foldl (relax E attractors (set_delete valid id)) (deg, queue) (E !!! id) = (deg', q') →
  prune_inv E attractors (set_delete valid id) deg' q'.
Proof.
  intros [Hdeg Hq Hr] Hid Hf.
  apply relax_foldl in Hf as (Hl & Hd & Hkeep & Hpush & _); [|done|].
  2:{ intros nb _ Hnb. apply Hr. apply elem_of_set_delete in Hnb. tauto. }
  assert (Hvd : ∀ v, v ∈ set_delete valid id →
            deg' !!! v = Z.of_nat (valid_degree E (set_delete valid id) v)).
  { intros v Hv. pose proof Hv as Hv'. apply elem_of_set_delete in Hv' as [Hv' Hne].
    rewrite Hd, (Hdeg v Hv').
    pose proof (valid_degree_delete valid id v Hid (E_nodup v)) as Hvd.
    destruct (decide (v ∈ E !!! id)) as [Hin|Hnin].
    - rewrite decide_True by done. rewrite decide_True in Hvd by by apply E_sym. lia.
    - rewrite decide_False by tauto.
      rewrite decide_False in Hvd; [f_equal; lia|]. intros Hc. by apply E_sym in Hc. }
  split.
  - done.
  - intros v Hv Hle Ha. pose proof Hv as Hv'. apply elem_of_set_delete in Hv' as [Hv' Hne].
    destruct (decide (v ∈ E !!! id)) as [Hin|Hnin].
    + apply Hpush; [done|done| |done].
      specialize (Hvd v Hv). rewrite Hd, decide_True in Hvd by done. lia.
    + apply Hkeep.
      pose proof (valid_degree_delete valid id v Hid (E_nodup v)) as Hvd'.
      rewrite decide_False in Hvd'.
      2:{ intros Hc. by apply E_sym in Hc. }
      assert (v ∈ id :: queue) as Hc by (apply Hq; [done|lia|done]).
      apply elem_of_cons in Hc as [?|?]; done.
  - intros v Hv. rewrite Hl. apply Hr. apply elem_of_set_delete in Hv. tauto.
Qed.

Lemma prune_loop_inv fuel : ∀ valid deg queue valid' deg',
  prune_inv E attractors valid deg queue →
  prune_loop E attractors fuel valid deg queue = Some (valid', deg') →
  prune_inv E attractors valid' deg' [] ∧ valid' ⊆ valid.
Proof.
  induction fuel as [|fuel IH]; intros valid deg queue valid' deg' Hinv Hl.
  - destruct queue; [|done]. injection Hl as <- <-. done.
  - destruct queue as [|id queue]; [injection Hl as <- <-; done|].
    simpl in Hl. destruct (set_has valid id) eqn:Hv; simpl in Hl.
    + apply set_has_true in Hv. destruct (adj id) eqn:Ha.
      * apply IH in Hl; [done|]. destruct Hinv as [Hdeg Hq Hr]. split; [done| |done].
        intros v Hvv Hle Hav. specialize (Hq v Hvv Hle Hav).
        apply elem_of_cons in Hq as [->|?]; [congruence|done].
      * destruct (foldl _ _ _) as [deg1 q1] eqn:Hf.
        apply IH in Hl as [Hfin Hsub]; [|by eapply prune_step_inv].
        split; [done|]. intros v Hvv. apply Hsub in Hvv.
        apply elem_of_set_delete in Hvv. tauto.
    + apply set_has_false in Hv. apply IH in Hl; [done|].
      destruct Hinv as [Hdeg Hq Hr]. split; [done| |done].
      intros v Hvv Hle Hav. specialize (Hq v Hvv Hle Hav).
      apply elem_of_cons in Hq as [->|?]; done.
Qed.
End PruneInvariant.

(** On a well-formed graph the pruning pass returns, and every node it
    leaves with at most one valid neighbour touches an attractor. *)
Lemma prune_leaves_anchored E attractors n valid :
  wf_graph E n valid →
  ∃ valid',
    pruneSceneryBranches E attractors n valid = Some valid'
    ∧ valid' ⊆ valid
    ∧ ∀ id, id ∈ valid' → valid_degree E valid' id ≤ 1 →
            id ∈ attractors ∨ ∃ nb, nb ∈ E !!! id ∧ nb ∈ attractors.
Proof.
  intros [Hsym Hnd Hr Hset].
  destruct (pruneSceneryBranches_total E attractors n valid) as [valid' Hp].
  exists valid'. split; [done|].
  unfold pruneSceneryBranches in Hp.
  apply fmap_Some in Hp as ([v d] & Hl & ->). simpl.
  apply prune_loop_inv in Hl as [[_ Hq _] Hsub]; [|done|done|by apply init_inv].
  split; [done|]. intros id Hid Hle. apply adjacentToAttractor_spec.
  destruct (adjacentToAttractor E attractors id) eqn:Ha; [done|].
  specialize (Hq id Hid Hle Ha). by apply elem_of_nil in Hq.
Qed.

(** * The built graph is well formed *)

Lemma NoDup_omap_inj {A B} (f : A → option B) (l : list A) :
  (∀ x y z, x ∈ l → y ∈ l → f x = Some z → f y = Some z → x = y) →
  NoDup l → NoDup (omap f l).
Proof.
  intros Hinj Hnd. induction Hnd as [|a l Ha Hnd IH]; simpl; [constructor|].
  assert (NoDup (omap f l)) as IH'.
  { apply IH. intros x y z Hx Hy. apply Hinj; by right. }
  destruct (f a) as [b|] eqn:Hfa; [|done].
  constructor; [|done]. intros Hin. apply list_elem_of_omap in Hin as (x & Hx & Hfx).
  assert (a = x) as -> by (eapply Hinj; [left|by right|done|done]). done.
Qed.

Section BuiltGraph.
Variable m : GameMap.

#[local] Abbreviation sc := (scan_tiles m).

Lemma scan_ids_node k id :
  sc_ids sc !! k = Some id ↔
  ∃ n, sc_nodes sc !! id = Some n ∧ k = (n_x n, n_y n).
Proof.
  pose proof (scan_tiles_inv m) as [Hi Hn Hc Hd]. split.
  - intros Hk. destruct (Hd _ _ Hk) as (x & y & -> & _).
    apply Hi in Hk as (n & Hn' & Hx & Hy). exists n. by rewrite Hx, Hy.
  - intros (n & Hn' & ->). destruct (Hn _ _ Hn') as (_ & x & y & _ & _ & Hx & Hy).
    rewrite Hx, Hy. apply Hi. eauto.
Qed.

Lemma scan_edges_lookup a :
  map (node_edges (sc_ids sc)) (sc_nodes sc) !!! a =
  match sc_nodes sc !! a with
  | Some n => node_edges (sc_ids sc) n
  | None => []
  end.
Proof.
  rewrite list_lookup_total_alt, list_lookup_fmap.
  by destruct (sc_nodes sc !! a).
Qed.

Lemma elem_of_node_edges n b :
  b ∈ node_edges (sc_ids sc) n ↔
  ∃ d, d ∈ nbrs ∧ sc_ids sc !! (n_x n + d.1, n_y n + d.2)%Z = Some b.
Proof. unfold node_edges. by rewrite list_elem_of_omap. Qed.

Lemma nbrs_opposite d : d ∈ nbrs → ((- d.1)%Z, (- d.2)%Z) ∈ nbrs.
Proof.
  unfold nbrs. rewrite !elem_of_cons, elem_of_nil.
  intros [->|[->|[->|[->|[]]]]]; apply (bool_decide_unpack _); vm_compute; exact I.
Qed.

Lemma scan_edges_sym a b :
  b ∈ map (node_edges (sc_ids sc)) (sc_nodes sc) !!! a →
  a ∈ map (node_edges (sc_ids sc)) (sc_nodes sc) !!! b.
Proof.
  rewrite !scan_edges_lookup.
  destruct (sc_nodes sc !! a) as [na|] eqn:Ha; [|intros H; by apply elem_of_nil in H].
  intros Hb. apply elem_of_node_edges in Hb as (d & Hd & Hb).
  apply scan_ids_node in Hb as (nb & Hnb & Hxy). rewrite Hnb.
  apply elem_of_node_edges. exists ((- d.1)%Z, (- d.2)%Z). split; [by apply nbrs_opposite|].
  apply scan_ids_node. exists na. split; [done|]. injection Hxy as Hx Hy. simpl.
  f_equal; lia.
Qed.

Lemma scan_edges_NoDup a :
  NoDup (map (node_edges (sc_ids sc)) (sc_nodes sc) !!! a).
Proof.
  rewrite scan_edges_lookup. destruct (sc_nodes sc !! a) as [na|]; [|constructor].
  unfold node_edges. apply NoDup_omap_inj.
  - intros d1 d2 b _ _ H1 H2.
    apply scan_ids_node in H1 as (n1 & Hn1 & E1), H2 as (n2 & Hn2 & E2).
    rewrite Hn1 in Hn2. injection Hn2 as <-.
    unfold key in E1, E2. injection E1 as Hx1 Hy1. injection E2 as Hx2 Hy2.
    destruct d1, d2; simpl in *. f_equal; lia.
  - unfold nbrs. repeat (constructor; [rewrite ?elem_of_cons, ?elem_of_nil;
      intros H; repeat (destruct H as [H|H]; [discriminate H|]); done|]). constructor.
Qed.

Lemma scan_node_ids : map n_id (sc_nodes sc) = seq 0 (length (sc_nodes sc)).
Proof.
  pose proof (scan_tiles_inv m) as [_ Hn _ _].
  apply list_eq. intros i. rewrite list_lookup_fmap.
  destruct (sc_nodes sc !! i) as [n|] eqn:Hi; simpl.
  - destruct (Hn _ _ Hi) as [-> _]. symmetry. apply lookup_seq.
    split; [done|]. by apply lookup_lt_Some in Hi.
  - symmetry. apply lookup_seq_ge. by apply lookup_ge_None in Hi.
Qed.

Lemma buildPathGraph_wf fac sb bg :
  buildPathGraph fac sb m = Some bg →
  wf_graph (edges (bg_graph bg)) (length (nodes (bg_graph bg))) (bg_valid bg)
  ∧ bg_valid bg = seq 0 (length (nodes (bg_graph bg))).
Proof.
  intros Hb. destruct (buildPathGraph_place _ _ _ _ Hb) as (Hpl & _ & HE).
  assert (Hlen : length (nodes (bg_graph bg)) = length (sc_nodes sc)).
  { by rewrite <- (length_fmap node_place), Hpl, length_fmap. }
  assert (Hvalid : bg_valid bg = seq 0 (length (nodes (bg_graph bg)))).
  { unfold buildPathGraph in Hb. apply bind_Some in Hb as (ns' & Hns & [= <-]).
    simpl in *. 
    assert (map n_id ns' = seq 0 (length ns')) as ->.
    { rewrite Hlen, <- scan_node_ids.
      change (map n_id ns') with (n_id <$> ns').
      change (map n_id (sc_nodes sc)) with (n_id <$> sc_nodes sc).
      assert (∀ l : list Node, n_id <$> l = (λ p : nat * Z * Z, p.1.1) <$> (node_place <$> l)) as Hc.
      { intros l. rewrite <- list_fmap_compose. done. }
      rewrite (Hc ns'), (Hc (sc_nodes sc)), Hpl. done. }
    apply set_of_list_NoDup, NoDup_seq. }
  split; [|done]. rewrite HE. split.
  - apply scan_edges_sym.
  - apply scan_edges_NoDup.
  - intros id. rewrite Hvalid, elem_of_seq. lia.
  - rewrite Hvalid. apply NoDup_seq.
Qed.
End BuiltGraph.

(** C4: on every graph the builder produces, the pruning pass terminates,
    and every node it leaves in the valid set whose degree inside the
    remaining valid set is at most 1 is an attractor or has a graph
    neighbour that is an attractor. *)
Theorem prune_keeps_only_anchored_leaves fac sb m bg :
  buildPathGraph fac sb m = Some bg →
  ∃ valid',
    pruneSceneryBranches (edges (bg_graph bg)) (bg_attractors bg)
                         (length (nodes (bg_graph bg))) (bg_valid bg) = Some valid'
    ∧ ∀ id, id ∈ valid' → valid_degree (edges (bg_graph bg)) valid' id ≤ 1 →
            id ∈ bg_attractors bg
            ∨ ∃ nb, nb ∈ edges (bg_graph bg) !!! id ∧ nb ∈ bg_attractors bg.
Proof.
  intros Hb. destruct (buildPathGraph_wf m _ _ _ Hb) as [Hwf _].
  destruct (prune_leaves_anchored _ (bg_attractors bg) _ _ Hwf) as (valid' & Hp & _ & Hleaf).
  exists valid'. done.
Qed.

Lemma prune_keeps_only_anchored_leaves_witness :
  ∃ bg, buildPathGraph false false corridor_map = Some bg ∧
  ∃ valid',
    pruneSceneryBranches (edges (bg_graph bg)) (bg_attractors bg)
                         (length (nodes (bg_graph bg))) (bg_valid bg) = Some valid'
    ∧ ∀ id, id ∈ valid' → valid_degree (edges (bg_graph bg)) valid' id ≤ 1 →
            id ∈ bg_attractors bg
            ∨ ∃ nb, nb ∈ edges (bg_graph bg) !!! id ∧ nb ∈ bg_attractors bg.
Proof.
  eexists. split; [vm_compute; reflexivity|].
  apply (prune_keeps_only_anchored_leaves false false corridor_map).
  vm_compute. reflexivity.
Defined.

(** * Breadth-first distances and the exit distance matrix *)

Lemma filter_length_mono {A} (P Q : A → Prop)
    `{∀ x, Decision (P x)} `{∀ x, Decision (Q x)} (l : list A) :
  (∀ y, P y → Q y) → length (filter P l) ≤ length (filter Q l).
Proof.
  intros HPQ. induction l as [|a l IH]; [done|]. rewrite !filter_cons.
  destruct (decide (P a)) as [Hp|Hp].
  - rewrite decide_True by auto. simpl. lia.
  - destruct (decide (Q a)); simpl; lia.
Qed.

Lemma filter_length_strict {A} (P Q : A → Prop)
    `{∀ x, Decision (P x)} `{∀ x, Decision (Q x)} (l : list A) x :
  (∀ y, P y → Q y) → x ∈ l → Q x → ¬ P x →
  length (filter P l) < length (filter Q l).
Proof.
  intros HPQ Hin HQ HP. induction l as [|a l IH]; [by apply elem_of_nil in Hin|].
  rewrite !filter_cons. apply elem_of_cons in Hin as [<-|Hin].
  - rewrite decide_False, decide_True by done. simpl.
    pose proof (filter_length_mono P Q l HPQ). lia.
  - specialize (IH Hin). destruct (decide (P a)) as [Hp|Hp].
    + rewrite decide_True by auto. simpl. lia.
    + destruct (decide (Q a)); simpl; lia.
Qed.

Section BfsFacts.
Variable g : Graph.
Variable valid : list nat.

#[local] Abbreviation bfs_unseen := (bfs_unseen valid).

Lemma bfs_visit_keeps v d q nb k z :
  bfs_dist d !! k = Some z →
  bfs_dist (bfs_visit valid v (d, q) nb).1 !! k = Some z.
Proof.
  intros Hk. unfold bfs_visit. destruct (set_has valid nb); simpl; [|done].
  destruct (bool_decide (is_Some (bfs_dist d !! nb))) eqn:Hs; simpl; [done|].
  apply bool_decide_eq_false in Hs. rewrite lookup_insert_ne; [done|].
  intros ->. apply Hs. by eexists.
Qed.

Lemma bfs_visit_measure v d q nb :
  length (bfs_visit valid v (d, q) nb).2 + bfs_unseen (bfs_visit valid v (d, q) nb).1
  ≤ length q + bfs_unseen d.
Proof.
  unfold bfs_visit. destruct (set_has valid nb) eqn:Hv; simpl; [|done].
  destruct (bool_decide (is_Some (bfs_dist d !! nb))) eqn:Hs; simpl; [done|].
  apply set_has_true in Hv. apply bool_decide_eq_false in Hs.
  rewrite length_app. simpl. unfold bfs_unseen. simpl.
  assert (length (filter (λ v0, <[nb:=(bfs_dist d !!! v + 1)%Z]> (bfs_dist d) !! v0 = None) valid)
          < length (filter (λ v0, bfs_dist d !! v0 = None) valid)); [|lia].
  apply (filter_length_strict _ _ valid nb); [|done| |].
  - intros y Hy. destruct (decide (nb = y)) as [->|Hne].
    + by rewrite lookup_insert_eq in Hy.
    + by rewrite lookup_insert_ne in Hy.
  - destruct (bfs_dist d !! nb) eqn:E; [|done]. exfalso. apply Hs. by eexists.
  - by rewrite lookup_insert_eq.
Qed.

Lemma bfs_fold_measure v nbs : ∀ d q,
  length (foldl (bfs_visit valid v) (d, q) nbs).2
  + bfs_unseen (foldl (bfs_visit valid v) (d, q) nbs).1
  ≤ length q + bfs_unseen d.
Proof.
  induction nbs as [|nb nbs IH]; intros d q; cbn [foldl]; [done|].
  pose proof (bfs_visit_measure v d q nb) as Hm.
  destruct (bfs_visit valid v (d, q) nb) as [d1 q1]. specialize (IH d1 q1).
  simpl in *. lia.
Qed.

Lemma bfs_fold_keeps v nbs k z : ∀ d q,
  bfs_dist d !! k = Some z →
  bfs_dist (foldl (bfs_visit valid v) (d, q) nbs).1 !! k = Some z.
Proof.
  induction nbs as [|nb nbs IH]; intros d q Hk; cbn [foldl]; [done|].
  pose proof (bfs_visit_keeps v d q nb k z Hk) as Hs.
  destruct (bfs_visit valid v (d, q) nb) as [d1 q1]. by apply IH.
Qed.

Lemma bfs_loop_total fuel : ∀ d q,
  length q + bfs_unseen d ≤ fuel → is_Some (bfs_loop g valid fuel d q).
Proof.
  induction fuel as [|fuel IH]; intros d q Hm.
  - destruct q; [by eexists|simpl in Hm; lia].
  - destruct q as [|v q]; [by eexists|]. simpl.
    pose proof (bfs_fold_measure v (edges g !!! v) d q) as Hf.
    destruct (foldl _ _ _) as [d1 q1]. apply IH. simpl in *. lia.
Qed.

Lemma bfs_loop_keeps fuel k z : ∀ d q d',
  bfs_dist d !! k = Some z →
  bfs_loop g valid fuel d q = Some d' →
  bfs_dist d' !! k = Some z.
Proof.
  induction fuel as [|fuel IH]; intros d q d' Hk Hl.
  - destruct q; [|done]. by injection Hl as <-.
  - destruct q as [|v q]; [by injection Hl as <-|]. simpl in Hl.
    pose proof (bfs_fold_keeps v (edges g !!! v) k z d q Hk) as Hf.
    destruct (foldl _ _ _) as [d1 q1]. by eapply IH.
Qed.

Lemma bfsDistances_total a : is_Some (bfsDistances g valid a).
Proof.
  unfold bfsDistances. apply bfs_loop_total. simpl.
  pose proof (length_filter (λ v, bfs_dist (mkBfs {[a := 0%Z]} ∅) !! v = None) valid).
  unfold bfs_unseen. lia.
Qed.

Lemma bfsDistances_start a d :
  bfsDistances g valid a = Some d → bfs_dist d !! a = Some 0%Z.
Proof.
  unfold bfsDistances. apply bfs_loop_keeps. simpl. apply lookup_singleton_eq.
Qed.

Lemma dist_or_inf_nonzero d b : dist_or_inf d b ≠ 0%Z.
Proof.
  unfold dist_or_inf. destruct (d !! b) as [dj|]; [|done].
  destruct (dj =? 0)%Z eqn:E; [done|]. by apply Z.eqb_neq in E.
Qed.

Lemma dist_row_spec exits e :
  ∃ d, bfsDistances g valid (ex_nodeId e) = Some d
       ∧ dist_row g valid exits e
         = Some (map (λ e', dist_or_inf (bfs_dist d) (ex_nodeId e')) exits).
Proof.
  destruct (bfsDistances_total (ex_nodeId e)) as [d Hd]. exists d. split; [done|].
  unfold dist_row. by rewrite Hd.
Qed.

Lemma dist_matrix_total exits : is_Some (dist_matrix g valid exits).
Proof.
  unfold dist_matrix. apply mapM_is_Some, Forall_forall. intros e _.
  destruct (dist_row_spec exits e) as (d & _ & Hr). unfold compose. rewrite Hr. by eexists.
Qed.

Lemma dist_matrix_row exits dist i ei :
  dist_matrix g valid exits = Some dist →
  exits !! i = Some ei →
  ∃ d, bfsDistances g valid (ex_nodeId ei) = Some d
       ∧ dist !!! i = map (λ e', dist_or_inf (bfs_dist d) (ex_nodeId e')) exits.
Proof.
  unfold dist_matrix. intros Hm Hi. apply mapM_Some in Hm.
  destruct (Forall2_lookup_l _ _ _ _ _ Hm Hi) as (row & Hrow & Hr).
  destruct (dist_row_spec exits ei) as (d & Hd & Hr'). exists d. split; [done|].
  rewrite Hr' in Hr. injection Hr as ->. by apply list_lookup_total_correct.
Qed.
End BfsFacts.

(** C9: the distance matrix is always produced, none of its entries is 0,
    and the entry of two exit indices lying on the same node (in particular
    every diagonal entry) is the sentinel [1e9]: the breadth-first distance
    0 of the start node is replaced by [d.dist[b] || 1e9]. *)
Theorem dist_matrix_zero_is_inf g valid exits :
  ∃ dist,
    dist_matrix g valid exits = Some dist
    ∧ (∀ i j ei ej, exits !! i = Some ei → exits !! j = Some ej →
                    dist_at dist i j ≠ 0%Z
                    ∧ (ex_nodeId ei = ex_nodeId ej → dist_at dist i j = INF))
    ∧ (∀ i ei, exits !! i = Some ei →
               ∃ d, bfsDistances g valid (ex_nodeId ei) = Some d
                    ∧ bfs_dist d !! ex_nodeId ei = Some 0%Z
                    ∧ dist_at dist i i = INF).
Proof.
  destruct (dist_matrix_total g valid exits) as [dist Hm]. exists dist. split; [done|].
  assert (Hentry : ∀ i j ei ej, exits !! i = Some ei → exits !! j = Some ej →
            ∃ d, bfsDistances g valid (ex_nodeId ei) = Some d
                 ∧ dist_at dist i j = dist_or_inf (bfs_dist d) (ex_nodeId ej)).
  { intros i j ei ej Hi Hj. destruct (dist_matrix_row g valid exits dist i ei Hm Hi) as (d & Hd & Hrow).
    exists d. split; [done|]. unfold dist_at. rewrite Hrow.
    apply list_lookup_total_correct. change map with (@fmap list _). rewrite list_lookup_fmap, Hj. done. }
  split.
  - intros i j ei ej Hi Hj. destruct (Hentry i j ei ej Hi Hj) as (d & Hd & ->).
    split; [apply dist_or_inf_nonzero|]. intros <-.
    unfold dist_or_inf. by rewrite (bfsDistances_start g valid _ d Hd).
  - intros i ei Hi. destruct (Hentry i i ei ei Hi Hi) as (d & Hd & ->).
    exists d. split; [done|]. pose proof (bfsDistances_start g valid _ d Hd) as Hs.
    split; [done|]. unfold dist_or_inf. by rewrite Hs.
Qed.

(** * Dead-end rescue *)

Section RescueFacts.
Variable g : Graph.

Lemma elem_of_zones_union zones t :
  t ∈ zones_union zones ↔ ∃ z, z ∈ zones ∧ t ∈ z_tiles z.
Proof.
  unfold zones_union.
  enough (∀ acc, t ∈ foldl (λ valid z, foldl set_add valid (z_tiles z)) acc zones
                 ↔ t ∈ acc ∨ ∃ z, z ∈ zones ∧ t ∈ z_tiles z) as H.
  { rewrite H. split; [intros [Hc|?]; [by apply elem_of_nil in Hc|done]|auto]. }
  induction zones as [|z zones IH]; intros acc; cbn [foldl].
  - split; [auto|]. intros [?|(z & Hz & _)]; [done|by apply elem_of_nil in Hz].
  - rewrite IH, elem_of_foldl_set_add. split.
    + intros [[?|?]|(z' & Hz' & Ht)]; [by left|right; exists z|right; exists z'].
      * split; [left|done].
      * split; [by right|done].
    + intros [?|(z' & Hz' & Ht)]; [by left; left|].
      apply elem_of_cons in Hz' as [->|Hz']; [left; by right|right; by exists z'].
Qed.

Lemma in_some_zone_true zones t :
  in_some_zone zones t = true ↔ ∃ z, z ∈ zones ∧ t ∈ z_tiles z.
Proof.
  unfold in_some_zone. rewrite existsb_exists. split.
  - intros (z & Hz & Ht). exists z. by rewrite list_elem_of_In, <- set_has_true.
  - intros (z & Hz & Ht). exists z. by rewrite <- list_elem_of_In, set_has_true.
Qed.

Lemma rescue_leaf_zoned zones leaf :
  leaf ∈ zones_union zones → rescue_leaf g zones leaf = zones.
Proof.
  intros Hin. unfold rescue_leaf.
  apply elem_of_zones_union, in_some_zone_true in Hin. by rewrite Hin.
Qed.

Lemma rescue_leaves_zoned zones leaves :
  (∀ leaf, leaf ∈ leaves → leaf ∈ zones_union zones) →
  foldl (rescue_leaf g) zones leaves = zones.
Proof.
  induction leaves as [|leaf leaves IH]; intros Hall; cbn [foldl]; [done|].
  rewrite rescue_leaf_zoned by (apply Hall; left). apply IH.
  intros l Hl. apply Hall. by right.
Qed.
End RescueFacts.

(** C2: the dead-end rescue pass changes no zone.  Its leaves are taken
    from the union of the zones' tiles, so the test "the leaf is in no
    zone" is false for each of them and nothing is ever attached. *)
Theorem rescueDeadEnds_changes_nothing g zones :
  rescueDeadEnds g zones = zones
  ∧ ∀ leaf, leaf ∈ filter (λ id, default 0 (rescue_deg g (zones_union zones) !! id) ≤ 1)
                          (zones_union zones) →
            in_some_zone zones leaf = true.
Proof.
  split.
  - unfold rescueDeadEnds. apply rescue_leaves_zoned.
    intros leaf Hl. apply list_elem_of_filter in Hl. tauto.
  - intros leaf Hl. apply list_elem_of_filter in Hl as [_ Hl].
    by apply in_some_zone_true, elem_of_zones_union.
Qed.

(** * Food court detection *)

Section CourtFacts.
Variable g : Graph.
Variable valid : list nat.
Variable R2 : Z.
Variable maxTiles tilesPerCleaner : nat.

#[local] Abbreviation visit := (court_visit g valid R2).
#[local] Abbreviation grow := (court_grow g valid R2 maxTiles).
#[local] Abbreviation seed := (court_seed g valid R2 maxTiles tilesPerCleaner).
#[local] Abbreviation seeds := (court_seeds g valid R2 maxTiles tilesPerCleaner).
#[local] Abbreviation unvisited := (court_unvisited valid).
#[local] Abbreviation fresh_tile := (court_fresh valid).
#[local] Abbreviation courts_inv := (courts_inv valid).



Lemma court_visit_cases c visited q nb :
  visit c (visited, q) nb = (visited, q)
  ∨ (nb ∈ valid ∧ ¬ nb ∈ visited
     ∧ visit c (visited, q) nb = (visited ++ [nb], q ++ [nb])).
Proof.
  unfold court_visit. destruct (set_has valid nb) eqn:Hv; simpl; [|by left].
  destruct (set_has visited nb) eqn:Hs; [by left|].
  destruct (R2 <? _)%Z; [by left|]. right.
  apply set_has_true in Hv. apply set_has_false in Hs.
  by rewrite set_add_fresh.
Qed.

Lemma unvisited_snoc visited nb :
  nb ∈ valid → nb ∉ visited → unvisited (visited ++ [nb]) < unvisited visited.
Proof.
  intros Hv Hn. unfold court_unvisited.
  apply (filter_length_strict _ _ valid nb); [|done|done|].
  - intros y Hy Hc. apply Hy. apply elem_of_app. by left.
  - intros Hc. apply Hc. apply elem_of_app. right. left.
Qed.

Lemma court_fold c pre nbs : ∀ visited q visited' q',
  foldl (visit c) (visited, q) nbs = (visited', q') →
  pre ⊆ visited → (∀ t, t ∈ q → fresh_tile pre visited t) →
  visited ⊆ visited'
  ∧ (∀ t, t ∈ q' → fresh_tile pre visited' t)
  ∧ length q' + unvisited visited' ≤ length q + unvisited visited.
Proof.
  induction nbs as [|nb nbs IH]; intros visited q visited' q' Hf Hpre Hq; cbn [foldl] in Hf.
  - injection Hf as <- <-. done.
  - destruct (court_visit_cases c visited q nb) as [Hs|(Hv & Hn & Hs)]; rewrite Hs in Hf.
    + by apply IH in Hf.
    + apply IH in Hf as (Hsub & Hq' & Hm).
      * split; [|split; [done|]].
        -- intros t Ht. apply Hsub, elem_of_app. by left.
        -- pose proof (unvisited_snoc visited nb Hv Hn). rewrite length_app in Hm.
           simpl in Hm. lia.
      * intros t Ht. apply elem_of_app. left. by apply Hpre.
      * intros t Ht. apply elem_of_app in Ht as [Ht|Ht].
        -- destruct (Hq t Ht) as (H1 & H2 & H3). split; [|done]. apply elem_of_app. by left.
        -- apply list_elem_of_singleton in Ht as ->. split; [|split; [|done]].
           ++ apply elem_of_app. right. left.
           ++ intros Hc. by apply Hn, Hpre.
Qed.

Lemma court_grow_spec c pre fuel : ∀ visited tiles q,
  pre ⊆ visited →
  (∀ t, t ∈ q → fresh_tile pre visited t) →
  (∀ t, t ∈ tiles → fresh_tile pre visited t) →
  length q + unvisited visited ≤ fuel →
  ∃ visited' tiles',
    grow fuel c visited tiles q = Some (visited', tiles')
    ∧ visited ⊆ visited'
    ∧ (∀ t, t ∈ tiles' → fresh_tile pre visited' t).
Proof.
  induction fuel as [|fuel IH]; intros visited tiles q Hpre Hq Ht Hm.
  - destruct q; [|simpl in Hm; lia]. exists visited, tiles. done.
  - destruct q as [|v q]; [exists visited, tiles; done|]. simpl.
    destruct (length tiles <? maxTiles); [|exists visited, tiles; done].
    destruct (foldl (visit c) (visited, q) (edges g !!! v)) as [visited1 q1] eqn:Hf.
    apply (court_fold c pre) in Hf as (Hsub & Hq1 & Hm1); [|done|].
    2:{ intros t Hin. apply Hq. by right. }
    destruct (IH visited1 (set_add tiles v) q1) as (visited' & tiles' & Hg & Hsub' & Ht').
    + intros t Hin. by apply Hsub, Hpre.
    + done.
    + intros t Hin. apply elem_of_set_add in Hin as [Hin| ->].
      * destruct (Ht t Hin) as (H1 & H2 & H3). split; [by apply Hsub|done].
      * destruct (Hq v) as (H1 & H2 & H3); [left|]. split; [by apply Hsub|done].
    + simpl in Hm. lia.
    + exists visited', tiles'. split; [done|]. split; [|done].
      intros t Hin. by apply Hsub', Hsub.
Qed.

(** What one pass over a stall centre does to the state. *)
Lemma court_seed_spec st c :
  ∃ st', seed st c = Some st'
    ∧ cs_visited st ⊆ cs_visited st'
    ∧ (cs_courts st' = cs_courts st
       ∨ ∃ court, cs_courts st' = cs_courts st ++ [court]
                  ∧ 20 ≤ length (fc_tiles court)
                  ∧ cs_reserved st' = foldl set_add (cs_reserved st) (fc_tiles court)
                  ∧ ∀ t, t ∈ fc_tiles court →
                         fresh_tile (cs_visited st) (cs_visited st') t)
    ∧ (cs_courts st' = cs_courts st → cs_reserved st' = cs_reserved st).
Proof.
  unfold court_seed. destruct (idByXY g !! key c.1 c.2) as [nid|]; [|exists st; auto].
  destruct (set_has valid nid) eqn:Hv; cbn [negb]; [|exists st; auto].
  destruct (set_has (cs_visited st) nid) eqn:Hs; [exists st; auto|].
  apply set_has_true in Hv. apply set_has_false in Hs.
  destruct (court_grow_spec c (cs_visited st) (S (length valid))
              (set_add (cs_visited st) nid) [] [nid])
    as (visited' & tiles' & Hg & Hsub & Ht).
  - intros t Hin. by apply set_add_old.
  - intros t Hin. apply list_elem_of_singleton in Hin as ->.
    split; [apply set_add_new|done].
  - intros t Hin. by apply elem_of_nil in Hin.
  - simpl. pose proof (length_filter (λ v, (v ∉ set_add (cs_visited st) nid)) valid).
    unfold court_unvisited. lia.
  - rewrite Hg. cbn -[Nat.leb].
    assert (Hsub' : cs_visited st ⊆ visited').
    { intros t Hin. by apply Hsub, set_add_old. }
    destruct (20 <=? length tiles') eqn:Hsz.
    + eexists. split; [done|]. simpl. split; [done|]. split.
      * right. eexists. split; [done|]. simpl. apply Nat.leb_le in Hsz. done.
      * intros Hc. exfalso. apply (f_equal length) in Hc. rewrite length_app in Hc.
        simpl in Hc. lia.
    + eexists. split; [done|]. simpl. auto.
Qed.

Lemma court_seeds_total cs : ∀ st, is_Some (seeds st cs).
Proof.
  unfold court_seeds. induction cs as [|c cs IH]; intros st; cbn [foldl]; [by eexists|].
  destruct (court_seed_spec st c) as (st' & Hs & _). simpl. rewrite Hs. apply IH.
Qed.

Lemma court_seeds_cons st c cs :
  seeds st (c :: cs) = st' ← seed st c; seeds st' cs.
Proof.
  unfold court_seeds. cbn [foldl]. simpl.
  destruct (seed st c) as [st'|]; simpl; [done|].
  induction cs as [|c' cs IH]; [done|]. cbn [foldl]. simpl. done.
Qed.


Lemma courts_inv_seed st c st' :
  courts_inv st → seed st c = Some st' → courts_inv st'.
Proof.
  intros [Hvis Hdis Hres Hsz] Hs.
  destruct (court_seed_spec st c) as (st1 & Hs1 & Hsub & Hcase & Hsame).
  rewrite Hs in Hs1. injection Hs1 as <-.
  destruct Hcase as [Heq|(court & Heq & Hlen & Hr & Hfresh)].
  - split; rewrite ?Heq, ?(Hsame Heq); [|done..].
    intros court t Hc Ht. destruct (Hvis court t Hc Ht). auto.
  - split; rewrite ?Heq, ?Hr.
    + intros court' t Hc Ht. apply elem_of_app in Hc as [Hc|Hc].
      * destruct (Hvis court' t Hc Ht). auto.
      * apply list_elem_of_singleton in Hc as ->. destruct (Hfresh t Ht) as (? & _ & ?). done.
    + intros i j ci cj t Hij Hi Hj Hti Htj.
      apply lookup_app_Some in Hi as [Hi|[Hli Hi]], Hj as [Hj|[Hlj Hj]].
      * by apply (Hdis i j ci cj t).
      * apply list_lookup_singleton_Some in Hj as [_ <-].
        destruct (Hfresh t Htj) as (_ & Hn & _). apply Hn.
        apply (Hvis ci t); [|done]. by eapply list_elem_of_lookup_2.
      * apply list_lookup_singleton_Some in Hi as [_ <-].
        destruct (Hfresh t Hti) as (_ & Hn & _). apply Hn.
        apply (Hvis cj t); [|done]. by eapply list_elem_of_lookup_2.
      * apply list_lookup_singleton_Some in Hi as [Hi _], Hj as [Hj _]. lia.
    + intros t. rewrite elem_of_foldl_set_add, Hres. split.
      * intros [(court' & Hc & Ht)|Ht].
        -- exists court'. split; [|done]. apply elem_of_app. by left.
        -- exists court. split; [|done]. apply elem_of_app. right. left.
      * intros (court' & Hc & Ht). apply elem_of_app in Hc as [Hc|Hc].
        -- left. by exists court'.
        -- apply list_elem_of_singleton in Hc as ->. by right.
    + intros court' Hc. apply elem_of_app in Hc as [Hc|Hc]; [by apply Hsz|].
      by apply list_elem_of_singleton in Hc as ->.
Qed.

Lemma courts_inv_seeds cs : ∀ st st',
  courts_inv st → seeds st cs = Some st' → courts_inv st'.
Proof.
  induction cs as [|c cs IH]; intros st st' Hinv Hs.
  - injection Hs as <-. done.
  - rewrite court_seeds_cons in Hs. apply bind_Some in Hs as (st1 & Hs1 & Hs).
    eapply IH; [|done]. by eapply courts_inv_seed.
Qed.

(** Courts recorded after a state only hold tiles that were not yet
    visited in that state; the visited set itself only grows. *)
Lemma court_seeds_later cs : ∀ st st',
  seeds st cs = Some st' →
  cs_visited st ⊆ cs_visited st'
  ∧ ∃ new, cs_courts st' = cs_courts st ++ new
           ∧ ∀ court t, court ∈ new → t ∈ fc_tiles court → t ∉ cs_visited st.
Proof.
  induction cs as [|c cs IH]; intros st st' Hs.
  - injection Hs as <-. split; [done|]. exists []. rewrite app_nil_r. split; [done|].
    intros court t Hc. by apply elem_of_nil in Hc.
  - rewrite court_seeds_cons in Hs. apply bind_Some in Hs as (st1 & Hs1 & Hs).
    apply IH in Hs as (Hsub2 & new & Heq & Hnew).
    destruct (court_seed_spec st c) as (st1' & Hs1' & Hsub & Hcase & _).
    rewrite Hs1 in Hs1'. injection Hs1' as <-.
    split; [intros t Ht; by apply Hsub2, Hsub|].
    destruct Hcase as [Hc|(court & Hc & _ & _ & Hfresh)].
    + exists new. rewrite Heq, Hc. split; [done|].
      intros court t Hin Ht Hv. apply (Hnew court t Hin Ht). by apply Hsub.
    + exists (court :: new). rewrite Heq, Hc, <- app_assoc. split; [done|].
      intros court' t Hin Ht Hv. apply elem_of_cons in Hin as [->|Hin].
      * destruct (Hfresh t Ht) as (_ & Hn & _). done.
      * apply (Hnew court' t Hin Ht). by apply Hsub.
Qed.

Lemma courts_inv_init : courts_inv (mkCourtState [] [] []).
Proof.
  split; simpl.
  - intros court t Hc. by apply elem_of_nil in Hc.
  - intros i j ci cj t _ Hi. by rewrite lookup_nil in Hi.
  - intros t. split; [intros Hc; by apply elem_of_nil in Hc|].
    intros (court & Hc & _). by apply elem_of_nil in Hc.
  - intros court Hc. by apply elem_of_nil in Hc.
Qed.

Lemma detectFoodCourts_spec threshold shops :
  ∃ st, courts_inv st
        ∧ detectFoodCourts g valid R2 maxTiles tilesPerCleaner threshold shops
          = Some (cs_courts st, cs_reserved st).
Proof.
  unfold detectFoodCourts.
  destruct (court_seeds_total (stallCenters R2 threshold shops) (mkCourtState [] [] []))
    as [st Hst].
  exists st. split; [by eapply courts_inv_seeds; [apply courts_inv_init|]|].
  fold seeds. by rewrite Hst.
Qed.
End CourtFacts.

(** * The balanced flood fill *)

Section FloodFacts.
Variable g : Graph.
Variable validSet : list nat.
Variable target : nat.

#[local] Abbreviation ok := (flood_ok validSet).
#[local] Abbreviation prog := (progress_ok validSet).

Lemma progress_refl c p : prog c p c p.
Proof. split; [done|]. split; [auto|done]. Qed.

Lemma progress_trans c1 p1 c2 p2 c3 p3 :
  prog c1 p1 c2 p2 → prog c2 p2 c3 p3 → prog c1 p1 c3 p3.
Proof.
  intros (H1 & H2 & H3) (H4 & H5 & H6). split; [lia|]. split; [|auto].
  intros Hp. destruct (H5 Hp) as [Hp2|Hlt]; [|right; lia].
  destruct (H2 Hp2) as [?|?]; [by left|right; lia].
Qed.

Lemma unclaimed_insert claimed nb i :
  nb ∈ validSet → claimed !! nb = None →
  unclaimed validSet (<[nb := i]> claimed) < unclaimed validSet claimed.
Proof.
  intros Hv Hn. unfold unclaimed.
  apply (filter_length_strict _ _ validSet nb); [|done|done|].
  - intros y Hy. destruct (decide (nb = y)) as [->|Hne].
    + by rewrite lookup_insert_eq in Hy.
    + by rewrite lookup_insert_ne in Hy.
  - by rewrite lookup_insert_eq.
Qed.

Lemma unclaimed_insert_le claimed nb i :
  unclaimed validSet (<[nb := i]> claimed) ≤ unclaimed validSet claimed.
Proof.
  unfold unclaimed. apply filter_length_mono. intros y Hy.
  destruct (decide (nb = y)) as [->|Hne].
  - by rewrite lookup_insert_eq in Hy.
  - by rewrite lookup_insert_ne in Hy.
Qed.

Lemma insert_is_Some_mono (claimed : gmap nat nat) nb i id :
  is_Some (claimed !! id) → is_Some (<[nb := i]> claimed !! id).
Proof.
  intros Hs. destruct (decide (nb = id)) as [->|Hne].
  - rewrite lookup_insert_eq. by eexists.
  - by rewrite lookup_insert_ne.
Qed.

(** Adding a candidate tile to zone [i] and recording the claim. *)
Lemma add_to_zone_ok n zones claimed i nb :
  i < n → nb ∈ validSet → ok n zones claimed →
  ok n (<[i := set_add (zones !!! i) nb]> zones) (<[nb := i]> claimed).
Proof.
  intros Hi Hv (Hlen & Hsub & Hcl). split; [by rewrite length_insert|]. split.
  - intros j z t Hj Ht. destruct (decide (i = j)) as [<-|Hne].
    + rewrite list_lookup_insert_eq in Hj by lia. injection Hj as <-.
      apply elem_of_set_add in Ht as [Ht| ->]; [|done].
      destruct (lookup_lt_is_Some_2 zones i) as [zi Hzi]; [lia|].
      rewrite (list_lookup_total_correct _ _ _ Hzi) in Ht. by eapply Hsub.
    + rewrite list_lookup_insert_ne in Hj by done. by eapply Hsub.
  - intros id j Hid. destruct (decide (nb = id)) as [->|Hne].
    + rewrite lookup_insert_eq in Hid. injection Hid as <-.
      eexists. rewrite list_lookup_insert_eq by lia. split; [done|]. apply set_add_new.
    + rewrite lookup_insert_ne in Hid by done.
      destruct (Hcl id j Hid) as (z & Hz & Ht).
      destruct (decide (i = j)) as [<-|Hij].
      * eexists. rewrite list_lookup_insert_eq by lia. split; [done|].
        apply set_add_old. by rewrite (list_lookup_total_correct _ _ _ Hz).
      * exists z. by rewrite list_lookup_insert_ne.
Qed.

Lemma claim_nbs_spec n i nbs : i < n → ∀ zones claimed next p zones' claimed' next' p',
  claim_nbs validSet target i nbs zones claimed next p = (zones', claimed', next', p') →
  ok n zones claimed →
  ok n zones' claimed' ∧ prog claimed p claimed' p'.
Proof.
  intros Hi. induction nbs as [|nb nbs IH]; intros zones claimed next p zones' claimed' next' p' Hc Hok;
    cbn [claim_nbs] in Hc.
  - injection Hc as <- <- <- <-. split; [done|apply progress_refl].
  - destruct (set_has validSet nb) eqn:Hv; cbn [negb] in Hc; [|by eapply IH].
    destruct (bool_decide (is_Some (claimed !! nb))) eqn:Hs; [by eapply IH|].
    apply set_has_true in Hv. apply bool_decide_eq_false in Hs.
    assert (claimed !! nb = None) as Hn.
    { destruct (claimed !! nb) eqn:E; [|done]. exfalso. apply Hs. by eexists. }
    pose proof (add_to_zone_ok n zones claimed i nb Hi Hv Hok) as Hok1.
    pose proof (unclaimed_insert claimed nb i Hv Hn) as Hlt.
    assert (prog claimed p (<[nb := i]> claimed) true) as Hp1.
    { split; [lia|]. split; [by right|]. intros id. apply insert_is_Some_mono. }
    destruct (target <=? _).
    + injection Hc as <- <- <- <-. done.
    + apply IH in Hc as [Hok2 Hp2]; [|done]. split; [done|].
      by eapply progress_trans.
Qed.

Lemma drain_spec n i wave : i < n → ∀ zones claimed next p zones' claimed' next' p',
  drain g validSet target i wave zones claimed next p = (zones', claimed', next', p') →
  ok n zones claimed →
  ok n zones' claimed' ∧ prog claimed p claimed' p'.
Proof.
  intros Hi. induction wave as [|v wave IH]; intros zones claimed next p zones' claimed' next' p' Hd Hok;
    cbn [drain] in Hd.
  - injection Hd as <- <- <- <-. split; [done|apply progress_refl].
  - destruct (zone_size zones i <? target).
    + destruct (claim_nbs validSet target i (edges g !!! v) zones claimed next p)
        as [[[z1 c1] n1] p1] eqn:Hc.
      apply (claim_nbs_spec n) in Hc as [Hok1 Hp1]; [|done|done].
      apply IH in Hd as [Hok2 Hp2]; [|done]. split; [done|]. by eapply progress_trans.
    + injection Hd as <- <- <- <-. split; [done|apply progress_refl].
Qed.

Lemma flood_zone_spec n st i :
  i < n → ok n (fl_zones st) (fl_claimed st) →
  ok n (fl_zones (flood_zone g validSet target st i))
       (fl_claimed (flood_zone g validSet target st i))
  ∧ prog (fl_claimed st) (fl_progressed st)
         (fl_claimed (flood_zone g validSet target st i))
         (fl_progressed (flood_zone g validSet target st i)).
Proof.
  intros Hi Hok. unfold flood_zone. destruct (target <=? _).
  - split; [done|apply progress_refl].
  - destruct (drain _ _ _ _ _ _ _ _ _) as [[[z1 c1] n1] p1] eqn:Hd.
    apply (drain_spec n) in Hd; [|done|done]. done.
Qed.

Lemma flood_zones_spec n (idx : list nat) : ∀ st,
  (∀ i, i ∈ idx → i < n) → ok n (fl_zones st) (fl_claimed st) →
  ok n (fl_zones (foldl (flood_zone g validSet target) st idx))
       (fl_claimed (foldl (flood_zone g validSet target) st idx))
  ∧ prog (fl_claimed st) (fl_progressed st)
         (fl_claimed (foldl (flood_zone g validSet target) st idx))
         (fl_progressed (foldl (flood_zone g validSet target) st idx)).
Proof.
  induction idx as [|i idx IH]; intros st His Hok; cbn [foldl].
  - split; [done|apply progress_refl].
  - destruct (flood_zone_spec n st i) as [Hok1 Hp1]; [apply His; left|done|].
    destruct (IH (flood_zone g validSet target st i)) as [Hok2 Hp2].
    + intros j Hj. apply His. by right.
    + done.
    + split; [done|]. by eapply progress_trans.
Qed.

Lemma flood_round_spec n st :
  ok n (fl_zones st) (fl_claimed st) →
  ok n (fl_zones (flood_round g validSet target st))
       (fl_claimed (flood_round g validSet target st))
  ∧ prog (fl_claimed st) false
         (fl_claimed (flood_round g validSet target st))
         (fl_progressed (flood_round g validSet target st)).
Proof.
  intros Hok. unfold flood_round.
  apply (flood_zones_spec n _ (mkFlood _ _ _ false)); [|done].
  intros i Hi. apply elem_of_seq in Hi. destruct Hok as [<- _]. simpl. lia.
Qed.

Lemma flood_loop_spec n fuel : ∀ st,
  ok n (fl_zones st) (fl_claimed st) →
  unclaimed validSet (fl_claimed st) < fuel →
  ∃ st', flood_loop g fuel validSet target st = Some st'
         ∧ ok n (fl_zones st') (fl_claimed st')
         ∧ ∀ id, is_Some (fl_claimed st !! id) → is_Some (fl_claimed st' !! id).
Proof.
  induction fuel as [|fuel IH]; intros st Hok Hm; [lia|]. cbn [flood_loop].
  destruct (flood_round_spec n st Hok) as [Hok1 (Hle & Hp & Hdom)].
  destruct (fl_progressed (flood_round g validSet target st)) eqn:Hpr; cbn [negb].
  - destruct (allMet _ _); [eexists; done|].
    destruct (IH _ Hok1) as (st' & Hl & Hok' & Hdom').
    + destruct (Hp eq_refl) as [?|?]; [done|lia].
    + exists st'. split; [done|]. split; [done|]. auto.
  - eexists. done.
Qed.

Lemma claim_seeds_spec n (l : list (nat * nat)) : ∀ zones claimed,
  (∀ i s, (i, s) ∈ l → i < n) → ok n zones claimed →
  ok n (foldl (claim_seed validSet) (zones, claimed) l).1
       (foldl (claim_seed validSet) (zones, claimed) l).2
  ∧ (∀ id, is_Some (claimed !! id) ∨ (∃ i, (i, id) ∈ l ∧ id ∈ validSet) →
           is_Some ((foldl (claim_seed validSet) (zones, claimed) l).2 !! id)).
Proof.
  induction l as [|[i s] l IH]; intros zones claimed Hl Hok; cbn [foldl].
  - split; [done|]. intros id [?|(i & Hi & _)]; [done|by apply elem_of_nil in Hi].
  - unfold claim_seed at 2 4 6. destruct (set_has validSet s) eqn:Hv.
    + apply set_has_true in Hv.
      destruct (IH (<[i := set_add (zones !!! i) s]> zones) (<[s := i]> claimed)) as [Hok' Hd].
      * intros j s' Hj. eapply Hl. by right.
      * apply add_to_zone_ok; [eapply Hl; left|done|done].
      * split; [done|]. intros id [Hs|(j & Hj & Hid)]; apply Hd.
        -- left. by apply insert_is_Some_mono.
        -- apply elem_of_cons in Hj as [[= -> ->]|Hj]; [|right; eauto].
           left. rewrite lookup_insert_eq. by eexists.
    + apply set_has_false in Hv. destruct (IH zones claimed) as [Hok' Hd].
      * intros j s' Hj. eapply Hl. by right.
      * done.
      * split; [done|]. intros id [Hs|(j & Hj & Hid)]; apply Hd; [by left|].
        apply elem_of_cons in Hj as [[= -> ->]|Hj]; [done|right; eauto].
Qed.
End FloodFacts.

(** * Leftover assignment and the result of [balancedFlood] *)

Section LeftoverFacts.
Variable g : Graph.
Variable validSet : list nat.

Lemma foldl_sum_bounds (f : nat → Z) (B : Z) (s : list nat) : ∀ a,
  (∀ t, t ∈ s → 0 ≤ f t ≤ B)%Z →
  (a ≤ foldl (λ a id, a + f id) a s ≤ a + B * Z.of_nat (length s))%Z.
Proof.
  induction s as [|t s IH]; intros a Hf; cbn [foldl length].
  - lia.
  - assert (0 ≤ f t ≤ B)%Z as Ht by (apply Hf; left).
    assert (∀ t', t' ∈ s → 0 ≤ f t' ≤ B)%Z as Hs by (intros t' Ht'; apply Hf; by right).
    specialize (IH (a + f t)%Z Hs). lia.
Qed.

Lemma round_div_bounds a c B :
  (0 < c)%Z → (0 ≤ a ≤ (B - 1) * c)%Z → (0 ≤ round_div a c < B)%Z.
Proof.
  intros Hc Ha. unfold round_div. split.
  - apply Z.div_pos; lia.
  - apply Z.div_lt_upper_bound; nia.
Qed.

Lemma centroid_in_box z :
  z ≠ [] → (∀ t, t ∈ z → in_box (node_xy g t)) → in_box (centroidOfTiles g z).
Proof.
  intros Hne Hbox. unfold centroidOfTiles, in_box. cbn [fst snd].
  assert (0 < Z.of_nat (length z))%Z as Hc by (destruct z; [done|simpl; lia]).
  split; apply round_div_bounds; try done.
  - assert (∀ t, t ∈ z → 0 ≤ n_x (nodes g !!! t) ≤ 499999999)%Z as Hb.
    { intros t Ht. destruct (Hbox t Ht) as [Hx _]. simpl in Hx. lia. }
    pose proof (foldl_sum_bounds (λ id, n_x (nodes g !!! id)) 499999999 z 0 Hb) as Hs.
    lia.
  - assert (∀ t, t ∈ z → 0 ≤ n_y (nodes g !!! t) ≤ 499999999)%Z as Hb.
    { intros t Ht. destruct (Hbox t Ht) as [_ Hy]. simpl in Hy. lia. }
    pose proof (foldl_sum_bounds (λ id, n_y (nodes g !!! id)) 499999999 z 0 Hb) as Hs.
    lia.
Qed.

Lemma manhattan_in_box p q : in_box p → in_box q → (manhattan p q < INF)%Z.
Proof. unfold in_box, manhattan, INF. lia. Qed.

(** The scan of [nearestZoneIndex] over the zone indices [idx]. *)
Lemma nearest_fold id zones (idx : list nat) : ∀ best bestd,
  (∀ i, i ∈ idx → i < length zones) →
  (best = None → bestd = INF) →
  (∀ k, best = Some k → k < length zones) →
  let r := foldl (λ '(best, bestd) i,
                    if length (zones !!! i) =? 0 then (best, bestd)
                    else
                      let d := manhattan (centroidOfTiles g (zones !!! i)) (node_xy g id) in
                      if (d <? bestd)%Z then (Some i, d) else (best, bestd))
                 (best, bestd) idx in
  (∀ k, r.1 = Some k → k < length zones)
  ∧ (is_Some best
     ∨ (∃ i, i ∈ idx ∧ zones !!! i ≠ []
             ∧ (manhattan (centroidOfTiles g (zones !!! i)) (node_xy g id) < INF)%Z) →
     is_Some r.1).
Proof.
  induction idx as [|i idx IH]; intros best bestd Hidx Hnone Hsome; cbn [foldl].
  - cbn zeta. split; [done|]. intros [?|(i & Hi & _)]; [done|by apply elem_of_nil in Hi].
  - cbn zeta.
    set (d := manhattan (centroidOfTiles g (zones !!! i)) (node_xy g id)).
    assert (i < length zones) as Hi by (apply Hidx; left).
    assert (Hidx' : ∀ j, j ∈ idx → j < length zones) by (intros j Hj; apply Hidx; by right).
    destruct (length (zones !!! i) =? 0) eqn:Hz.
    + destruct (IH best bestd Hidx' Hnone Hsome) as [H1 H2]. split; [done|].
      intros [Hb|(j & Hj & Hne & Hd)]; apply H2; [by left|].
      apply elem_of_cons in Hj as [->|Hj]; [|right; eauto].
      apply Nat.eqb_eq in Hz. by destruct (zones !!! i).
    + destruct (d <? bestd)%Z eqn:Hlt.
      * destruct (IH (Some i) d Hidx') as [H1 H2]; [done|by intros k [= <-]|].
        split; [done|]. intros _. apply H2. left. by eexists.
      * destruct (IH best bestd Hidx' Hnone Hsome) as [H1 H2]. split; [done|].
        intros [Hb|(j & Hj & Hne & Hd)]; apply H2; [by left|].
        apply elem_of_cons in Hj as [->|Hj]; [|right; eauto].
        left. destruct best; [by eexists|]. rewrite Hnone in Hlt by done.
        apply Z.ltb_ge in Hlt. fold d in Hd. lia.
Qed.

Lemma nearestZoneIndex_Some id zones i z :
  zones !! i = Some z → z ≠ [] →
  (manhattan (centroidOfTiles g z) (node_xy g id) < INF)%Z →
  ∃ k, nearestZoneIndex g id zones = Some k ∧ k < length zones.
Proof.
  intros Hi Hne Hd. unfold nearestZoneIndex.
  destruct (nearest_fold id zones (seq 0 (length zones)) None INF) as [H1 H2].
  - intros j Hj. apply elem_of_seq in Hj. lia.
  - done.
  - done.
  - cbn zeta in *. destruct H2 as [k Hk].
    + right. exists i. rewrite (list_lookup_total_correct _ _ _ Hi).
      split; [|done]. apply elem_of_seq. apply lookup_lt_Some in Hi. lia.
    + exists k. split; [done|]. by apply H1.
Qed.

Lemma nearestZoneIndex_lt id zones k :
  nearestZoneIndex g id zones = Some k → k < length zones.
Proof.
  unfold nearestZoneIndex.
  destruct (nearest_fold id zones (seq 0 (length zones)) None INF) as [H1 _]; [|done|done|].
  - intros j Hj. apply elem_of_seq in Hj. lia.
  - cbn zeta in H1. apply H1.
Qed.

Lemma assign_remaining_within zones id :
  id ∈ validSet → zones_within validSet zones → zones_within validSet (assign_remaining g zones id).
Proof.
  intros Hid Hw. unfold assign_remaining.
  destruct (nearestZoneIndex g id zones) as [k|] eqn:Hk; [|done].
  apply nearestZoneIndex_lt in Hk.
  intros j z t Hj Ht. destruct (decide (k = j)) as [<-|Hne].
  - rewrite list_lookup_insert_eq in Hj by done. injection Hj as <-.
    apply elem_of_set_add in Ht as [Ht| ->]; [|done].
    destruct (lookup_lt_is_Some_2 zones k Hk) as [zk Hzk].
    rewrite (list_lookup_total_correct _ _ _ Hzk) in Ht. by eapply Hw.
  - rewrite list_lookup_insert_ne in Hj by done. by eapply Hw.
Qed.

Lemma assign_remaining_covered zones id t :
  covered zones t → covered (assign_remaining g zones id) t.
Proof.
  intros (i & z & Hi & Ht). unfold assign_remaining.
  destruct (nearestZoneIndex g id zones) as [k|] eqn:Hk; [|by exists i, z].
  apply nearestZoneIndex_lt in Hk. destruct (decide (k = i)) as [->|Hne].
  - exists i. eexists. rewrite list_lookup_insert_eq by done. split; [done|].
    apply set_add_old. by rewrite (list_lookup_total_correct _ _ _ Hi).
  - exists i, z. by rewrite list_lookup_insert_ne.
Qed.

Lemma assign_all_within l : ∀ zones,
  (∀ id, id ∈ l → id ∈ validSet) → zones_within validSet zones →
  zones_within validSet (foldl (assign_remaining g) zones l).
Proof.
  induction l as [|id l IH]; intros zones Hl Hw; cbn [foldl]; [done|].
  apply IH; [intros t Ht; apply Hl; by right|].
  apply assign_remaining_within; [apply Hl; left|done].
Qed.

Lemma assign_all_covered_mono l t : ∀ zones,
  covered zones t → covered (foldl (assign_remaining g) zones l) t.
Proof.
  induction l as [|id l IH]; intros zones Hc; cbn [foldl]; [done|].
  by apply IH, assign_remaining_covered.
Qed.

Hypothesis box : ∀ t, t ∈ validSet → in_box (node_xy g t).

Lemma assign_remaining_covers zones id :
  id ∈ validSet → zones_within validSet zones →
  (∃ t, covered zones t) →
  covered (assign_remaining g zones id) id.
Proof.
  intros Hid Hw (t & i & z & Hi & Ht).
  destruct (nearestZoneIndex_Some id zones i z Hi) as (k & Hk & Hlt).
  - intros ->. by apply elem_of_nil in Ht.
  - apply manhattan_in_box; [|by apply box]. apply centroid_in_box.
    + intros ->. by apply elem_of_nil in Ht.
    + intros t' Ht'. apply box. by eapply Hw.
  - unfold assign_remaining. rewrite Hk. exists k. eexists.
    rewrite list_lookup_insert_eq by done. split; [done|]. apply set_add_new.
Qed.

Lemma assign_all_covers l : ∀ zones,
  (∀ id, id ∈ l → id ∈ validSet) → zones_within validSet zones →
  (∃ t, covered zones t) →
  ∀ id, id ∈ l → covered (foldl (assign_remaining g) zones l) id.
Proof.
  induction l as [|a l IH]; intros zones Hl Hw Hex id Hid; cbn [foldl].
  - by apply elem_of_nil in Hid.
  - assert (a ∈ validSet) as Ha by (apply Hl; left).
    pose proof (assign_remaining_covers zones a Ha Hw Hex) as Hc.
    apply elem_of_cons in Hid as [->|Hid].
    + by apply assign_all_covered_mono.
    + apply IH; [intros t Ht; apply Hl; by right| |by exists a|done].
      by apply assign_remaining_within.
Qed.
End LeftoverFacts.

Section BalancedFloodFacts.
Variable g : Graph.
Variable validSet : list nat.

Lemma elem_of_imap_pair (seeds : list nat) i s :
  (i, s) ∈ imap (λ i s, (i, s)) seeds ↔ seeds !! i = Some s.
Proof.
  rewrite list_elem_of_lookup. split.
  - intros [j Hj]. rewrite list_lookup_imap in Hj.
    destruct (seeds !! j) eqn:E; simpl in Hj; [|done]. by injection Hj as -> ->.
  - intros Hs. exists i. by rewrite list_lookup_imap, Hs.
Qed.

(** The result of [balancedFlood], as growth followed by the leftover
    assignment. *)
Lemma balancedFlood_spec seeds target :
  ∃ st,
    flood_ok validSet (length seeds) (fl_zones st) (fl_claimed st)
    ∧ (∀ s, s ∈ seeds → s ∈ validSet → is_Some (fl_claimed st !! s))
    ∧ balancedFlood g validSet seeds target
      = Some (foldl (assign_remaining g) (fl_zones st)
                    (filter (λ id, fl_claimed st !! id = None) validSet)).
Proof.
  unfold balancedFlood.
  destruct (claim_seeds_spec validSet (length seeds) (imap (λ i s, (i, s)) seeds)
              (map (λ _, []) seeds) ∅) as [Hok Hd].
  - intros i s Hi. apply elem_of_imap_pair in Hi. by apply lookup_lt_Some in Hi.
  - split; [by rewrite length_map|]. split.
    + intros i z t Hi Ht. change map with (@fmap list _) in Hi.
      rewrite list_lookup_fmap in Hi. destruct (seeds !! i); [|done].
      injection Hi as <-. by apply elem_of_nil in Ht.
    + intros id i Hid. by rewrite lookup_empty in Hid.
  - destruct (foldl (claim_seed validSet) _ _) as [zones claimed]. cbn [fst snd] in *.
    destruct (flood_loop_spec g validSet target (length seeds) (S (length validSet))
                (mkFlood zones (map (λ s, [s]) seeds) claimed false))
      as (st & Hl & Hok' & Hdom); [done| |].
    + simpl. pose proof (length_filter (λ v, claimed !! v = None) validSet).
      unfold unclaimed. lia.
    + exists st. split; [done|]. split.
      * intros s Hs Hv. apply Hdom. simpl. apply Hd. right.
        apply list_elem_of_lookup in Hs as [i Hi]. exists i.
        split; [by apply elem_of_imap_pair|done].
      * rewrite Hl. done.
Qed.

Lemma balancedFlood_within seeds target :
  ∃ zones, balancedFlood g validSet seeds target = Some zones
           ∧ zones_within validSet zones.
Proof.
  destruct (balancedFlood_spec seeds target) as (st & (Hlen & Hsub & Hcl) & _ & Hb).
  eexists. split; [done|]. apply assign_all_within; [|done].
  intros id Hid. apply list_elem_of_filter in Hid. tauto.
Qed.
End BalancedFloodFacts.

(** * Coverage of the balanced partition *)

(** C3, as stated, fails: on the two-island map the tile (5,0) is in a
    component without a seed and has no neighbour at all, yet it does not
    stay unassigned: the preview run puts both tiles in the one zone and
    reports no warning. *)
Lemma isolated_tile_is_assigned :
  ¬ isolated_left_out (graph_of_map islands_map) [0; 1] [0] 180
  ∧ ∃ plan, onPreview default_settings (mkEnv 0 0) islands_map = Some plan
            ∧ graph plan = graph_of_map islands_map
            ∧ validNodeIds plan = [0; 1]
            ∧ map z_tiles (handymanZones plan) = [[0; 1]]
            ∧ warnings plan = [].
Proof.
  split.
  - intros (zones & Hb & Hall).
    assert (balancedFlood (graph_of_map islands_map) [0; 1] [0] 180 = Some [[0; 1]]) as E
        by (vm_compute; reflexivity).
    rewrite E in Hb. injection Hb as <-.
    destruct (Hall 1) as [Hout _]; [by right; left|]. apply Hout.
    + intros s Hs Hr. apply list_elem_of_singleton in Hs as ->.
      apply rtc_inv in Hr as [Heq|(y & (_ & _ & Hy) & _)]; [done|].
      vm_compute in Hy. by apply elem_of_nil in Hy.
    + exists 0, [0; 1]. split; [done|]. by right; left.
  - eexists. split; [vm_compute; reflexivity|].
    split; [vm_compute; reflexivity|]. split; [reflexivity|]. split; reflexivity.
Qed.

(** C3, amended: when some seed is a candidate tile (and coordinates are
    map coordinates, so Manhattan distances stay below 1e9), the balanced
    partition returns one tile set per seed and every candidate tile is in
    at least one of them.  Tiles of components without a seed are no
    exception: the leftover pass hands each of them to the zone with the
    nearest centroid, whether or not it is connected to that zone. *)
Theorem balancedFlood_covers_all g validSet seeds target :
  (∃ s, s ∈ seeds ∧ s ∈ validSet) →
  (∀ t, t ∈ validSet → in_box (node_xy g t)) →
  ∃ zones, balancedFlood g validSet seeds target = Some zones
           ∧ length zones = length seeds
           ∧ zones_within validSet zones
           ∧ ∀ id, id ∈ validSet → covered zones id.
Proof.
  intros (s & Hs & Hsv) Hbox.
  destruct (balancedFlood_spec g validSet seeds target) as (st & Hok & Hseed & Hb).
  destruct Hok as (Hlen & Hsub & Hcl).
  eexists. split; [done|].
  assert (Hrem : ∀ id, id ∈ filter (λ id, fl_claimed st !! id = None) validSet → id ∈ validSet).
  { intros id Hid. apply list_elem_of_filter in Hid. tauto. }
  split; [|split; [by apply (assign_all_within g validSet)|]].
  - rewrite <- Hlen. clear. generalize (fl_zones st).
    induction (filter _ _) as [|a l IH]; intros zones; cbn [foldl]; [done|].
    rewrite IH. unfold assign_remaining.
    destruct (nearestZoneIndex g a zones); [by rewrite length_insert|done].
  - intros id Hid. destruct (fl_claimed st !! id) as [i|] eqn:Hc.
    + apply assign_all_covered_mono. destruct (Hcl id i Hc) as (z & Hz & Ht). by exists i, z.
    + apply (assign_all_covers g validSet Hbox); [done|done| |].
      * destruct (Hseed s Hs Hsv) as [i Hi]. destruct (Hcl s i Hi) as (z & Hz & Ht).
        exists s, i, z. done.
      * apply list_elem_of_filter. done.
Qed.

Lemma balancedFlood_covers_all_witness :
  ∃ zones, balancedFlood (graph_of_map islands_map) [0; 1] [0] 180 = Some zones
           ∧ length zones = length [0]
           ∧ zones_within [0; 1] zones
           ∧ ∀ id, id ∈ [0; 1] → covered zones id.
Proof.
  apply (balancedFlood_covers_all (graph_of_map islands_map) [0; 1] [0] 180).
  - exists 0. split; [left|left].
  - intros t Ht. apply elem_of_cons in Ht as [->|Ht]; [vm_compute; done|].
    apply list_elem_of_singleton in Ht as ->. vm_compute. done.
Defined.

(** * Food courts *)

Lemma handyman_pool_unreserved g s validIds reserved courts t :
  t ∈ (handyman_pool g s validIds reserved courts).2 → t ∈ validIds ∧ t ∉ reserved.
Proof.
  unfold handyman_pool.
  assert (Hbase : t ∈ filter (λ id, id ∉ reserved) validIds → t ∈ validIds ∧ t ∉ reserved).
  { intros Ht. apply list_elem_of_filter in Ht. tauto. }
  destruct (_ && _); [|done].
  generalize (@nil Zone). revert Hbase. generalize (filter (λ id, id ∉ reserved) validIds).
  induction courts as [|c courts IH]; intros pool Hpool zones; cbn [foldl]; [done|].
  unfold court_zone at 2. destruct (length _ =? 0); [by apply IH|].
  apply IH. intros Ht. apply Hpool. clear -Ht.
  revert pool Ht. induction (foldl _ [] (fc_tiles c)) as [|a l IHl]; intros pool Ht; [done|].
  cbn [foldl] in Ht. apply IHl in Ht. apply elem_of_set_delete in Ht. tauto.
Qed.

(** C6: the detector returns, the tile sets of any two of its food courts
    are disjoint, and no tile of any food court is in a zone grown by the
    balanced partitioner, whose candidate pool leaves the reserved tiles
    out. *)
Theorem food_courts_disjoint g valid R2 maxTiles tilesPerCleaner threshold shops :
  ∃ courts reserved,
    detectFoodCourts g valid R2 maxTiles tilesPerCleaner threshold shops
      = Some (courts, reserved)
    ∧ (∀ i j ci cj t, i ≠ j → courts !! i = Some ci → courts !! j = Some cj →
                      t ∈ fc_tiles ci → t ∉ fc_tiles cj)
    ∧ (∀ t, t ∈ reserved ↔ ∃ court, court ∈ courts ∧ t ∈ fc_tiles court)
    ∧ ∀ s seeds target,
        ∃ grown,
          balancedFlood g (handyman_pool g s valid reserved courts).2 seeds target
            = Some grown
          ∧ ∀ z t court, z ∈ grown → t ∈ z → court ∈ courts → t ∉ fc_tiles court.
Proof.
  destruct (detectFoodCourts_spec g valid R2 maxTiles tilesPerCleaner threshold shops)
    as (st & [Hvis Hdis Hres Hsz] & Hd).
  exists (cs_courts st), (cs_reserved st). split; [done|]. split; [done|]. split; [done|].
  intros s seeds target.
  destruct (balancedFlood_within g (handyman_pool g s valid (cs_reserved st) (cs_courts st)).2
              seeds target) as (grown & Hb & Hw).
  exists grown. split; [done|]. intros z t court Hz Ht Hc Htc.
  apply list_elem_of_lookup in Hz as [i Hi].
  apply (Hw i z t Hi) in Ht. apply handyman_pool_unreserved in Ht as [_ Hn].
  apply Hn, Hres. by exists court.
Qed.

(** C10: the visited set of the detector is shared by all seeds and only
    grows.  When the cluster grown from a seed is discarded for having
    fewer than 20 tiles, the state keeps the visited set of that growth;
    every tile of the cluster is in it, it is contained in the visited set
    after any later seeds, and no court recorded for a later seed holds a
    tile of it.  The detected courts therefore depend on the order of the
    seeds: on the plaza map the order (far stall, plaza stall) finds no
    court, the opposite order finds one of 26 tiles. *)
Theorem visited_is_never_rolled_back :
  (∀ g valid R2 maxTiles tilesPerCleaner st c nid visited1 tiles,
      idByXY g !! key c.1 c.2 = Some nid →
      nid ∈ valid → nid ∉ cs_visited st →
      court_grow g valid R2 maxTiles (S (length valid)) c
                 (set_add (cs_visited st) nid) [] [nid] = Some (visited1, tiles) →
      length tiles < 20 →
      court_seed g valid R2 maxTiles tilesPerCleaner st c
        = Some (mkCourtState (cs_courts st) (cs_reserved st) visited1)
      ∧ (∀ t, t ∈ tiles → t ∈ visited1)
      ∧ cs_visited st ⊆ visited1
      ∧ ∀ later st2,
          court_seeds g valid R2 maxTiles tilesPerCleaner
                      (mkCourtState (cs_courts st) (cs_reserved st) visited1) later = Some st2 →
          visited1 ⊆ cs_visited st2
          ∧ ∃ new, cs_courts st2 = cs_courts st ++ new
                   ∧ ∀ court t, court ∈ new → t ∈ fc_tiles court → t ∉ visited1)
  ∧ (∃ court reserved,
        plaza_courts [stall_far; stall_plaza] = Some ([], [])
        ∧ plaza_courts [stall_plaza; stall_far] = Some ([court], reserved)
        ∧ length (fc_tiles court) = 26).
Proof.
  split.
  - intros g valid R2 maxTiles tpc st c nid visited1 tiles Hid Hv Hn Hg Hlen.
    assert (Hseed : court_seed g valid R2 maxTiles tpc st c
                    = Some (mkCourtState (cs_courts st) (cs_reserved st) visited1)).
    { unfold court_seed. rewrite Hid.
      apply set_has_true in Hv. apply set_has_false in Hn. rewrite Hv, Hn. cbn [negb].
      rewrite Hg. cbn -[Nat.leb]. apply Nat.leb_gt in Hlen. by rewrite Hlen. }
    split; [done|].
    destruct (court_grow_spec g valid R2 maxTiles c (cs_visited st) (S (length valid))
                (set_add (cs_visited st) nid) [] [nid])
      as (v' & t' & Hg' & Hsub & Ht).
    + intros t Hin. by apply set_add_old.
    + intros t Hin. apply list_elem_of_singleton in Hin as ->.
      split; [apply set_add_new|done].
    + intros t Hin. by apply elem_of_nil in Hin.
    + simpl. pose proof (length_filter (λ v, (v ∉ set_add (cs_visited st) nid)) valid).
      unfold court_unvisited. lia.
    + rewrite Hg in Hg'. injection Hg' as <- <-.
      split; [intros t Hin; by destruct (Ht t Hin)|].
      split; [intros t Hin; by apply Hsub, set_add_old|].
      intros later st2 Hl. apply court_seeds_later in Hl as (Hsub2 & new & Hnew & Hfresh).
      split; [done|]. exists new. done.
  - eexists _, _. split; [vm_compute; reflexivity|]. split; [vm_compute; reflexivity|].
    reflexivity.
Qed.

Lemma visited_is_never_rolled_back_witness :
  court_seed plaza_graph plaza_valid 64 160 120 (mkCourtState [] [] []) stall_far
  = Some (mkCourtState [] [] [27; 26; 25; 24; 23; 22; 21; 20; 17])
  ∧ ∀ later st2,
      court_seeds plaza_graph plaza_valid 64 160 120
                  (mkCourtState [] [] [27; 26; 25; 24; 23; 22; 21; 20; 17]) later = Some st2 →
      [27; 26; 25; 24; 23; 22; 21; 20; 17] ⊆ cs_visited st2.
Proof.
  destruct (proj1 visited_is_never_rolled_back plaza_graph plaza_valid 64%Z 160 120
              (mkCourtState [] [] []) stall_far 27
              [27; 26; 25; 24; 23; 22; 21; 20; 17] [27; 26; 25; 24; 23; 22; 21; 20; 17])
    as (Hs & _ & _ & Hl).
  - vm_compute. reflexivity.
  - apply (bool_decide_unpack _). vm_compute. exact I.
  - apply not_elem_of_nil.
  - vm_compute. reflexivity.
  - simpl. lia.
  - split; [exact Hs|]. intros later st2 H. destruct (Hl later st2 H) as [Hsub _]. exact Hsub.
Defined.

(** * The preview run on an empty valid set *)

Section EmptyValid.
Variable g : Graph.

Lemma court_seeds_empty R2 maxTiles tpc cs : ∀ st,
  court_seeds g [] R2 maxTiles tpc st cs = Some st.
Proof.
  unfold court_seeds. induction cs as [|c cs IH]; intros st; cbn [foldl]; [done|].
  assert (court_seed g [] R2 maxTiles tpc st c = Some st) as Hc.
  { unfold court_seed. by destruct (idByXY g !! key c.1 c.2). }
  cbn [mbind option_bind]. rewrite Hc. apply IH.
Qed.

Lemma detectFoodCourts_empty R2 maxTiles tpc threshold shops :
  detectFoodCourts g [] R2 maxTiles tpc threshold shops = Some ([], []).
Proof. unfold detectFoodCourts. by rewrite court_seeds_empty. Qed.

Lemma buildHandymanZones_empty s env reserved courts old :
  buildHandymanZones g s env [] reserved courts old = Some old.
Proof. reflexivity. Qed.

Lemma collect_exits_empty m exits :
  collect_exits g [] m = Some exits → exits = [].
Proof.
  unfold collect_exits. generalize (grid (map_w m) (map_h m)). intros l.
  enough (∀ acc, foldl (λ acc xy,
              exits ← acc; els ← getTile m xy.1 xy.2;
              Some (foldl (λ exits el,
                 if String.eqb (el_type el) "rideExit" then
                   match idByXY g !! key (Z.of_nat xy.1) (Z.of_nat xy.2) with
                   | Some nid =>
                     if set_has [] nid
                     then exits ++ [mkExit nid (Z.of_nat xy.1) (Z.of_nat xy.2) (el_ride el)
                                           (ride_name <$> map_rides m (el_ride el))]
                     else exits
                   | None => exits
                   end
                 else exits) exits els)) acc l = Some exits → acc = Some exits) as H.
  { intros Hf. apply H in Hf. by injection Hf. }
  induction l as [|xy l IH]; intros acc Hf; cbn [foldl] in Hf; [done|].
  apply IH in Hf. destruct acc as [ex|]; [|done]. cbn [mbind option_bind] in Hf.
  destruct (getTile m xy.1 xy.2) as [els|]; [|done]. cbn [mbind option_bind] in Hf.
  rewrite <- Hf. f_equal. symmetry. clear.
  revert ex. induction els as [|el els IHe]; intros ex; cbn [foldl]; [done|].
  destruct (String.eqb _ _); [|apply IHe].
  destruct (idByXY g !! _); apply IHe.
Qed.

Lemma scan_total {A} (m : GameMap) (f : nat * nat → A → list Element → A) l : ∀ acc,
  (∀ xy, xy ∈ l → is_Some (getTile m xy.1 xy.2)) →
  is_Some (foldl (λ acc xy, a ← acc; els ← getTile m xy.1 xy.2; Some (f xy a els))
                 (Some acc) l).
Proof.
  induction l as [|xy l IH]; intros acc Hl; cbn [foldl]; [by eexists|].
  destruct (Hl xy) as [els Hels]; [left|]. cbn [mbind option_bind]. rewrite Hels.
  cbn [mbind option_bind]. apply IH. intros xy' Hin. apply Hl. by right.
Qed.

Lemma buildMechanicRoutes_empty s m r :
  buildMechanicRoutes s m g [] = Some r → r = ([], []).
Proof.
  unfold buildMechanicRoutes. intros H.
  apply bind_Some in H as (exits & He & H). apply collect_exits_empty in He as ->.
  vm_compute in H. by injection H.
Qed.
End EmptyValid.

Lemma kpi_warnings_empty s :
  kpi_warnings s 0 0 [] []
  = (if enableHandymen s then [CoverageWarning 0] else [])
    ++ (if enableMechanics s then [NoMechanicClusters] else []).
Proof.
  unfold kpi_warnings. rewrite andb_false_r, app_nil_r. by destruct (enableHandymen s).
Qed.

(** C8, as stated, fails: with handyman and mechanic planning both
    switched off, a map without attractors is pruned to nothing and the
    preview reports no warning at all. *)
Lemma empty_plan_without_warning :
  ∃ plan, onPreview quiet_settings (mkEnv 0 0) bare_path_map = Some plan
          ∧ pruned_valid quiet_settings bare_path_map = Some []
          ∧ validNodeIds plan = []
          ∧ warnings plan = [].
Proof.
  eexists. split; [vm_compute; reflexivity|].
  split; [vm_compute; reflexivity|]. split; reflexivity.
Qed.

(** C8, amended: when pruning leaves no valid node and handyman or
    mechanic planning is enabled (both are by default), the plan of the
    preview carries a warning: "Coverage 0%" for handymen, "No mechanic
    clusters detected" for mechanics.  Such a plan is produced whenever the
    host returns a tile for every grid position. *)
Theorem empty_valid_set_is_warned s env m :
  enableHandymen s || enableMechanics s = true →
  (∀ plan, onPreview s env m = Some plan → validNodeIds plan = [] →
           warnings plan
           = (if enableHandymen s then [CoverageWarning 0] else [])
             ++ (if enableMechanics s then [NoMechanicClusters] else [])
           ∧ warnings plan ≠ [])
  ∧ ((∀ x y, x < map_w m → y < map_h m → is_Some (getTile m x y)) →
     pruned_valid s m = Some [] →
     ∃ plan, onPreview s env m = Some plan ∧ validNodeIds plan = []).
Proof.
  intros Hflag. split.
  - intros plan Hp Hv. unfold onPreview in Hp.
    apply bind_Some in Hp as (bg & Hbg & Hp).
    apply bind_Some in Hp as (valid & Hvalid & Hp).
    apply bind_Some in Hp as ([courts reserved] & Hc & Hp).
    apply bind_Some in Hp as (zones & Hz & Hp).
    apply bind_Some in Hp as ([exits clusters] & Hm & Hp).
    injection Hp as <-. cbn [validNodeIds computeKpis warnings snd] in *. subst valid.
    assert (courts = [] ∧ reserved = []) as [-> ->].
    { destruct (enableFoodCourts s); [|by injection Hc].
      apply bind_Some in Hc as (shops & _ & Hc).
      rewrite detectFoodCourts_empty in Hc. by injection Hc. }
    assert (zones = []) as ->.
    { destruct (enableHandymen s); [|by injection Hz].
      rewrite buildHandymanZones_empty in Hz. by injection Hz. }
    assert (clusters = []) as ->.
    { destruct (enableMechanics s); [|by injection Hm].
      apply buildMechanicRoutes_empty in Hm. by injection Hm. }
    cbn [map sum_list sum_list_with length]. rewrite kpi_warnings_empty. split; [done|].
    destruct (enableHandymen s), (enableMechanics s); done.
  - intros Htiles Hpr. unfold pruned_valid in Hpr. unfold onPreview.
    apply bind_Some in Hpr as (bg & Hbg & Hpr). rewrite Hbg. cbn [mbind option_bind].
    rewrite Hpr. cbn [mbind option_bind].
    assert (∃ cr, (if enableFoodCourts s
                   then shops ← getLikelyShopEntranceCoords m;
                        detectFoodCourts (bg_graph bg) [] (foodCourtRadius s * foodCourtRadius s)
                          (foodCourtMaxTiles s) (foodCourtTilesPerCleaner s)
                          (foodCourtStallThreshold s) shops
                   else Some ([], [])) = Some cr) as [[courts reserved] ->].
    { destruct (enableFoodCourts s); [|by eexists].
      destruct (scan_total m (λ xy coords els,
                   foldl (λ coords el,
                            if String.eqb (el_type el) "rideEntrance"
                               && isStallRide (map_rides m (el_ride el))
                            then coords ++ [(Z.of_nat xy.1, Z.of_nat xy.2)]
                            else coords) coords els)
                 (grid (map_w m) (map_h m)) []) as [shops Hs].
      { intros [x y] Hxy. apply elem_of_grid in Hxy as [??]. by apply Htiles. }
      unfold getLikelyShopEntranceCoords. rewrite Hs. cbn [mbind option_bind].
      rewrite detectFoodCourts_empty. by eexists. }
    cbn [mbind option_bind].
    assert (∃ zones, (if enableHandymen s
                      then buildHandymanZones (bg_graph bg) s env [] reserved courts []
                      else Some []) = Some zones) as [zones ->].
    { destruct (enableHandymen s); by eexists. }
    cbn [mbind option_bind].
    assert (∃ ec, (if enableMechanics s then buildMechanicRoutes s m (bg_graph bg) []
                   else Some ([], [])) = Some ec) as [[exits clusters] ->].
    { destruct (enableMechanics s); [|by eexists].
      unfold buildMechanicRoutes.
      destruct (scan_total m (λ xy exits els,
                   foldl (λ exits el,
                      if String.eqb (el_type el) "rideExit" then
                        match idByXY (bg_graph bg) !! key (Z.of_nat xy.1) (Z.of_nat xy.2) with
                        | Some nid =>
                          if set_has [] nid
                          then exits ++ [mkExit nid (Z.of_nat xy.1) (Z.of_nat xy.2) (el_ride el)
                                                (ride_name <$> map_rides m (el_ride el))]
                          else exits
                        | None => exits
                        end
                      else exits) exits els)
                 (grid (map_w m) (map_h m)) []) as [exits He].
      { intros [x y] Hxy. apply elem_of_grid in Hxy as [??]. by apply Htiles. }
      unfold collect_exits at 1. rewrite He. cbn [mbind option_bind].
      assert (exits = []) as -> by by apply (collect_exits_empty (bg_graph bg) m).
      vm_compute. by eexists. }
    cbn [mbind option_bind]. destruct (computeKpis _ _ _ _ _ _). eexists. done.
Qed.

Lemma empty_valid_set_is_warned_witness :
  (∀ plan, onPreview default_settings (mkEnv 0 0) bare_path_map = Some plan →
           validNodeIds plan = [] →
           warnings plan = [CoverageWarning 0] ++ [NoMechanicClusters]
           ∧ warnings plan ≠ [])
  ∧ ((∀ x y, x < map_w bare_path_map → y < map_h bare_path_map →
             is_Some (getTile bare_path_map x y)) →
     pruned_valid default_settings bare_path_map = Some [] →
     ∃ plan, onPreview default_settings (mkEnv 0 0) bare_path_map = Some plan
             ∧ validNodeIds plan = []).
Proof.
  apply (empty_valid_set_is_warned default_settings (mkEnv 0 0) bare_path_map).
  reflexivity.
Defined.

(** * The route tree: Prim's algorithm *)

Section Reaches.
Implicit Types (T : list (nat * nat)) (U : list nat).

Lemma reaches_mono T T' U U' x :
  (∀ e, e ∈ T → e ∈ T') → (∀ y, y ∈ U → y ∈ U') →
  reaches T U x → reaches T' U' x.
Proof.
  intros HT HU Hr. induction Hr as [x Hx|x y Hxy _ IH].
  - apply reaches_in. auto.
  - apply (reaches_step _ _ x y); [|done]. destruct Hxy; auto.
Qed.

Lemma reaches_absorb T U y v x :
  reaches T (y :: U) x → reaches T (v :: U) y → reaches T (v :: U) x.
Proof.
  intros Hx Hy. induction Hx as [x Hx|x z Hxz _ IH].
  - apply elem_of_cons in Hx as [->|Hx]; [done|]. apply reaches_in. by right.
  - by apply (reaches_step _ _ x z).
Qed.

(** A path from a vertex outside [U] into [U] crosses the cut, and the
    crossing edge can be traded for the vertex. *)
Lemma reaches_crossing T U v :
  reaches T U v → v ∉ U →
  ∃ a b T1 T2 e,
    T = T1 ++ e :: T2 ∧ (e = (a, b) ∨ e = (b, a)) ∧ a ∈ U ∧ (b ∉ U)
    ∧ ∀ x, reaches T U x → reaches (T1 ++ T2) (v :: U) x.
Proof.
  intros Hr. induction Hr as [x Hx|x y Hxy Hy IH]; intros Hv; [done|].
  destruct (decide (y ∈ U)) as [HyU|HyU].
  - (* the first edge crosses *)
    assert (∃ e, e ∈ T ∧ (e = (y, x) ∨ e = (x, y))) as (e & He & Hor).
    { destruct Hxy as [H|H]; eexists; split; eauto. }
    apply list_elem_of_split in He as (T1 & T2 & ->).
    exists y, x, T1, T2, e. split; [done|]. split; [done|]. split; [done|]. split; [done|].
    intros z Hz. induction Hz as [z Hz|z z' Hzz' _ IHz].
    + apply reaches_in. by right.
    + assert (Hcase : ((z, z') ∈ T1 ++ T2 ∨ (z', z) ∈ T1 ++ T2) ∨ z = x ∨ z = y).
      { destruct Hzz' as [H|H]; apply elem_of_app in H as [H|H];
          try (left; left; apply elem_of_app; by left);
          try (left; right; apply elem_of_app; by left);
          apply elem_of_cons in H as [H|H];
          try (left; left; apply elem_of_app; by right);
          try (left; right; apply elem_of_app; by right);
          right; destruct Hor as [-> | ->]; injection H as ??; subst; auto. }
      destruct Hcase as [Hin|[->| ->]].
      * by apply (reaches_step _ _ z z').
      * apply reaches_in. left.
      * apply reaches_in. by right.
  - (* the path continues outside [U] *)
    destruct (IH HyU) as (a & b & T1 & T2 & e & -> & Hor & Ha & Hb & Hall).
    exists a, b, T1, T2, e. split; [done|]. split; [done|]. split; [done|]. split; [done|].
    assert (Hxy' : (x, y) ∈ T1 ++ T2 ∨ (y, x) ∈ T1 ++ T2).
    { destruct Hxy as [H|H]; apply elem_of_app in H as [H|H];
        try (left; apply elem_of_app; by left);
        try (right; apply elem_of_app; by left);
        apply elem_of_cons in H as [H|H];
        try (left; apply elem_of_app; by right);
        try (right; apply elem_of_app; by right);
        exfalso; destruct Hor as [-> | ->]; injection H as ??; subst; done. }
    intros z Hz. apply (reaches_absorb _ _ y); [by apply Hall|].
    apply (reaches_step _ _ y x).
    + destruct Hxy'; auto.
    + apply reaches_in. left.
Qed.
End Reaches.

Section PrimFacts.
Variable dist : list (list Z).

#[local] Abbreviation d := (dist_at dist).
#[local] Abbreviation weight := (edges_weight dist).

Lemma edges_weight_app es es' : weight (es ++ es') = (weight es + weight es')%Z.
Proof.
  unfold edges_weight. induction es as [|e es IH]; simpl; [done|]. rewrite IH. lia.
Qed.

Lemma edges_weight_nonneg (c : list nat) T :
  (∀ u v, u ∈ c → v ∈ c → 0 ≤ d u v)%Z →
  (∀ e, e ∈ T → e.1 ∈ c ∧ e.2 ∈ c) → (0 ≤ weight T)%Z.
Proof.
  intros Hpos. unfold edges_weight. induction T as [|e T IH]; intros HT; simpl; [done|].
  destruct (HT e) as [H1 H2]; [left|]. specialize (Hpos _ _ H1 H2).
  assert (0 ≤ foldr (λ e acc, d e.1 e.2 + acc) 0 T)%Z; [|lia].
  apply IH. intros e' He'. apply HT. by right.
Qed.

(** ** The edge selection *)

Lemma pick_ok_iff S S' st :
  (∀ u v, S u v ↔ S' u v) → pick_ok dist S st → pick_ok dist S' st.
Proof.
  intros Heq [Hmin Hbest]. split.
  - intros u v Huv. apply Hmin. by apply Heq.
  - destruct st as [[[u v]|] w]; simpl in *; [|done]. by rewrite <- Heq.
Qed.

Lemma pick_inner used u (l : list nat) : ∀ S st,
  pick_ok dist S st →
  pick_ok dist (λ u' v', S u' v' ∨ (u' = u ∧ v' ∈ l ∧ v' ∉ used))
    (foldl (λ '(best, bestw) v,
              if set_has used v then (best, bestw)
              else let w := d u v in
                   if (w <? bestw)%Z then (Some (u, v), w) else (best, bestw))
           st l).
Proof.
  induction l as [|v l IH]; intros S st Hok; cbn [foldl].
  - eapply pick_ok_iff; [|done]. intros u' v'. split; [auto|].
    intros [?|(_ & Hc & _)]; [done|by apply elem_of_nil in Hc].
  - eapply pick_ok_iff; [|apply (IH (λ u' v', S u' v' ∨ (u' = u ∧ v' = v ∧ v' ∉ used)))].
    + intros u' v'. rewrite elem_of_cons. tauto.
    + destruct st as [best bestw]. destruct Hok as [Hmin Hbest]. simpl in Hmin, Hbest.
      destruct (set_has used v) eqn:Hv.
      * apply set_has_true in Hv. split; simpl.
        -- intros u' v' [HS|(-> & -> & Hn)]; [by apply Hmin|done].
        -- destruct best as [[bu bv]|]; [|done]. destruct Hbest as (? & ? & ?). auto.
      * apply set_has_false in Hv. cbn zeta. destruct (d u v <? bestw)%Z eqn:Hlt.
        -- apply Z.ltb_lt in Hlt. split; simpl.
           ++ intros u' v' [HS|(-> & -> & Hn)]; [|lia]. specialize (Hmin _ _ HS). lia.
           ++ split; [by right|]. split; [done|].
              destruct best as [[bu bv]|]; [destruct Hbest as (_ & _ & ?); lia|lia].
        -- apply Z.ltb_ge in Hlt. split; simpl.
           ++ intros u' v' [HS|(-> & -> & Hn)]; [by apply Hmin|done].
           ++ destruct best as [[bu bv]|]; [|done]. destruct Hbest as (? & ? & ?). auto.
Qed.

Lemma pick_outer c used (us : list nat) : ∀ S st,
  pick_ok dist S st →
  pick_ok dist (λ u v, S u v ∨ (u ∈ us ∧ v ∈ c ∧ v ∉ used))
    (foldl (λ st u,
              foldl (λ '(best, bestw) v,
                       if set_has used v then (best, bestw)
                       else let w := d u v in
                            if (w <? bestw)%Z then (Some (u, v), w) else (best, bestw))
                    st c)
           st us).
Proof.
  induction us as [|u us IH]; intros S st Hok; cbn [foldl].
  - eapply pick_ok_iff; [|done]. intros u' v'. split; [auto|].
    intros [?|(Hc & _)]; [done|by apply elem_of_nil in Hc].
  - eapply pick_ok_iff; [|apply IH, (pick_inner used u c), Hok].
    intros u' v'. cbn beta. rewrite elem_of_cons. split.
    + intros [[?|(-> & ? & ?)]|(? & ? & ?)]; auto.
    + intros [?|([->|?] & ? & ?)]; auto.
Qed.

Lemma prim_pick_ok c used :
  pick_ok dist (λ u v, u ∈ used ∧ v ∈ c ∧ v ∉ used) (prim_pick dist c used).
Proof.
  unfold prim_pick. eapply pick_ok_iff; [|apply (pick_outer c used used (λ _ _, False))].
  - intros u v. tauto.
  - split; simpl; [by intros|done].
Qed.
End PrimFacts.

Lemma pigeonhole (c used : list nat) :
  NoDup c → length used < length c → ∃ v, v ∈ c ∧ v ∉ used.
Proof.
  intros Hnd Hlen. destruct (decide (Forall (λ v, v ∈ used) c)) as [Hall|Hex].
  - rewrite Forall_forall in Hall.
    pose proof (submseteq_length _ _ (NoDup_submseteq _ _ Hnd Hall)). lia.
  - apply not_Forall_Exists in Hex; [|apply _].
    apply Exists_exists in Hex as (v & Hv & Hn). by exists v.
Qed.

Lemma full_cover (c used : list nat) :
  NoDup used → (∀ x, x ∈ used → x ∈ c) → length c ≤ length used →
  length used = length c ∧ ∀ x, x ∈ c → x ∈ used.
Proof.
  intros Hnd Hsub Hlen. pose proof (NoDup_submseteq _ _ Hnd Hsub) as Hms.
  pose proof (submseteq_length _ _ Hms). split; [lia|].
  intros x Hx. by rewrite (submseteq_length_Permutation _ _ Hms Hlen).
Qed.

Section PrimLoop.
Variable dist : list (list Z).
Variable c : list nat.
Variable c0 : nat.

#[local] Abbreviation d := (dist_at dist).
#[local] Abbreviation weight := (edges_weight dist).

Hypothesis c_nodup : NoDup c.
Hypothesis c_first : c0 ∈ c.
Hypothesis d_sym : ∀ u v, u ∈ c → v ∈ c → d u v = d v u.
Hypothesis d_finite : ∀ u v, u ∈ c → v ∈ c → u ≠ v → (d u v < INF)%Z.
Hypothesis d_nonneg : ∀ u v, u ∈ c → v ∈ c → (0 ≤ d u v)%Z.

Lemma prim_inv_init : prim_inv c c0 [c0] [].
Proof.
  split.
  - apply NoDup_singleton.
  - intros x Hx. by apply list_elem_of_singleton in Hx as ->.
  - done.
  - intros e He. by apply elem_of_nil in He.
  - intros x Hx. by apply reaches_in.
Qed.

Lemma prim_step used edgesC :
  prim_inv c c0 used edgesC → length used < length c →
  ∃ u v,
    prim_pick dist c used = (Some (u, v), d u v)
    ∧ u ∈ used ∧ v ∈ c ∧ ¬ v ∈ used
    ∧ (∀ u' v', u' ∈ used → v' ∈ c → v' ∉ used → d u v ≤ d u' v')%Z
    ∧ prim_inv c c0 (set_add used v) (edgesC ++ [(u, v)]).
Proof.
  intros [Hnd Hsub Hlen Hedges Hreach] Hlt.
  destruct (pigeonhole c used c_nodup Hlt) as (v' & Hv' & Hn').
  assert (∃ u', u' ∈ used) as [u' Hu'].
  { destruct used as [|u' used']; [simpl in Hlen; lia|]. exists u'. left. }
  pose proof (prim_pick_ok dist c used) as [Hmin Hbest].
  destruct (prim_pick dist c used) as [[[u v]|] w] eqn:Hp; simpl in Hmin, Hbest.
  - destruct Hbest as ((Hu & Hv & Hn) & -> & _). exists u, v.
    split; [done|]. split; [done|]. split; [done|]. split; [done|].
    split; [intros; by apply Hmin|].
    rewrite set_add_fresh by done. split.
    + apply NoDup_app. split; [done|]. split; [|apply NoDup_singleton].
      intros x Hx Hx'. apply list_elem_of_singleton in Hx' as ->. done.
    + intros x Hx. apply elem_of_app in Hx as [Hx|Hx]; [by apply Hsub|].
      by apply list_elem_of_singleton in Hx as ->.
    + rewrite !length_app. simpl. lia.
    + intros e He. apply elem_of_app in He as [He|He]; [by apply Hedges|].
      apply list_elem_of_singleton in He as ->. simpl. auto.
    + intros x Hx. apply elem_of_app in Hx as [Hx|Hx].
      * apply (reaches_mono edgesC _ [c0] [c0]); [|done|by apply Hreach].
        intros e He. apply elem_of_app. by left.
      * apply list_elem_of_singleton in Hx as ->.
        apply (reaches_step _ _ v u).
        -- right. apply elem_of_app. right. left.
        -- apply (reaches_mono edgesC _ [c0] [c0]); [|done|by apply Hreach].
           intros e He. apply elem_of_app. by left.
  - exfalso. subst w.
    assert (INF ≤ d u' v')%Z as Hle by (apply Hmin; done).
    assert (d u' v' < INF)%Z; [|lia].
    apply d_finite; [by apply Hsub|done|]. intros ->. done.
Qed.

Lemma prim_loop_done used edgesC (T : list (nat * nat)) :
  prim_inv c c0 used edgesC → length c ≤ length used →
  (∀ e, e ∈ T → e.1 ∈ c ∧ e.2 ∈ c) →
  length edgesC = length c - 1
  ∧ (∀ x, x ∈ c → reaches edgesC [c0] x)
  ∧ (weight edgesC ≤ weight edgesC + weight T)%Z.
Proof.
  intros [Hnd Hsub Hlen Hedges Hreach] Hge HT.
  destruct (full_cover c used Hnd Hsub Hge) as [Heq Hall].
  split; [lia|]. split; [intros x Hx; by apply Hreach, Hall|].
  pose proof (edges_weight_nonneg dist c T d_nonneg HT). lia.
Qed.

Lemma prim_loop_spec fuel : ∀ used edgesC,
  prim_inv c c0 used edgesC → length c ≤ fuel + length used →
  length (prim_loop dist fuel c used edgesC) = length c - 1
  ∧ (∀ e, e ∈ prim_loop dist fuel c used edgesC → e.1 ∈ c ∧ e.2 ∈ c)
  ∧ (∀ x, x ∈ c → reaches (prim_loop dist fuel c used edgesC) [c0] x)
  ∧ ∀ T, (∀ e, e ∈ T → e.1 ∈ c ∧ e.2 ∈ c) →
         (∀ x, x ∈ c → reaches T used x) →
         (weight (prim_loop dist fuel c used edgesC) ≤ weight edgesC + weight T)%Z.
Proof.
  induction fuel as [|fuel IH]; intros used edgesC Hinv Hfuel; cbn [prim_loop].
  - assert (length c ≤ length used) as Hge by lia.
    destruct (prim_loop_done used edgesC [] Hinv Hge) as (H1 & H2 & _).
    { intros e He. by apply elem_of_nil in He. }
    split; [done|]. split; [by destruct Hinv|]. split; [done|].
    intros T HT _. by destruct (prim_loop_done used edgesC T Hinv Hge HT) as (_ & _ & ?).
  - destruct (length used <? length c) eqn:Hlt.
    + apply Nat.ltb_lt in Hlt.
      destruct (prim_step used edgesC Hinv Hlt) as (u & v & Hp & Hu & Hv & Hn & Hmin & Hinv').
      rewrite Hp.
      destruct (IH (set_add used v) (edgesC ++ [(u, v)]) Hinv') as (H1 & H2 & H3 & H4).
      { rewrite set_add_fresh, length_app by done. simpl. lia. }
      split; [done|]. split; [done|]. split; [done|].
      intros T HT Hall.
      destruct (reaches_crossing T used v (Hall v Hv) Hn)
        as (a & b & T1 & T2 & e & -> & Hor & Ha & Hb & Hrest).
      assert (e.1 ∈ c ∧ e.2 ∈ c) as [He1 He2].
      { apply HT. apply elem_of_app. right. left. }
      assert (d e.1 e.2 = d a b ∧ b ∈ c) as [Hw Hbc].
      { destruct Hor as [-> | ->]; simpl in *; [done|]. split; [by apply d_sym|done]. }
      specialize (H4 (T1 ++ T2)). 
      assert (weight (prim_loop dist fuel c (set_add used v) (edgesC ++ [(u, v)]))
              ≤ weight (edgesC ++ [(u, v)]) + weight (T1 ++ T2))%Z as Hle.
      { apply H4.
        - intros e' He'. apply HT. apply elem_of_app in He' as [?|?];
            apply elem_of_app; [by left|right; by right].
        - intros x Hx. rewrite set_add_fresh by done.
          apply (reaches_mono (T1 ++ T2) _ (v :: used)); [done| |by apply Hrest, Hall].
          intros y Hy. apply elem_of_cons in Hy as [->|Hy]; apply elem_of_app;
            [right; left|by left]. }
      rewrite !edges_weight_app in *.
      change (weight (e :: T2)) with (d e.1 e.2 + weight T2)%Z.
      change (weight [(u, v)]) with (d u v + 0)%Z in Hle.
      specialize (Hmin a b Ha Hbc Hb). lia.
    + apply Nat.ltb_ge in Hlt.
      destruct (prim_loop_done used edgesC [] Hinv Hlt) as (H1 & H2 & _).
      { intros e He. by apply elem_of_nil in He. }
      split; [done|]. split; [by destruct Hinv|]. split; [done|].
      intros T HT _. by destruct (prim_loop_done used edgesC T Hinv Hlt HT) as (_ & _ & ?).
Qed.
End PrimLoop.

(** * Route reconstruction *)

Section PathFacts.
Variable g : Graph.
Variable valid : list nat.

Lemma bfs_visit_wf v d q nb :
  is_Some (bfs_dist d !! v) → bfs_wf valid d q →
  bfs_wf valid (bfs_visit valid v (d, q) nb).1 (bfs_visit valid v (d, q) nb).2
  ∧ is_Some (bfs_dist (bfs_visit valid v (d, q) nb).1 !! v).
Proof.
  intros [zv Hzv] Hwf. split; [|eapply mk_is_Some, bfs_visit_keeps, Hzv].
  pose proof (bfs_visit_measure valid v d q nb) as Hm.
  unfold bfs_visit in *. destruct (set_has valid nb) eqn:Hv; cbn [negb fst snd] in *; [|done].
  destruct (bool_decide (is_Some (bfs_dist d !! nb))) eqn:Hs; cbn [fst snd] in *; [done|].
  apply bool_decide_eq_false in Hs.
  assert (bfs_dist d !! nb = None) as Hn.
  { destruct (bfs_dist d !! nb) eqn:E; [|done]. exfalso. apply Hs. by eexists. }
  destruct Hwf as [Hr Hp Hq Hsz].
  assert (Hsize : size (<[nb:=(bfs_dist d !!! v + 1)%Z]> (bfs_dist d)) = S (size (bfs_dist d)))
    by by apply map_size_insert_None.
  rewrite (lookup_total_correct _ _ _ Hzv) in *.
  split; cbn [bfs_dist bfs_prev].
  - intros x z Hx. rewrite Hsize. destruct (decide (nb = x)) as [->|Hne].
    + rewrite lookup_insert_eq in Hx. injection Hx as <-. specialize (Hr _ _ Hzv). lia.
    + rewrite lookup_insert_ne in Hx by done. specialize (Hr _ _ Hx). lia.
  - intros x p Hx. destruct (decide (nb = x)) as [->|Hne].
    + rewrite lookup_insert_eq in Hx. injection Hx as <-. exists zv.
      rewrite lookup_insert_eq. split; [|done].
      rewrite lookup_insert_ne; [done|]. intros ->. congruence.
    + rewrite lookup_insert_ne in Hx by done.
      destruct (Hp _ _ Hx) as (z & Hz1 & Hz2). exists z.
      rewrite !lookup_insert_ne; [done|done|]. intros ->. congruence.
  - intros x Hx. apply elem_of_app in Hx as [Hx|Hx].
    + apply lookup_insert_is_Some'. right. by apply Hq.
    + apply list_elem_of_singleton in Hx as ->. rewrite lookup_insert_eq. by eexists.
  - rewrite Hsize. rewrite length_app in Hm. simpl in Hm. cbn [bfs_dist] in Hm. 
    unfold bfs_unseen in *. cbn [bfs_dist] in *. lia.
Qed.

Lemma bfs_fold_wf v nbs : ∀ d q,
  is_Some (bfs_dist d !! v) → bfs_wf valid d q →
  bfs_wf valid (foldl (bfs_visit valid v) (d, q) nbs).1
               (foldl (bfs_visit valid v) (d, q) nbs).2.
Proof.
  induction nbs as [|nb nbs IH]; intros d q Hv Hwf; cbn [foldl]; [done|].
  destruct (bfs_visit_wf v d q nb Hv Hwf) as [Hwf1 Hv1].
  destruct (bfs_visit valid v (d, q) nb) as [d1 q1]. by apply IH.
Qed.

Lemma bfs_loop_wf fuel : ∀ d q d',
  bfs_wf valid d q → bfs_loop g valid fuel d q = Some d' → bfs_wf valid d' [].
Proof.
  induction fuel as [|fuel IH]; intros d q d' Hwf Hl.
  - destruct q; [|done]. by injection Hl as <-.
  - destruct q as [|v q]; [by injection Hl as <-|]. cbn [bfs_loop] in Hl.
    assert (bfs_wf valid d q) as Hwf'.
    { destruct Hwf as [Hr Hp Hq Hsz]. split; [done|done| |done].
      intros x Hx. apply Hq. by right. }
    assert (is_Some (bfs_dist d !! v)) as Hv by (apply Hwf; left).
    pose proof (bfs_fold_wf v (edges g !!! v) d q Hv Hwf') as Hf.
    destruct (foldl _ _ _) as [d1 q1]. by eapply IH.
Qed.

Lemma bfsDistances_wf a d : bfsDistances g valid a = Some d → bfs_wf valid d [].
Proof.
  unfold bfsDistances. apply bfs_loop_wf. split; cbn [bfs_dist bfs_prev].
  - intros v z Hv. apply lookup_singleton_Some in Hv as [_ <-].
    rewrite map_size_singleton. lia.
  - intros v p Hv. by rewrite lookup_empty in Hv.
  - intros v Hv. apply list_elem_of_singleton in Hv as ->.
    rewrite lookup_singleton_eq. by eexists.
  - rewrite map_size_singleton.
    pose proof (length_filter (λ v, bfs_dist (mkBfs {[a := 0%Z]} ∅) !! v = None) valid).
    unfold bfs_unseen. lia.
Qed.

Lemma walk_prev_total d a fuel : ∀ cur path z,
  bfs_wf valid d [] → bfs_dist d !! cur = Some z → (z < Z.of_nat fuel)%Z →
  is_Some (walk_prev fuel (bfs_prev d) a cur path).
Proof.
  induction fuel as [|fuel IH]; intros cur path z Hwf Hz Hlt.
  - destruct (bw_range _ _ _ Hwf _ _ Hz). lia.
  - cbn [walk_prev]. destruct (decide (cur = a)); [by eexists|].
    destruct (bfs_prev d !! cur) as [p|] eqn:Hp; [|by eexists].
    destruct (bw_prev _ _ _ Hwf _ _ Hp) as (zp & Hzp & Hzc).
    apply (IH p _ zp); [done|done|]. rewrite Hz in Hzc. injection Hzc as ->. lia.
Qed.

Lemma shortestPathBetween_total a b : is_Some (shortestPathBetween g valid a b).
Proof.
  unfold shortestPathBetween. destruct (bfsDistances_total g valid a) as [d Hd].
  rewrite Hd. cbn [mbind option_bind].
  destruct (bfs_dist d !! b) as [z|] eqn:Hz; [|by eexists].
  pose proof (bfsDistances_wf a d Hd) as Hwf.
  destruct (walk_prev_total d a (S (length valid)) b [b] z Hwf Hz) as [p Hp].
  - destruct (bw_range _ _ _ Hwf _ _ Hz). pose proof (bw_size _ _ _ Hwf). lia.
  - rewrite Hp. by eexists.
Qed.
End PathFacts.

Section RouteFacts.
Variable g : Graph.
Variable valid : list nat.
Variable dist : list (list Z).
Variable exits : list ExitPoint.

Lemma build_routes_spec es : ∀ tiles routes,
  ∃ tiles' routes',
    foldl (build_route g valid exits) (Some (tiles, routes)) es = Some (tiles', routes')
    ∧ map (λ r, (r_from r, r_to r)) routes'
      = map (λ r, (r_from r, r_to r)) routes ++ es.
Proof.
  induction es as [|[u v] es IH]; intros tiles routes; cbn [foldl].
  - exists tiles, routes. by rewrite app_nil_r.
  - destruct (shortestPathBetween_total g valid (exit_node exits u) (exit_node exits v))
      as [sp Hsp].
    unfold build_route at 2. cbn [mbind option_bind fst snd]. rewrite Hsp.
    cbn [mbind option_bind].
    destruct (IH (foldl set_add tiles sp) (routes ++ [mkRoute u v sp]))
      as (tiles' & routes' & Hf & Hm).
    exists tiles', routes'. split; [done|]. rewrite Hm, map_app, <- app_assoc. done.
Qed.

Lemma build_cluster_spec c :
  ∃ mc, build_cluster g valid dist exits c = Some mc
        ∧ mc_exits mc = c
        ∧ route_ends (mc_routes mc) = prim_edges dist c.
Proof.
  unfold build_cluster.
  destruct (build_routes_spec (prim_edges dist c) [] []) as (tiles & routes & Hf & Hm).
  rewrite Hf. cbn [mbind option_bind]. eexists. split; [done|]. done.
Qed.
End RouteFacts.

(** * Minimum spanning trees of clusters *)

Lemma prim_edges_minimal dist c :
  NoDup c →
  (∀ u v, u ∈ c → v ∈ c → dist_at dist u v = dist_at dist v u) →
  (∀ u v, u ∈ c → v ∈ c → u ≠ v → (dist_at dist u v < INF)%Z) →
  (∀ u v, u ∈ c → v ∈ c → (0 ≤ dist_at dist u v)%Z) →
  length (prim_edges dist c) = length c - 1
  ∧ mst_weight dist c (edges_weight dist (prim_edges dist c)).
Proof.
  intros Hnd Hsym Hfin Hpos. destruct c as [|c0 rest].
  - split; [done|]. split.
    + exists []. split; [|done]. split; [|done]. split.
      * intros e He. by apply elem_of_nil in He.
      * intros x Hx. by apply elem_of_nil in Hx.
    + intros T [_ HT]. destruct T; [done|simpl in HT; lia].
  - assert (c0 ∈ c0 :: rest) as Hc0 by left.
    destruct (prim_loop_spec dist (c0 :: rest) c0 Hnd Hsym Hfin Hpos
                (length (c0 :: rest)) [c0] [])
      as (Hlen & Hin & Hreach & Hmin).
    { by apply prim_inv_init. }
    { simpl. lia. }
    change (prim_edges dist (c0 :: rest))
      with (prim_loop dist (length (c0 :: rest)) (c0 :: rest) [c0] []).
    split; [done|]. split.
    + eexists. split; [|done]. split; [|done]. split; [done|]. done.
    + intros T [[HT Hspan] _]. specialize (Hmin T HT Hspan).
      change (edges_weight dist []) with 0%Z in Hmin. lia.
Qed.

(** A cluster of distinct members with finite, symmetric, non-negative
    pairwise distances gets the tree of Prim's loop as its routes, and that
    tree is a minimum spanning tree. *)
Lemma cluster_routes_minimal g valid exits dist c :
  NoDup c →
  (∀ u v, u ∈ c → v ∈ c → dist_at dist u v = dist_at dist v u) →
  (∀ u v, u ∈ c → v ∈ c → u ≠ v → (dist_at dist u v < INF)%Z) →
  (∀ u v, u ∈ c → v ∈ c → (0 ≤ dist_at dist u v)%Z) →
  ∃ mc, build_cluster g valid dist exits c = Some mc
        ∧ mc_exits mc = c
        ∧ length (mc_routes mc) = length c - 1
        ∧ mst_weight dist c (edges_weight dist (route_ends (mc_routes mc))).
Proof.
  intros Hnd Hsym Hfin Hpos.
  destruct (build_cluster_spec g valid dist exits c) as (mc & Hb & Hex & Hends).
  destruct (prim_edges_minimal dist c Hnd Hsym Hfin Hpos) as [Hlen Hmst].
  exists mc. split; [done|]. split; [done|]. rewrite Hends. split; [|done].
  rewrite <- Hlen, <- Hends. unfold route_ends. by rewrite length_map.
Qed.

(** * The greedy clustering of exits *)

Lemma foldl_max_ge (f : nat * nat → Z) (l : list (nat * nat)) : ∀ a,
  (a ≤ foldl (λ dia p, Z.max dia (f p)) a l)%Z
  ∧ ∀ p, p ∈ l → (f p ≤ foldl (λ dia p, Z.max dia (f p)) a l)%Z.
Proof.
  induction l as [|q l IH]; intros a; cbn [foldl].
  - split; [lia|]. intros p Hp. by apply elem_of_nil in Hp.
  - destruct (IH (Z.max a (f q))) as [H1 H2]. split; [lia|].
    intros p Hp. apply elem_of_cons in Hp as [->|Hp]; [lia|by apply H2].
Qed.

Lemma pairs_complete (c : list nat) u v :
  u ∈ c → v ∈ c → u ≠ v → (u, v) ∈ pairs c ∨ (v, u) ∈ pairs c.
Proof.
  induction c as [|a c IH]; intros Hu Hv Hne; [by apply elem_of_nil in Hu|].
  cbn [pairs]. apply elem_of_cons in Hu as [->|Hu], Hv as [->|Hv].
  - done.
  - left. apply elem_of_app. left. apply list_elem_of_fmap. by exists v.
  - right. apply elem_of_app. left. apply list_elem_of_fmap. by exists u.
  - destruct (IH Hu Hv Hne); [left|right]; apply elem_of_app; by right.
Qed.

Section ClusterFacts.
Variable dist : list (list Z).
Variable maxExits : nat.
Variable mstCap diameterCap : Z.

#[local] Abbreviation ok := (cluster_ok dist diameterCap).

Lemma nearest_candidate_spec current unassigned best :
  nearest_candidate dist diameterCap current unassigned = Some best →
  best ∈ unassigned ∧ (diameterWith dist current best ≤ diameterCap)%Z.
Proof.
  unfold nearest_candidate.
  enough (∀ l b bd,
            (∀ x, b = Some x → x ∈ unassigned
                             ∧ (diameterWith dist current x ≤ diameterCap)%Z) →
            (∀ x, x ∈ l → x ∈ unassigned) →
            ∀ x, (foldl (λ '(best, bestd) idx,
                    if (diameterCap <? diameterWith dist current idx)%Z then (best, bestd)
                    else
                      let nd := foldl (λ nd c, Z.min nd (dist_at dist idx c)) INF current in
                      if (nd <? bestd)%Z then (Some idx, nd) else (best, bestd))
                   (b, bd) l).1 = Some x →
                 x ∈ unassigned ∧ (diameterWith dist current x ≤ diameterCap)%Z) as H.
  { intros Hb. by apply (H unassigned None INF). }
  induction l as [|idx l IH]; intros b bd Hb Hl x; cbn [foldl]; [apply Hb|].
  assert (Hl' : ∀ y, y ∈ l → y ∈ unassigned) by (intros y Hy; apply Hl; by right).
  destruct (diameterCap <? diameterWith dist current idx)%Z eqn:Hd; [by apply IH|].
  cbn zeta. destruct (_ <? bd)%Z; [|by apply IH].
  apply IH; [|done]. intros y [= <-]. split; [apply Hl; left|]. by apply Z.ltb_ge in Hd.
Qed.

Lemma grow_cluster_ok fuel : ∀ current unassigned,
  ok current unassigned →
  ok (grow_cluster dist maxExits mstCap diameterCap fuel current unassigned).1
     (grow_cluster dist maxExits mstCap diameterCap fuel current unassigned).2
  ∧ length (grow_cluster dist maxExits mstCap diameterCap fuel current unassigned).2
    ≤ length unassigned.
Proof.
  induction fuel as [|fuel IH]; intros current unassigned Hok; cbn [grow_cluster]; [done|].
  destruct (length current <? maxExits); [|done].
  destruct (nearest_candidate dist diameterCap current unassigned) as [best|] eqn:Hn; [|done].
  apply nearest_candidate_spec in Hn as [Hin Hdia].
  destruct Hok as [Hnd Hpairs].
  assert (Hperm : current ++ unassigned ≡ₚ (current ++ [best]) ++ set_delete unassigned best).
  { rewrite <- app_assoc. apply Permutation_app_head. cbn [app].
    apply set_delete_perm; [|done]. by apply NoDup_app in Hnd as (_ & _ & ?). }
  assert (Hlen : length (set_delete unassigned best) < length unassigned).
  { unfold set_delete. apply (length_filter_lt _ _ best); [done|]. by intros ?. }
  destruct (mstCap <? _)%Z.
  - cbn [fst snd]. split.
    + split; [|done]. rewrite set_add_fresh.
      * assert (current ++ set_delete unassigned best ++ [best]
                ≡ₚ (current ++ [best]) ++ set_delete unassigned best) as ->.
        { rewrite <- app_assoc. apply Permutation_app_head, Permutation_app_comm. }
        by rewrite <- Hperm.
      * rewrite elem_of_set_delete. tauto.
    + rewrite set_add_fresh by (rewrite elem_of_set_delete; tauto).
      rewrite length_app. simpl. lia.
  - destruct (IH (current ++ [best]) (set_delete unassigned best)) as [Hok' Hlen'].
    + split; [by rewrite <- Hperm|]. intros p Hp.
      unfold diameterWith in Hdia.
      destruct (foldl_max_ge (λ p, dist_at dist p.1 p.2) (pairs (current ++ [best])) 0)
        as [_ Hmax].
      specialize (Hmax p Hp). cbn beta in Hmax. lia.
    + split; [done|]. lia.
Qed.

Lemma cluster_loop_spec fuel : ∀ unassigned clusters,
  NoDup unassigned → length unassigned ≤ fuel →
  (∀ c, c ∈ clusters → ok c []) →
  ∃ clusters',
    cluster_loop dist maxExits mstCap diameterCap fuel unassigned clusters = Some clusters'
    ∧ ∀ c, c ∈ clusters' → ok c [].
Proof.
  induction fuel as [|fuel IH]; intros unassigned clusters Hnd Hlen Hcl.
  - destruct unassigned; [|simpl in Hlen; lia]. by exists clusters.
  - destruct unassigned as [|seed unassigned]; [by exists clusters|].
    cbn [cluster_loop].
    destruct (grow_cluster_ok maxExits [seed] unassigned) as [[Hnd' Hp'] Hlen'].
    { split; [done|]. intros p Hp. by apply elem_of_nil in Hp. }
    destruct (grow_cluster _ _ _ _ _ _ _) as [current rest]. cbn [fst snd] in *.
    apply IH.
    + by apply NoDup_app in Hnd' as (_ & _ & ?).
    + simpl in Hlen. lia.
    + intros c Hc. apply elem_of_app in Hc as [Hc|Hc]; [by apply Hcl|].
      apply list_elem_of_singleton in Hc as ->. split; [|done].
      rewrite app_nil_r. by apply NoDup_app in Hnd' as (? & _ & _).
Qed.

Lemma cluster_exits_spec n :
  ∃ clusters,
    cluster_exits dist maxExits mstCap diameterCap n = Some clusters
    ∧ ∀ c, c ∈ clusters →
           NoDup c ∧ ∀ p, p ∈ pairs c → (dist_at dist p.1 p.2 ≤ diameterCap)%Z.
Proof.
  unfold cluster_exits.
  destruct (cluster_loop_spec n (seq 0 n) []) as (clusters & Hc & Hok).
  - apply NoDup_seq.
  - by rewrite length_seq.
  - intros c Hc. by apply elem_of_nil in Hc.
  - exists clusters. split; [done|]. intros c Hin.
    destruct (Hok c Hin) as [Hnd Hp]. rewrite app_nil_r in Hnd. done.
Qed.
End ClusterFacts.

(** The clustering returns, and for a symmetric, non-negative matrix and
    a diameter cap below [1e9], every cluster it finalizes has finite
    pairwise distances and gets a minimum spanning tree as its routes. *)
Lemma clusters_routes_minimal g valid exits dist maxExits mstCap diameterCap n :
  (∀ u v, dist_at dist u v = dist_at dist v u) →
  (∀ u v, (0 ≤ dist_at dist u v)%Z) →
  (diameterCap < INF)%Z →
  ∃ clusters,
    cluster_exits dist maxExits mstCap diameterCap n = Some clusters
    ∧ ∀ c, c ∈ clusters →
        (∀ u v, u ∈ c → v ∈ c → u ≠ v → (dist_at dist u v < INF)%Z)
        ∧ ∃ mc, build_cluster g valid dist exits c = Some mc
                ∧ mc_exits mc = c
                ∧ length (mc_routes mc) = length c - 1
                ∧ mst_weight dist c (edges_weight dist (route_ends (mc_routes mc))).
Proof.
  intros Hsym Hpos Hcap.
  destruct (cluster_exits_spec dist maxExits mstCap diameterCap n) as (clusters & Hc & Hok).
  exists clusters. split; [done|]. intros c Hin. destruct (Hok c Hin) as [Hnd Hpairs].
  assert (Hfin : ∀ u v, u ∈ c → v ∈ c → u ≠ v → (dist_at dist u v < INF)%Z).
  { intros u v Hu Hv Hne. destruct (pairs_complete c u v Hu Hv Hne) as [Hp|Hp].
    - specialize (Hpairs _ Hp). simpl in Hpairs. lia.
    - specialize (Hpairs _ Hp). simpl in Hpairs. rewrite Hsym. lia. }
  split; [done|]. apply cluster_routes_minimal; auto.
Qed.

(** Scenario D: the model reproduces the distances and the clusters the
    specification expects. *)
Lemma scenarioD_clusters :
  pruned_valid default_settings line_map = Some line_valid
  ∧ dist_matrix line_graph line_valid line_exits = Some line_dist
  ∧ cluster_exits line_dist 3 120 100 5 = Some [[0; 1; 2]; [3; 4]].
Proof.
  split; [vm_compute; reflexivity|]. split; vm_compute; reflexivity.
Qed.

(** * The bounded loops never run out of passes *)

Section FuelFacts.
Variable dist : list (list Z).

Lemma approx_pick_fresh used (l : list nat) best v :
  approx_pick dist used l = (best, Some v) → v ∉ used.
Proof.
  unfold approx_pick.
  enough (∀ b bv, (∀ x, bv = Some x → x ∉ used) →
            ∀ x, (foldl (λ '(best, bestV) v,
                     if set_has used v then (best, bestV)
                     else
                       let nd := foldl (λ nd u, Z.min nd (dist_at dist u v)) INF used in
                       if (nd <? best)%Z then (nd, Some v) else (best, bestV))
                    (b, bv) l).2 = Some x → x ∉ used) as H.
  { intros Hp. apply (H INF None); [done|]. apply (f_equal snd) in Hp. exact Hp. }
  induction l as [|a l IH]; intros b bv Hbv x; cbn [foldl]; [apply Hbv|].
  destruct (set_has used a) eqn:Ha; [by apply IH|]. cbn zeta.
  destruct (_ <? b)%Z; [|by apply IH].
  apply IH. intros y [= <-]. by apply set_has_false.
Qed.

(** More passes than [length list - length used] change nothing. *)
Lemma approx_loop_fuel fuel : ∀ list used len,
  length list - length used ≤ fuel →
  approx_loop dist (S fuel) list used len = approx_loop dist fuel list used len.
Proof.
  induction fuel as [|fuel IH]; intros list used len Hf.
  - cbn [approx_loop]. destruct (length used <? length list) eqn:Hlt; [|done].
    apply Nat.ltb_lt in Hlt. lia.
  - cbn [approx_loop] in *. destruct (length used <? length list) eqn:Hlt; [|done].
    destruct (approx_pick dist used list) as [best [v|]] eqn:Hp; [|done].
    apply approx_pick_fresh in Hp. rewrite <- IH; [done|].
    rewrite set_add_fresh, length_app by done. simpl. lia.
Qed.

Lemma prim_loop_fuel fuel : ∀ c used edgesC,
  length c - length used ≤ fuel →
  prim_loop dist (S fuel) c used edgesC = prim_loop dist fuel c used edgesC.
Proof.
  induction fuel as [|fuel IH]; intros c used edgesC Hf.
  - cbn [prim_loop]. destruct (length used <? length c) eqn:Hlt; [|done].
    apply Nat.ltb_lt in Hlt. lia.
  - cbn [prim_loop] in *. destruct (length used <? length c) eqn:Hlt; [|done].
    pose proof (prim_pick_ok dist c used) as [_ Hbest].
    destruct (prim_pick dist c used) as [[[u v]|] w]; [|done].
    simpl in Hbest. destruct Hbest as ((_ & _ & Hn) & _).
    rewrite <- IH; [done|]. rewrite set_add_fresh, length_app by done. simpl. lia.
Qed.

Lemma grow_cluster_fuel maxExits mstCap diameterCap fuel : ∀ current unassigned,
  maxExits - length current ≤ fuel →
  grow_cluster dist maxExits mstCap diameterCap (S fuel) current unassigned
  = grow_cluster dist maxExits mstCap diameterCap fuel current unassigned.
Proof.
  induction fuel as [|fuel IH]; intros current unassigned Hf.
  - cbn [grow_cluster]. destruct (length current <? maxExits) eqn:Hlt; [|done].
    apply Nat.ltb_lt in Hlt. lia.
  - cbn [grow_cluster] in *. destruct (length current <? maxExits) eqn:Hlt; [|done].
    destruct (nearest_candidate dist diameterCap current unassigned) as [best|]; [|done].
    destruct (mstCap <? _)%Z; [done|]. rewrite <- IH; [done|].
    rewrite length_app. simpl. lia.
Qed.
End FuelFacts.

(** * Breadth-first search computes shortest walks *)

Section BfsCorrect.
Variable g : Graph.
Variable valid : list nat.
Variable a : nat.

Lemma bfs_inv_init : bfs_inv g valid a (mkBfs {[a := 0%Z]} ∅) [a].
Proof.
  split; cbn [bfs_dist bfs_prev].
  - apply lookup_singleton_eq.
  - intros v k Hv. apply lookup_singleton_Some in Hv as [<- <-]. split; [done|]. constructor.
  - intros v k j Hv _. apply lookup_singleton_Some in Hv as [<- <-]. simpl. lia.
  - intros u x [k Hu] Hn. apply lookup_singleton_Some in Hu as [<- _].
    exfalso. apply Hn. left.
  - intros v Hv. apply list_elem_of_singleton in Hv as ->.
    rewrite lookup_singleton_eq. by eexists.
  - intros i j vi vj _ Hi Hj.
    apply list_lookup_singleton_Some in Hi as [_ <-], Hj as [_ <-]. lia.
  - intros h v Hh Hv. apply list_elem_of_singleton in Hv as ->.
    injection Hh as <-. lia.
Qed.

Lemma pending_head_le d h rest v :
  bfs_inv g valid a d (h :: rest) → v ∈ h :: rest → (bfs_dist d !!! h ≤ bfs_dist d !!! v)%Z.
Proof.
  intros Hinv Hv. apply list_elem_of_lookup in Hv as [j Hj].
  apply (bi_sorted _ _ _ _ _ Hinv 0 j); [lia|done|done].
Qed.

(** Everything closer than the head of [pending] is reached and
    already expanded. *)
Lemma closer_is_done d h rest i w :
  bfs_inv g valid a d (h :: rest) → walk g valid a i w → (Z.of_nat i < bfs_dist d !!! h)%Z →
  is_Some (bfs_dist d !! w) ∧ w ∉ h :: rest.
Proof.
  intros Hinv Hw. induction Hw as [|k b c Hw IH Hc Hv]; intros Hlt.
  - split; [rewrite (bi_start _ _ _ _ _ Hinv); by eexists|].
    intros Hin. pose proof (pending_head_le d h rest a Hinv Hin) as Hle.
    rewrite (lookup_total_correct _ _ _ (bi_start _ _ _ _ _ Hinv)) in Hle. lia.
  - destruct IH as [Hb Hnb]; [lia|].
    pose proof (bi_closed _ _ _ _ _ Hinv b c Hb Hnb Hc Hv) as [kc Hkc].
    split; [by eexists|]. intros Hin.
    pose proof (pending_head_le d h rest c Hinv Hin) as Hle.
    rewrite (lookup_total_correct _ _ _ Hkc) in Hle.
    pose proof (bi_min _ _ _ _ _ Hinv c kc (S k) Hkc (walk_snoc _ _ _ _ _ _ Hw Hc Hv)).
    destruct (bi_sound _ _ _ _ _ Hinv c kc Hkc) as [Hpos _]. lia.
Qed.

(** One neighbour of the expanded node [u]. *)
Lemma bfs_visit_inv u d q nb :
  bfs_inv g valid a d (u :: q) → nb ∈ edges g !!! u →
  bfs_inv g valid a (bfs_visit valid u (d, q) nb).1 (u :: (bfs_visit valid u (d, q) nb).2)
  ∧ (nb ∈ valid → is_Some (bfs_dist (bfs_visit valid u (d, q) nb).1 !! nb))
  ∧ (∀ x, is_Some (bfs_dist d !! x) →
          is_Some (bfs_dist (bfs_visit valid u (d, q) nb).1 !! x)).
Proof.
  intros Hinv Hnb. unfold bfs_visit.
  destruct (set_has valid nb) eqn:Hv; cbn [negb fst snd].
  2:{ apply set_has_false in Hv. done. }
  apply set_has_true in Hv.
  destruct (bool_decide (is_Some (bfs_dist d !! nb))) eqn:Hs; cbn [fst snd].
  { apply bool_decide_eq_true in Hs. done. }
  apply bool_decide_eq_false in Hs.
  assert (bfs_dist d !! nb = None) as Hn.
  { destruct (bfs_dist d !! nb) eqn:E; [|done]. exfalso. apply Hs. by eexists. }
  destruct (bi_pending _ _ _ _ _ Hinv u) as [du Hdu]; [left|].
  rewrite (lookup_total_correct _ _ _ Hdu).
  destruct (bi_sound _ _ _ _ _ Hinv u du Hdu) as [Hdu0 Hwu].
  assert (Hold : ∀ x, x ≠ nb →
            <[nb:=(du + 1)%Z]> (bfs_dist d) !! x = bfs_dist d !! x).
  { intros x Hx. by rewrite lookup_insert_ne. }
  assert (Hpend : ∀ x, x ∈ u :: q → x ≠ nb).
  { intros x Hx ->. destruct (bi_pending _ _ _ _ _ Hinv nb Hx). congruence. }
  assert (Holdt : ∀ x, x ∈ u :: q →
            <[nb:=(du + 1)%Z]> (bfs_dist d) !!! x = bfs_dist d !!! x).
  { intros x Hx. rewrite !lookup_total_alt, Hold; [done|by apply Hpend]. }
  assert (Hnewt : <[nb:=(du + 1)%Z]> (bfs_dist d) !!! nb = (du + 1)%Z).
  { by rewrite lookup_total_alt, lookup_insert_eq. }
  split; [|split].
  - split; cbn [bfs_dist bfs_prev].
    + rewrite Hold; [apply Hinv|]. intros ->.
      pose proof (bi_start _ _ _ _ _ Hinv). congruence.
    + intros v k Hk. destruct (decide (v = nb)) as [->|Hne].
      * rewrite lookup_insert_eq in Hk. injection Hk as <-. split; [lia|].
        replace (Z.to_nat (du + 1)) with (S (Z.to_nat du)) by lia.
        by apply (walk_snoc _ _ _ _ u).
      * rewrite Hold in Hk by done. by apply Hinv.
    + intros v k j Hk Hw. destruct (decide (v = nb)) as [->|Hne].
      * rewrite lookup_insert_eq in Hk. injection Hk as <-.
        destruct (decide (j ≤ Z.to_nat du)) as [Hle|]; [exfalso|lia].
        inversion Hw as [Ha|k' b c Hw' Hc Hvc]; subst.
        -- pose proof (bi_start _ _ _ _ _ Hinv). congruence.
        -- destruct (closer_is_done d u q k' b Hinv Hw') as [Hb Hnb'].
           { rewrite (lookup_total_correct _ _ _ Hdu). lia. }
           destruct (bi_closed _ _ _ _ _ Hinv b nb Hb Hnb' Hc Hvc). congruence.
      * rewrite Hold in Hk by done. by eapply Hinv.
    + intros u' x Hu' Hn' Hx Hvx.
      assert (u' ≠ nb) as Hne.
      { intros ->. apply Hn'. right. apply elem_of_app. right. left. }
      rewrite Hold in Hu' by done.
      apply lookup_insert_is_Some'. right.
      apply (bi_closed _ _ _ _ _ Hinv u' x); [done| |done|done].
      intros Hin. apply Hn'. apply elem_of_cons in Hin as [->|Hin]; [left|].
      right. apply elem_of_app. by left.
    + intros v Hin. apply lookup_insert_is_Some'.
      apply elem_of_cons in Hin as [->|Hin]; [right; apply Hinv; left|].
      apply elem_of_app in Hin as [Hin|Hin].
      * right. apply Hinv. by right.
      * left. by apply list_elem_of_singleton in Hin.
    + intros i j vi vj Hij Hi Hj.
      change (u :: q ++ [nb]) with ((u :: q) ++ [nb]) in Hi, Hj.
      apply lookup_app_Some in Hi as [Hi|[Hli Hi]], Hj as [Hj|[Hlj Hj]].
      * rewrite !Holdt by (by eapply list_elem_of_lookup_2).
        by apply (bi_sorted _ _ _ _ _ Hinv i j).
      * apply list_lookup_singleton_Some in Hj as [_ <-].
        rewrite Hnewt, Holdt by (by eapply list_elem_of_lookup_2).
        pose proof (bi_range _ _ _ _ _ Hinv u vi eq_refl
                      (list_elem_of_lookup_2 _ _ _ Hi)) as Hr.
        rewrite (lookup_total_correct _ _ _ Hdu) in Hr. done.
      * apply lookup_lt_Some in Hj. lia.
      * apply list_lookup_singleton_Some in Hi as [_ <-], Hj as [_ <-]. lia.
    + intros h v Hh Hin. injection Hh as <-.
      rewrite (Holdt u) by left. rewrite (lookup_total_correct _ _ _ Hdu).
      change (u :: q ++ [nb]) with ((u :: q) ++ [nb]) in Hin.
      apply elem_of_app in Hin as [Hin|Hin].
      * rewrite Holdt by done.
        pose proof (bi_range _ _ _ _ _ Hinv u v eq_refl Hin) as Hr.
        by rewrite (lookup_total_correct _ _ _ Hdu) in Hr.
      * apply list_elem_of_singleton in Hin as ->. rewrite Hnewt. lia.
  - intros _. cbn [bfs_dist]. rewrite lookup_insert_eq. by eexists.
  - intros x Hx. cbn [bfs_dist]. apply lookup_insert_is_Some'. by right.
Qed.

Lemma bfs_fold_inv u nbs : ∀ d q,
  bfs_inv g valid a d (u :: q) → (∀ x, x ∈ nbs → x ∈ edges g !!! u) →
  bfs_inv g valid a (foldl (bfs_visit valid u) (d, q) nbs).1
      (u :: (foldl (bfs_visit valid u) (d, q) nbs).2)
  ∧ (∀ x, x ∈ nbs → x ∈ valid →
          is_Some (bfs_dist (foldl (bfs_visit valid u) (d, q) nbs).1 !! x))
  ∧ (∀ x, is_Some (bfs_dist d !! x) →
          is_Some (bfs_dist (foldl (bfs_visit valid u) (d, q) nbs).1 !! x)).
Proof.
  induction nbs as [|nb nbs IH]; intros d q Hinv Hsub; cbn [foldl].
  - split; [done|]. split; [|done]. intros x Hx. by apply elem_of_nil in Hx.
  - destruct (bfs_visit_inv u d q nb Hinv) as (Hinv1 & Hnb1 & Hmono1); [apply Hsub; left|].
    destruct (bfs_visit valid u (d, q) nb) as [d1 q1]. cbn [fst snd] in *.
    destruct (IH d1 q1 Hinv1) as (Hinv2 & Hnb2 & Hmono2).
    { intros x Hx. apply Hsub. by right. }
    split; [done|]. split; [|auto].
    intros x Hx Hv. apply elem_of_cons in Hx as [->|Hx]; [|by apply Hnb2].
    by apply Hmono2, Hnb1.
Qed.

Lemma bfs_pop_inv u d q :
  bfs_inv g valid a d (u :: q) →
  (∀ x, x ∈ edges g !!! u → x ∈ valid → is_Some (bfs_dist d !! x)) →
  bfs_inv g valid a d q.
Proof.
  intros Hinv Hu. split; try apply Hinv.
  - intros u' x Hu' Hn Hx Hv. destruct (decide (u' = u)) as [->|Hne]; [by apply Hu|].
    apply (bi_closed _ _ _ _ _ Hinv u' x); [done| |done|done].
    intros Hin. apply elem_of_cons in Hin as [?|?]; done.
  - intros v Hv. apply Hinv. by right.
  - intros i j vi vj Hij Hi Hj.
    apply (bi_sorted _ _ _ _ _ Hinv (S i) (S j)); [lia|done|done].
  - intros h v Hh Hv.
    pose proof (bi_range _ _ _ _ _ Hinv u v eq_refl) as Hr.
    pose proof (bi_sorted _ _ _ _ _ Hinv 0 1 u h) as Hs.
    specialize (Hr ltac:(by right)). specialize (Hs ltac:(lia) eq_refl Hh). lia.
Qed.

Lemma bfs_loop_inv fuel : ∀ d q d',
  bfs_inv g valid a d q → bfs_loop g valid fuel d q = Some d' → bfs_inv g valid a d' [].
Proof.
  induction fuel as [|fuel IH]; intros d q d' Hinv Hl.
  - destruct q; [|done]. by injection Hl as <-.
  - destruct q as [|u q]; [by injection Hl as <-|]. cbn [bfs_loop] in Hl.
    destruct (bfs_fold_inv u (edges g !!! u) d q Hinv) as (Hinv1 & Hnb & _); [done|].
    destruct (foldl _ _ _) as [d1 q1]. cbn [fst snd] in *.
    eapply IH; [|done]. by apply (bfs_pop_inv u).
Qed.

(** The distances [bfsDistances a] returns are the lengths of the
    shortest walks from [a]. *)
Lemma bfsDistances_shortest d :
  bfsDistances g valid a = Some d →
  (∀ v k, bfs_dist d !! v = Some k →
          (0 ≤ k)%Z ∧ walk g valid a (Z.to_nat k) v ∧ ∀ j, walk g valid a j v → Z.to_nat k ≤ j)
  ∧ (∀ v j, walk g valid a j v → is_Some (bfs_dist d !! v)).
Proof.
  unfold bfsDistances. intros Hl.
  apply (bfs_loop_inv _ _ _ _ bfs_inv_init) in Hl.
  split.
  - intros v k Hk. destruct (bi_sound _ _ _ _ _ Hl v k Hk). split; [done|].
    split; [done|]. intros j. by apply (bi_min _ _ _ _ _ Hl).
  - intros v j Hw. induction Hw as [|k b c Hw IH Hc Hv].
    + rewrite (bi_start _ _ _ _ _ Hl). by eexists.
    + apply (bi_closed _ _ _ _ _ Hl b c); [done| |done|done]. apply not_elem_of_nil.
Qed.
End BfsCorrect.

(** * The distance matrix is symmetric; the routes of a preview run *)

Section WalkSym.
Variable g : Graph.
Variable valid : list nat.
Hypothesis Hsym : ∀ a b, b ∈ edges g !!! a → a ∈ edges g !!! b.

Lemma walk_valid a k b : walk g valid a k b → a ∈ valid → b ∈ valid.
Proof. by destruct 1. Qed.

Lemma walk_cons a b c k :
  b ∈ edges g !!! a → b ∈ valid → walk g valid b k c → walk g valid a (S k) c.
Proof.
  intros Hb Hv Hw. induction Hw as [|k x y Hw IH Hy Hvy].
  - by apply (walk_snoc _ _ _ _ a); [constructor|..].
  - by apply (walk_snoc _ _ _ _ x).
Qed.

Lemma walk_rev a k b : a ∈ valid → walk g valid a k b → walk g valid b k a.
Proof.
  intros Ha Hw. induction Hw as [|k x y Hw IH Hy Hvy]; [constructor|].
  apply (walk_cons y x); [by apply Hsym|by eapply walk_valid|done].
Qed.

Lemma bfs_dist_sym a b da db :
  a ∈ valid → b ∈ valid →
  bfsDistances g valid a = Some da → bfsDistances g valid b = Some db →
  bfs_dist da !! b = bfs_dist db !! a.
Proof.
  intros Ha Hb Hda Hdb.
  destruct (bfsDistances_shortest g valid a da Hda) as [Hsa Hca].
  destruct (bfsDistances_shortest g valid b db Hdb) as [Hsb Hcb].
  destruct (bfs_dist da !! b) as [k|] eqn:Ek; destruct (bfs_dist db !! a) as [k'|] eqn:Ek'.
  - destruct (Hsa b k Ek) as (H0 & Hw & Hmin).
    destruct (Hsb a k' Ek') as (H0' & Hw' & Hmin').
    pose proof (Hmin _ (walk_rev _ _ _ Hb Hw')).
    pose proof (Hmin' _ (walk_rev _ _ _ Ha Hw)).
    f_equal. lia.
  - destruct (Hsa b k Ek) as (_ & Hw & _).
    destruct (Hcb a _ (walk_rev _ _ _ Ha Hw)). congruence.
  - destruct (Hsb a k' Ek') as (_ & Hw & _).
    destruct (Hca b _ (walk_rev _ _ _ Hb Hw)). congruence.
  - done.
Qed.

Lemma dist_or_inf_nonneg a da b :
  bfsDistances g valid a = Some da → (0 ≤ dist_or_inf (bfs_dist da) b)%Z.
Proof.
  intros Hda. destruct (bfsDistances_shortest g valid a da Hda) as [Hsa _].
  unfold dist_or_inf. destruct (bfs_dist da !! b) as [k|] eqn:Ek; [|done].
  destruct (Hsa b k Ek) as (H0 & _). by destruct (k =? 0)%Z.
Qed.

Section Matrix.
Variable exits : list ExitPoint.
Variable dist : list (list Z).
Hypothesis Hexits : ∀ e, e ∈ exits → ex_nodeId e ∈ valid.
Hypothesis Hdist : dist_matrix g valid exits = Some dist.

Lemma dist_at_inside i j ei ej :
  exits !! i = Some ei → exits !! j = Some ej →
  ∃ d, bfsDistances g valid (ex_nodeId ei) = Some d
       ∧ dist_at dist i j = dist_or_inf (bfs_dist d) (ex_nodeId ej).
Proof.
  intros Hi Hj. destruct (dist_matrix_row g valid exits dist i ei Hdist Hi) as (d & Hd & Hrow).
  exists d. split; [done|]. unfold dist_at. rewrite Hrow.
  apply list_lookup_total_correct. by rewrite list_lookup_fmap, Hj.
Qed.

Lemma dist_at_outside i j :
  exits !! i = None ∨ exits !! j = None → dist_at dist i j = inhabitant.
Proof.
  assert (Hlen : length dist = length exits).
  { unfold dist_matrix in Hdist. apply mapM_Some, Forall2_length in Hdist. done. }
  unfold dist_at. intros [Hi|Hj].
  - rewrite (list_lookup_total_alt dist), (proj2 (lookup_ge_None dist i)).
    + by rewrite list_lookup_total_alt.
    + apply lookup_ge_None in Hi. lia.
  - destruct (exits !! i) as [ei|] eqn:Hi.
    + destruct (dist_matrix_row g valid exits dist i ei Hdist Hi) as (d & _ & ->).
      by rewrite list_lookup_total_alt, list_lookup_fmap, Hj.
    + rewrite (list_lookup_total_alt dist), (proj2 (lookup_ge_None dist i)).
      * by rewrite list_lookup_total_alt.
      * apply lookup_ge_None in Hi. lia.
Qed.

(** The matrix of hop distances is symmetric. *)
Lemma dist_matrix_sym i j : dist_at dist i j = dist_at dist j i.
Proof.
  destruct (exits !! i) as [ei|] eqn:Hi; [destruct (exits !! j) as [ej|] eqn:Hj|].
  - destruct (dist_at_inside i j ei ej Hi Hj) as (di & Hdi & ->).
    destruct (dist_at_inside j i ej ei Hj Hi) as (dj & Hdj & ->).
    unfold dist_or_inf.
    rewrite (bfs_dist_sym (ex_nodeId ei) (ex_nodeId ej) di dj); [done|..|done|done].
    + apply Hexits. by eapply list_elem_of_lookup_2.
    + apply Hexits. by eapply list_elem_of_lookup_2.
  - rewrite !dist_at_outside; auto.
  - rewrite !dist_at_outside; auto.
Qed.

Lemma dist_matrix_nonneg i j : (0 ≤ dist_at dist i j)%Z.
Proof.
  destruct (exits !! i) as [ei|] eqn:Hi; [destruct (exits !! j) as [ej|] eqn:Hj|].
  - destruct (dist_at_inside i j ei ej Hi Hj) as (di & Hdi & ->).
    by eapply dist_or_inf_nonneg.
  - rewrite dist_at_outside; auto. done.
  - rewrite dist_at_outside; auto. done.
Qed.
End Matrix.
End WalkSym.

(** Only exits standing on a valid node are collected. *)
Lemma collect_exits_valid g valid m exits :
  collect_exits g valid m = Some exits → ∀ e, e ∈ exits → ex_nodeId e ∈ valid.
Proof.
  unfold collect_exits.
  assert (Hgen : ∀ l acc,
            (∀ ex, acc = Some ex → ∀ e, e ∈ ex → ex_nodeId e ∈ valid) →
            ∀ ex, foldl (λ acc xy,
                     exits ← acc;
                     els ← getTile m xy.1 xy.2;
                     Some (foldl (λ exits el,
                            if String.eqb (el_type el) "rideExit" then
                              match idByXY g !! key (Z.of_nat xy.1) (Z.of_nat xy.2) with
                              | Some nid =>
                                if set_has valid nid
                                then exits ++ [mkExit nid (Z.of_nat xy.1) (Z.of_nat xy.2)
                                                      (el_ride el)
                                                      (ride_name <$> map_rides m (el_ride el))]
                                else exits
                              | None => exits
                              end
                            else exits)
                         exits els)) acc l = Some ex →
            ∀ e, e ∈ ex → ex_nodeId e ∈ valid).
  { induction l as [|xy l IH]; intros acc Hacc ex; cbn [foldl]; [by apply Hacc|].
    apply IH. intros ex' Hex'.
    destruct acc as [ex0|]; [|done]. cbn [mbind option_bind] in Hex'.
    destruct (getTile m xy.1 xy.2) as [els|]; [|done]. cbn [mbind option_bind] in Hex'.
    injection Hex' as <-.
    specialize (Hacc ex0 eq_refl). clear IH. revert ex0 Hacc.
    induction els as [|el els IHe]; intros ex0 Hacc; cbn [foldl]; [done|].
    apply IHe. destruct (String.eqb (el_type el) "rideExit"); [|done].
    destruct (idByXY g !! _) as [nid|]; [|done].
    destruct (set_has valid nid) eqn:Hv; [|done].
    intros e He. apply elem_of_app in He as [He|He]; [by apply Hacc|].
    apply list_elem_of_singleton in He as ->. by apply set_has_true in Hv. }
  intros Hc. apply (Hgen (grid (map_w m) (map_h m)) (Some [])); [|done].
  intros ex Hex e He. injection Hex as <-. by apply elem_of_nil in He.
Qed.

(** * The built graph: ids, coordinates, adjacency, attractors *)

Section BuiltNodes.
Variable m : GameMap.
Variables (fac sb : bool) (bg : BuiltGraph).
Hypothesis Hb : buildPathGraph fac sb m = Some bg.

Lemma built_node_scanned i n :
  nodes (bg_graph bg) !! i = Some n →
  ∃ n', sc_nodes (scan_tiles m) !! i = Some n' ∧ node_place n = node_place n'.
Proof.
  intros Hn. destruct (buildPathGraph_place _ _ _ _ Hb) as (Hpl & _ & _).
  assert ((node_place <$> nodes (bg_graph bg)) !! i = Some (node_place n)) as Hl.
  { by rewrite list_lookup_fmap, Hn. }
  rewrite Hpl, list_lookup_fmap in Hl.
  destruct (sc_nodes (scan_tiles m) !! i) as [n'|]; [|done].
  simpl in Hl. exists n'. split; [done|]. congruence.
Qed.

Lemma scanned_node_built i n' :
  sc_nodes (scan_tiles m) !! i = Some n' →
  ∃ n, nodes (bg_graph bg) !! i = Some n ∧ node_place n = node_place n'.
Proof.
  intros Hn. destruct (buildPathGraph_place _ _ _ _ Hb) as (Hpl & _ & _).
  assert ((node_place <$> sc_nodes (scan_tiles m)) !! i = Some (node_place n')) as Hl.
  { by rewrite list_lookup_fmap, Hn. }
  rewrite <- Hpl, list_lookup_fmap in Hl.
  destruct (nodes (bg_graph bg) !! i) as [n|]; [|done].
  simpl in Hl. exists n. split; [done|]. congruence.
Qed.

Lemma built_ids_node k i :
  idByXY (bg_graph bg) !! k = Some i ↔
  ∃ n, nodes (bg_graph bg) !! i = Some n ∧ k = key (n_x n) (n_y n).
Proof.
  destruct (buildPathGraph_place _ _ _ _ Hb) as (_ & -> & _).
  rewrite scan_ids_node. split.
  - intros (n' & Hn' & ->). destruct (scanned_node_built _ _ Hn') as (n & Hn & [= _ Hx Hy]).
    exists n. by rewrite Hx, Hy.
  - intros (n & Hn & ->). destruct (built_node_scanned _ _ Hn) as (n' & Hn' & [= _ Hx Hy]).
    exists n'. by rewrite Hx, Hy.
Qed.

Lemma built_node_inside i n :
  nodes (bg_graph bg) !! i = Some n →
  n_id n = i ∧ ∃ x y, x < map_w m ∧ y < map_h m ∧ walkable_tile m x y
                      ∧ n_x n = Z.of_nat x ∧ n_y n = Z.of_nat y.
Proof.
  intros Hn. destruct (built_node_scanned _ _ Hn) as (n' & Hn' & [= Hid Hx Hy]).
  pose proof (scan_tiles_inv m) as [_ Hnodes _ _].
  destruct (Hnodes _ _ Hn') as (Hid' & x & y & Hin & Hok & Hx' & Hy').
  split; [congruence|]. exists x, y. apply elem_of_grid in Hin as [? ?].
  split; [done|]. split; [done|]. split; [by apply tile_ok_spec|]. split; congruence.
Qed.

Lemma built_edges_lookup i :
  edges (bg_graph bg) !!! i =
  match nodes (bg_graph bg) !! i with
  | Some n => node_edges (idByXY (bg_graph bg)) n
  | None => []
  end.
Proof.
  destruct (buildPathGraph_place _ _ _ _ Hb) as (_ & Hids & ->).
  rewrite scan_edges_lookup, Hids.
  destruct (nodes (bg_graph bg) !! i) as [n|] eqn:Hn.
  - destruct (built_node_scanned _ _ Hn) as (n' & -> & [= _ Hx Hy]).
    unfold node_edges. by rewrite Hx, Hy.
  - destruct (sc_nodes (scan_tiles m) !! i) as [n'|] eqn:Hn'; [|done].
    destruct (scanned_node_built _ _ Hn') as (n & Hn2 & _). congruence.
Qed.
End BuiltNodes.

Lemma omap_length_le {A B} (f : A → option B) (l : list A) :
  length (omap f l) ≤ length l.
Proof. induction l as [|a l IH]; csimpl; [done|]. destruct (f a); simpl in *; lia. Qed.

Lemma nbrs_unit (d : Z * Z) : d ∈ nbrs ↔ (Z.abs d.1 + Z.abs d.2 = 1)%Z.
Proof.
  unfold nbrs. rewrite !elem_of_cons, elem_of_nil. destruct d as [a b]. simpl. split.
  - intros [[= -> ->]|[[= -> ->]|[[= -> ->]|[[= -> ->]|[]]]]]; done.
  - intros H.
    assert ((a = 1 ∧ b = 0) ∨ (a = -1 ∧ b = 0) ∨ (a = 0 ∧ b = 1) ∨ (a = 0 ∧ b = -1))%Z
      as [[-> ->]|[[-> ->]|[[-> ->]|[-> ->]]]] by lia; auto.
Qed.

(** X1: node ids are the positions in [Plan.nodes]; [idByXY] maps the key of
    a node's tile to its id and holds nothing else; every node stands on a
    walkable tile inside the map; two nodes never share a tile; and the
    initial valid set is all ids in order. *)
Theorem buildPathGraph_ids_round_trip fac sb m bg :
  buildPathGraph fac sb m = Some bg →
  (∀ i n, nodes (bg_graph bg) !! i = Some n →
      n_id n = i
      ∧ idByXY (bg_graph bg) !! key (n_x n) (n_y n) = Some i
      ∧ ∃ x y, x < map_w m ∧ y < map_h m ∧ walkable_tile m x y
               ∧ n_x n = Z.of_nat x ∧ n_y n = Z.of_nat y)
  ∧ (∀ k i, idByXY (bg_graph bg) !! k = Some i →
        ∃ n, nodes (bg_graph bg) !! i = Some n ∧ k = key (n_x n) (n_y n))
  ∧ (∀ i j ni nj, nodes (bg_graph bg) !! i = Some ni → nodes (bg_graph bg) !! j = Some nj →
        node_pos ni = node_pos nj → i = j)
  ∧ bg_valid bg = seq 0 (length (nodes (bg_graph bg))).
Proof.
  intros Hb. split; [|split; [|split]].
  - intros i n Hn. destruct (built_node_inside m fac sb bg Hb i n Hn) as [Hid Hin].
    split; [done|]. split; [|done]. apply (built_ids_node m fac sb bg Hb). by exists n.
  - intros k i Hk. by apply (built_ids_node m fac sb bg Hb).
  - intros i j ni nj Hi Hj [= Hx Hy].
    assert (idByXY (bg_graph bg) !! key (n_x ni) (n_y ni) = Some i) as H1.
    { apply (built_ids_node m fac sb bg Hb). by exists ni. }
    assert (idByXY (bg_graph bg) !! key (n_x ni) (n_y ni) = Some j) as H2.
    { apply (built_ids_node m fac sb bg Hb). exists nj. by rewrite Hx, Hy. }
    congruence.
  - by destruct (buildPathGraph_wf m fac sb bg Hb) as [_ ?].
Qed.

Lemma buildPathGraph_ids_round_trip_witness :
  (∀ i n, nodes (bg_graph corridor_built) !! i = Some n →
      n_id n = i
      ∧ idByXY (bg_graph corridor_built) !! key (n_x n) (n_y n) = Some i
      ∧ ∃ x y, x < map_w corridor_map ∧ y < map_h corridor_map ∧ walkable_tile corridor_map x y
               ∧ n_x n = Z.of_nat x ∧ n_y n = Z.of_nat y)
  ∧ (∀ k i, idByXY (bg_graph corridor_built) !! k = Some i →
        ∃ n, nodes (bg_graph corridor_built) !! i = Some n ∧ k = key (n_x n) (n_y n))
  ∧ (∀ i j ni nj, nodes (bg_graph corridor_built) !! i = Some ni →
        nodes (bg_graph corridor_built) !! j = Some nj →
        node_pos ni = node_pos nj → i = j)
  ∧ bg_valid corridor_built = seq 0 (length (nodes (bg_graph corridor_built))).
Proof.
  apply (buildPathGraph_ids_round_trip false false corridor_map corridor_built).
  vm_compute; reflexivity.
Defined.

(** X2: [edges[i]] lists exactly the nodes standing on the four
    neighbouring tiles of node [i] (Manhattan distance 1), each once; so
    adjacency is symmetric and has no loops. *)
Theorem buildPathGraph_edges_are_neighbours fac sb m bg :
  buildPathGraph fac sb m = Some bg →
  (∀ i j, j ∈ edges (bg_graph bg) !!! i ↔
      ∃ ni nj, nodes (bg_graph bg) !! i = Some ni ∧ nodes (bg_graph bg) !! j = Some nj
               ∧ manhattan (node_pos ni) (node_pos nj) = 1%Z)
  ∧ (∀ i, NoDup (edges (bg_graph bg) !!! i) ∧ (i ∉ edges (bg_graph bg) !!! i)
          ∧ length (edges (bg_graph bg) !!! i) ≤ 4)
  ∧ (∀ i j, j ∈ edges (bg_graph bg) !!! i → i ∈ edges (bg_graph bg) !!! j)
  ∧ length (edges (bg_graph bg)) = length (nodes (bg_graph bg)).
Proof.
  intros Hb.
  assert (Hiff : ∀ i j, j ∈ edges (bg_graph bg) !!! i ↔
      ∃ ni nj, nodes (bg_graph bg) !! i = Some ni ∧ nodes (bg_graph bg) !! j = Some nj
               ∧ manhattan (node_pos ni) (node_pos nj) = 1%Z).
  { intros i j. rewrite (built_edges_lookup m fac sb bg Hb). split.
    - destruct (nodes (bg_graph bg) !! i) as [ni|] eqn:Hi;
        [|intros H; by apply elem_of_nil in H].
      unfold node_edges. rewrite list_elem_of_omap. intros (d & Hd & Hj).
      apply (built_ids_node m fac sb bg Hb) in Hj as (nj & Hj & [= Hx Hy]).
      exists ni, nj. split; [done|]. split; [done|].
      apply nbrs_unit in Hd. unfold manhattan, node_pos. simpl. lia.
    - intros (ni & nj & Hi & Hj & Hd). rewrite Hi. unfold node_edges.
      rewrite list_elem_of_omap.
      exists ((n_x nj - n_x ni)%Z, (n_y nj - n_y ni)%Z). split.
      + apply nbrs_unit. unfold manhattan, node_pos in Hd. simpl in *. lia.
      + apply (built_ids_node m fac sb bg Hb). exists nj. split; [done|].
        unfold key. simpl. f_equal; lia. }
  split; [done|]. destruct (buildPathGraph_wf m fac sb bg Hb) as [[Hsym Hnd _ _] _].
  split; [|split; [done|]].
  - intros i. split; [done|]. split.
    + intros Hin. apply Hiff in Hin as (ni & nj & Hi & Hj & Hd).
      rewrite Hi in Hj. injection Hj as <-. unfold manhattan in Hd. lia.
    + rewrite (built_edges_lookup m fac sb bg Hb).
      destruct (nodes (bg_graph bg) !! i); [|simpl; lia].
      unfold node_edges. etrans; [apply omap_length_le|]. done.
  - destruct (buildPathGraph_place _ _ _ _ Hb) as (Hpl & _ & ->).
    rewrite length_map. rewrite <- (length_fmap node_place), <- Hpl. by rewrite length_fmap.
Qed.

Lemma buildPathGraph_edges_are_neighbours_witness :
  (∀ i j, j ∈ edges (bg_graph corridor_built) !!! i ↔
      ∃ ni nj, nodes (bg_graph corridor_built) !! i = Some ni
               ∧ nodes (bg_graph corridor_built) !! j = Some nj
               ∧ manhattan (node_pos ni) (node_pos nj) = 1%Z)
  ∧ (∀ i, NoDup (edges (bg_graph corridor_built) !!! i)
          ∧ (i ∉ edges (bg_graph corridor_built) !!! i)
          ∧ length (edges (bg_graph corridor_built) !!! i) ≤ 4)
  ∧ (∀ i j, j ∈ edges (bg_graph corridor_built) !!! i →
            i ∈ edges (bg_graph corridor_built) !!! j)
  ∧ length (edges (bg_graph corridor_built)) = length (nodes (bg_graph corridor_built)).
Proof.
  apply (buildPathGraph_edges_are_neighbours false false corridor_map corridor_built).
  vm_compute; reflexivity.
Defined.

(** ** Degrees and attractor flags *)

Lemma scan_elements_attr k els : ∀ hp iq at0 k',
  k' ∈ (foldl (scan_element k) (hp, iq, at0) els).2 ↔
  k' ∈ at0 ∨ (k' = k ∧ existsb isRidePort els = true).
Proof.
  induction els as [|el els IH]; intros hp iq at0 k'; cbn [foldl existsb].
  - cbn [snd]. split; [auto|]. by intros [?|[_ ?]].
  - unfold scan_element at 2.
    destruct (if isFootpath el then (true, if isQueueFlagged el then true else iq)
              else (hp, iq)) as [hp' iq'].
    rewrite IH. destruct (isRidePort el); cbn [orb].
    + rewrite elem_of_set_add. split; [|intros [?|[-> _]]; auto].
      intros [[?| ->]|[-> _]]; auto.
    + done.
Qed.

Lemma scan_attr_step m l st x y :
  (x, y) ∉ l → scan_attr_ok m l st → scan_attr_ok m (l ++ [(x, y)]) (scan_tile m st (x, y)).
Proof.
  intros Hfresh [Hattr Hnodes]. unfold scan_tile.
  destruct (getTile m x y) as [els|] eqn:Hget.
  2:{ split; [|done]. intros k Hk. destruct (Hattr k Hk) as (x' & y' & Hin & ->).
      exists x', y'. split; [apply elem_of_app; by left|done]. }
  pose proof (scan_elements_attr (key (Z.of_nat x) (Z.of_nat y)) els false false (sc_attr st))
    as Hat.
  destruct (foldl _ _ els) as [[hp iq] at1]. cbn [snd] in Hat.
  assert (Hattr1 : ∀ k, k ∈ at1 →
            ∃ x' y', (x', y') ∈ l ++ [(x, y)] ∧ k = key (Z.of_nat x') (Z.of_nat y')).
  { intros k Hk. apply Hat in Hk as [Hk|[-> _]].
    - destruct (Hattr k Hk) as (x' & y' & Hin & ->).
      exists x', y'. split; [apply elem_of_app; by left|done].
    - exists x, y. split; [apply elem_of_app; right; left|done]. }
  destruct (hp && negb iq); (split; [done|]); cbn [sc_nodes]; [|done].
  intros id n Hn. apply lookup_app_Some in Hn as [Hn|[_ Hn]]; [by apply (Hnodes id)|].
  apply list_lookup_singleton_Some in Hn as [_ <-]. cbn. split; [done|].
  exists x, y, els. split; [done|]. split; [done|]. split; [done|].
  destruct (existsb isRidePort els) eqn:Hex.
  - apply set_has_true, Hat. by right.
  - apply set_has_false. intros Hin. apply Hat in Hin as [Hin|[_ ?]]; [|done].
    destruct (Hattr _ Hin) as (x' & y' & Hin' & [= Hx Hy]).
    apply Nat2Z.inj in Hx, Hy. by subst.
Qed.

Lemma scan_attr_foldl m l : ∀ st0 l0,
  NoDup (l0 ++ l) → scan_attr_ok m l0 st0 →
  scan_attr_ok m (l0 ++ l) (foldl (scan_tile m) st0 l).
Proof.
  induction l as [|[x y] l IH]; intros st0 l0 Hnd Hinv; cbn [foldl].
  - by rewrite app_nil_r.
  - replace (l0 ++ (x, y) :: l) with ((l0 ++ [(x, y)]) ++ l) in * by by rewrite <- app_assoc.
    apply IH; [done|]. apply scan_attr_step; [|done].
    apply NoDup_app in Hnd as (Hnd & _ & _). apply NoDup_app in Hnd as (_ & Hd & _).
    intros Hin. apply (Hd _ Hin). left.
Qed.

Lemma scan_tiles_attr m : scan_attr_ok m (grid (map_w m) (map_h m)) (scan_tiles m).
Proof.
  apply (scan_attr_foldl m _ (mkScan [] ∅ []) []); [apply NoDup_grid|].
  split; cbn; [intros k Hk; by apply elem_of_nil in Hk|]. intros id n. by rewrite lookup_nil.
Qed.

(** The facilities pass keeps ids, coordinates and degrees; it can only
    raise attractor flags, and without the seating option it raises none. *)
Lemma mark_soft_frame sb ids k ns el :
  node_frame <$> mark_soft sb ids k ns el = node_frame <$> ns
  ∧ (∀ i n, ns !! i = Some n → n_attractor n = true →
            ∃ n', mark_soft sb ids k ns el !! i = Some n' ∧ n_attractor n' = true)
  ∧ (sb = false → mark_soft sb ids k ns el = ns).
Proof.
  unfold mark_soft. destruct sb; rewrite ?andb_false_r, ?andb_true_r; [|by eauto].
  destruct (isScenery el && softAttractorTest el); [|split; [done|split; [eauto|done]]].
  destruct (ids !! k) as [id|]; [|split; [done|split; [eauto|done]]].
  split; [|split; [|done]].
  - rewrite list_fmap_insert.
    destruct (decide (id < length ns)) as [Hlt|Hge].
    + apply list_insert_id. rewrite list_lookup_fmap.
      destruct (lookup_lt_is_Some_2 ns id Hlt) as [n Hn].
      rewrite (list_lookup_total_correct _ _ _ Hn), Hn. done.
    + apply list_insert_ge. rewrite length_fmap. lia.
  - intros i n Hn Ha. destruct (decide (i = id)) as [->|Hne].
    + eexists. split; [apply list_lookup_insert_eq; by eapply lookup_lt_Some|done].
    + exists n. by rewrite list_lookup_insert_ne.
Qed.

Lemma facilities_frame m sb ids l : ∀ acc ns',
  foldl (facilities_tile m sb ids) acc l = Some ns' →
  ∃ ns, acc = Some ns ∧ node_frame <$> ns' = node_frame <$> ns
        ∧ (∀ i n, ns !! i = Some n → n_attractor n = true →
                  ∃ n', ns' !! i = Some n' ∧ n_attractor n' = true)
        ∧ (sb = false → ns' = ns).
Proof.
  induction l as [|xy l IH]; intros acc ns'; cbn [foldl].
  - intros ->. exists ns'. split; [done|]. split; [done|]. split; [eauto|done].
  - intros H. apply IH in H as (ns1 & Hstep & Heq & Hup & Hsame).
    unfold facilities_tile in Hstep.
    destruct acc as [ns|]; [|done]. cbn [mbind option_bind] in Hstep.
    destruct (getTile m xy.1 xy.2) as [els|]; [|done]. cbn [mbind option_bind] in Hstep.
    injection Hstep as <-. exists ns. split; [done|].
    assert (Hels : ∀ els ns,
              node_frame <$> foldl (mark_soft sb ids (key (Z.of_nat xy.1) (Z.of_nat xy.2))) ns els
              = node_frame <$> ns
              ∧ (∀ i n, ns !! i = Some n → n_attractor n = true →
                   ∃ n', foldl (mark_soft sb ids (key (Z.of_nat xy.1) (Z.of_nat xy.2))) ns els !! i
                         = Some n' ∧ n_attractor n' = true)
              ∧ (sb = false →
                 foldl (mark_soft sb ids (key (Z.of_nat xy.1) (Z.of_nat xy.2))) ns els = ns)).
    { clear. induction els as [|el els IHe]; intros ns; cbn [foldl];
        [split; [done|]; split; [eauto|done]|].
      destruct (mark_soft_frame sb ids (key (Z.of_nat xy.1) (Z.of_nat xy.2)) ns el)
        as (Hf & Hu & Hs).
      destruct (IHe (mark_soft sb ids (key (Z.of_nat xy.1) (Z.of_nat xy.2)) ns el))
        as (Hf' & Hu' & Hs').
      split; [congruence|]. split.
      - intros i n Hn Ha. destruct (Hu i n Hn Ha) as (n1 & Hn1 & Ha1). eauto.
      - intros ->. rewrite Hs', Hs; done. }
    destruct (Hels els ns) as (Hf & Hu & Hs). split; [congruence|]. split.
    + intros i n Hn Ha. destruct (Hu i n Hn Ha) as (n1 & Hn1 & Ha1). eauto.
    + intros ->. rewrite Hsame, Hs; done.
Qed.

Lemma attractor_ids_spec (ns : list Node) : ∀ s i,
  i ∈ foldl (λ s n, if n_attractor n then set_add s (n_id n) else s) s ns ↔
  i ∈ s ∨ ∃ n, n ∈ ns ∧ n_attractor n = true ∧ n_id n = i.
Proof.
  induction ns as [|n ns IH]; intros s i; cbn [foldl].
  - split; [auto|]. intros [?|(n & Hn & _)]; [done|]. by apply elem_of_nil in Hn.
  - rewrite IH. split.
    + intros [Hin|(n' & Hn' & Ha & Hid)].
      * destruct (n_attractor n) eqn:Ha; [|auto].
        apply elem_of_set_add in Hin as [?| ->]; [auto|].
        right. exists n. split; [left|done].
      * right. exists n'. split; [by right|done].
    + intros [Hin|(n' & Hn' & Ha & Hid)].
      * left. destruct (n_attractor n); [by apply set_add_old|done].
      * apply elem_of_cons in Hn' as [->|Hn'].
        -- left. rewrite Ha, <- Hid. apply set_add_new.
        -- right. eauto.
Qed.

(** X3: [Plan.attractorNodeIds] holds exactly the ids of the nodes flagged
    as attractors; a node's [deg] is the length of its adjacency list; a
    node standing on a tile with a ride entrance or exit is always
    flagged, and unless both the facilities pass and the seating option
    are switched on, no other node is. *)
Theorem buildPathGraph_attractors fac sb m bg :
  buildPathGraph fac sb m = Some bg →
  (∀ i, i ∈ bg_attractors bg ↔
        ∃ n, nodes (bg_graph bg) !! i = Some n ∧ n_attractor n = true)
  ∧ (∀ i n, nodes (bg_graph bg) !! i = Some n →
        n_deg n = length (edges (bg_graph bg) !!! i))
  ∧ (∀ i n x y, nodes (bg_graph bg) !! i = Some n →
        n_x n = Z.of_nat x → n_y n = Z.of_nat y →
        ride_port_tile m x y → n_attractor n = true)
  ∧ (fac && sb = false →
     ∀ i n, nodes (bg_graph bg) !! i = Some n → n_attractor n = true →
            ∃ x y, n_x n = Z.of_nat x ∧ n_y n = Z.of_nat y ∧ ride_port_tile m x y).
Proof.
  intros Hb. pose proof Hb as Hb0. unfold buildPathGraph in Hb.
  apply bind_Some in Hb as (ns' & Hns & [= <-]). cbn [bg_graph bg_attractors nodes edges].
  rewrite zip_with_map_self in Hns.
  set (ids := sc_ids (scan_tiles m)) in *.
  set (ns0 := map (λ x, with_deg x (length (node_edges ids x))) (sc_nodes (scan_tiles m))) in *.
  assert (Hfr : node_frame <$> ns' = node_frame <$> ns0
                ∧ (∀ i n, ns0 !! i = Some n → n_attractor n = true →
                          ∃ n', ns' !! i = Some n' ∧ n_attractor n' = true)
                ∧ (fac && sb = false → ns' = ns0)).
  { destruct fac.
    - apply facilities_frame in Hns as (ns & [= <-] & Hf & Hu & Hs). done.
    - injection Hns as <-. split; [done|]. split; [eauto|done]. }
  destruct Hfr as (Hframe & Hup & Hsame).
  assert (Hlook : ∀ i n, ns' !! i = Some n →
            ∃ n', sc_nodes (scan_tiles m) !! i = Some n'
                  ∧ node_frame n = node_frame (with_deg n' (length (node_edges ids n')))
                  ∧ ns0 !! i = Some (with_deg n' (length (node_edges ids n')))).
  { intros i n Hn.
    assert ((node_frame <$> ns') !! i = Some (node_frame n)) as Hl
        by by rewrite list_lookup_fmap, Hn.
    rewrite Hframe, list_lookup_fmap in Hl. unfold ns0 in *.
    rewrite list_lookup_fmap in Hl |- *.
    destruct (sc_nodes (scan_tiles m) !! i) as [n'|]; [|done].
    simpl in Hl. exists n'. split; [done|]. split; [congruence|done]. }
  pose proof (scan_tiles_attr m) as [_ Hsc].
  split; [|split; [|split]].
  - intros i. rewrite attractor_ids_spec. split.
    + intros [Hin|(n & Hn & Ha & Hid)]; [by apply elem_of_nil in Hin|].
      apply list_elem_of_lookup in Hn as [j Hj].
      destruct (built_node_inside m fac sb _ Hb0 j n Hj) as [Hid' _].
      exists n. split; [|done]. congruence.
    + intros (n & Hn & Ha). right. exists n.
      destruct (built_node_inside m fac sb _ Hb0 i n Hn) as [Hid' _].
      split; [by eapply list_elem_of_lookup_2|done].
  - intros i n Hn. destruct (Hlook i n Hn) as (n' & Hn' & [= _ _ _ Hdeg] & _).
    rewrite Hdeg. cbn. rewrite list_lookup_total_alt, list_lookup_fmap, Hn'. done.
  - intros i n x y Hn Hx Hy (els & el & Hget & Hel & Hport).
    destruct (Hlook i n Hn) as (n' & Hn' & [= _ Hx' Hy' _] & Hn0).
    destruct (Hsc i n' Hn') as (_ & x' & y' & els' & Hx2 & Hy2 & Hget' & Hat).
    cbn in Hx', Hy'.
    assert (x' = x) as -> by (apply Nat2Z.inj; congruence).
    assert (y' = y) as -> by (apply Nat2Z.inj; congruence).
    rewrite Hget in Hget'. injection Hget' as <-.
    destruct (Hup i _ Hn0) as (n2 & Hn2 & Ha2).
    { cbn. rewrite Hat. apply existsb_exists. exists el. by rewrite <- list_elem_of_In. }
    congruence.
  - intros Hoff i n Hn Ha. rewrite (Hsame Hoff) in Hn. unfold ns0 in Hn.
    rewrite list_lookup_fmap in Hn.
    destruct (sc_nodes (scan_tiles m) !! i) as [n'|] eqn:Hn'; [|done].
    injection Hn as <-. cbn in Ha |- *.
    destruct (Hsc i n' Hn') as (_ & x & y & els & Hx & Hy & Hget & Hat).
    exists x, y. split; [done|]. split; [done|].
    rewrite Hat in Ha. apply existsb_exists in Ha as (el & Hel & Hport).
    exists els, el. by rewrite list_elem_of_In.
Qed.

Lemma buildPathGraph_attractors_witness :
  (∀ i, i ∈ bg_attractors corridor_built ↔
        ∃ n, nodes (bg_graph corridor_built) !! i = Some n ∧ n_attractor n = true)
  ∧ (∀ i n, nodes (bg_graph corridor_built) !! i = Some n →
        n_deg n = length (edges (bg_graph corridor_built) !!! i))
  ∧ (∀ i n x y, nodes (bg_graph corridor_built) !! i = Some n →
        n_x n = Z.of_nat x → n_y n = Z.of_nat y →
        ride_port_tile corridor_map x y → n_attractor n = true)
  ∧ (false && false = false →
     ∀ i n, nodes (bg_graph corridor_built) !! i = Some n → n_attractor n = true →
            ∃ x y, n_x n = Z.of_nat x ∧ n_y n = Z.of_nat y ∧ ride_port_tile corridor_map x y).
Proof.
  apply (buildPathGraph_attractors false false corridor_map corridor_built).
  vm_compute; reflexivity.
Defined.

(** * More on the pruning pass *)

Section PruneMore.
Variable E : list (list nat).
Variable attractors : list nat.

Lemma set_delete_sublist (valid : list nat) id : sublist (set_delete valid id) valid.
Proof. apply sublist_filter. Qed.

(** The loop only ever deletes ids that touch no attractor. *)
Lemma prune_loop_keeps fuel : ∀ valid deg queue valid' deg',
  prune_loop E attractors fuel valid deg queue = Some (valid', deg') →
  sublist valid' valid
  ∧ ∀ id, id ∈ valid → adjacentToAttractor E attractors id = true → id ∈ valid'.
Proof.
  induction fuel as [|fuel IH]; intros valid deg queue valid' deg' Hl.
  - destruct queue; [|done]. by injection Hl as <- <-.
  - destruct queue as [|id queue]; [by injection Hl as <- <-|].
    cbn [prune_loop] in Hl. destruct (set_has valid id) eqn:Hv; cbn [negb] in Hl.
    2:{ by apply IH in Hl. }
    destruct (adjacentToAttractor E attractors id) eqn:Ha; [by apply IH in Hl|].
    destruct (foldl _ _ _) as [deg1 q1].
    apply IH in Hl as [Hsub Hkeep]. split.
    + etrans; [done|]. apply set_delete_sublist.
    + intros v Hvv Hav. apply Hkeep; [|done]. apply elem_of_set_delete.
      split; [done|]. intros ->. congruence.
Qed.

Lemma init_queue_sound deg valid v :
  v ∈ init_queue E attractors deg valid →
  v ∈ valid ∧ (deg !!! v ≤ 1)%Z ∧ adjacentToAttractor E attractors v = false.
Proof.
  unfold init_queue.
  assert (Hgen : ∀ l q,
            v ∈ foldl (λ q id,
                         if (deg !!! id <=? 1)%Z && negb (adjacentToAttractor E attractors id)
                         then id :: q else q) q l →
            v ∈ q ∨ (v ∈ l ∧ (deg !!! v ≤ 1)%Z ∧ adjacentToAttractor E attractors v = false)).
  { induction l as [|id l IH]; intros q; cbn [foldl]; [auto|].
    intros Hin. apply IH in Hin as [Hin|(Hin & ? & ?)].
    - destruct ((deg !!! id <=? 1)%Z) eqn:Hle; cbn [andb] in Hin;
        [destruct (adjacentToAttractor E attractors id) eqn:Ha; cbn [negb] in Hin|]; auto.
      apply elem_of_cons in Hin as [->|?]; [|auto].
      right. split; [left|]. split; [by apply Z.leb_le|done].
    - right. split; [by right|done]. }
  intros Hin. apply Hgen in Hin as [Hin|?]; [by apply elem_of_nil in Hin|done].
Qed.

(** What the neighbour loop pushes. *)
Lemma relax_foldl_pushed valid nbs : ∀ deg q deg' q',
  foldl (relax E attractors valid) (deg, q) nbs = (deg', q') →
  NoDup nbs →
  (∀ nb, nb ∈ nbs → nb ∈ valid → nb < length deg) →
  ∀ v, v ∈ q' → v ∈ q ∨ (v ∈ nbs ∧ v ∈ valid ∧ (deg !!! v - 1 ≤ 1)%Z).
Proof.
  induction nbs as [|nb nbs IH]; intros deg q deg' q' Hf Hnd Hrange v Hv; cbn [foldl] in Hf.
  - injection Hf as <- <-. by left.
  - apply NoDup_cons in Hnd as [Hnb Hnd].
    destruct (relax E attractors valid (deg, q) nb) as [deg1 q1] eqn:Hr.
    unfold relax in Hr. destruct (set_has valid nb) eqn:Hvn.
    + apply set_has_true in Hvn.
      assert (nb < length deg) as Hlt by (apply Hrange; [left|done]).
      assert (Hd : deg1 = deg_decr deg nb) by (destruct (_ && _) in Hr; by injection Hr).
      assert (Hq1 : ∀ x, x ∈ q1 → x ∈ q ∨ (x = nb ∧ (deg !!! nb - 1 ≤ 1)%Z)).
      { rewrite Hd in Hr. rewrite deg_decr_lookup, decide_True in Hr by done.
        destruct ((deg !!! nb - 1 <=? 1)%Z) eqn:Hle; cbn [andb] in Hr.
        - apply Z.leb_le in Hle.
          destruct (negb _); injection Hr as <-; intros x Hx; [|by left].
          apply elem_of_cons in Hx as [->|?]; auto.
        - injection Hr as <-. auto. }
      eapply IH in Hf; [| done | | exact Hv].
      2:{ intros x Hx Hxv. rewrite Hd. unfold deg_decr. rewrite length_insert.
          apply Hrange; [by right|done]. }
      destruct Hf as [Hin|(Hin & Hvv & Hle)].
      * apply Hq1 in Hin as [?|[-> ?]]; [by left|]. right. split; [left|done].
      * right. split; [by right|]. split; [done|].
        rewrite Hd, deg_decr_lookup, decide_False in Hle by (done || by intros ->). done.
    + injection Hr as <- <-.
      eapply IH in Hf; [| done | | exact Hv].
      2:{ intros x Hx Hxv. apply Hrange; [by right|done]. }
      destruct Hf as [?|(? & ? & ?)]; [by left|]. right. split; [by right|done].
Qed.

Lemma filter_count_extra (S valid l : list nat) id :
  (∀ v, v ∈ S → v ∈ valid) → id ∈ l → id ∈ valid → id ∉ S →
  length (filter (λ nb, nb ∈ S) l) < length (filter (λ nb, nb ∈ valid) l).
Proof.
  intros Hsub Hin Hv Hs.
  apply (filter_length_strict (λ nb, nb ∈ S) (λ nb, nb ∈ valid) l id); auto.
Qed.

Hypothesis E_sym : ∀ a b, b ∈ E !!! a → a ∈ E !!! b.
Hypothesis E_nodup : ∀ a, NoDup (E !!! a).

(** Loops of path are never cut: no node of a 2-core is ever queued. *)
Lemma prune_loop_core S fuel : ∀ valid deg queue valid' deg',
  two_core E S →
  prune_inv E attractors valid deg queue →
  (∀ v, v ∈ S → v ∈ valid) →
  (∀ v, v ∈ queue → v ∉ S) →
  prune_loop E attractors fuel valid deg queue = Some (valid', deg') →
  ∀ v, v ∈ S → v ∈ valid'.
Proof.
  intros valid deg queue valid' deg' Hcore. revert valid deg queue valid' deg'.
  induction fuel as [|fuel IH]; intros valid deg queue valid' deg' Hinv Hsub Hq Hl.
  - destruct queue; [|done]. by injection Hl as <- <-.
  - destruct queue as [|id queue]; [by injection Hl as <- <-|].
    cbn [prune_loop] in Hl.
    assert (Hq' : ∀ v, v ∈ queue → v ∉ S) by (intros v Hv; apply Hq; by right).
    assert (Hskip : prune_inv E attractors valid deg (id :: queue) →
              (id ∉ valid ∨ adjacentToAttractor E attractors id = true) →
              prune_inv E attractors valid deg queue).
    { intros [Hdeg Hqq Hr] Hc. split; [done| |done].
      intros v Hvv Hle Hav. specialize (Hqq v Hvv Hle Hav).
      apply elem_of_cons in Hqq as [->|?]; [|done]. destruct Hc; [done|congruence]. }
    destruct (set_has valid id) eqn:Hv; cbn [negb] in Hl.
    2:{ apply set_has_false in Hv. eapply IH; [| |exact Hq'|exact Hl]; auto. }
    apply set_has_true in Hv.
    destruct (adjacentToAttractor E attractors id) eqn:Ha.
    { eapply IH; [| |exact Hq'|exact Hl]; auto. }
    destruct (foldl _ _ _) as [deg1 q1] eqn:Hf.
    assert (Hid : id ∉ S) by (apply Hq; left).
    eapply IH; [| | |exact Hl].
    + by eapply prune_step_inv.
    + intros v Hvs. apply elem_of_set_delete. split; [auto|]. by intros ->.
    + intros v Hvq Hvs.
      pose proof Hinv as [Hdeg _ Hr].
      eapply relax_foldl_pushed in Hf; [| apply E_nodup | | exact Hvq].
      2:{ intros nb _ Hnb. apply Hr. apply elem_of_set_delete in Hnb. tauto. }
      destruct Hf as [Hin|(Hin & Hvv & Hle)]; [by apply (Hq' v)|].
      rewrite (Hdeg v (Hsub v Hvs)) in Hle. unfold valid_degree in Hle.
      pose proof (filter_count_extra S valid (E !!! v) id Hsub (E_sym _ _ Hin) Hv Hid).
      specialize (Hcore v Hvs). lia.
Qed.
End PruneMore.

Lemma prune_sublist E attractors n valid valid' :
  pruneSceneryBranches E attractors n valid = Some valid' → sublist valid' valid.
Proof.
  unfold pruneSceneryBranches. intros Hp.
  apply fmap_Some in Hp as ([v d] & Hl & ->). cbn [fst].
  by apply prune_loop_keeps in Hl as [Hsub _].
Qed.

(** X4: the pruning pass always returns; what it returns is the valid set
    with some ids deleted (the order is kept); and it never deletes an
    attractor or a node next to an attractor. *)
Theorem prune_never_removes_anchored E attractors n valid :
  ∃ valid',
    pruneSceneryBranches E attractors n valid = Some valid'
    ∧ sublist valid' valid
    ∧ ∀ id, id ∈ valid →
            (id ∈ attractors ∨ ∃ nb, nb ∈ E !!! id ∧ nb ∈ attractors) → id ∈ valid'.
Proof.
  destruct (pruneSceneryBranches_total E attractors n valid) as [valid' Hp].
  exists valid'. split; [done|]. unfold pruneSceneryBranches in Hp.
  apply fmap_Some in Hp as ([v d] & Hl & ->). cbn [fst].
  apply prune_loop_keeps in Hl as [Hsub Hkeep]. split; [done|].
  intros id Hid Ha. apply Hkeep; [done|]. by apply adjacentToAttractor_spec.
Qed.

(** X5: loops of path survive pruning.  On a built graph, a set of nodes
    in which every node has at least two neighbours inside the set (a
    2-core: a ring of path, a plaza) is never pruned, with or without
    attractors. *)
Theorem prune_keeps_loops fac sb m bg S :
  buildPathGraph fac sb m = Some bg →
  (∀ v, v ∈ S → v < length (nodes (bg_graph bg))) →
  two_core (edges (bg_graph bg)) S →
  ∃ valid',
    pruneSceneryBranches (edges (bg_graph bg)) (bg_attractors bg)
                         (length (nodes (bg_graph bg))) (bg_valid bg) = Some valid'
    ∧ ∀ v, v ∈ S → v ∈ valid'.
Proof.
  intros Hb Hrange Hcore. destruct (buildPathGraph_wf m _ _ _ Hb) as [[Hsym Hnd Hr Hset] Hvalid].
  destruct (pruneSceneryBranches_total (edges (bg_graph bg)) (bg_attractors bg)
              (length (nodes (bg_graph bg))) (bg_valid bg)) as [valid' Hp].
  exists valid'. split; [done|]. unfold pruneSceneryBranches in Hp.
  apply fmap_Some in Hp as ([v d] & Hl & ->). cbn [fst].
  assert (Hsub : ∀ v, v ∈ S → v ∈ bg_valid bg).
  { intros x Hx. rewrite Hvalid. apply elem_of_seq. specialize (Hrange x Hx). lia. }
  pose proof (init_inv (edges (bg_graph bg)) (bg_attractors bg) _ _ Hset Hr) as Hinv.
  eapply (prune_loop_core _ _ Hsym Hnd S); [done|exact Hinv|exact Hsub| |exact Hl].
  intros x Hx Hxs. apply init_queue_sound in Hx as (Hxv & Hle & _).
  destruct Hinv as [Hdeg _ _]. rewrite (Hdeg x Hxv) in Hle.
  specialize (Hcore x Hxs). unfold valid_degree in Hle.
  pose proof (filter_length_mono (λ nb, nb ∈ S) (λ nb, nb ∈ bg_valid bg)
                (edges (bg_graph bg) !!! x) Hsub). lia.
Qed.

Lemma prune_keeps_loops_witness :
  ∃ valid',
    pruneSceneryBranches (edges (bg_graph block_built)) (bg_attractors block_built)
                         (length (nodes (bg_graph block_built))) (bg_valid block_built)
    = Some valid'
    ∧ ∀ v, v ∈ [0; 1; 2; 3] → v ∈ valid'.
Proof.
  apply (prune_keeps_loops false false block_map block_built).
  - vm_compute; reflexivity.
  - intros v Hv. rewrite !elem_of_cons, elem_of_nil in Hv.
    destruct Hv as [->|[->|[->|[->|[]]]]]; vm_compute; lia.
  - intros v Hv. rewrite !elem_of_cons, elem_of_nil in Hv.
    destruct Hv as [->|[->|[->|[->|[]]]]]; vm_compute; lia.
Defined.

(** X6: pruning is idempotent on a built graph: a second pass over the
    pruned set finds nothing to delete. *)
Theorem prune_is_idempotent fac sb m bg :
  buildPathGraph fac sb m = Some bg →
  ∃ valid',
    pruneSceneryBranches (edges (bg_graph bg)) (bg_attractors bg)
                         (length (nodes (bg_graph bg))) (bg_valid bg) = Some valid'
    ∧ pruneSceneryBranches (edges (bg_graph bg)) (bg_attractors bg)
                           (length (nodes (bg_graph bg))) valid' = Some valid'.
Proof.
  intros Hb. destruct (buildPathGraph_wf m _ _ _ Hb) as [[Hsym Hnd Hr Hset] _].
  destruct (prune_leaves_anchored (edges (bg_graph bg)) (bg_attractors bg)
              (length (nodes (bg_graph bg))) (bg_valid bg)) as (valid' & Hp & Hsub & Hleaf);
    [done|].
  exists valid'. split; [done|].
  pose proof (prune_sublist _ _ _ _ _ Hp) as Hsl.
  assert (Hset' : NoDup valid') by by eapply sublist_NoDup.
  assert (Hr' : ∀ id, id ∈ valid' → id < length (nodes (bg_graph bg))) by auto.
  pose proof (init_inv (edges (bg_graph bg)) (bg_attractors bg) _ _ Hset' Hr') as [Hdeg _ _].
  unfold pruneSceneryBranches.
  assert (init_queue (edges (bg_graph bg)) (bg_attractors bg)
            (init_deg (edges (bg_graph bg)) (length (nodes (bg_graph bg))) valid') valid' = [])
    as ->.
  { apply elem_of_nil_inv. intros x Hx. apply init_queue_sound in Hx as (Hxv & Hle & Ha).
    rewrite (Hdeg x Hxv) in Hle.
    assert (adjacentToAttractor (edges (bg_graph bg)) (bg_attractors bg) x = true); [|congruence].
    apply adjacentToAttractor_spec, Hleaf; [done|lia]. }
  unfold prune_fuel. by destruct (sum_list_with _ _).
Qed.

Lemma prune_is_idempotent_witness :
  ∃ valid',
    pruneSceneryBranches (edges (bg_graph corridor_built)) (bg_attractors corridor_built)
                         (length (nodes (bg_graph corridor_built))) (bg_valid corridor_built)
    = Some valid'
    ∧ pruneSceneryBranches (edges (bg_graph corridor_built)) (bg_attractors corridor_built)
                           (length (nodes (bg_graph corridor_built))) valid' = Some valid'.
Proof.
  apply (prune_is_idempotent false false corridor_map corridor_built). vm_compute; reflexivity.
Defined.

(** * Shortest paths between exits *)

Section PrevFacts.
Variable g : Graph.
Variable valid : list nat.
Variable a : nat.

Lemma prev_ok_init : prev_ok g valid a (mkBfs {[a := 0%Z]} ∅) [a].
Proof.
  split; cbn [bfs_dist bfs_prev].
  - apply lookup_singleton_eq.
  - intros v z Hv. apply lookup_singleton_Some in Hv as [_ <-]. done.
  - intros v p Hp. by rewrite lookup_empty in Hp.
  - intros v [z Hv]. apply lookup_singleton_Some in Hv as [<- _]. by left.
  - intros v Hv. apply list_elem_of_singleton in Hv as ->.
    rewrite lookup_singleton_eq. by eexists.
Qed.

Lemma prev_ok_visit u d q l nb :
  prev_ok g valid a d (l ++ q) → u ∈ l → nb ∈ edges g !!! u →
  prev_ok g valid a (bfs_visit valid u (d, q) nb).1 (l ++ (bfs_visit valid u (d, q) nb).2).
Proof.
  intros Hok Hu Hnb. unfold bfs_visit.
  destruct (set_has valid nb) eqn:Hv; cbn [negb fst snd]; [|done].
  apply set_has_true in Hv.
  destruct (bool_decide (is_Some (bfs_dist d !! nb))) eqn:Hs; cbn [fst snd]; [done|].
  apply bool_decide_eq_false in Hs.
  assert (bfs_dist d !! nb = None) as Hn.
  { destruct (bfs_dist d !! nb) eqn:E; [|done]. exfalso. apply Hs. by eexists. }
  destruct (po_queue _ _ _ _ _ Hok u) as [zu Hzu]; [apply elem_of_app; by left|].
  rewrite (lookup_total_correct _ _ _ Hzu).
  assert (Hne : ∀ x, is_Some (bfs_dist d !! x) → x ≠ nb).
  { intros x [z Hz] ->. congruence. }
  split; cbn [bfs_dist bfs_prev].
  - rewrite lookup_insert_ne; [apply Hok|]. intros <-.
    pose proof (po_start _ _ _ _ _ Hok). congruence.
  - intros v z Hz. destruct (decide (v = nb)) as [->|Hvn].
    + rewrite lookup_insert_eq in Hz. injection Hz as <-.
      pose proof (po_nonneg _ _ _ _ _ Hok u zu Hzu). lia.
    + rewrite lookup_insert_ne in Hz by done. by eapply Hok.
  - intros v p Hp. destruct (decide (v = nb)) as [->|Hvn].
    + rewrite lookup_insert_eq in Hp. injection Hp as <-.
      split; [done|]. split; [done|]. exists zu.
      rewrite lookup_insert_ne by (apply not_eq_sym, Hne; by eexists).
      by rewrite lookup_insert_eq.
    + rewrite lookup_insert_ne in Hp by done.
      destruct (po_edge _ _ _ _ _ Hok v p Hp) as (He & Hvv & z & Hz & Hzv).
      split; [done|]. split; [done|]. exists z.
      rewrite !lookup_insert_ne; [done|done|]. apply not_eq_sym, Hne. by eexists.
  - intros v Hs'. destruct (decide (v = nb)) as [->|Hvn].
    + right. rewrite lookup_insert_eq. by eexists.
    + rewrite lookup_insert_ne in Hs' by done. rewrite lookup_insert_ne by done.
      by apply Hok.
  - intros v Hin. apply lookup_insert_is_Some'.
    rewrite app_assoc in Hin. apply elem_of_app in Hin as [Hin|Hin].
    + right. by apply Hok.
    + left. by apply list_elem_of_singleton in Hin.
Qed.

Lemma prev_ok_fold u nbs : ∀ d q,
  prev_ok g valid a d (u :: q) → (∀ x, x ∈ nbs → x ∈ edges g !!! u) →
  prev_ok g valid a (foldl (bfs_visit valid u) (d, q) nbs).1
          (u :: (foldl (bfs_visit valid u) (d, q) nbs).2).
Proof.
  induction nbs as [|nb nbs IH]; intros d q Hok Hsub; cbn [foldl]; [done|].
  pose proof (prev_ok_visit u d q [u] nb Hok) as H1.
  destruct (bfs_visit valid u (d, q) nb) as [d1 q1]. cbn [fst snd] in *.
  apply IH.
  - apply H1; [left|apply Hsub; left].
  - intros x Hx. apply Hsub. by right.
Qed.

Lemma prev_ok_loop fuel : ∀ d q d',
  prev_ok g valid a d q → bfs_loop g valid fuel d q = Some d' → prev_ok g valid a d' [].
Proof.
  induction fuel as [|fuel IH]; intros d q d' Hok Hl.
  - destruct q; [|done]. by injection Hl as <-.
  - destruct q as [|u q]; [by injection Hl as <-|]. cbn [bfs_loop] in Hl.
    pose proof (prev_ok_fold u (edges g !!! u) d q Hok) as H1.
    destruct (foldl _ _ _) as [d1 q1]. cbn [fst snd] in *.
    eapply IH; [|done]. destruct H1 as [H1 H2 H3 H4 H5]; [done|].
    split; try done. intros v Hv. apply H5. by right.
Qed.

Lemma bfsDistances_prev d :
  bfsDistances g valid a = Some d → prev_ok g valid a d [].
Proof. unfold bfsDistances. apply prev_ok_loop, prev_ok_init. Qed.

(** Following the predecessors from a reached node leads to the start. *)
Lemma walk_prev_chain d fuel : ∀ cur path z,
  prev_ok g valid a d [] → bfs_dist d !! cur = Some z → (z < Z.of_nat fuel)%Z →
  ∃ c, walk_prev fuel (bfs_prev d) a cur path = Some (path ++ c)
       ∧ chain (bfs_prev d) a cur c.
Proof.
  induction fuel as [|fuel IH]; intros cur path z Hok Hz Hlt.
  - pose proof (po_nonneg _ _ _ _ _ Hok _ _ Hz). lia.
  - cbn [walk_prev]. destruct (decide (cur = a)) as [->|Hne].
    { exists []. rewrite app_nil_r. split; [done|constructor]. }
    destruct (po_def _ _ _ _ _ Hok cur) as [?|[p Hp]]; [by eexists|done|].
    rewrite Hp. destruct (po_edge _ _ _ _ _ Hok _ _ Hp) as (_ & _ & zp & Hzp & Hzc).
    destruct (IH p (path ++ [p]) zp Hok Hzp) as (c & Hc & Hch).
    { rewrite Hz in Hzc. injection Hzc as ->. lia. }
    exists (p :: c). split; [by rewrite Hc, <- app_assoc|]. by constructor.
Qed.

Lemma chain_route d cur c :
  prev_ok g valid a d [] → chain (bfs_prev d) a cur c →
  route g valid a (reverse (cur :: c)) cur
  ∧ bfs_dist d !! cur = Some (Z.of_nat (length c)).
Proof.
  intros Hok Hch. induction Hch as [|cur p c Hne Hp Hch [IHr IHd]].
  - split; [constructor|]. apply Hok.
  - destruct (po_edge _ _ _ _ _ Hok _ _ Hp) as (He & Hv & z & Hz & Hzc).
    rewrite IHd in Hz. injection Hz as <-. split.
    + rewrite reverse_cons. by apply (route_snoc _ _ _ _ p).
    + rewrite Hzc. f_equal. cbn [length]. lia.
Qed.

Lemma route_walk p b : route g valid a p b → walk g valid a (length p - 1) b ∧ p ≠ [].
Proof.
  induction 1 as [|p x y Hr [IHw IHn] He Hv].
  - split; [constructor|done].
  - split; [|by destruct p]. rewrite length_app. cbn [length].
    replace (length p + 1 - 1) with (S (length p - 1)) by (destruct p; [done|cbn; lia]).
    by apply (walk_snoc _ _ _ _ x).
Qed.
End PrevFacts.

(** X7: [bfsDistances a] always returns, and [dist[v] = k] exactly when
    the shortest walk from [a] to [v] through valid tiles has [k] steps;
    [dist[v]] is missing exactly when no such walk exists. *)
Theorem bfsDistances_are_shortest g valid a :
  ∃ d, bfsDistances g valid a = Some d
    ∧ (∀ v k, bfs_dist d !! v = Some k ↔
          (0 ≤ k)%Z ∧ walk g valid a (Z.to_nat k) v
          ∧ ∀ j, walk g valid a j v → Z.to_nat k ≤ j)
    ∧ (∀ v, bfs_dist d !! v = None ↔ ∀ j, ¬ walk g valid a j v).
Proof.
  destruct (bfsDistances_total g valid a) as [d Hd]. exists d. split; [done|].
  destruct (bfsDistances_shortest g valid a d Hd) as [Hs Hc]. split.
  - intros v k. split; [apply Hs|]. intros (H0 & Hw & Hmin).
    destruct (Hc v _ Hw) as [k' Hk']. rewrite Hk'. f_equal.
    destruct (Hs v k' Hk') as (H0' & Hw' & Hmin').
    specialize (Hmin _ Hw'). specialize (Hmin' _ Hw). lia.
  - intros v. split.
    + intros Hn j Hw. destruct (Hc v j Hw). congruence.
    + intros Hno. destruct (bfs_dist d !! v) as [k|] eqn:Hk; [|done].
      destruct (Hs v k Hk) as (_ & Hw & _). by apply Hno in Hw.
Qed.

(** The path returned for a reachable target. *)
Lemma shortestPathBetween_found g valid a b d z :
  bfsDistances g valid a = Some d → bfs_dist d !! b = Some z →
  ∃ p, shortestPathBetween g valid a b = Some p
       ∧ route g valid a p b ∧ length p = S (Z.to_nat z).
Proof.
  intros Hd Hz. unfold shortestPathBetween. rewrite Hd. cbn [mbind option_bind]. rewrite Hz.
  pose proof (bfsDistances_prev g valid a d Hd) as Hok.
  pose proof (bfsDistances_wf g valid a d Hd) as Hwf.
  destruct (walk_prev_chain g valid a d (S (length valid)) b [b] z Hok Hz) as (c & Hw & Hch).
  { destruct (bw_range _ _ _ Hwf _ _ Hz). pose proof (bw_size _ _ _ Hwf). lia. }
  rewrite Hw. cbn [fmap option_fmap option_map].
  exists (reverse ([b] ++ c)). split; [done|].
  destruct (chain_route g valid a d b c Hok Hch) as [Hr Hlen].
  change ([b] ++ c) with (b :: c). split; [done|].
  rewrite length_reverse. cbn [length].
  rewrite Hz in Hlen. injection Hlen as ->. f_equal. lia.
Qed.

(** X8: [shortestPathBetween(a,b)] always returns.  It returns the empty
    list exactly when [b] cannot be reached from [a]; otherwise it returns
    the tiles of a walk from [a] to [b] (for [a = b] the single tile [a])
    that no walk from [a] to [b] undercuts. *)
Theorem shortestPathBetween_is_shortest g valid a b :
  ∃ p, shortestPathBetween g valid a b = Some p
    ∧ ((p = [] ∧ ∀ j, ¬ walk g valid a j b)
       ∨ (route g valid a p b ∧ walk g valid a (length p - 1) b
          ∧ ∀ j, walk g valid a j b → length p ≤ S j)).
Proof.
  destruct (bfsDistances_total g valid a) as [d Hd].
  destruct (bfsDistances_shortest g valid a d Hd) as [Hs Hc].
  destruct (bfs_dist d !! b) as [z|] eqn:Hz.
  - destruct (shortestPathBetween_found g valid a b d z Hd Hz) as (p & Hp & Hr & Hlen).
    exists p. split; [done|]. right. split; [done|].
    split; [by apply route_walk in Hr as [? _]|].
    intros j Hj. destruct (Hs b _ Hz) as (_ & _ & Hmin). specialize (Hmin j Hj). lia.
  - exists []. split.
    + unfold shortestPathBetween. rewrite Hd. cbn [mbind option_bind]. by rewrite Hz.
    + left. split; [done|]. intros j Hj. destruct (Hc b j Hj). congruence.
Qed.

(** X9: on a built graph the exit distance matrix is symmetric, and for
    two exits on different nodes the entry is the number of steps of the
    shortest walk between their nodes, or [1e9] when there is none. *)
Theorem dist_matrix_is_symmetric fac sb m bg valid exits :
  buildPathGraph fac sb m = Some bg →
  collect_exits (bg_graph bg) valid m = Some exits →
  ∃ dist,
    dist_matrix (bg_graph bg) valid exits = Some dist
    ∧ (∀ i j, dist_at dist i j = dist_at dist j i)
    ∧ ∀ i j ei ej, exits !! i = Some ei → exits !! j = Some ej →
        ex_nodeId ei ≠ ex_nodeId ej →
        (dist_at dist i j = INF
         ∧ ∀ k, ¬ walk (bg_graph bg) valid (ex_nodeId ei) k (ex_nodeId ej))
        ∨ (∃ k, dist_at dist i j = Z.of_nat k ∧ 0 < k
                ∧ walk (bg_graph bg) valid (ex_nodeId ei) k (ex_nodeId ej)
                ∧ ∀ k', walk (bg_graph bg) valid (ex_nodeId ei) k' (ex_nodeId ej) → k ≤ k').
Proof.
  intros Hb Hc. destruct (buildPathGraph_wf m _ _ _ Hb) as [[Hsym _ _ _] _].
  pose proof (collect_exits_valid _ _ _ _ Hc) as Hex.
  destruct (dist_matrix_total (bg_graph bg) valid exits) as [dist Hd].
  exists dist. split; [done|]. split.
  { apply (dist_matrix_sym (bg_graph bg) valid Hsym exits dist Hex Hd). }
  intros i j ei ej Hi Hj Hne.
  destruct (dist_at_inside (bg_graph bg) valid exits dist Hd i j ei ej Hi Hj) as (d & Hbd & ->).
  destruct (bfsDistances_shortest _ _ _ d Hbd) as [Hs Hcp].
  unfold dist_or_inf. destruct (bfs_dist d !! ex_nodeId ej) as [z|] eqn:Hz.
  - destruct (Hs _ _ Hz) as (H0 & Hw & Hmin).
    assert (z ≠ 0%Z) as Hz0.
    { intros ->. inversion Hw. congruence. }
    rewrite (proj2 (Z.eqb_neq z 0) Hz0). right. exists (Z.to_nat z).
    split; [lia|]. split; [lia|]. done.
  - left. split; [done|]. intros k Hk. destruct (Hcp _ _ Hk). congruence.
Qed.

Lemma dist_matrix_is_symmetric_witness :
  ∃ dist,
    dist_matrix (bg_graph pair_built) pair_valid pair_routes.1 = Some dist
    ∧ (∀ i j, dist_at dist i j = dist_at dist j i)
    ∧ ∀ i j ei ej, pair_routes.1 !! i = Some ei → pair_routes.1 !! j = Some ej →
        ex_nodeId ei ≠ ex_nodeId ej →
        (dist_at dist i j = INF
         ∧ ∀ k, ¬ walk (bg_graph pair_built) pair_valid (ex_nodeId ei) k (ex_nodeId ej))
        ∨ (∃ k, dist_at dist i j = Z.of_nat k ∧ 0 < k
                ∧ walk (bg_graph pair_built) pair_valid (ex_nodeId ei) k (ex_nodeId ej)
                ∧ ∀ k', walk (bg_graph pair_built) pair_valid (ex_nodeId ei) k' (ex_nodeId ej)
                        → k ≤ k').
Proof.
  apply (dist_matrix_is_symmetric false false pair_map pair_built); vm_compute; reflexivity.
Defined.

(** * The unguarded tile scans *)

Section ScanCollect.
Context {A : Type}.
Variable m : GameMap.
Variable h : nat * nat → list A → list Element → list A.
Variable k : nat * nat → list Element → list A.
Hypothesis h_app : ∀ xy a els, h xy a els = a ++ k xy els.

#[local] Abbreviation step :=
  (λ (acc : option (list A)) (xy : nat * nat),
     a ← acc; els ← getTile m xy.1 xy.2; Some (h xy a els)).

Lemma scan_collect_none l : foldl step None l = None.
Proof. induction l as [|xy l IH]; [done|]. cbn [foldl]. exact IH. Qed.

Lemma scan_collect l : ∀ acc,
  foldl step (Some acc) l =
  if decide (Forall (λ xy, is_Some (getTile m xy.1 xy.2)) l)
  then Some (acc ++ (l ≫= λ xy, k xy (default [] (getTile m xy.1 xy.2))))
  else None.
Proof.
  induction l as [|xy l IH]; intros acc; cbn [foldl].
  - rewrite decide_True by constructor. by rewrite app_nil_r.
  - cbn [mbind option_bind]. destruct (getTile m xy.1 xy.2) as [els|] eqn:Hels.
    + cbn [mbind option_bind]. rewrite IH, h_app.
      destruct (decide (Forall _ l)) as [Hall|Hno].
      * rewrite decide_True.
        2:{ constructor; [rewrite Hels; by eexists|done]. }
        f_equal. rewrite <- app_assoc. f_equal. cbn. by rewrite Hels.
      * rewrite decide_False; [done|]. intros Hc. apply Forall_cons in Hc as [_ ?]. done.
    + cbn [mbind option_bind]. rewrite scan_collect_none.
      rewrite decide_False; [done|]. intros Hc. apply Forall_cons in Hc as [[? Hc] _].
      congruence.
Qed.
End ScanCollect.

Lemma grid_tiles_total m :
  Forall (λ xy, is_Some (getTile m xy.1 xy.2)) (grid (map_w m) (map_h m)) ↔ ¬ null_tile m.
Proof.
  rewrite Forall_forall. split.
  - intros Hall (x & y & Hx & Hy & Hn).
    destruct (Hall (x, y)) as [els Hels]; [by apply elem_of_grid|]. cbn in Hels. congruence.
  - intros Hno [x y] Hin. apply elem_of_grid in Hin as [Hx Hy]. cbn.
    destruct (getTile m x y) eqn:Hg; [by eexists|]. exfalso. apply Hno. by exists x, y.
Qed.

Lemma null_tile_dec m : null_tile m ∨ ¬ null_tile m.
Proof.
  destruct (decide (Forall (λ xy, is_Some (getTile m xy.1 xy.2)) (grid (map_w m) (map_h m))))
    as [Hall|Hno].
  - right. by apply grid_tiles_total.
  - left. apply not_Forall_Exists in Hno; [|apply _].
    apply Exists_exists in Hno as ([x y] & Hin & Hn). apply elem_of_grid in Hin as [Hx Hy].
    exists x, y. split; [done|]. split; [done|]. cbn in Hn.
    destruct (getTile m x y); [|done]. exfalso. apply Hn. by eexists.
Qed.

Lemma shops_inner m (xy : nat * nat) : ∀ els coords,
  foldl (λ coords el,
           if String.eqb (el_type el) "rideEntrance"
              && isStallRide (map_rides m (el_ride el))
           then coords ++ [(Z.of_nat xy.1, Z.of_nat xy.2)]
           else coords) coords els
  = coords ++ (els ≫= λ el, if String.eqb (el_type el) "rideEntrance"
                                && isStallRide (map_rides m (el_ride el))
                             then [(Z.of_nat xy.1, Z.of_nat xy.2)] else []).
Proof.
  induction els as [|el els IH]; intros coords; cbn [foldl].
  - by rewrite app_nil_r.
  - rewrite IH. cbn. destruct (_ && _); [by rewrite <- app_assoc|done].
Qed.

Lemma getLikelyShopEntranceCoords_eq m :
  getLikelyShopEntranceCoords m =
  if decide (Forall (λ xy, is_Some (getTile m xy.1 xy.2)) (grid (map_w m) (map_h m)))
  then Some (grid (map_w m) (map_h m) ≫= λ xy,
               default [] (getTile m xy.1 xy.2) ≫= λ el,
                 if String.eqb (el_type el) "rideEntrance"
                    && isStallRide (map_rides m (el_ride el))
                 then [(Z.of_nat xy.1, Z.of_nat xy.2)] else [])
  else None.
Proof.
  unfold getLikelyShopEntranceCoords.
  rewrite (scan_collect m
             (λ xy coords els,
                foldl (λ coords el,
                         if String.eqb (el_type el) "rideEntrance"
                            && isStallRide (map_rides m (el_ride el))
                         then coords ++ [(Z.of_nat xy.1, Z.of_nat xy.2)]
                         else coords) coords els)
             (λ xy els, els ≫= λ el,
                if String.eqb (el_type el) "rideEntrance"
                   && isStallRide (map_rides m (el_ride el))
                then [(Z.of_nat xy.1, Z.of_nat xy.2)] else [])); [done|].
  intros xy a els. apply shops_inner.
Qed.

Lemma getLikelyShopEntranceCoords_none m :
  getLikelyShopEntranceCoords m = None ↔ null_tile m.
Proof.
  rewrite getLikelyShopEntranceCoords_eq.
  destruct (decide (Forall _ _)) as [Hall|Hno].
  - split; [done|]. intros Hn. by apply grid_tiles_total in Hall.
  - split; [|done]. intros _. destruct (null_tile_dec m) as [?|Hn]; [done|].
    by apply grid_tiles_total in Hn.
Qed.

(** X10: [getLikelyShopEntranceCoords] throws exactly when some tile of
    the grid is [null] (it reads [tile.elements] without the guard that
    [buildPathGraph] has); otherwise it returns the coordinates of exactly
    the tiles carrying a stall's ride entrance. *)
Theorem getLikelyShopEntranceCoords_spec m :
  (getLikelyShopEntranceCoords m = None ↔ null_tile m)
  ∧ ∀ coords, getLikelyShopEntranceCoords m = Some coords →
      ∀ p, p ∈ coords ↔
           ∃ x y, x < map_w m ∧ y < map_h m ∧ p = (Z.of_nat x, Z.of_nat y)
                  ∧ stall_entrance_tile m x y.
Proof.
  split; [apply getLikelyShopEntranceCoords_none|].
  rewrite getLikelyShopEntranceCoords_eq.
  intros coords Hc. destruct (decide (Forall _ _)) as [Hall|Hno]; [|done].
  injection Hc as <-. intros p. rewrite list_elem_of_bind. split.
  - intros ([x y] & Hp & Hin). apply elem_of_grid in Hin as [Hx Hy].
    apply list_elem_of_bind in Hp as (el & Hp & Hel). cbn in Hel, Hp.
    destruct (String.eqb (el_type el) "rideEntrance") eqn:Ht; cbn [andb] in Hp;
      [|by apply elem_of_nil in Hp].
    destruct (isStallRide _) eqn:Hs; [|by apply elem_of_nil in Hp].
    apply list_elem_of_singleton in Hp as ->. exists x, y.
    split; [done|]. split; [done|]. split; [done|].
    destruct (getTile m x y) as [els|] eqn:Hg; [|by apply elem_of_nil in Hel].
    exists els, el. split; [done|]. split; [done|]. split; [by apply String.eqb_eq|done].
  - intros (x & y & Hx & Hy & -> & els & el & Hg & Hel & Ht & Hs).
    exists (x, y). split; [|by apply elem_of_grid].
    apply list_elem_of_bind. exists el. cbn. rewrite Hg. split; [|done].
    rewrite Ht, Hs. cbn. left.
Qed.

Lemma exits_inner g valid m (xy : nat * nat) : ∀ els exits,
  foldl (λ exits el,
           if String.eqb (el_type el) "rideExit" then
             match idByXY g !! key (Z.of_nat xy.1) (Z.of_nat xy.2) with
             | Some nid =>
               if set_has valid nid
               then exits ++ [mkExit nid (Z.of_nat xy.1) (Z.of_nat xy.2)
                                     (el_ride el)
                                     (ride_name <$> map_rides m (el_ride el))]
               else exits
             | None => exits
             end
           else exits) exits els
  = exits ++ (els ≫= λ el,
                if String.eqb (el_type el) "rideExit" then
                  match idByXY g !! key (Z.of_nat xy.1) (Z.of_nat xy.2) with
                  | Some nid =>
                    if set_has valid nid
                    then [mkExit nid (Z.of_nat xy.1) (Z.of_nat xy.2) (el_ride el)
                                 (ride_name <$> map_rides m (el_ride el))]
                    else []
                  | None => []
                  end
                else []).
Proof.
  induction els as [|el els IH]; intros exits; cbn [foldl].
  - by rewrite app_nil_r.
  - rewrite IH. cbn. destruct (String.eqb _ _); [|done].
    destruct (idByXY g !! _); [|done]. destruct (set_has valid _); [|done].
    by rewrite <- app_assoc.
Qed.

Lemma collect_exits_eq g valid m :
  collect_exits g valid m =
  if decide (Forall (λ xy, is_Some (getTile m xy.1 xy.2)) (grid (map_w m) (map_h m)))
  then Some (grid (map_w m) (map_h m) ≫= λ xy,
               default [] (getTile m xy.1 xy.2) ≫= λ el,
                 if String.eqb (el_type el) "rideExit" then
                   match idByXY g !! key (Z.of_nat xy.1) (Z.of_nat xy.2) with
                   | Some nid =>
                     if set_has valid nid
                     then [mkExit nid (Z.of_nat xy.1) (Z.of_nat xy.2) (el_ride el)
                                  (ride_name <$> map_rides m (el_ride el))]
                     else []
                   | None => []
                   end
                 else [])
  else None.
Proof.
  unfold collect_exits.
  rewrite (scan_collect m
             (λ xy exits els,
                foldl (λ exits el,
                   if String.eqb (el_type el) "rideExit" then
                     match idByXY g !! key (Z.of_nat xy.1) (Z.of_nat xy.2) with
                     | Some nid =>
                       if set_has valid nid
                       then exits ++ [mkExit nid (Z.of_nat xy.1) (Z.of_nat xy.2)
                                             (el_ride el)
                                             (ride_name <$> map_rides m (el_ride el))]
                       else exits
                     | None => exits
                     end
                   else exits) exits els)
             (λ xy els, els ≫= λ el,
                if String.eqb (el_type el) "rideExit" then
                  match idByXY g !! key (Z.of_nat xy.1) (Z.of_nat xy.2) with
                  | Some nid =>
                    if set_has valid nid
                    then [mkExit nid (Z.of_nat xy.1) (Z.of_nat xy.2) (el_ride el)
                                 (ride_name <$> map_rides m (el_ride el))]
                    else []
                  | None => []
                  end
                else [])); [done|].
  intros xy a els. apply exits_inner.
Qed.

Lemma collect_exits_none g valid m : collect_exits g valid m = None ↔ null_tile m.
Proof.
  rewrite collect_exits_eq. destruct (decide (Forall _ _)) as [Hall|Hno].
  - split; [done|]. intros Hn. by apply grid_tiles_total in Hall.
  - split; [|done]. intros _. destruct (null_tile_dec m) as [?|Hn]; [done|].
    by apply grid_tiles_total in Hn.
Qed.

(** X11: the exit scan of [buildMechanicRoutes] throws exactly when some
    tile of the grid is [null]; otherwise [Plan.mechExits] holds one entry
    for every [rideExit] element standing on a tile whose node is valid,
    with that node's id, the tile's coordinates and the element's ride. *)
Theorem collect_exits_spec fac sb m bg valid :
  buildPathGraph fac sb m = Some bg →
  (collect_exits (bg_graph bg) valid m = None ↔ null_tile m)
  ∧ ∀ exits, collect_exits (bg_graph bg) valid m = Some exits →
      ∀ e, e ∈ exits ↔
           ∃ x y els el n,
             x < map_w m ∧ y < map_h m ∧ getTile m x y = Some els ∧ el ∈ els
             ∧ el_type el = "rideExit"
             ∧ nodes (bg_graph bg) !! ex_nodeId e = Some n
             ∧ node_pos n = (Z.of_nat x, Z.of_nat y)
             ∧ ex_nodeId e ∈ valid
             ∧ e = mkExit (ex_nodeId e) (Z.of_nat x) (Z.of_nat y) (el_ride el)
                          (ride_name <$> map_rides m (el_ride el)).
Proof.
  intros Hb. split; [apply collect_exits_none|].
  intros exits Hc. rewrite collect_exits_eq in Hc.
  destruct (decide (Forall _ _)) as [Hall|Hno]; [|done].
  injection Hc as <-. intros e. rewrite list_elem_of_bind. split.
  - intros ([x y] & He & Hin). apply elem_of_grid in Hin as [Hx Hy].
    apply list_elem_of_bind in He as (el & He & Hel). cbn in Hel, He.
    destruct (String.eqb (el_type el) "rideExit") eqn:Ht; [|by apply elem_of_nil in He].
    destruct (idByXY (bg_graph bg) !! _) as [nid|] eqn:Hid; [|by apply elem_of_nil in He].
    destruct (set_has valid nid) eqn:Hv; [|by apply elem_of_nil in He].
    apply list_elem_of_singleton in He as ->. cbn [ex_nodeId].
    destruct (getTile m x y) as [els|] eqn:Hg; [|by apply elem_of_nil in Hel].
    apply (built_ids_node m fac sb bg Hb) in Hid as (n & Hn & [= Hkx Hky]).
    exists x, y, els, el, n. split; [done|]. split; [done|]. split; [done|]. split; [done|].
    split; [by apply String.eqb_eq|]. split; [done|]. split; [by rewrite Hkx, Hky|].
    split; [by apply set_has_true|done].
  - intros (x & y & els & el & n & Hx & Hy & Hg & Hel & Ht & Hn & [= Hnx Hny] & Hv & ->).
    exists (x, y). split; [|by apply elem_of_grid].
    apply list_elem_of_bind. exists el. cbn. rewrite Hg. split; [|done].
    rewrite Ht. cbn.
    assert (idByXY (bg_graph bg) !! key (Z.of_nat x) (Z.of_nat y) = Some (ex_nodeId e)) as ->.
    { apply (built_ids_node m fac sb bg Hb). exists n. by rewrite Hnx, Hny. }
    apply set_has_true in Hv. rewrite Hv. left.
Qed.

Lemma collect_exits_spec_witness :
  (collect_exits (bg_graph corridor_built) [8; 9] corridor_map = None ↔ null_tile corridor_map)
  ∧ ∀ exits, collect_exits (bg_graph corridor_built) [8; 9] corridor_map = Some exits →
      ∀ e, e ∈ exits ↔
           ∃ x y els el n,
             x < map_w corridor_map ∧ y < map_h corridor_map
             ∧ getTile corridor_map x y = Some els ∧ el ∈ els
             ∧ el_type el = "rideExit"
             ∧ nodes (bg_graph corridor_built) !! ex_nodeId e = Some n
             ∧ node_pos n = (Z.of_nat x, Z.of_nat y)
             ∧ ex_nodeId e ∈ [8; 9]
             ∧ e = mkExit (ex_nodeId e) (Z.of_nat x) (Z.of_nat y) (el_ride el)
                          (ride_name <$> map_rides corridor_map (el_ride el)).
Proof.
  apply (collect_exits_spec false false corridor_map corridor_built). vm_compute; reflexivity.
Defined.

(** ** When the preview run fails *)

Lemma buildPathGraph_none fac sb m :
  buildPathGraph fac sb m = None ↔ fac = true ∧ null_tile m.
Proof.
  unfold buildPathGraph. destruct fac.
  - set (ns := zip_with _ _ _).
    assert (Hiff : foldl (facilities_tile m sb (sc_ids (scan_tiles m))) (Some ns)
                     (grid (map_w m) (map_h m)) = None ↔ null_tile m).
    { destruct (null_tile_dec m) as [Hn|Hn].
      - split; [done|]. intros _. destruct Hn as (x & y & Hx & Hy & Hg).
        assert ((x, y) ∈ grid (map_w m) (map_h m)) as Hin by by apply elem_of_grid.
        revert Hin. generalize (grid (map_w m) (map_h m)). generalize (Some ns).
        intros acc l. revert acc. induction l as [|xy l IH]; intros acc Hin.
        + by apply elem_of_nil in Hin.
        + cbn [foldl]. apply elem_of_cons in Hin as [<-|Hin]; [|by apply IH].
          unfold facilities_tile at 2. cbn. rewrite Hg.
          destruct acc; cbn; clear; induction l as [|? l IH]; done.
      - split; [|done]. intros Hf. exfalso.
        apply grid_tiles_total in Hn. rewrite Forall_forall in Hn.
        destruct (scan_total m (λ xy ns els,
                     foldl (mark_soft sb (sc_ids (scan_tiles m))
                              (key (Z.of_nat xy.1) (Z.of_nat xy.2))) ns els)
                   (grid (map_w m) (map_h m)) ns Hn) as [r Hr].
        unfold facilities_tile in Hf. rewrite Hr in Hf. done. }
    split.
    + intros H. split; [done|]. apply Hiff.
      destruct (foldl _ _ _); [done|done].
    + intros [_ Hn]. apply Hiff in Hn. by rewrite Hn.
  - split; [done|]. by intros [? _].
Qed.

Lemma buildHandymanZones_total g s env validIds reserved courts old :
  is_Some (buildHandymanZones g s env validIds reserved courts old).
Proof.
  unfold buildHandymanZones. destruct (_ =? 0); [by eexists|].
  destruct (handyman_pool g s validIds reserved courts) as [zones valid].
  destruct (balancedFlood_within g valid
              (pickSeeds g (env_random env) valid (zones_needed s env (length valid)))
              (tilesPerHandyman s)) as (grown & -> & _).
  by eexists.
Qed.

Lemma buildMechanicRoutes_none s m g valid :
  buildMechanicRoutes s m g valid = None ↔ null_tile m.
Proof.
  unfold buildMechanicRoutes. rewrite <- (collect_exits_none g valid m).
  destruct (collect_exits g valid m) as [exits|]; [|done]. cbn [mbind option_bind].
  split; [|done]. intros H. exfalso.
  destruct (dist_matrix_total g valid exits) as [dist Hd]. rewrite Hd in H.
  cbn [mbind option_bind] in H.
  destruct (cluster_exits_spec dist (mechMaxExits s) (mechMstCap s) (mechDiameterCap s)
              (length exits)) as (clusters & Hc & _).
  rewrite Hc in H. cbn [mbind option_bind] in H.
  assert (is_Some (build_clusters g valid dist exits clusters)) as [mcs Hm].
  { unfold build_clusters. apply mapM_is_Some, Forall_forall. intros c _.
    destruct (build_cluster_spec g valid dist exits c) as (mc & Hbc & _).
    unfold compose. rewrite Hbc. by eexists. }
  rewrite Hm in H. done.
Qed.

(** X12: the preview run dies with an uncaught [TypeError] exactly when
    some tile of the grid is [null] and one of the three unguarded scans is
    switched on (the facilities pass, food-court detection, mechanic
    routing); in every other case it returns a plan marked as built. *)
Theorem onPreview_fails_on_null_tile s env m :
  (onPreview s env m = None ↔
   null_tile m
   ∧ includeFacilitiesCuldesacs s || enableFoodCourts s || enableMechanics s = true)
  ∧ ∀ plan, onPreview s env m = Some plan → built plan = true.
Proof.
  split.
  2:{ unfold onPreview. intros plan H.
      apply bind_Some in H as (bg & _ & H). apply bind_Some in H as (valid & _ & H).
      apply bind_Some in H as ([courts reserved] & _ & H).
      apply bind_Some in H as (zones & _ & H).
      apply bind_Some in H as ([exits clusters] & _ & H).
      destruct (computeKpis _ _ _ _ _ _). by injection H as <-. }
  unfold onPreview.
  destruct (buildPathGraph (includeFacilitiesCuldesacs s) (foodCourtIncludeSeatingBins s) m)
    as [bg|] eqn:Hbg.
  2:{ apply buildPathGraph_none in Hbg as [-> Hn]. done. }
  assert (Hfac : includeFacilitiesCuldesacs s = true → ¬ null_tile m).
  { intros Hf Hn.
    assert (buildPathGraph (includeFacilitiesCuldesacs s) (foodCourtIncludeSeatingBins s) m
            = None) by (apply buildPathGraph_none; by rewrite Hf).
    congruence. }
  cbn [mbind option_bind].
  destruct (pruneSceneryBranches_total (edges (bg_graph bg)) (bg_attractors bg)
              (length (nodes (bg_graph bg))) (bg_valid bg)) as [valid ->].
  cbn [mbind option_bind].
  destruct (enableFoodCourts s) eqn:Hfc.
  - destruct (getLikelyShopEntranceCoords m) as [shops|] eqn:Hs.
    2:{ cbn [mbind option_bind]. apply getLikelyShopEntranceCoords_none in Hs.
        rewrite orb_true_r. done. }
    cbn [mbind option_bind].
    assert (¬ null_tile m) as Hnn.
    { intros Hn. apply getLikelyShopEntranceCoords_none in Hn. congruence. }
    destruct (detectFoodCourts_spec (bg_graph bg) valid
                (foodCourtRadius s * foodCourtRadius s)%Z (foodCourtMaxTiles s)
                (foodCourtTilesPerCleaner s) (foodCourtStallThreshold s) shops)
      as (st & _ & ->).
    cbn [mbind option_bind].
    assert (∃ zones, (if enableHandymen s
                      then buildHandymanZones (bg_graph bg) s env valid (cs_reserved st)
                                              (cs_courts st) []
                      else Some []) = Some zones) as [zones ->].
    { destruct (enableHandymen s); [apply buildHandymanZones_total|by eexists]. }
    cbn [mbind option_bind].
    assert (∃ ec, (if enableMechanics s then buildMechanicRoutes s m (bg_graph bg) valid
                   else Some ([], [])) = Some ec) as [[exits clusters] ->].
    { destruct (enableMechanics s); [|by eexists].
      destruct (buildMechanicRoutes s m (bg_graph bg) valid) eqn:Hm; [by eexists|].
      apply buildMechanicRoutes_none in Hm. done. }
    cbn [mbind option_bind]. destruct (computeKpis _ _ _ _ _ _).
    split; [done|]. by intros [? _].
  - cbn [mbind option_bind].
    assert (∃ zones, (if enableHandymen s
                      then buildHandymanZones (bg_graph bg) s env valid [] [] []
                      else Some []) = Some zones) as [zones ->].
    { destruct (enableHandymen s); [apply buildHandymanZones_total|by eexists]. }
    cbn [mbind option_bind]. rewrite orb_false_r.
    destruct (enableMechanics s) eqn:Hme.
    + rewrite orb_true_r.
      destruct (buildMechanicRoutes s m (bg_graph bg) valid) as [[exits clusters]|] eqn:Hm.
      * cbn [mbind option_bind]. destruct (computeKpis _ _ _ _ _ _).
        split; [done|]. intros [Hn _]. apply (buildMechanicRoutes_none s m (bg_graph bg) valid) in Hn.
        congruence.
      * cbn [mbind option_bind]. apply buildMechanicRoutes_none in Hm. done.
    + cbn [mbind option_bind]. destruct (computeKpis _ _ _ _ _ _).
      rewrite orb_false_r. split; [done|]. intros [Hn Hf]. by apply Hfac in Hf.
Qed.

(** * Mechanic clusters: every exit in one cluster, within the caps *)

Section ClusterMore.
Variable dist : list (list Z).
Variable maxExits : nat.
Variable mstCap diameterCap : Z.

#[local] Abbreviation grow := (grow_cluster dist maxExits mstCap diameterCap).

(** What one finished cluster satisfies besides [cluster_ok]. *)
#[local] Abbreviation capped :=
  (λ c : list nat, 2 ≤ length c → (mstLengthApprox dist c ≤ mstCap)%Z).

Lemma grow_cluster_full fuel : ∀ current unassigned,
  NoDup (current ++ unassigned) →
  (grow fuel current unassigned).1 ++ (grow fuel current unassigned).2
    ≡ₚ current ++ unassigned
  ∧ (∃ more, (grow fuel current unassigned).1 = current ++ more)
  ∧ length (grow fuel current unassigned).1 ≤ Nat.max (length current) maxExits
  ∧ (capped current → capped (grow fuel current unassigned).1).
Proof.
  induction fuel as [|fuel IH]; intros current unassigned Hnd; cbn [grow_cluster].
  { cbn [fst snd]. split; [done|]. split; [exists []; by rewrite app_nil_r|].
    split; [lia|done]. }
  destruct (length current <? maxExits) eqn:Hlt.
  2:{ cbn [fst snd]. split; [done|]. split; [exists []; by rewrite app_nil_r|].
      split; [lia|done]. }
  apply Nat.ltb_lt in Hlt.
  destruct (nearest_candidate dist diameterCap current unassigned) as [best|] eqn:Hn.
  2:{ cbn [fst snd]. split; [done|]. split; [exists []; by rewrite app_nil_r|].
      split; [lia|done]. }
  apply nearest_candidate_spec in Hn as [Hin _].
  assert (Hperm : current ++ unassigned ≡ₚ (current ++ [best]) ++ set_delete unassigned best).
  { rewrite <- app_assoc. apply Permutation_app_head. cbn [app].
    apply set_delete_perm; [|done]. by apply NoDup_app in Hnd as (_ & _ & ?). }
  destruct (mstCap <? mstLengthApprox dist (current ++ [best]))%Z eqn:Hcap.
  - cbn [fst snd]. split; [|split; [exists []; by rewrite app_nil_r|split; [lia|done]]].
    rewrite set_add_fresh by (rewrite elem_of_set_delete; tauto).
    rewrite Hperm, <- !app_assoc. apply Permutation_app_head, Permutation_app_comm.
  - destruct (IH (current ++ [best]) (set_delete unassigned best)) as (Hp & [more Hm] & Hl & Hc).
    { by rewrite <- Hperm. }
    split; [by rewrite Hp, Hperm|]. split.
    { exists ([best] ++ more). by rewrite Hm, <- app_assoc. }
    split.
    { rewrite length_app in Hl. cbn [length] in Hl. lia. }
    intros _. apply Hc. intros _. by apply Z.ltb_ge in Hcap.
Qed.

Lemma cluster_loop_full fuel : ∀ unassigned clusters clusters',
  NoDup unassigned →
  cluster_loop dist maxExits mstCap diameterCap fuel unassigned clusters = Some clusters' →
  concat clusters' ≡ₚ concat clusters ++ unassigned
  ∧ ((∀ c, c ∈ clusters → c ≠ [] ∧ length c ≤ Nat.max 1 maxExits ∧ capped c) →
     ∀ c, c ∈ clusters' → c ≠ [] ∧ length c ≤ Nat.max 1 maxExits ∧ capped c).
Proof.
  induction fuel as [|fuel IH]; intros unassigned clusters clusters' Hnd Hl.
  - destruct unassigned; [|done]. injection Hl as <-. by rewrite app_nil_r.
  - destruct unassigned as [|seed unassigned].
    { injection Hl as <-. by rewrite app_nil_r. }
    cbn [cluster_loop] in Hl.
    destruct (grow_cluster_full maxExits [seed] unassigned Hnd) as (Hp & [more Hm] & Hlen & Hc).
    destruct (grow_cluster _ _ _ _ _ _ _) as [current rest]. cbn [fst snd] in *.
    apply IH in Hl as [Hperm Hall].
    + split.
      * rewrite Hperm, concat_app. cbn [concat]. rewrite app_nil_r, <- app_assoc.
        apply Permutation_app_head. done.
      * intros Hold. apply Hall. intros c Hin.
        apply elem_of_app in Hin as [Hin|Hin]; [by apply Hold|].
        apply list_elem_of_singleton in Hin as ->. split; [by rewrite Hm|].
        split; [done|]. apply Hc. cbn [length]. lia.
    + assert (NoDup (current ++ rest)) as Hnd' by by rewrite Hp.
      by apply NoDup_app in Hnd' as (_ & _ & ?).
Qed.

Lemma cluster_exits_full n clusters :
  cluster_exits dist maxExits mstCap diameterCap n = Some clusters →
  concat clusters ≡ₚ seq 0 n
  ∧ ∀ c, c ∈ clusters → c ≠ [] ∧ length c ≤ Nat.max 1 maxExits ∧ capped c.
Proof.
  unfold cluster_exits. intros Hc.
  apply cluster_loop_full in Hc as [Hp Hall]; [|apply NoDup_seq].
  split; [done|]. apply Hall. intros c Hin. by apply elem_of_nil in Hin.
Qed.
End ClusterMore.

Lemma elem_of_concat {A} (x : A) (ls : list (list A)) :
  x ∈ concat ls ↔ ∃ l, l ∈ ls ∧ x ∈ l.
Proof.
  induction ls as [|l ls IH]; cbn [concat].
  - split; [intros H; by apply elem_of_nil in H|]. intros (l & Hl & _). by apply elem_of_nil in Hl.
  - rewrite elem_of_app, IH. split.
    + intros [?|(l' & ? & ?)]; [exists l; split; [left|done]|exists l'; split; [by right|done]].
    + intros (l' & Hl' & ?). apply elem_of_cons in Hl' as [->|?]; [by left|right; eauto].
Qed.

Lemma filter_all {A} (P : A → Prop) `{∀ x, Decision (P x)} (l : list A) :
  (∀ x, x ∈ l → P x) → filter P l = l.
Proof.
  induction l as [|a l IH]; intros Hall; [done|]. rewrite filter_cons.
  rewrite decide_True by (apply Hall; left). f_equal. apply IH. intros x Hx. apply Hall. by right.
Qed.

(** The parts of a successful run of [buildMechanicRoutes]. *)
Lemma buildMechanicRoutes_parts s m g valid exits mcs :
  buildMechanicRoutes s m g valid = Some (exits, mcs) →
  ∃ dist clusters,
    collect_exits g valid m = Some exits
    ∧ dist_matrix g valid exits = Some dist
    ∧ cluster_exits dist (mechMaxExits s) (mechMstCap s) (mechDiameterCap s) (length exits)
      = Some clusters
    ∧ (∀ c, c ∈ clusters → c ≠ [])
    ∧ map mc_exits mcs = clusters
    ∧ Forall2 (λ c mc, build_cluster g valid dist exits c = Some mc) clusters mcs.
Proof.
  unfold buildMechanicRoutes. intros H.
  apply bind_Some in H as (exits' & He & H). apply bind_Some in H as (dist & Hd & H).
  apply bind_Some in H as (clusters & Hc & H). apply bind_Some in H as (mcs' & Hm & [= <- <-]).
  exists dist, clusters. split; [done|]. split; [done|]. split; [done|].
  assert (Hne : ∀ c, c ∈ clusters → c ≠ []).
  { intros c Hin. by apply (cluster_exits_full _ _ _ _ _ _ Hc) in Hin as [? _]. }
  split; [done|]. unfold build_clusters in Hm.
  rewrite (filter_all _ clusters Hne) in Hm.
  apply mapM_Some in Hm. split; [|done].
  clear -Hm. induction Hm as [|c mc cs mcs' Hb Hm IH]; [done|]. cbn [map]. f_equal; [|done].
  destruct (build_cluster_spec g valid dist exits' c) as (mc' & Hb' & Hex & _). congruence.
Qed.

(** X13: every collected ride exit belongs to exactly one mechanic
    cluster: the clusters' exit lists, put end to end, are a permutation
    of the exit indices.  No cluster is empty, none lists an exit twice,
    and none has more than [mechMaxExits] exits (a seed alone always makes
    a cluster). *)
Theorem mechanic_clusters_partition_exits s m g valid exits mcs :
  buildMechanicRoutes s m g valid = Some (exits, mcs) →
  concat (map mc_exits mcs) ≡ₚ seq 0 (length exits)
  ∧ ∀ mc, mc ∈ mcs →
      mc_exits mc ≠ [] ∧ NoDup (mc_exits mc)
      ∧ length (mc_exits mc) ≤ Nat.max 1 (mechMaxExits s).
Proof.
  intros H. apply buildMechanicRoutes_parts in H
    as (dist & clusters & _ & _ & Hc & _ & Hmap & _).
  rewrite Hmap. destruct (cluster_exits_full _ _ _ _ _ _ Hc) as [Hp Hall].
  split; [done|]. intros mc Hin.
  assert (mc_exits mc ∈ clusters) as Hcin.
  { rewrite <- Hmap. apply list_elem_of_fmap. by exists mc. }
  destruct (Hall _ Hcin) as (Hne & Hlen & _). split; [done|]. split; [|done].
  assert (NoDup (concat clusters)) as Hnd by (rewrite Hp; apply NoDup_seq).
  clear -Hnd Hcin. induction clusters as [|c cs IH]; [by apply elem_of_nil in Hcin|].
  cbn [concat] in Hnd. apply NoDup_app in Hnd as (Hc & _ & Hcs).
  apply elem_of_cons in Hcin as [->|Hcin]; [done|by apply IH].
Qed.

Lemma mechanic_clusters_partition_exits_witness :
  concat (map mc_exits pair_routes.2) ≡ₚ seq 0 (length pair_routes.1)
  ∧ ∀ mc, mc ∈ pair_routes.2 →
      mc_exits mc ≠ [] ∧ NoDup (mc_exits mc)
      ∧ length (mc_exits mc) ≤ Nat.max 1 (mechMaxExits default_settings).
Proof.
  apply (mechanic_clusters_partition_exits default_settings pair_map
           (bg_graph pair_built) pair_valid).
  vm_compute; reflexivity.
Defined.

(** X14: every mechanic cluster respects the distance caps it was grown
    under: any two of its exits are within [mechDiameterCap] of each other
    in the distance matrix, and a cluster of two or more exits has
    [mstLengthApprox] at most [mechMstCap]. *)
Theorem mechanic_clusters_within_caps s m g valid exits mcs :
  buildMechanicRoutes s m g valid = Some (exits, mcs) →
  ∃ dist,
    dist_matrix g valid exits = Some dist
    ∧ ∀ mc, mc ∈ mcs →
        (∀ p, p ∈ pairs (mc_exits mc) → (dist_at dist p.1 p.2 ≤ mechDiameterCap s)%Z)
        ∧ (2 ≤ length (mc_exits mc) →
           (mstLengthApprox dist (mc_exits mc) ≤ mechMstCap s)%Z).
Proof.
  intros H. apply buildMechanicRoutes_parts in H
    as (dist & clusters & _ & Hd & Hc & _ & Hmap & _).
  exists dist. split; [done|]. intros mc Hin.
  assert (mc_exits mc ∈ clusters) as Hcin.
  { rewrite <- Hmap. apply list_elem_of_fmap. by exists mc. }
  destruct (cluster_exits_full _ _ _ _ _ _ Hc) as [_ Hall].
  destruct (Hall _ Hcin) as (_ & _ & Hcap). split; [|done].
  destruct (cluster_exits_spec dist (mechMaxExits s) (mechMstCap s) (mechDiameterCap s)
              (length exits)) as (clusters' & Hc' & Hok).
  rewrite Hc in Hc'. injection Hc' as <-. by apply Hok.
Qed.

Lemma mechanic_clusters_within_caps_witness :
  ∃ dist,
    dist_matrix (bg_graph pair_built) pair_valid pair_routes.1 = Some dist
    ∧ ∀ mc, mc ∈ pair_routes.2 →
        (∀ p, p ∈ pairs (mc_exits mc) →
              (dist_at dist p.1 p.2 ≤ mechDiameterCap default_settings)%Z)
        ∧ (2 ≤ length (mc_exits mc) →
           (mstLengthApprox dist (mc_exits mc) ≤ mechMstCap default_settings)%Z).
Proof.
  apply (mechanic_clusters_within_caps default_settings pair_map
           (bg_graph pair_built) pair_valid).
  vm_compute; reflexivity.
Defined.

(** * [mstLengthApprox] is exact; the routes of a cluster *)

Section ApproxLoop.
Variable dist : list (list Z).
Variable c : list nat.
Variable c0 : nat.

#[local] Abbreviation d := (dist_at dist).
#[local] Abbreviation weight := (edges_weight dist).
#[local] Abbreviation nd := (λ (used : list nat) (v : nat),
                               foldl (λ nd u, Z.min nd (d u v)) INF used).

Lemma nd_fold (used : list nat) v : ∀ a,
  let r := foldl (λ nd u, Z.min nd (d u v)) a used in
  (r ≤ a)%Z ∧ (∀ u, u ∈ used → r ≤ d u v)%Z
  ∧ (r = a ∨ ∃ u, u ∈ used ∧ r = d u v).
Proof.
  induction used as [|u used IH]; intros a; cbn [foldl]; cbn zeta.
  - split; [lia|]. split; [|by left]. intros u Hu. by apply elem_of_nil in Hu.
  - destruct (IH (Z.min a (d u v))) as (H1 & H2 & H3). cbn zeta in *.
    split; [lia|]. split.
    + intros u' Hu'. apply elem_of_cons in Hu' as [->|Hu']; [lia|by apply H2].
    + destruct H3 as [H3|(u' & Hu' & H3)].
      * destruct (Z.min_spec a (d u v)) as [[_ Hm]|[_ Hm]].
        -- left. rewrite H3. lia.
        -- right. exists u. split; [left|]. rewrite H3. lia.
      * right. exists u'. split; [by right|done].
Qed.

Lemma approx_pick_spec used (l : list nat) :
  (∀ v, v ∈ l → v ∉ used → ((approx_pick dist used l).1 ≤ nd used v)%Z)
  ∧ match (approx_pick dist used l).2 with
    | Some v => v ∈ l ∧ (v ∉ used) ∧ (approx_pick dist used l).1 = nd used v
                ∧ ((approx_pick dist used l).1 < INF)%Z
    | None => (approx_pick dist used l).1 = INF
    end.
Proof.
  unfold approx_pick.
  enough (∀ (l0 : list nat) st,
            ((∀ v, v ∈ l0 → v ∉ used → (st.1 ≤ nd used v)%Z)
             ∧ (st.1 ≤ INF)%Z
             ∧ match st.2 with
               | Some v => v ∈ l0 ∧ (v ∉ used) ∧ st.1 = nd used v ∧ (st.1 < INF)%Z
               | None => st.1 = INF
               end) →
            let r := foldl (λ '(best, bestV) v,
                       if set_has used v then (best, bestV)
                       else
                         let nd := foldl (λ nd u, Z.min nd (d u v)) INF used in
                         if (nd <? best)%Z then (nd, Some v) else (best, bestV)) st l in
            (∀ v, v ∈ l0 ++ l → v ∉ used → (r.1 ≤ nd used v)%Z)
            ∧ (r.1 ≤ INF)%Z
            ∧ match r.2 with
              | Some v => v ∈ l0 ++ l ∧ (v ∉ used) ∧ r.1 = nd used v ∧ (r.1 < INF)%Z
              | None => r.1 = INF
              end) as H.
  { destruct (H [] (INF, None)) as (H1 & _ & H2); [|by split].
    cbn. split; [|split; [done|done]]. intros v Hv. by apply elem_of_nil in Hv. }
  induction l as [|v l IH]; intros l0 [best bv] (Hmin & Hle & Hb); cbn [foldl].
  - cbn zeta. by rewrite app_nil_r.
  - replace (l0 ++ v :: l) with ((l0 ++ [v]) ++ l) by by rewrite <- app_assoc.
    apply IH. destruct (set_has used v) eqn:Hv.
    + apply set_has_true in Hv. cbn [fst snd] in *. split; [|split; [done|]].
      * intros x Hx Hxu. apply elem_of_app in Hx as [Hx|Hx]; [by apply Hmin|].
        apply list_elem_of_singleton in Hx as ->. done.
      * destruct bv as [x|]; [|done]. destruct Hb as (? & ? & ? & ?).
        split; [apply elem_of_app; by left|done].
    + apply set_has_false in Hv. cbn zeta.
      destruct (nd used v <? best)%Z eqn:Hlt; cbn [fst snd] in *.
      * apply Z.ltb_lt in Hlt. split; [|split; [lia|]].
        -- intros x Hx Hxu. apply elem_of_app in Hx as [Hx|Hx].
           ++ specialize (Hmin x Hx Hxu). lia.
           ++ apply list_elem_of_singleton in Hx as ->. lia.
        -- split; [apply elem_of_app; right; left|]. split; [done|]. split; [done|lia].
      * apply Z.ltb_ge in Hlt. split; [|split; [done|]].
        -- intros x Hx Hxu. apply elem_of_app in Hx as [Hx|Hx]; [by apply Hmin|].
           apply list_elem_of_singleton in Hx as ->. done.
        -- destruct bv as [x|]; [|done]. destruct Hb as (? & ? & ? & ?).
           split; [apply elem_of_app; by left|done].
Qed.

Hypothesis c_nodup : NoDup c.
Hypothesis d_sym : ∀ u v, u ∈ c → v ∈ c → d u v = d v u.
Hypothesis d_finite : ∀ u v, u ∈ c → v ∈ c → u ≠ v → (d u v < INF)%Z.
Hypothesis d_nonneg : ∀ u v, u ∈ c → v ∈ c → (0 ≤ d u v)%Z.

Lemma prim_inv_extend used edgesC u v :
  prim_inv c c0 used edgesC → u ∈ used → v ∈ c → v ∉ used →
  prim_inv c c0 (set_add used v) (edgesC ++ [(u, v)]).
Proof.
  intros [Hnd Hsub Hlen Hedges Hreach] Hu Hv Hn.
  rewrite set_add_fresh by done. split.
  - apply NoDup_app. split; [done|]. split; [|apply NoDup_singleton].
    intros x Hx Hx'. apply list_elem_of_singleton in Hx' as ->. done.
  - intros x Hx. apply elem_of_app in Hx as [Hx|Hx]; [by apply Hsub|].
    by apply list_elem_of_singleton in Hx as ->.
  - rewrite !length_app. simpl. lia.
  - intros e He. apply elem_of_app in He as [He|He]; [by apply Hedges|].
    apply list_elem_of_singleton in He as ->. simpl. auto.
  - intros x Hx. apply elem_of_app in Hx as [Hx|Hx].
    + apply (reaches_mono edgesC _ [c0] [c0]); [|done|by apply Hreach].
      intros e He. apply elem_of_app. by left.
    + apply list_elem_of_singleton in Hx as ->.
      apply (reaches_step _ _ v u).
      * right. apply elem_of_app. right. left.
      * apply (reaches_mono edgesC _ [c0] [c0]); [|done|by apply Hreach].
        intros e He. apply elem_of_app. by left.
Qed.

(** One pass of [mstLengthApprox] adds the lightest edge leaving [used]. *)
Lemma approx_step used edgesC :
  prim_inv c c0 used edgesC → length used < length c →
  ∃ u v,
    approx_pick dist used c = (d u v, Some v)
    ∧ u ∈ used ∧ v ∈ c ∧ ¬ v ∈ used
    ∧ (∀ u' v', u' ∈ used → v' ∈ c → v' ∉ used → d u v ≤ d u' v')%Z
    ∧ prim_inv c c0 (set_add used v) (edgesC ++ [(u, v)]).
Proof.
  intros Hinv Hlt. pose proof Hinv as [Hnd Hsub Hlen Hedges Hreach].
  destruct (pigeonhole c used c_nodup Hlt) as (v' & Hv' & Hn').
  assert (∃ u', u' ∈ used) as [u' Hu'].
  { destruct used as [|u' used']; [simpl in Hlen; lia|]. exists u'. left. }
  pose proof (approx_pick_spec used c) as [Hmin Hbest].
  destruct (approx_pick dist used c) as [best [v|]] eqn:Hp; cbn [fst snd] in *.
  - destruct Hbest as (Hv & Hn & Hbest & Hfin).
    destruct (nd_fold used v INF) as (_ & Hle & [Heq|(u & Hu & Heq)]); cbn zeta in *.
    { lia. }
    exists u, v. split; [congruence|]. split; [done|]. split; [done|]. split; [done|].
    split; [|by apply prim_inv_extend].
    intros u2 v2 Hu2 Hv2 Hn2. specialize (Hmin v2 Hv2 Hn2).
    destruct (nd_fold used v2 INF) as (_ & Hle2 & _). cbn zeta in Hle2.
    specialize (Hle2 u2 Hu2). lia.
  - exfalso. subst best. specialize (Hmin v' Hv' Hn').
    destruct (nd_fold used v' INF) as (_ & Hle & _). cbn zeta in Hle.
    specialize (Hle u' Hu').
    assert (d u' v' < INF)%Z; [|lia].
    apply d_finite; [by apply Hsub|done|]. intros ->. done.
Qed.

Lemma approx_loop_spec fuel : ∀ used edgesC,
  prim_inv c c0 used edgesC → length c ≤ fuel + length used →
  (∃ T', length T' = length c - 1
         ∧ (∀ e, e ∈ T' → e.1 ∈ c ∧ e.2 ∈ c)
         ∧ (∀ x, x ∈ c → reaches T' [c0] x)
         ∧ approx_loop dist fuel c used (weight edgesC) = weight T')
  ∧ ∀ T, (∀ e, e ∈ T → e.1 ∈ c ∧ e.2 ∈ c) →
         (∀ x, x ∈ c → reaches T used x) →
         (approx_loop dist fuel c used (weight edgesC) ≤ weight edgesC + weight T)%Z.
Proof.
  induction fuel as [|fuel IH]; intros used edgesC Hinv Hfuel; cbn [approx_loop].
  - assert (length c ≤ length used) as Hge by lia. split.
    + destruct (prim_loop_done dist c c0 d_nonneg used edgesC [] Hinv Hge) as (H1 & H2 & _).
      { intros e He. by apply elem_of_nil in He. }
      exists edgesC. split; [done|]. split; [by destruct Hinv|]. done.
    + intros T HT _.
      by destruct (prim_loop_done dist c c0 d_nonneg used edgesC T Hinv Hge HT) as (_ & _ & ?).
  - destruct (length used <? length c) eqn:Hlt.
    + apply Nat.ltb_lt in Hlt.
      destruct (approx_step used edgesC Hinv Hlt) as (u & v & Hp & Hu & Hv & Hn & Hmin & Hinv').
      rewrite Hp.
      destruct (IH (set_add used v) (edgesC ++ [(u, v)]) Hinv') as (Hex & H4).
      { rewrite set_add_fresh, length_app by done. simpl. lia. }
      rewrite edges_weight_app in Hex, H4.
      change (weight [(u, v)]) with (d u v + 0)%Z in Hex, H4.
      rewrite Z.add_0_r in Hex, H4.
      split; [done|].
      intros T HT Hall.
      destruct (reaches_crossing T used v (Hall v Hv) Hn)
        as (a & b & T1 & T2 & e & -> & Hor & Ha & Hb & Hrest).
      assert (e.1 ∈ c ∧ e.2 ∈ c) as [He1 He2].
      { apply HT. apply elem_of_app. right. left. }
      assert (d e.1 e.2 = d a b ∧ b ∈ c) as [Hw Hbc].
      { destruct Hor as [-> | ->]; simpl in *; [done|]. split; [by apply d_sym|done]. }
      specialize (H4 (T1 ++ T2)).
      assert (approx_loop dist fuel c (set_add used v) (weight edgesC + d u v)
              ≤ weight edgesC + d u v + weight (T1 ++ T2))%Z as Hle.
      { apply H4.
        - intros e' He'. apply HT. apply elem_of_app in He' as [?|?];
            apply elem_of_app; [by left|right; by right].
        - intros x Hx. rewrite set_add_fresh by done.
          apply (reaches_mono (T1 ++ T2) _ (v :: used)); [done| |by apply Hrest, Hall].
          intros y Hy. apply elem_of_cons in Hy as [->|Hy]; apply elem_of_app;
            [right; left|by left]. }
      rewrite !edges_weight_app in *.
      change (weight (e :: T2)) with (d e.1 e.2 + weight T2)%Z.
      specialize (Hmin a b Ha Hbc Hb). lia.
    + apply Nat.ltb_ge in Hlt. split.
      * destruct (prim_loop_done dist c c0 d_nonneg used edgesC [] Hinv Hlt) as (H1 & H2 & _).
        { intros e He. by apply elem_of_nil in He. }
        exists edgesC. split; [done|]. split; [by destruct Hinv|]. done.
      * intros T HT _.
        by destruct (prim_loop_done dist c c0 d_nonneg used edgesC T Hinv Hlt HT)
          as (_ & _ & ?).
Qed.
End ApproxLoop.

(** On finite, symmetric, non-negative distances the "approximation" is
    the weight of a minimum spanning tree. *)
Lemma mstLengthApprox_minimal dist c :
  NoDup c →
  (∀ u v, u ∈ c → v ∈ c → dist_at dist u v = dist_at dist v u) →
  (∀ u v, u ∈ c → v ∈ c → u ≠ v → (dist_at dist u v < INF)%Z) →
  (∀ u v, u ∈ c → v ∈ c → (0 ≤ dist_at dist u v)%Z) →
  mst_weight dist c (mstLengthApprox dist c).
Proof.
  intros Hnd Hsym Hfin Hpos. destruct c as [|c0 rest].
  - split.
    + exists []. split; [|done]. split; [|done]. split.
      * intros e He. by apply elem_of_nil in He.
      * intros x Hx. by apply elem_of_nil in Hx.
    + intros T [_ HT]. destruct T; [done|simpl in HT; lia].
  - destruct (approx_loop_spec dist (c0 :: rest) c0 Hnd Hsym Hfin Hpos
                (length (c0 :: rest)) [c0] [])
      as ((T' & Hlen & Hin & Hreach & Heq) & Hmin).
    { apply prim_inv_init. left. }
    { simpl. lia. }
    change (edges_weight dist []) with 0%Z in Heq, Hmin.
    change (mstLengthApprox dist (c0 :: rest))
      with (approx_loop dist (length (c0 :: rest)) (c0 :: rest) [c0] 0).
    split.
    + exists T'. split; [|done]. split; [|done]. split; [done|]. done.
    + intros T [[HT Hspan] _]. specialize (Hmin T HT Hspan). lia.
Qed.

Lemma mst_weight_unique dist c w1 w2 :
  mst_weight dist c w1 → mst_weight dist c w2 → w1 = w2.
Proof.
  intros [(T1 & Hs1 & <-) Hm1] [(T2 & Hs2 & <-) Hm2].
  specialize (Hm1 T2 Hs2). specialize (Hm2 T1 Hs1). lia.
Qed.

Section PrimEdges.
Variable dist : list (list Z).
Variable c : list nat.
Variable c0 : nat.
Hypothesis c_nodup : NoDup c.
Hypothesis d_finite : ∀ u v, u ∈ c → v ∈ c → u ≠ v → (dist_at dist u v < INF)%Z.

(** Every edge Prim's loop adds joins two different members. *)
Lemma prim_loop_distinct fuel : ∀ used edgesC,
  prim_inv c c0 used edgesC →
  (∀ e, e ∈ edgesC → e.1 ≠ e.2 ∧ e.1 ∈ c ∧ e.2 ∈ c) →
  ∀ e, e ∈ prim_loop dist fuel c used edgesC → e.1 ≠ e.2 ∧ e.1 ∈ c ∧ e.2 ∈ c.
Proof.
  induction fuel as [|fuel IH]; intros used edgesC Hinv Hold; cbn [prim_loop]; [done|].
  destruct (length used <? length c) eqn:Hlt; [|done].
  apply Nat.ltb_lt in Hlt.
  destruct (prim_step dist c c0 c_nodup d_finite used edgesC Hinv Hlt)
    as (u & v & Hp & Hu & Hv & Hn & _ & Hinv').
  rewrite Hp. apply IH; [done|].
  intros e He. apply elem_of_app in He as [He|He]; [by apply Hold|].
  apply list_elem_of_singleton in He as ->. cbn [fst snd].
  split; [by intros ->|]. split; [|done]. by apply (pv_sub _ _ _ _ Hinv).
Qed.
End PrimEdges.

Lemma prim_edges_distinct dist c :
  NoDup c →
  (∀ u v, u ∈ c → v ∈ c → u ≠ v → (dist_at dist u v < INF)%Z) →
  ∀ e, e ∈ prim_edges dist c → e.1 ≠ e.2 ∧ e.1 ∈ c ∧ e.2 ∈ c.
Proof.
  intros Hnd Hfin. destruct c as [|c0 rest]; [intros e He; by apply elem_of_nil in He|].
  change (prim_edges dist (c0 :: rest))
    with (prim_loop dist (length (c0 :: rest)) (c0 :: rest) [c0] []).
  apply (prim_loop_distinct dist (c0 :: rest) c0 Hnd Hfin).
  - apply prim_inv_init. left.
  - intros e He. by apply elem_of_nil in He.
Qed.

(** The routes and the tile set that [build_cluster] makes of the tree. *)
Lemma build_routes_full g valid exits es : ∀ tiles routes tiles' routes',
  foldl (build_route g valid exits) (Some (tiles, routes)) es = Some (tiles', routes') →
  routes' = routes ++ map (λ e, mkRoute e.1 e.2
                                 (default [] (shortestPathBetween g valid
                                                (exit_node exits e.1) (exit_node exits e.2)))) es
  ∧ ∀ t, t ∈ tiles' ↔ t ∈ tiles ∨ ∃ r, r ∈ drop (length routes) routes' ∧ t ∈ r_pathIds r.
Proof.
  induction es as [|e es IH]; intros tiles routes tiles' routes'; cbn [foldl].
  - intros [= <- <-]. rewrite app_nil_r. split; [done|]. intros t. rewrite drop_all.
    split; [auto|]. intros [?|(r & Hr & _)]; [done|]. by apply elem_of_nil in Hr.
  - intros Hf. unfold build_route at 2 in Hf. cbn [mbind option_bind] in Hf.
    destruct (shortestPathBetween_total g valid (exit_node exits e.1) (exit_node exits e.2))
      as [sp Hsp].
    rewrite Hsp in Hf. cbn [mbind option_bind] in Hf.
    apply IH in Hf as [-> Ht]. cbn [map]. rewrite Hsp. cbn [default].
    split; [by rewrite <- app_assoc|].
    intros t. rewrite Ht, drop_app_length, <- app_assoc, drop_app_length.
    rewrite elem_of_foldl_set_add. cbn [app]. split.
    + intros [[?|Hin]|(r & Hr & Hin)]; [by left| |].
      * right. exists (mkRoute e.1 e.2 sp). split; [left|done].
      * right. exists r. split; [by right|done].
    + intros [?|(r & Hr & Hin)]; [by left; left|].
      apply elem_of_cons in Hr as [->|Hr]; [left; by right|].
      right. eauto.
Qed.

Lemma build_cluster_full g valid dist exits c mc :
  build_cluster g valid dist exits c = Some mc →
  mc_exits mc = c
  ∧ mc_routes mc = map (λ e, mkRoute e.1 e.2
                               (default [] (shortestPathBetween g valid
                                              (exit_node exits e.1) (exit_node exits e.2))))
                       (prim_edges dist c)
  ∧ ∀ t, t ∈ mc_tiles mc ↔ ∃ r, r ∈ mc_routes mc ∧ t ∈ r_pathIds r.
Proof.
  unfold build_cluster. intros H. apply bind_Some in H as ([tiles routes] & Hf & [= <-]).
  apply build_routes_full in Hf as [-> Ht]. cbn. split; [done|]. split; [done|].
  intros t. rewrite Ht. cbn. split.
  - intros [Hin|?]; [by apply elem_of_nil in Hin|done].
  - auto.
Qed.

(** What a successful run on a built graph gives for every cluster. *)
Lemma built_cluster_facts s m bg valid exits mcs :
  buildPathGraph (includeFacilitiesCuldesacs s) (foodCourtIncludeSeatingBins s) m = Some bg →
  buildMechanicRoutes s m (bg_graph bg) valid = Some (exits, mcs) →
  (mechDiameterCap s < INF)%Z →
  ∃ dist,
    dist_matrix (bg_graph bg) valid exits = Some dist
    ∧ (∀ u v, dist_at dist u v = dist_at dist v u)
    ∧ (∀ u v, (0 ≤ dist_at dist u v)%Z)
    ∧ ∀ mc, mc ∈ mcs →
        NoDup (mc_exits mc)
        ∧ (∀ u v, u ∈ mc_exits mc → v ∈ mc_exits mc → u ≠ v →
                  (dist_at dist u v ≤ mechDiameterCap s)%Z)
        ∧ (∀ u, u ∈ mc_exits mc → u < length exits)
        ∧ (2 ≤ length (mc_exits mc) →
           (mstLengthApprox dist (mc_exits mc) ≤ mechMstCap s)%Z)
        ∧ build_cluster (bg_graph bg) valid dist exits (mc_exits mc) = Some mc.
Proof.
  intros Hb Hm Hcap. destruct (buildPathGraph_wf m _ _ _ Hb) as [[Hsym _ _ _] _].
  apply buildMechanicRoutes_parts in Hm as (dist & clusters & He & Hd & Hc & Hne & Hmap & Hf2).
  pose proof (collect_exits_valid _ _ _ _ He) as Hex.
  exists dist. split; [done|].
  assert (Hs : ∀ u v, dist_at dist u v = dist_at dist v u).
  { apply (dist_matrix_sym (bg_graph bg) valid Hsym exits dist Hex Hd). }
  split; [done|]. split; [apply (dist_matrix_nonneg (bg_graph bg) valid exits dist Hd)|].
  intros mc Hin.
  assert (mc_exits mc ∈ clusters) as Hcin.
  { rewrite <- Hmap. apply list_elem_of_fmap. by exists mc. }
  destruct (cluster_exits_full _ _ _ _ _ _ Hc) as [Hperm Hall].
  destruct (Hall _ Hcin) as (_ & _ & Hcapd).
  destruct (cluster_exits_spec dist (mechMaxExits s) (mechMstCap s) (mechDiameterCap s)
              (length exits)) as (clusters' & Hc' & Hok).
  rewrite Hc in Hc'. injection Hc' as <-. destruct (Hok _ Hcin) as [Hnd Hpairs].
  split; [done|]. split.
  { intros u v Hu Hv Huv. destruct (pairs_complete _ u v Hu Hv Huv) as [Hp|Hp].
    - by apply (Hpairs _ Hp).
    - rewrite Hs. by apply (Hpairs _ Hp). }
  split.
  { intros u Hu. assert (u ∈ concat clusters) as Hc2.
    { apply elem_of_concat. eauto. }
    rewrite Hperm in Hc2. apply elem_of_seq in Hc2. lia. }
  split; [done|].
  apply list_elem_of_lookup in Hin as [i Hi].
  destruct (Forall2_lookup_r _ _ _ _ _ Hf2 Hi) as (c & Hci & Hbc).
  destruct (build_cluster_spec (bg_graph bg) valid dist exits c) as (mc' & Hbc' & Hex' & _).
  rewrite Hbc in Hbc'. injection Hbc' as <-. by rewrite Hex'.
Qed.

(** X15: on a built graph with a diameter cap below [1e9],
    [mstLengthApprox] of a cluster is not an approximation: it is the
    weight of a minimum spanning tree, the same as the total weight of the
    routes built for the cluster, which therefore stays within
    [mechMstCap] for every cluster of two or more exits. *)
Theorem cluster_routes_within_mst_cap s m bg valid exits mcs :
  buildPathGraph (includeFacilitiesCuldesacs s) (foodCourtIncludeSeatingBins s) m = Some bg →
  buildMechanicRoutes s m (bg_graph bg) valid = Some (exits, mcs) →
  (mechDiameterCap s < INF)%Z →
  ∃ dist,
    dist_matrix (bg_graph bg) valid exits = Some dist
    ∧ ∀ mc, mc ∈ mcs →
        mst_weight dist (mc_exits mc) (mstLengthApprox dist (mc_exits mc))
        ∧ mstLengthApprox dist (mc_exits mc)
          = edges_weight dist (route_ends (mc_routes mc))
        ∧ (2 ≤ length (mc_exits mc) →
           (edges_weight dist (route_ends (mc_routes mc)) ≤ mechMstCap s)%Z).
Proof.
  intros Hb Hm Hcap.
  destruct (built_cluster_facts s m bg valid exits mcs Hb Hm Hcap)
    as (dist & Hd & Hsym & Hpos & Hall).
  exists dist. split; [done|]. intros mc Hin.
  destruct (Hall mc Hin) as (Hnd & Hdia & _ & Hmst & Hbc).
  assert (Hfin : ∀ u v, u ∈ mc_exits mc → v ∈ mc_exits mc → u ≠ v →
                        (dist_at dist u v < INF)%Z).
  { intros u v Hu Hv Huv. specialize (Hdia u v Hu Hv Huv). lia. }
  pose proof (mstLengthApprox_minimal dist (mc_exits mc) Hnd
                (λ u v _ _, Hsym u v) Hfin (λ u v _ _, Hpos u v)) as Ha.
  destruct (cluster_routes_minimal (bg_graph bg) valid exits dist (mc_exits mc) Hnd
              (λ u v _ _, Hsym u v) Hfin (λ u v _ _, Hpos u v))
    as (mc' & Hbc' & _ & _ & Hr).
  rewrite Hbc in Hbc'. injection Hbc' as <-.
  pose proof (mst_weight_unique _ _ _ _ Ha Hr) as Heq.
  split; [done|]. split; [done|]. intros H2. rewrite <- Heq. by apply Hmst.
Qed.

Lemma cluster_routes_within_mst_cap_witness :
  ∃ dist,
    dist_matrix (bg_graph pair_built) pair_valid pair_routes.1 = Some dist
    ∧ ∀ mc, mc ∈ pair_routes.2 →
        mst_weight dist (mc_exits mc) (mstLengthApprox dist (mc_exits mc))
        ∧ mstLengthApprox dist (mc_exits mc)
          = edges_weight dist (route_ends (mc_routes mc))
        ∧ (2 ≤ length (mc_exits mc) →
           (edges_weight dist (route_ends (mc_routes mc))
            ≤ mechMstCap default_settings)%Z).
Proof.
  apply (cluster_routes_within_mst_cap default_settings pair_map pair_built pair_valid).
  - vm_compute; reflexivity.
  - vm_compute; reflexivity.
  - reflexivity.
Defined.

(** The routes of a successful run on a built graph. *)
Lemma built_route_facts s m bg valid exits mcs :
  buildPathGraph (includeFacilitiesCuldesacs s) (foodCourtIncludeSeatingBins s) m = Some bg →
  buildMechanicRoutes s m (bg_graph bg) valid = Some (exits, mcs) →
  (mechDiameterCap s < INF)%Z →
  ∃ dist,
    dist_matrix (bg_graph bg) valid exits = Some dist
    ∧ ∀ mc, mc ∈ mcs →
        (∀ t, t ∈ mc_tiles mc ↔ ∃ r, r ∈ mc_routes mc ∧ t ∈ r_pathIds r)
        ∧ ∀ r, r ∈ mc_routes mc →
            r_from r ∈ mc_exits mc ∧ r_to r ∈ mc_exits mc ∧ r_from r ≠ r_to r
            ∧ route (bg_graph bg) valid (exit_node exits (r_from r)) (r_pathIds r)
                    (exit_node exits (r_to r))
            ∧ Z.of_nat (length (r_pathIds r)) = (dist_at dist (r_from r) (r_to r) + 1)%Z
            ∧ (dist_at dist (r_from r) (r_to r) ≤ mechDiameterCap s)%Z.
Proof.
  intros Hb Hm Hcap.
  destruct (built_cluster_facts s m bg valid exits mcs Hb Hm Hcap)
    as (dist & Hd & Hsym & Hpos & Hall).
  exists dist. split; [done|]. intros mc Hin.
  destruct (Hall mc Hin) as (Hnd & Hdia & Hrange & _ & Hbc).
  apply build_cluster_full in Hbc as (_ & Hroutes & Htiles). split; [done|].
  intros r Hr. rewrite Hroutes in Hr. apply list_elem_of_fmap in Hr as (e & -> & He).
  cbn [r_from r_to r_pathIds].
  assert (Hfin : ∀ u v, u ∈ mc_exits mc → v ∈ mc_exits mc → u ≠ v →
                        (dist_at dist u v < INF)%Z).
  { intros u v Hu Hv Huv. specialize (Hdia u v Hu Hv Huv). lia. }
  destruct (prim_edges_distinct dist (mc_exits mc) Hnd Hfin e He) as (Hne & H1 & H2).
  split; [done|]. split; [done|]. split; [done|].
  destruct (lookup_lt_is_Some_2 exits e.1 (Hrange _ H1)) as [eu Heu].
  destruct (lookup_lt_is_Some_2 exits e.2 (Hrange _ H2)) as [ev Hev].
  destruct (dist_at_inside (bg_graph bg) valid exits dist Hd e.1 e.2 eu ev Heu Hev)
    as (d & Hbd & Hda).
  specialize (Hfin _ _ H1 H2 Hne). specialize (Hdia _ _ H1 H2 Hne).
  unfold exit_node. rewrite Heu, Hev.
  rewrite Hda in Hfin, Hdia |- *. unfold dist_or_inf in *.
  destruct (bfs_dist d !! ex_nodeId ev) as [z|] eqn:Hz; [|lia].
  destruct (z =? 0)%Z eqn:Hz0; [lia|]. apply Z.eqb_neq in Hz0.
  destruct (shortestPathBetween_found _ _ _ _ d z Hbd Hz) as (p & Hp & Hroute & Hlen).
  rewrite Hp. change (default [] (Some p)) with p. split; [done|]. split; [|done].
  destruct (bfsDistances_shortest _ _ _ d Hbd) as [Hs _].
  destruct (Hs _ _ Hz) as (H0 & _). lia.
Qed.


(** X16: on a built graph with a diameter cap below [1e9], every route of
    a mechanic cluster joins two different exits of the cluster by a
    shortest path: [pathIds] runs from the node of [from] to the node of
    [to] along valid neighbouring tiles and has one tile more than the
    distance-matrix entry of the pair, which is within the diameter cap.
    The cluster's tile set is the union of its routes' tiles. *)
Theorem cluster_routes_are_shortest_paths s m bg valid exits mcs :
  buildPathGraph (includeFacilitiesCuldesacs s) (foodCourtIncludeSeatingBins s) m = Some bg →
  buildMechanicRoutes s m (bg_graph bg) valid = Some (exits, mcs) →
  (mechDiameterCap s < INF)%Z →
  ∃ dist,
    dist_matrix (bg_graph bg) valid exits = Some dist
    ∧ ∀ mc, mc ∈ mcs →
        (∀ t, t ∈ mc_tiles mc ↔ ∃ r, r ∈ mc_routes mc ∧ t ∈ r_pathIds r)
        ∧ ∀ r, r ∈ mc_routes mc →
            r_from r ∈ mc_exits mc ∧ r_to r ∈ mc_exits mc ∧ r_from r ≠ r_to r
            ∧ route (bg_graph bg) valid (exit_node exits (r_from r)) (r_pathIds r)
                    (exit_node exits (r_to r))
            ∧ Z.of_nat (length (r_pathIds r)) = (dist_at dist (r_from r) (r_to r) + 1)%Z
            ∧ (dist_at dist (r_from r) (r_to r) ≤ mechDiameterCap s)%Z.
Proof. apply built_route_facts. Qed.

Lemma cluster_routes_are_shortest_paths_witness :
  ∃ dist,
    dist_matrix (bg_graph pair_built) pair_valid pair_routes.1 = Some dist
    ∧ ∀ mc, mc ∈ pair_routes.2 →
        (∀ t, t ∈ mc_tiles mc ↔ ∃ r, r ∈ mc_routes mc ∧ t ∈ r_pathIds r)
        ∧ ∀ r, r ∈ mc_routes mc →
            r_from r ∈ mc_exits mc ∧ r_to r ∈ mc_exits mc ∧ r_from r ≠ r_to r
            ∧ route (bg_graph pair_built) pair_valid (exit_node pair_routes.1 (r_from r))
                    (r_pathIds r) (exit_node pair_routes.1 (r_to r))
            ∧ Z.of_nat (length (r_pathIds r)) = (dist_at dist (r_from r) (r_to r) + 1)%Z
            ∧ (dist_at dist (r_from r) (r_to r) ≤ mechDiameterCap default_settings)%Z.
Proof.
  apply (cluster_routes_are_shortest_paths default_settings pair_map pair_built pair_valid).
  - vm_compute; reflexivity.
  - vm_compute; reflexivity.
  - reflexivity.
Defined.

(** * Seeds, centroids and the nearest zone *)

Section Seeds.
Variable g : Graph.

Lemma manhattan_nonneg p q : (0 ≤ manhattan p q)%Z.
Proof. unfold manhattan. lia. Qed.

Lemma manhattan_zero p q : manhattan p q = 0%Z ↔ p = q.
Proof.
  unfold manhattan. destruct p as [a b], q as [a' b']. cbn [fst snd]. split.
  - intros H. f_equal; lia.
  - intros [= -> ->]. lia.
Qed.

Lemma seed_dmin_fold (seeds : list nat) id : ∀ a,
  let r := foldl (λ dmin s,
                    let d := manhattan (node_xy g s) (node_xy g id) in
                    if (d <? dmin)%Z then d else dmin) a seeds in
  (r ≤ a)%Z ∧ (∀ s, s ∈ seeds → r ≤ manhattan (node_xy g s) (node_xy g id))%Z
  ∧ (r = a ∨ ∃ s, s ∈ seeds ∧ r = manhattan (node_xy g s) (node_xy g id)).
Proof.
  induction seeds as [|s seeds IH]; intros a; cbn [foldl]; cbn zeta.
  - split; [lia|]. split; [|by left]. intros s Hs. by apply elem_of_nil in Hs.
  - set (d := manhattan (node_xy g s) (node_xy g id)).
    destruct (IH (if (d <? a)%Z then d else a)) as (H1 & H2 & H3). cbn zeta in *.
    destruct (d <? a)%Z eqn:Hlt; [apply Z.ltb_lt in Hlt|apply Z.ltb_ge in Hlt].
    + split; [lia|]. split.
      * intros s' Hs'. apply elem_of_cons in Hs' as [->|Hs']; [done|by apply H2].
      * right. destruct H3 as [H3|(s' & Hs' & H3)];
          [exists s; split; [left|done]|exists s'; split; [by right|done]].
    + split; [lia|]. split.
      * intros s' Hs'. apply elem_of_cons in Hs' as [->|Hs']; [fold d; lia|by apply H2].
      * destruct H3 as [H3|(s' & Hs' & H3)]; [by left|].
        right. exists s'. split; [by right|done].
Qed.

Lemma seed_dmin_spec seeds id :
  (0 ≤ seed_dmin g seeds id ≤ INF)%Z
  ∧ (∀ s, s ∈ seeds → seed_dmin g seeds id ≤ manhattan (node_xy g s) (node_xy g id))%Z
  ∧ (seed_dmin g seeds id = INF
     ∨ ∃ s, s ∈ seeds ∧ seed_dmin g seeds id = manhattan (node_xy g s) (node_xy g id)).
Proof.
  destruct (seed_dmin_fold seeds id INF) as (H1 & H2 & H3). cbn zeta in *.
  unfold seed_dmin. split; [|done]. split; [|done].
  destruct H3 as [->|(s & _ & ->)]; [done|apply manhattan_nonneg].
Qed.

(** The scan of [pickSeeds] for the next seed. *)
Lemma farthest_spec validSet seeds :
  validSet ≠ [] →
  ∃ b, farthest g validSet seeds = Some b ∧ b ∈ validSet
       ∧ ∀ id, id ∈ validSet → (seed_dmin g seeds id ≤ seed_dmin g seeds b)%Z.
Proof.
  unfold farthest.
  enough (∀ (l l0 : list nat) st,
            ((st.1 = None ∧ st.2 = (-1)%Z ∧ l0 = [])
             ∨ ∃ b, st.1 = Some b ∧ b ∈ l0 ∧ st.2 = seed_dmin g seeds b
                    ∧ ∀ id, id ∈ l0 → (seed_dmin g seeds id ≤ st.2)%Z) →
            let r := foldl (λ '(best, bestScore) id,
                       let dmin := seed_dmin g seeds id in
                       if (bestScore <? dmin)%Z then (Some id, dmin) else (best, bestScore))
                      st l in
            (r.1 = None ∧ r.2 = (-1)%Z ∧ l0 ++ l = [])
            ∨ ∃ b, r.1 = Some b ∧ b ∈ l0 ++ l ∧ r.2 = seed_dmin g seeds b
                   ∧ ∀ id, id ∈ l0 ++ l → (seed_dmin g seeds id ≤ r.2)%Z) as H.
  { intros Hne. destruct (H validSet [] (None, (-1)%Z)) as [(_ & _ & Hnil)|(b & Hb & Hin & Hs & Hmax)].
    - left. done.
    - done.
    - exists b. split; [done|]. split; [done|]. intros id Hid. rewrite <- Hs. by apply Hmax. }
  induction l as [|id l IH]; intros l0 [best score] Hst; cbn [foldl].
  - cbn zeta. by rewrite app_nil_r.
  - replace (l0 ++ id :: l) with ((l0 ++ [id]) ++ l) by by rewrite <- app_assoc.
    apply IH. cbn zeta. right.
    destruct (seed_dmin_spec seeds id) as ([Hpos _] & _).
    destruct Hst as [(Hb & Hs & ->)|(b & Hb & Hin & Hs & Hmax)]; cbn [fst snd] in *.
    + subst. rewrite (proj2 (Z.ltb_lt (-1) _)) by lia. cbn [fst snd].
      exists id. split; [done|]. split; [left|]. split; [done|].
      intros x Hx. apply list_elem_of_singleton in Hx as ->. lia.
    + destruct (score <? seed_dmin g seeds id)%Z eqn:Hlt;
        [apply Z.ltb_lt in Hlt|apply Z.ltb_ge in Hlt]; cbn [fst snd].
      * exists id. split; [done|]. split; [apply elem_of_app; right; left|]. split; [done|].
        intros x Hx. apply elem_of_app in Hx as [Hx|Hx].
        -- specialize (Hmax x Hx). lia.
        -- apply list_elem_of_singleton in Hx as ->. lia.
      * exists b. split; [done|]. split; [apply elem_of_app; by left|]. split; [done|].
        intros x Hx. apply elem_of_app in Hx as [Hx|Hx]; [by apply Hmax|].
        apply list_elem_of_singleton in Hx as ->. lia.
Qed.

Lemma more_seeds_spec validSet n : ∀ seeds,
  validSet ≠ [] →
  ∃ more, more_seeds g n validSet seeds = seeds ++ more ∧ length more = n
    ∧ (∀ s, s ∈ more → s ∈ validSet)
    ∧ ∀ pre b post, seeds ++ more = pre ++ b :: post → length seeds ≤ length pre →
        ∀ id, id ∈ validSet → (seed_dmin g pre id ≤ seed_dmin g pre b)%Z.
Proof.
  induction n as [|n IH]; intros seeds Hne; cbn [more_seeds].
  - exists []. rewrite app_nil_r. split; [done|]. split; [done|]. split.
    + intros s Hs. by apply elem_of_nil in Hs.
    + intros pre b post Heq Hlen. assert (length seeds = length (pre ++ b :: post)) by by rewrite Heq.
      rewrite length_app in *. cbn [length] in *. lia.
  - destruct (farthest_spec validSet seeds Hne) as (b0 & -> & Hin & Hmax).
    destruct (IH (seeds ++ [b0]) Hne) as (more & -> & Hlen & Hsub & Hfar).
    exists (b0 :: more). rewrite <- app_assoc. split; [done|]. split; [cbn; lia|]. split.
    + intros s Hs. apply elem_of_cons in Hs as [->|Hs]; [done|by apply Hsub].
    + intros pre b post Heq Hl.
      destruct (decide (length pre = length seeds)) as [Hlen'|Hne'].
      * apply app_inj_1 in Heq as [-> [= -> _]]; [|done]. done.
      * apply (Hfar pre b post); [by rewrite <- app_assoc|].
        rewrite length_app. cbn [length]. lia.
Qed.
End Seeds.

(** Two nodes of a built graph at the same position are the same node. *)
Lemma built_node_xy_inj fac sb m bg a b :
  buildPathGraph fac sb m = Some bg →
  a < length (nodes (bg_graph bg)) → b < length (nodes (bg_graph bg)) →
  node_xy (bg_graph bg) a = node_xy (bg_graph bg) b → a = b.
Proof.
  intros Hb Ha Hbb Hxy.
  destruct (lookup_lt_is_Some_2 _ _ Ha) as [na Hna].
  destruct (lookup_lt_is_Some_2 _ _ Hbb) as [nb Hnb].
  unfold node_xy in Hxy.
  rewrite (list_lookup_total_correct _ _ _ Hna), (list_lookup_total_correct _ _ _ Hnb) in Hxy.
  injection Hxy as Hx Hy.
  assert (idByXY (bg_graph bg) !! key (n_x na) (n_y na) = Some a) as H1.
  { apply (built_ids_node m fac sb bg Hb). by exists na. }
  assert (idByXY (bg_graph bg) !! key (n_x na) (n_y na) = Some b) as H2.
  { apply (built_ids_node m fac sb bg Hb). exists nb. by rewrite Hx, Hy. }
  congruence.
Qed.

(** [pickSeeds] on candidates that sit at pairwise distinct positions. *)
Lemma pickSeeds_spec g rnd validSet k :
  NoDup validSet →
  (∀ a b, a ∈ validSet → b ∈ validSet → node_xy g a = node_xy g b → a = b) →
  0 < k ≤ length validSet →
  length (pickSeeds g rnd validSet k) = k
  ∧ NoDup (pickSeeds g rnd validSet k)
  ∧ (∀ s, s ∈ pickSeeds g rnd validSet k → s ∈ validSet)
  ∧ pickSeeds g rnd validSet k !! 0 = validSet !! (rnd mod length validSet)
  ∧ ∀ pre b post, pickSeeds g rnd validSet k = pre ++ b :: post → pre ≠ [] →
      ∀ id, id ∈ validSet → (seed_dmin g pre id ≤ seed_dmin g pre b)%Z.
Proof.
  intros Hnd Hinj [Hk Hle]. unfold pickSeeds.
  assert (validSet ≠ []) as Hne by (destruct validSet; [cbn in Hle; lia|done]).
  assert (length validSet ≠ 0) as Hlen0 by (destruct validSet; done).
  rewrite (proj2 (Nat.eqb_neq _ 0) Hlen0), (proj2 (Nat.eqb_neq k 0)) by lia. cbn [orb].
  pose proof (Nat.mod_upper_bound rnd (length validSet) Hlen0) as Hmod.
  destruct (lookup_lt_is_Some_2 validSet _ Hmod) as [s0 Hs0].
  rewrite (list_lookup_total_correct _ _ _ Hs0).
  destruct (more_seeds_spec g validSet (k - 1) [s0] Hne)
    as (more & -> & Hlen & Hsub & Hfar).
  assert (Hall : ∀ s, s ∈ [s0] ++ more → s ∈ validSet).
  { intros s Hs. apply elem_of_cons in Hs as [->|Hs]; [by eapply list_elem_of_lookup_2|auto]. }
  split; [cbn [app length]; lia|]. split; [|split; [done|split; [by rewrite Hs0|]]].
  - (* no two seeds alike *)
    assert (Hgen : ∀ l, (∀ pre b post, [s0] ++ more = pre ++ b :: post → 1 ≤ length pre →
                          ∀ id, id ∈ validSet →
                            (seed_dmin g pre id ≤ seed_dmin g pre b)%Z) →
                     ∀ pre, [s0] ++ more = pre ++ l → pre ≠ [] → NoDup pre → NoDup (pre ++ l)).
    { clear Hfar. intros l Hfar'. induction l as [|b l IH]; intros pre Heq Hpne Hpre.
      - by rewrite app_nil_r.
      - replace (pre ++ b :: l) with ((pre ++ [b]) ++ l) by by rewrite <- app_assoc.
        apply IH; [by rewrite <- app_assoc|by destruct pre|].
        apply NoDup_app. split; [done|]. split; [|apply NoDup_singleton].
        intros x Hx Hxb. apply list_elem_of_singleton in Hxb as ->.
        assert (Hpsub : ∀ s, s ∈ pre → s ∈ validSet).
        { intros s Hs. apply Hall. rewrite Heq. apply elem_of_app. by left. }
        assert (length pre < length validSet) as Hlt.
        { assert (length ([s0] ++ more) = length (pre ++ b :: l)) as Hl by by rewrite Heq.
          rewrite !length_app in Hl. cbn [length] in Hl. lia. }
        destruct (pigeonhole validSet pre Hnd Hlt) as (v & Hv & Hvn).
        assert (1 ≤ seed_dmin g pre v)%Z as Hv1.
        { destruct (seed_dmin_spec g pre v) as (_ & _ & [->|(s & Hs & ->)]); [done|].
          pose proof (manhattan_nonneg (node_xy g s) (node_xy g v)).
          destruct (decide (manhattan (node_xy g s) (node_xy g v) = 0%Z))
            as [H0|?]; [|lia].
          apply manhattan_zero, Hinj in H0; [|by apply Hpsub|done]. by subst. }
        assert (seed_dmin g pre b ≤ 0)%Z as Hb0.
        { destruct (seed_dmin_spec g pre b) as (_ & Hle' & _).
          specialize (Hle' b Hx).
          by rewrite (proj2 (manhattan_zero _ _) eq_refl) in Hle'. }
        assert (seed_dmin g pre v ≤ seed_dmin g pre b)%Z; [|lia].
        apply (Hfar' pre b l); [done| |done]. destruct pre; [done|cbn; lia]. }
    apply (Hgen more Hfar [s0]); [done|done|apply NoDup_singleton].
  - intros pre b post Heq Hpne. apply (Hfar pre b post Heq).
    destruct pre; [done|cbn; lia].
Qed.

(** X17: [pickSeeds] on a built graph, for a request of [k] seeds that
    does not exceed the size of a non-empty candidate set: it returns
    exactly [k] seeds, all of them candidates and no two alike; the first
    is the candidate drawn at random, and each later one is a candidate
    farthest (in Manhattan distance to the nearest earlier seed) from the
    seeds chosen before it. *)
Theorem pickSeeds_farthest_first fac sb m bg rnd validSet k :
  buildPathGraph fac sb m = Some bg →
  NoDup validSet →
  (∀ v, v ∈ validSet → v < length (nodes (bg_graph bg))) →
  0 < k ≤ length validSet →
  length (pickSeeds (bg_graph bg) rnd validSet k) = k
  ∧ NoDup (pickSeeds (bg_graph bg) rnd validSet k)
  ∧ (∀ s, s ∈ pickSeeds (bg_graph bg) rnd validSet k → s ∈ validSet)
  ∧ pickSeeds (bg_graph bg) rnd validSet k !! 0 = validSet !! (rnd mod length validSet)
  ∧ ∀ pre b post, pickSeeds (bg_graph bg) rnd validSet k = pre ++ b :: post → pre ≠ [] →
      ∀ id, id ∈ validSet →
            (seed_dmin (bg_graph bg) pre id ≤ seed_dmin (bg_graph bg) pre b)%Z.
Proof.
  intros Hb Hnd Hrange Hk. apply pickSeeds_spec; [done| |done].
  intros a b Ha Hbb. apply (built_node_xy_inj fac sb m bg a b Hb); by apply Hrange.
Qed.

Lemma pickSeeds_farthest_first_witness :
  length (pickSeeds (bg_graph corridor_built) 4 [0; 1; 2; 3; 4; 5] 3) = 3
  ∧ NoDup (pickSeeds (bg_graph corridor_built) 4 [0; 1; 2; 3; 4; 5] 3)
  ∧ (∀ s, s ∈ pickSeeds (bg_graph corridor_built) 4 [0; 1; 2; 3; 4; 5] 3
          → s ∈ [0; 1; 2; 3; 4; 5])
  ∧ pickSeeds (bg_graph corridor_built) 4 [0; 1; 2; 3; 4; 5] 3 !! 0
    = [0; 1; 2; 3; 4; 5] !! (4 mod length [0; 1; 2; 3; 4; 5])
  ∧ ∀ pre b post,
      pickSeeds (bg_graph corridor_built) 4 [0; 1; 2; 3; 4; 5] 3 = pre ++ b :: post →
      pre ≠ [] →
      ∀ id, id ∈ [0; 1; 2; 3; 4; 5] →
            (seed_dmin (bg_graph corridor_built) pre id
             ≤ seed_dmin (bg_graph corridor_built) pre b)%Z.
Proof.
  apply (pickSeeds_farthest_first false false corridor_map corridor_built).
  - vm_compute; reflexivity.
  - apply (bool_decide_unpack _). vm_compute. exact I.
  - intros v Hv. rewrite !elem_of_cons, elem_of_nil in Hv.
    destruct Hv as [->|[->|[->|[->|[->|[->|[]]]]]]]; vm_compute; lia.
  - cbn. lia.
Defined.

(** ** Centroids *)

Lemma foldl_sum_between (f : nat → Z) (lo hi : Z) (s : list nat) : ∀ a,
  (∀ t, t ∈ s → lo ≤ f t ≤ hi)%Z →
  (a + lo * Z.of_nat (length s) ≤ foldl (λ a id, a + f id) a s
   ≤ a + hi * Z.of_nat (length s))%Z.
Proof.
  induction s as [|t s IH]; intros a Hf; cbn [foldl length].
  - lia.
  - assert (lo ≤ f t ≤ hi)%Z as Ht by (apply Hf; left).
    assert (∀ t', t' ∈ s → lo ≤ f t' ≤ hi)%Z as Hs by (intros t' Ht'; apply Hf; by right).
    specialize (IH (a + f t)%Z Hs). lia.
Qed.

Lemma round_div_between a c lo hi :
  (0 < c)%Z → (lo * c ≤ a ≤ hi * c)%Z → (lo ≤ round_div a c ≤ hi)%Z.
Proof.
  intros Hc Ha. unfold round_div. split.
  - apply Z.div_le_lower_bound; lia.
  - apply Z.lt_succ_r. apply Z.div_lt_upper_bound; lia.
Qed.

(** X18: the centroid of a non-empty tile set lies inside the bounding
    box of its tiles, and the centroid of a single tile is that tile. *)
Theorem centroid_within_bounding_box g s xlo xhi ylo yhi :
  s ≠ [] →
  (∀ t, t ∈ s → (xlo ≤ (node_xy g t).1 ≤ xhi)%Z ∧ (ylo ≤ (node_xy g t).2 ≤ yhi)%Z) →
  (xlo ≤ (centroidOfTiles g s).1 ≤ xhi)%Z
  ∧ (ylo ≤ (centroidOfTiles g s).2 ≤ yhi)%Z
  ∧ ∀ t, s = [t] → centroidOfTiles g s = node_xy g t.
Proof.
  intros Hne Hbox. unfold centroidOfTiles. cbn [fst snd].
  assert (0 < Z.of_nat (length s))%Z as Hc by (destruct s; [done|simpl; lia]).
  split; [|split].
  - apply round_div_between; [done|].
    pose proof (foldl_sum_between (λ id, n_x (nodes g !!! id)) xlo xhi s 0) as Hs.
    cbn beta in Hs. rewrite !Z.add_0_l in Hs. apply Hs. intros t Ht. by destruct (Hbox t Ht).
  - apply round_div_between; [done|].
    pose proof (foldl_sum_between (λ id, n_y (nodes g !!! id)) ylo yhi s 0) as Hs.
    cbn beta in Hs. rewrite !Z.add_0_l in Hs. apply Hs. intros t Ht. by destruct (Hbox t Ht).
  - intros t ->. cbn [foldl length]. unfold node_xy, round_div. f_equal.
    + rewrite Z.add_0_l. symmetry. apply Z.div_unique with (r := 1%Z); lia.
    + rewrite Z.add_0_l. symmetry. apply Z.div_unique with (r := 1%Z); lia.
Qed.

Lemma centroid_within_bounding_box_witness :
  (0 ≤ (centroidOfTiles (graph_of_map corridor_map) [2%nat; 3%nat; 7%nat]).1 ≤ 9)%Z
  ∧ (0 ≤ (centroidOfTiles (graph_of_map corridor_map) [2%nat; 3%nat; 7%nat]).2 ≤ 0)%Z
  ∧ ∀ t, [2; 3; 7] = [t] →
         centroidOfTiles (graph_of_map corridor_map) [2; 3; 7]
         = node_xy (graph_of_map corridor_map) t.
Proof.
  apply (centroid_within_bounding_box (graph_of_map corridor_map) [2; 3; 7] 0 9 0 0).
  - done.
  - intros t Ht. rewrite !elem_of_cons, elem_of_nil in Ht.
    destruct Ht as [->|[->|[->|[]]]]; vm_compute; repeat split; discriminate.
Defined.

(** ** The nearest zone *)

Lemma nearest_fold_spec g id zones (idx : list nat) : ∀ idx0 st,
  ((∀ i, i ∈ idx0 → zones !!! i ≠ [] → (st.2 ≤ zone_distance g zones id i)%Z)
   ∧ (st.2 ≤ INF)%Z
   ∧ match st.1 with
     | None => st.2 = INF
     | Some k => zones !!! k ≠ [] ∧ st.2 = zone_distance g zones id k ∧ (st.2 < INF)%Z
                 ∧ ∃ pre post, idx0 = pre ++ k :: post
                      ∧ ∀ i, i ∈ pre → zones !!! i ≠ [] → (st.2 < zone_distance g zones id i)%Z
     end) →
  let r := foldl (λ '(best, bestd) i,
                    if length (zones !!! i) =? 0 then (best, bestd)
                    else
                      let d := manhattan (centroidOfTiles g (zones !!! i)) (node_xy g id) in
                      if (d <? bestd)%Z then (Some i, d) else (best, bestd))
                 st idx in
  (∀ i, i ∈ idx0 ++ idx → zones !!! i ≠ [] → (r.2 ≤ zone_distance g zones id i)%Z)
  ∧ (r.2 ≤ INF)%Z
  ∧ match r.1 with
    | None => r.2 = INF
    | Some k => zones !!! k ≠ [] ∧ r.2 = zone_distance g zones id k ∧ (r.2 < INF)%Z
                ∧ ∃ pre post, idx0 ++ idx = pre ++ k :: post
                     ∧ ∀ i, i ∈ pre → zones !!! i ≠ [] → (r.2 < zone_distance g zones id i)%Z
    end.
Proof.
  induction idx as [|i idx IH]; intros idx0 [best bestd] Hst; cbn [foldl].
  - cbn zeta. by rewrite app_nil_r.
  - replace (idx0 ++ i :: idx) with ((idx0 ++ [i]) ++ idx) by by rewrite <- app_assoc.
    apply IH. destruct Hst as (Hmin & Hle & Hb). cbn [fst snd] in *.
    destruct (length (zones !!! i) =? 0) eqn:Hz; cbn [fst snd].
    + apply Nat.eqb_eq in Hz. assert (zones !!! i = []) as Hnil by by destruct (zones !!! i).
      split; [|split; [done|]].
      * intros j Hj Hne. apply elem_of_app in Hj as [Hj|Hj]; [by apply Hmin|].
        apply list_elem_of_singleton in Hj as ->. done.
      * destruct best as [k|]; [|done]. destruct Hb as (? & ? & ? & pre & post & -> & Hpre).
        split; [done|]. split; [done|]. split; [done|].
        exists pre, (post ++ [i]). split; [by rewrite <- app_assoc|done].
    + apply Nat.eqb_neq in Hz. assert (zones !!! i ≠ []) as Hne by by destruct (zones !!! i).
      cbn zeta. fold (zone_distance g zones id i).
      destruct (zone_distance g zones id i <? bestd)%Z eqn:Hlt;
        [apply Z.ltb_lt in Hlt|apply Z.ltb_ge in Hlt]; cbn [fst snd].
      * split; [|split; [lia|]].
        -- intros j Hj Hnej. apply elem_of_app in Hj as [Hj|Hj].
           ++ specialize (Hmin j Hj Hnej). lia.
           ++ apply list_elem_of_singleton in Hj as ->. lia.
        -- split; [done|]. split; [done|]. split; [lia|].
           exists idx0, []. split; [done|]. intros j Hj Hnej. specialize (Hmin j Hj Hnej). lia.
      * split; [|split; [done|]].
        -- intros j Hj Hnej. apply elem_of_app in Hj as [Hj|Hj]; [by apply Hmin|].
           apply list_elem_of_singleton in Hj as ->. done.
        -- destruct best as [k|]; [|done]. destruct Hb as (? & ? & ? & pre & post & -> & Hpre).
           split; [done|]. split; [done|]. split; [done|].
           exists pre, (post ++ [i]). split; [by rewrite <- app_assoc|done].
Qed.

Lemma seq_split_at n (pre post : list nat) k :
  seq 0 n = pre ++ k :: post → k = length pre ∧ ∀ i, i < k → i ∈ pre.
Proof.
  intros Heq.
  assert (seq 0 n !! length pre = Some k) as Hk.
  { rewrite Heq. by rewrite list_lookup_middle. }
  apply lookup_seq in Hk as [Hk Hlt]. cbn in Hk. split; [done|].
  intros i Hi.
  assert (seq 0 n !! i = Some i) as Hl by (apply lookup_seq; split; [done|lia]).
  rewrite Heq, lookup_app_l in Hl by lia. by eapply list_elem_of_lookup_2.
Qed.

(** X19: [nearestZoneIndex] returns the non-empty zone whose centroid is
    nearest to the tile in Manhattan distance, the lowest index winning a
    tie; it returns nothing ([-1]) exactly when no non-empty zone has its
    centroid closer than [1e9], in particular when every zone is empty. *)
Theorem nearestZoneIndex_spec g id zones :
  (∀ k, nearestZoneIndex g id zones = Some k →
        k < length zones ∧ zones !!! k ≠ []
        ∧ (zone_distance g zones id k < INF)%Z
        ∧ (∀ i, i < length zones → zones !!! i ≠ [] →
                (zone_distance g zones id k ≤ zone_distance g zones id i)%Z)
        ∧ (∀ i, i < k → zones !!! i ≠ [] →
                (zone_distance g zones id k < zone_distance g zones id i)%Z))
  ∧ (nearestZoneIndex g id zones = None ↔
     ∀ i, i < length zones → zones !!! i ≠ [] → (INF ≤ zone_distance g zones id i)%Z).
Proof.
  unfold nearestZoneIndex.
  destruct (nearest_fold_spec g id zones (seq 0 (length zones)) [] (None, INF))
    as (Hmin & Hle & Hb).
  { cbn. split; [|done]. intros i Hi. by apply elem_of_nil in Hi. }
  cbn [app] in *. cbn zeta in *.
  destruct (foldl _ _ _) as [best bestd]. cbn [fst snd] in *. split.
  - intros k ->. destruct Hb as (Hne & -> & Hfin & pre & post & Heq & Hpre).
    destruct (seq_split_at _ _ _ _ Heq) as [Hk Hin].
    assert (k < length zones) as Hklt.
    { assert (k ∈ seq 0 (length zones)) as Hks by (rewrite Heq; apply elem_of_app; right; left).
      apply elem_of_seq in Hks. lia. }
    split; [done|]. split; [done|]. split; [done|]. split.
    + intros i Hi Hnei. apply Hmin; [apply elem_of_seq; lia|done].
    + intros i Hi Hnei. apply Hpre; [by apply Hin|done].
  - split.
    + intros ->. subst bestd. intros i Hi Hnei. apply Hmin; [apply elem_of_seq; lia|done].
    + intros Hall. destruct best as [k|]; [|done]. exfalso.
      destruct Hb as (Hne & -> & Hfin & pre & post & Heq & _).
      assert (k < length zones) as Hklt.
      { assert (k ∈ seq 0 (length zones)) as Hks by (rewrite Heq; apply elem_of_app; right; left).
        apply elem_of_seq in Hks. lia. }
      specialize (Hall k Hklt Hne). lia.
Qed.

(** * The balanced flood fill partitions its candidates *)

Lemma concat_insert_add (zones : list (list nat)) : ∀ i nb,
  i < length zones → nb ∉ concat zones →
  concat (<[i := set_add (zones !!! i) nb]> zones) ≡ₚ nb :: concat zones.
Proof.
  induction zones as [|z zones IH]; intros i nb Hi Hnb; [cbn in Hi; lia|].
  cbn [concat] in Hnb. rewrite elem_of_app in Hnb.
  destruct i as [|i].
  - cbn. rewrite set_add_fresh by tauto. rewrite <- app_assoc. cbn [app].
    symmetry. apply Permutation_middle.
  - cbn [length] in Hi.
    change (<[S i := set_add ((z :: zones) !!! S i) nb]> (z :: zones))
      with (z :: <[i := set_add (zones !!! i) nb]> zones).
    cbn [concat]. rewrite IH by (lia || tauto). symmetry. apply Permutation_middle.
Qed.

Lemma covered_concat (zones : list (list nat)) t :
  covered zones t ↔ t ∈ concat zones.
Proof.
  rewrite elem_of_concat. unfold covered. split.
  - intros (i & z & Hi & Ht). exists z. split; [by eapply list_elem_of_lookup_2|done].
  - intros (z & Hz & Ht). apply list_elem_of_lookup in Hz as [i Hi]. by exists i, z.
Qed.

Section FloodPartition.
Variable g : Graph.
Variable validSet : list nat.
Variable target : nat.

Lemma add_part n zones claimed i nb :
  i < n → claimed !! nb = None → flood_part n zones claimed →
  flood_part n (<[i := set_add (zones !!! i) nb]> zones) (<[nb := i]> claimed).
Proof.
  intros Hi Hn (Hlen & Hnd & Hiff).
  assert (nb ∉ concat zones) as Hfresh.
  { intros Hin. apply Hiff in Hin as [? Hin]. congruence. }
  pose proof (concat_insert_add zones i nb ltac:(lia) Hfresh) as Hperm.
  split; [by rewrite length_insert|]. split.
  - rewrite Hperm. by apply NoDup_cons.
  - intros t. rewrite Hperm, elem_of_cons, Hiff.
    destruct (decide (nb = t)) as [->|Hne].
    + rewrite lookup_insert_eq. split; [by eexists|by left].
    + rewrite lookup_insert_ne by done. split; [intros [->|?]; done|by right].
Qed.

Lemma claim_nbs_part n i nbs : i < n → ∀ zones claimed next p,
  flood_part n zones claimed →
  flood_part n (claim_nbs validSet target i nbs zones claimed next p).1.1.1
               (claim_nbs validSet target i nbs zones claimed next p).1.1.2.
Proof.
  intros Hi. induction nbs as [|nb nbs IH]; intros zones claimed next p Hp;
    cbn [claim_nbs]; [done|].
  destruct (set_has validSet nb); cbn [negb]; [|by apply IH].
  destruct (bool_decide (is_Some (claimed !! nb))) eqn:Hs; [by apply IH|].
  apply bool_decide_eq_false in Hs.
  assert (claimed !! nb = None) as Hn.
  { destruct (claimed !! nb) eqn:E; [|done]. exfalso. apply Hs. by eexists. }
  pose proof (add_part n zones claimed i nb Hi Hn Hp) as Hp1.
  destruct (target <=? _); [done|by apply IH].
Qed.

Lemma drain_part n i wave : i < n → ∀ zones claimed next p,
  flood_part n zones claimed →
  flood_part n (drain g validSet target i wave zones claimed next p).1.1.1
               (drain g validSet target i wave zones claimed next p).1.1.2.
Proof.
  intros Hi. induction wave as [|v wave IH]; intros zones claimed next p Hp;
    cbn [drain]; [done|].
  destruct (zone_size zones i <? target); [|done].
  pose proof (claim_nbs_part n i (edges g !!! v) Hi zones claimed next p Hp) as Hc.
  destruct (claim_nbs validSet target i (edges g !!! v) zones claimed next p)
    as [[[z1 c1] n1] p1]. by apply IH.
Qed.

Lemma flood_zone_part n st i :
  i < n → flood_part n (fl_zones st) (fl_claimed st) →
  flood_part n (fl_zones (flood_zone g validSet target st i))
               (fl_claimed (flood_zone g validSet target st i)).
Proof.
  intros Hi Hp. unfold flood_zone. destruct (target <=? _); [done|].
  pose proof (drain_part n i (fl_frontier st !!! i) Hi (fl_zones st) (fl_claimed st) []
                (fl_progressed st) Hp) as Hd.
  by destruct (drain _ _ _ _ _ _ _ _ _) as [[[z1 c1] n1] p1].
Qed.

Lemma flood_round_part n st :
  flood_part n (fl_zones st) (fl_claimed st) →
  flood_part n (fl_zones (flood_round g validSet target st))
               (fl_claimed (flood_round g validSet target st)).
Proof.
  intros Hp. unfold flood_round.
  assert (∀ i, i ∈ seq 0 (length (fl_zones st)) → i < n) as Hidx.
  { intros i Hi. apply elem_of_seq in Hi. destruct Hp as [<- _]. lia. }
  revert Hidx. generalize (seq 0 (length (fl_zones st))).
  assert (flood_part n (fl_zones (mkFlood (fl_zones st) (fl_frontier st) (fl_claimed st) false))
                       (fl_claimed (mkFlood (fl_zones st) (fl_frontier st) (fl_claimed st) false)))
    as Hp0 by done.
  revert Hp0. generalize (mkFlood (fl_zones st) (fl_frontier st) (fl_claimed st) false).
  intros st0 Hp0 idx. revert st0 Hp0.
  induction idx as [|i idx IH]; intros st0 Hp0 Hidx; cbn [foldl]; [done|].
  apply IH; [|intros j Hj; apply Hidx; by right].
  apply flood_zone_part; [apply Hidx; left|done].
Qed.

Lemma flood_loop_part n fuel : ∀ st st',
  flood_loop g fuel validSet target st = Some st' →
  flood_part n (fl_zones st) (fl_claimed st) →
  flood_part n (fl_zones st') (fl_claimed st').
Proof.
  induction fuel as [|fuel IH]; intros st st' Hl Hp; [done|]. cbn [flood_loop] in Hl.
  pose proof (flood_round_part n st Hp) as Hp1.
  destruct (fl_progressed (flood_round g validSet target st)); cbn [negb] in Hl.
  - destruct (allMet _ _); [by injection Hl as <-|]. by eapply IH.
  - by injection Hl as <-.
Qed.

Lemma claim_seeds_part n (l : list (nat * nat)) : ∀ zones claimed,
  NoDup (l.*2) → (∀ i s, (i, s) ∈ l → i < n) →
  (∀ i s, (i, s) ∈ l → claimed !! s = None) →
  flood_part n zones claimed →
  flood_part n (foldl (claim_seed validSet) (zones, claimed) l).1
               (foldl (claim_seed validSet) (zones, claimed) l).2.
Proof.
  induction l as [|[i s] l IH]; intros zones claimed Hnd Hl Hfresh Hp; cbn [foldl]; [done|].
  cbn [fmap list_fmap snd] in Hnd. apply NoDup_cons in Hnd as [Hs Hnd].
  unfold claim_seed at 2 4. destruct (set_has validSet s).
  - apply IH; [done|intros j s' Hj; eapply Hl; by right| |].
    + intros j s' Hj. destruct (decide (s = s')) as [->|Hne].
      * exfalso. apply Hs. apply list_elem_of_fmap. by exists (j, s').
      * rewrite lookup_insert_ne by done. eapply Hfresh. by right.
    + apply add_part; [eapply Hl; left|eapply Hfresh; left|done].
  - apply IH; [done|intros j s' Hj; eapply Hl; by right| |done].
    intros j s' Hj. eapply Hfresh. by right.
Qed.

(** The leftover pass: each tile goes to one zone, or to none. *)
Lemma assign_all_part (l : list nat) : ∀ zones,
  NoDup l → NoDup (concat zones) → (∀ t, t ∈ l → t ∉ concat zones) →
  NoDup (concat (foldl (assign_remaining g) zones l))
  ∧ ∀ t, t ∈ concat (foldl (assign_remaining g) zones l) → t ∈ concat zones ∨ t ∈ l.
Proof.
  induction l as [|id l IH]; intros zones Hl Hnd Hfresh; cbn [foldl].
  - split; [done|]. by left.
  - apply NoDup_cons in Hl as [Hid Hl].
    assert (id ∉ concat zones) as Hidz by (apply Hfresh; left).
    assert (NoDup (concat (assign_remaining g zones id))
            ∧ ∀ t, t ∈ concat (assign_remaining g zones id) → t ∈ concat zones ∨ t = id)
      as [Hnd1 Hsub1].
    { unfold assign_remaining. destruct (nearestZoneIndex g id zones) as [k|] eqn:Hk.
      - apply nearestZoneIndex_lt in Hk.
        pose proof (concat_insert_add zones k id Hk Hidz) as Hperm. split.
        + rewrite Hperm. by apply NoDup_cons.
        + intros t. rewrite Hperm, elem_of_cons. tauto.
      - split; [done|]. by left. }
    destruct (IH (assign_remaining g zones id) Hl Hnd1) as [Hnd2 Hsub2].
    + intros t Ht Hin. destruct (Hsub1 t Hin) as [Hz| ->]; [|done].
      revert Hz. apply Hfresh. by right.
    + split; [done|]. intros t Ht. destruct (Hsub2 t Ht) as [Hz|Hz]; [|right; by right].
      destruct (Hsub1 t Hz) as [?| ->]; [by left|right; left].
Qed.
End FloodPartition.

Lemma imap_pair_snd (seeds : list nat) : ∀ k,
  (imap (λ i s, (k + i, s)) seeds).*2 = seeds.
Proof.
  induction seeds as [|s seeds IH]; intros k; [done|]. cbn [imap fmap list_fmap snd].
  f_equal. rewrite <- (IH (S k)) at 2. f_equal. apply imap_ext. intros i x _. cbn. f_equal. lia.
Qed.

(** The zones of [balancedFlood] on duplicate-free candidates and seeds. *)
Lemma balancedFlood_part g validSet seeds target :
  NoDup validSet → NoDup seeds →
  ∃ zones, balancedFlood g validSet seeds target = Some zones
           ∧ length zones = length seeds
           ∧ NoDup (concat zones)
           ∧ (∀ t, t ∈ concat zones → t ∈ validSet)
           ∧ ((∃ s, s ∈ seeds ∧ s ∈ validSet) →
              (∀ t, t ∈ validSet → in_box (node_xy g t)) →
              concat zones ≡ₚ validSet).
Proof.
  intros Hv Hs. unfold balancedFlood.
  assert (Hidx : ∀ i s, (i, s) ∈ imap (λ i s, (i, s)) seeds → i < length seeds).
  { intros i s Hi. apply elem_of_imap_pair in Hi. by apply lookup_lt_Some in Hi. }
  assert (concat (map (λ _ : nat, @nil nat) seeds) = []) as Hnil.
  { clear. induction seeds as [|? ? IH]; [done|]. cbn. exact IH. }
  destruct (claim_seeds_spec validSet (length seeds) (imap (λ i s, (i, s)) seeds)
              (map (λ _, []) seeds) ∅ Hidx) as [Hok0 Hd0].
  { split; [by rewrite length_map|]. split.
    - intros i z t Hi Ht. change map with (@fmap list _) in Hi.
      rewrite list_lookup_fmap in Hi. destruct (seeds !! i); [|done].
      injection Hi as <-. by apply elem_of_nil in Ht.
    - intros id i Hid. by rewrite lookup_empty in Hid. }
  pose proof (claim_seeds_part validSet (length seeds) (imap (λ i s, (i, s)) seeds)
                (map (λ _, []) seeds) ∅) as Hp0.
  destruct (foldl (claim_seed validSet) _ _) as [zones0 claimed0]. cbn [fst snd] in *.
  assert (flood_part (length seeds) zones0 claimed0) as Hpart0.
  { apply Hp0; [by rewrite (imap_pair_snd seeds 0 : (imap (λ i s, (i, s)) seeds).*2 = seeds)|done|intros; apply lookup_empty|].
    split; [by rewrite length_map|]. rewrite Hnil. split; [apply NoDup_nil_2|].
    intros t. rewrite lookup_empty. split.
    - intros Ht. by apply elem_of_nil in Ht.
    - intros [? ?]. done. }
  destruct (flood_loop_spec g validSet target (length seeds) (S (length validSet))
              (mkFlood zones0 (map (λ s, [s]) seeds) claimed0 false))
    as (st & Hl & (Hlen & Hsub & Hcl) & Hdom); [done| |].
  { simpl. pose proof (length_filter (λ v, claimed0 !! v = None) validSet).
    unfold unclaimed. lia. }
  rewrite Hl. cbn [mbind option_bind].
  destruct (flood_loop_part g validSet target (length seeds) _ _ _ Hl Hpart0)
    as (_ & Hnd & Hiff).
  set (remaining := filter (λ id, fl_claimed st !! id = None) validSet).
  assert (Hrem : ∀ id, id ∈ remaining → id ∈ validSet ∧ fl_claimed st !! id = None).
  { intros id Hid. apply list_elem_of_filter in Hid. tauto. }
  destruct (assign_all_part g remaining (fl_zones st)) as [Hnd' Hsub'].
  { by apply NoDup_filter. }
  { done. }
  { intros t Ht Hin. apply Hiff in Hin as [? Hin]. destruct (Hrem t Ht). congruence. }
  assert (Hin_valid : ∀ t, t ∈ concat (foldl (assign_remaining g) (fl_zones st) remaining)
                           → t ∈ validSet).
  { intros t Ht. destruct (Hsub' t Ht) as [Hz|Hz]; [|by apply Hrem].
    apply covered_concat in Hz as (i & z & Hi & Hz). by eapply Hsub. }
  eexists. split; [done|]. split.
  { rewrite <- Hlen. clear. generalize (fl_zones st).
    induction remaining as [|a l IH]; intros zones; cbn [foldl]; [done|].
    rewrite IH. unfold assign_remaining.
    destruct (nearestZoneIndex g a zones); [by rewrite length_insert|done]. }
  split; [done|]. split; [done|].
  intros (s & Hsin & Hsv) Hbox. apply NoDup_Permutation; [done|done|].
  intros t. split; [apply Hin_valid|]. intros Ht. apply covered_concat.
  destruct (fl_claimed st !! t) as [i|] eqn:Hc.
  - apply assign_all_covered_mono. destruct (Hcl t i Hc) as (z & Hz & Htz). by exists i, z.
  - apply (assign_all_covers g validSet Hbox); [by intros ? [? ?]%Hrem|done| |].
    + assert (is_Some (fl_claimed st !! s)) as [i Hi].
      { apply Hdom. simpl. apply Hd0. right.
        apply list_elem_of_lookup in Hsin as [i Hi]. exists i.
        split; [by apply elem_of_imap_pair|done]. }
      destruct (Hcl s i Hi) as (z & Hz & Htz). by exists s, i, z.
    + apply list_elem_of_filter. done.
Qed.

(** X20: on a duplicate-free candidate set and duplicate-free seeds,
    [balancedFlood] returns one zone per seed, the zones share no tile and
    list no tile twice, and they hold candidates only.  If moreover some
    seed is a candidate and the coordinates are map coordinates, the zones
    are a partition of the candidate set. *)
Theorem balancedFlood_zones_never_overlap g validSet seeds target :
  NoDup validSet → NoDup seeds →
  ∃ zones, balancedFlood g validSet seeds target = Some zones
           ∧ length zones = length seeds
           ∧ NoDup (concat zones)
           ∧ (∀ i j zi zj t, i ≠ j → zones !! i = Some zi → zones !! j = Some zj →
                             t ∈ zi → t ∉ zj)
           ∧ (∀ t, t ∈ concat zones → t ∈ validSet)
           ∧ ((∃ s, s ∈ seeds ∧ s ∈ validSet) →
              (∀ t, t ∈ validSet → in_box (node_xy g t)) →
              concat zones ≡ₚ validSet).
Proof.
  intros Hv Hs.
  destruct (balancedFlood_part g validSet seeds target Hv Hs)
    as (zones & Hb & Hlen & Hnd & Hsub & Hperm).
  exists zones. split; [done|]. split; [done|]. split; [done|].
  split; [|split; [done|done]].
  clear -Hnd. revert Hnd. induction zones as [|z zones IH]; intros Hnd i j zi zj t Hij Hi Hj Hti Htj.
  - by rewrite lookup_nil in Hi.
  - cbn [concat] in Hnd. apply NoDup_app in Hnd as (_ & Hdis & Hnd').
    destruct i as [|i], j as [|j]; [done| | |].
    + injection Hi as <-. apply (Hdis t Hti). apply elem_of_concat. exists zj.
      split; [by eapply list_elem_of_lookup_2|done].
    + injection Hj as <-. apply (Hdis t Htj). apply elem_of_concat. exists zi.
      split; [by eapply list_elem_of_lookup_2|done].
    + apply (IH Hnd' i j zi zj t); [lia|done..].
Qed.

Lemma balancedFlood_zones_never_overlap_witness :
  ∃ zones, balancedFlood (bg_graph corridor_built) [0; 1; 2; 3; 4; 5] [0; 5] 2 = Some zones
           ∧ length zones = length [0; 5]
           ∧ NoDup (concat zones)
           ∧ (∀ i j zi zj t, i ≠ j → zones !! i = Some zi → zones !! j = Some zj →
                             t ∈ zi → t ∉ zj)
           ∧ (∀ t, t ∈ concat zones → t ∈ [0; 1; 2; 3; 4; 5])
           ∧ ((∃ s, s ∈ [0; 5] ∧ s ∈ [0; 1; 2; 3; 4; 5]) →
              (∀ t, t ∈ [0; 1; 2; 3; 4; 5] → in_box (node_xy (bg_graph corridor_built) t)) →
              concat zones ≡ₚ [0; 1; 2; 3; 4; 5]).
Proof.
  apply (balancedFlood_zones_never_overlap (bg_graph corridor_built) [0; 1; 2; 3; 4; 5] [0; 5] 2).
  - apply (bool_decide_unpack _). vm_compute. exact I.
  - apply (bool_decide_unpack _). vm_compute. exact I.
Defined.

(** * The shape of the detected food courts *)

Section CourtShape.
Variable g : Graph.
Variable valid : list nat.
Variable R2 : Z.
Variable maxTiles tilesPerCleaner : nat.

Lemma court_step_mono tiles tiles' a b :
  (∀ t, t ∈ tiles → t ∈ tiles') → court_step g tiles a b → court_step g tiles' a b.
Proof. intros Hsub (Ha & Hb & He). split; [auto|split; [auto|done]]. Qed.

Lemma court_reach_mono tiles tiles' a b :
  (∀ t, t ∈ tiles → t ∈ tiles') →
  rtc (court_step g tiles) a b → rtc (court_step g tiles') a b.
Proof.
  intros Hsub Hr. induction Hr as [|x y z Hxy _ IH]; [done|].
  eapply rtc_l; [|exact IH]. by eapply court_step_mono.
Qed.

(** What the neighbour loop appends to the queue. *)
Lemma court_fold_queue c nbs : ∀ visited q visited' q',
  foldl (court_visit g valid R2 c) (visited, q) nbs = (visited', q') →
  ∀ t, t ∈ q' → t ∈ q ∨ (t ∈ nbs ∧ t ∈ valid ∧ (sqdist c (node_xy g t) ≤ R2)%Z).
Proof.
  induction nbs as [|nb nbs IH]; intros visited q visited' q' Hf t Ht; cbn [foldl] in Hf.
  - injection Hf as <- <-. by left.
  - unfold court_visit at 2 in Hf.
    destruct (set_has valid nb) eqn:Hv; cbn [negb] in Hf.
    2:{ destruct (IH _ _ _ _ Hf t Ht) as [?|(? & ?)]; [by left|right; split; [by right|done]]. }
    destruct (set_has visited nb).
    { destruct (IH _ _ _ _ Hf t Ht) as [?|(? & ?)]; [by left|right; split; [by right|done]]. }
    destruct (R2 <? sqdist c (node_xy g nb))%Z eqn:Hr.
    { destruct (IH _ _ _ _ Hf t Ht) as [?|(? & ?)]; [by left|right; split; [by right|done]]. }
    destruct (IH _ _ _ _ Hf t Ht) as [Hq|(? & ?)]; [|right; split; [by right|done]].
    apply elem_of_app in Hq as [?|Hq]; [by left|].
    apply list_elem_of_singleton in Hq as ->. right.
    split; [left|]. split; [by apply set_has_true|]. by apply Z.ltb_ge in Hr.
Qed.

Lemma court_grow_inv c nid fuel : ∀ visited tiles q visited' tiles',
  court_grow g valid R2 maxTiles fuel c visited tiles q = Some (visited', tiles') →
  grow_inv g valid R2 maxTiles c nid tiles q →
  grow_inv g valid R2 maxTiles c nid tiles' [].
Proof.
  induction fuel as [|fuel IH]; intros visited tiles q visited' tiles' Hg Hinv.
  - destruct q as [|v q]; cbn [court_grow] in Hg.
    + injection Hg as <- <-. done.
    + destruct (length tiles <? maxTiles); [done|]. injection Hg as <- <-.
      destruct Hinv as [H1 H2 H3 H4 H5 H6 H7]. split; try done.
      * intros t [Ht|Ht]; [apply H3; by left|by apply elem_of_nil in Ht].
      * intros t [Ht|Ht]; [apply H4; by left|by apply elem_of_nil in Ht].
      * intros t Ht. by apply elem_of_nil in Ht.
  - destruct q as [|v q]; cbn [court_grow] in Hg.
    + injection Hg as <- <-. done.
    + destruct (length tiles <? maxTiles) eqn:Hlt.
      2:{ injection Hg as <- <-. destruct Hinv as [H1 H2 H3 H4 H5 H6 H7]. split; try done.
          - intros t [Ht|Ht]; [apply H3; by left|by apply elem_of_nil in Ht].
          - intros t [Ht|Ht]; [apply H4; by left|by apply elem_of_nil in Ht].
          - intros t Ht. by apply elem_of_nil in Ht. }
      apply Nat.ltb_lt in Hlt.
      destruct (foldl (court_visit g valid R2 c) (visited, q) (edges g !!! v))
        as [visited1 q1] eqn:Hf.
      pose proof (court_fold_queue c _ _ _ _ _ Hf) as Hq1.
      apply IH in Hg; [done|]. clear IH Hg.
      destruct Hinv as [H1 H2 H3 H4 H5 H6 H7].
      assert (Hsub : ∀ t, t ∈ tiles → t ∈ set_add tiles v) by (intros; by apply set_add_old).
      split.
      * by apply NoDup_set_add.
      * unfold set_add. destruct (decide (v ∈ tiles)); [lia|].
        rewrite length_app. cbn. lia.
      * intros t [Ht|Ht].
        -- apply elem_of_set_add in Ht as [Ht| ->]; apply H3; [by left|right; left].
        -- destruct (Hq1 t Ht) as [?|(_ & ? & _)]; [|done]. apply H3. right. by right.
      * intros t [Ht|Ht].
        -- apply elem_of_set_add in Ht as [Ht| ->]; apply H4; [by left|right; left].
        -- destruct (Hq1 t Ht) as [?|(_ & _ & ?)]; [|by right]. apply H4. right. by right.
      * intros t Ht. apply elem_of_set_add in Ht as [Ht| ->].
        -- eapply court_reach_mono; [exact Hsub|]. by apply H5.
        -- destruct (H6 v) as [->|(u & Hu & He)]; [left|done|].
           eapply rtc_r; [eapply court_reach_mono; [exact Hsub|by apply H5]|].
           split; [by apply Hsub|]. split; [apply set_add_new|done].
      * intros w Hw. destruct (Hq1 w Hw) as [Hq|(He & _)].
        -- destruct (H6 w) as [?|(u & Hu & Hwu)]; [by right|by left|].
           right. exists u. split; [by apply Hsub|done].
        -- right. exists v. split; [apply set_add_new|done].
      * right. destruct H7 as [->|?]; [|by apply Hsub].
        destruct (H6 v) as [->|(u & Hu & _)]; [left|apply set_add_new|].
        by apply elem_of_nil in Hu.
Qed.

(** A pass over a stall centre records at most one court, of the
    expected shape. *)
Lemma court_seed_shape st c st' :
  court_seed g valid R2 maxTiles tilesPerCleaner st c = Some st' →
  cs_courts st' = cs_courts st
  ∨ ∃ court, cs_courts st' = cs_courts st ++ [court]
             ∧ court_shape g valid R2 maxTiles tilesPerCleaner court
             ∧ fc_center court = c
             ∧ fc_name court = FoodCourtName (length (cs_courts st) + 1).
Proof.
  unfold court_seed. destruct (idByXY g !! key c.1 c.2) as [nid|] eqn:Hid.
  2:{ intros [= <-]. by left. }
  destruct (set_has valid nid) eqn:Hv; cbn [negb]; [|intros [= <-]; by left].
  destruct (set_has (cs_visited st) nid); [intros [= <-]; by left|].
  apply set_has_true in Hv.
  destruct (court_grow _ _ _ _ _ _ _ _ _) as [[visited tiles]|] eqn:Hg; [|done].
  cbn [mbind option_bind].
  apply (court_grow_inv c nid) in Hg as [H1 H2 H3 H4 H5 _ H7].
  2:{ split.
      - apply NoDup_nil_2.
      - cbn. lia.
      - intros t [Ht|Ht]; [by apply elem_of_nil in Ht|].
        by apply list_elem_of_singleton in Ht as ->.
      - intros t [Ht|Ht]; [by apply elem_of_nil in Ht|].
        apply list_elem_of_singleton in Ht as ->. by left.
      - intros t Ht. by apply elem_of_nil in Ht.
      - intros v Hvq. apply list_elem_of_singleton in Hvq as ->. by left.
      - by left. }
  destruct (20 <=? length tiles) eqn:Hsz; intros [= <-]; [|by left].
  apply Nat.leb_le in Hsz. right. eexists. split; [done|]. split; [|done].
  split; cbn [fc_tiles fc_center fc_staffNeeded].
  - done.
  - lia.
  - intros t Ht. apply H3. by left.
  - exists nid. split; [done|]. split.
    + destruct H7 as [->|?]; [cbn in Hsz; lia|done].
    + split; [done|]. intros t Ht Hne. destruct (H4 t); [by left|done|done].
  - done.
Qed.

Lemma court_seeds_shape cs (P : Z * Z → Prop) : ∀ st st',
  court_seeds g valid R2 maxTiles tilesPerCleaner st cs = Some st' →
  (∀ c, c ∈ cs → P c) →
  (∀ i court, cs_courts st !! i = Some court →
     court_shape g valid R2 maxTiles tilesPerCleaner court
     ∧ P (fc_center court) ∧ fc_name court = FoodCourtName (i + 1)) →
  length (cs_courts st') ≤ length (cs_courts st) + length cs
  ∧ ∀ i court, cs_courts st' !! i = Some court →
     court_shape g valid R2 maxTiles tilesPerCleaner court
     ∧ P (fc_center court) ∧ fc_name court = FoodCourtName (i + 1).
Proof.
  induction cs as [|c cs IH]; intros st st' Hs HP Hst.
  - injection Hs as <-. split; [cbn; lia|done].
  - rewrite court_seeds_cons in Hs. apply bind_Some in Hs as (st1 & Hs1 & Hs).
    apply court_seed_shape in Hs1.
    apply IH in Hs as [Hlen Hall]; [| |].
    + split; [|done]. cbn [length].
      destruct Hs1 as [Heq|(court & Heq & _)]; rewrite Heq in Hlen; [lia|].
      rewrite length_app in Hlen. cbn in Hlen. lia.
    + intros c' Hc'. apply HP. by right.
    + destruct Hs1 as [Heq|(court & Heq & Hshape & Hc & Hn)]; rewrite Heq; [done|].
      intros i court' Hi. apply lookup_app_Some in Hi as [Hi|[Hl Hi]]; [by apply Hst|].
      apply list_lookup_singleton_Some in Hi as [Hi <-].
      split; [done|]. split; [rewrite Hc; apply HP; left|].
      rewrite Hn. f_equal. lia.
Qed.
End CourtShape.

(** The final state of the detector: the invariant of the seed loop and
    the shape of every recorded court. *)
Lemma detectFoodCourts_facts g valid R2 maxTiles tilesPerCleaner threshold shops :
  ∃ st,
    detectFoodCourts g valid R2 maxTiles tilesPerCleaner threshold shops
    = Some (cs_courts st, cs_reserved st)
    ∧ courts_inv valid st
    ∧ length (cs_courts st) ≤ length shops
    ∧ ∀ i court, cs_courts st !! i = Some court →
        court_shape g valid R2 maxTiles tilesPerCleaner court
        ∧ fc_name court = FoodCourtName (i + 1)
        ∧ fc_center court ∈ shops
        ∧ threshold ≤ length (filter (λ p, (sqdist (fc_center court) p ≤ R2)%Z) shops).
Proof.
  unfold detectFoodCourts.
  destruct (court_seeds_total g valid R2 maxTiles tilesPerCleaner
              (stallCenters R2 threshold shops) (mkCourtState [] [] [])) as [st Hs].
  rewrite Hs. cbn [mbind option_bind].
  exists st. split; [done|].
  pose proof (courts_inv_seeds g valid R2 maxTiles tilesPerCleaner _ _ _
                (courts_inv_init valid) Hs) as Hinv.
  split; [done|].
  apply (court_seeds_shape g valid R2 maxTiles tilesPerCleaner _
           (λ c, c ∈ shops
                 ∧ threshold ≤ length (filter (λ p, (sqdist c p ≤ R2)%Z) shops)))
    in Hs as [Hlen Hall].
  - split.
    + cbn in Hlen. unfold stallCenters in Hlen.
      pose proof (length_filter
        (λ pt, threshold ≤ length (filter (λ pt2, (sqdist pt pt2 ≤ R2)%Z) shops)) shops).
      lia.
    + intros i court Hi. destruct (Hall i court Hi) as (? & [? ?] & ?). done.
  - intros c Hc. unfold stallCenters in Hc. apply list_elem_of_filter in Hc as [? ?]. done.
  - intros i court Hi. cbn in Hi. by rewrite lookup_nil in Hi.
Qed.

(** X21: [detectFoodCourts] always returns, and every court it records
    lists no tile twice, has between 20 and [maxTiles] tiles, all of them
    valid, contains the node of its centre, reaches each of its tiles from
    that node by steps between neighbouring tiles of the court, and keeps
    every other tile within the radius of the centre.  The centre is a
    shop entrance with at least [threshold] shop entrances within the
    radius, the k-th court is named "Food Court k", its staff need is the
    rounded-up quotient of its size by [tilesPerCleaner] (at least 1), and
    the reserved set is the union of the courts. *)
Theorem detectFoodCourts_shape g valid R2 maxTiles tilesPerCleaner threshold shops :
  ∃ courts reserved,
    detectFoodCourts g valid R2 maxTiles tilesPerCleaner threshold shops
    = Some (courts, reserved)
    ∧ length courts ≤ length shops
    ∧ (∀ t, t ∈ reserved ↔ ∃ court, court ∈ courts ∧ t ∈ fc_tiles court)
    ∧ ∀ i court, courts !! i = Some court →
        court_shape g valid R2 maxTiles tilesPerCleaner court
        ∧ fc_name court = FoodCourtName (i + 1)
        ∧ fc_center court ∈ shops
        ∧ threshold ≤ length (filter (λ p, (sqdist (fc_center court) p ≤ R2)%Z) shops).
Proof.
  destruct (detectFoodCourts_facts g valid R2 maxTiles tilesPerCleaner threshold shops)
    as (st & Hd & Hinv & Hlen & Hall).
  exists (cs_courts st), (cs_reserved st). split; [done|]. split; [done|].
  split; [apply (ci_reserved _ _ Hinv)|done].
Qed.

(** * The handyman zones of a plan *)

Lemma NoDup_concat_disjoint {A} (ls : list (list A)) :
  (∀ l, l ∈ ls → NoDup l) →
  (∀ i j li lj t, i ≠ j → ls !! i = Some li → ls !! j = Some lj → t ∈ li → t ∉ lj) →
  NoDup (concat ls).
Proof.
  induction ls as [|l ls IH]; intros Hnd Hdis; cbn [concat]; [apply NoDup_nil_2|].
  apply NoDup_app. split; [apply Hnd; left|]. split.
  - intros t Ht Hin. apply elem_of_concat in Hin as (l' & Hl' & Ht').
    apply list_elem_of_lookup in Hl' as [j Hj].
    by apply (Hdis 0 (S j) l l' t).
  - apply IH; [intros l' Hl'; apply Hnd; by right|].
    intros i j li lj t Hij Hi Hj. by apply (Hdis (S i) (S j) li lj t); [lia|..].
Qed.

Lemma zones_needed_bounds s env tcount :
  0 < tilesPerHandyman s → 0 < tcount → 1 ≤ zones_needed s env tcount ≤ tcount.
Proof.
  intros Ht Hc. unfold zones_needed, ceil_div.
  set (n0 := (tcount + tilesPerHandyman s - 1) / tilesPerHandyman s).
  assert (1 ≤ n0 ≤ tcount) as Hn0.
  { unfold n0. split.
    - apply Nat.div_le_lower_bound; lia.
    - apply Nat.lt_succ_r, Nat.Div0.div_lt_upper_bound. nia. }
  rewrite (proj2 (Nat.ltb_lt 0 tcount) Hc), andb_true_r.
  destruct (enableHandymen s), (staffInsufficient s);
    repeat match goal with |- context [?a =? 0] => destruct (Nat.eqb_spec a 0) end; lia.
Qed.

Section HandymanZones.
Variable g : Graph.
Variable validIds : list nat.

Lemma court_ztiles (tiles : list nat) : ∀ acc,
  NoDup (acc ++ tiles) → (∀ t, t ∈ tiles → t ∈ validIds) →
  foldl (λ s t, if set_has validIds t then set_add s t else s) acc tiles = acc ++ tiles.
Proof.
  induction tiles as [|t tiles IH]; intros acc Hnd Hv; cbn [foldl]; [by rewrite app_nil_r|].
  rewrite (proj2 (set_has_true validIds t)) by (apply Hv; left).
  assert (t ∉ acc) as Hfresh.
  { apply NoDup_app in Hnd as (_ & Hd & _). intros Hin. apply (Hd t Hin). left. }
  rewrite set_add_fresh by done.
  rewrite IH; [by rewrite <- app_assoc|by rewrite <- app_assoc|].
  intros t' Ht'. apply Hv. by right.
Qed.

Lemma foldl_set_delete_absent (l : list nat) : ∀ pool,
  (∀ t, t ∈ l → t ∉ pool) → foldl set_delete pool l = pool.
Proof.
  induction l as [|t l IH]; intros pool Hl; cbn [foldl]; [done|].
  rewrite set_delete_absent by (apply Hl; left). apply IH. intros t' Ht'. apply Hl. by right.
Qed.

(** The zones made of the food courts. *)
Lemma court_zones_fold pool (courts : list FoodCourt) : ∀ zones,
  (∀ c, c ∈ courts → NoDup (fc_tiles c)
                    ∧ ∀ t, t ∈ fc_tiles c → t ∈ validIds ∧ t ∉ pool) →
  ∃ czones,
    foldl (court_zone g validIds) (zones, pool) courts = (zones ++ czones, pool)
    ∧ concat (map z_tiles czones) = concat (map fc_tiles courts)
    ∧ length czones ≤ length courts
    ∧ ∀ z, z ∈ czones →
        z_tiles z ≠ [] ∧ z_centroid z = centroidOfTiles g (z_tiles z)
        ∧ ∃ c, c ∈ courts ∧ z_tiles z = fc_tiles c ∧ z_name z = fc_name c.
Proof.
  induction courts as [|c courts IH]; intros zones Hc; cbn [foldl].
  - exists []. rewrite app_nil_r. split; [done|]. split; [done|]. split; [done|].
    intros z Hz. by apply elem_of_nil in Hz.
  - destruct (Hc c) as [Hnd Ht]; [left|].
    assert (Hc' : ∀ c', c' ∈ courts → NoDup (fc_tiles c')
                       ∧ ∀ t, t ∈ fc_tiles c' → t ∈ validIds ∧ t ∉ pool).
    { intros c' Hin. apply Hc. by right. }
    unfold court_zone at 2.
    rewrite (court_ztiles (fc_tiles c) []) by (done || by intros t [? ?]%Ht).
    cbn [app]. destruct (length (fc_tiles c) =? 0) eqn:Hlen.
    + destruct (IH zones Hc') as (cz & Hf & Hcat & Hl & Hz).
      exists cz. split; [done|]. apply Nat.eqb_eq in Hlen.
      destruct (fc_tiles c) eqn:Htiles; [|done]. cbn [map concat app].
      rewrite Htiles. cbn [app]. split; [done|]. split; [cbn; lia|].
      intros z Hin. destruct (Hz z Hin) as (? & ? & c' & ? & ? & ?).
      split; [done|]. split; [done|]. exists c'. split; [by right|done].
    + rewrite foldl_set_delete_absent by (by intros t [? ?]%Ht).
      destruct (IH (zones ++ [mkZone (fc_tiles c) (centroidOfTiles g (fc_tiles c)) (fc_name c)])
                  Hc') as (cz & Hf & Hcat & Hl & Hz).
      exists (mkZone (fc_tiles c) (centroidOfTiles g (fc_tiles c)) (fc_name c) :: cz).
      split; [by rewrite Hf, <- app_assoc|]. split; [cbn; by rewrite Hcat|].
      split; [cbn; lia|].
      intros z Hin. apply elem_of_cons in Hin as [->|Hin].
      * cbn. split; [|split; [done|exists c; split; [left|done]]].
        intros E. rewrite E in Hlen. done.
      * destruct (Hz z Hin) as (? & ? & c' & ? & ? & ?).
        split; [done|]. split; [done|]. exists c'. split; [by right|done].
Qed.

(** The zones made of the grown tile sets. *)
Lemma push_grown_fold (grown : list (list nat)) : ∀ zones,
  ∃ gz,
    foldl (push_grown g) zones grown = zones ++ gz
    ∧ concat (map z_tiles gz) = concat grown
    ∧ length gz ≤ length grown
    ∧ ∀ j z, gz !! j = Some z →
        z_tiles z ≠ [] ∧ z_centroid z = centroidOfTiles g (z_tiles z)
        ∧ z_tiles z ∈ grown ∧ z_name z = ZoneNumber (length zones + j + 1).
Proof.
  induction grown as [|tiles grown IH]; intros zones; cbn [foldl].
  - exists []. rewrite app_nil_r. split; [done|]. split; [done|]. split; [done|].
    intros j z Hz. by rewrite lookup_nil in Hz.
  - unfold push_grown at 2. destruct (length tiles =? 0) eqn:Hlen.
    + destruct (IH zones) as (gz & Hf & Hcat & Hl & Hz). exists gz. split; [done|].
      apply Nat.eqb_eq in Hlen. destruct tiles; [|done]. cbn [concat app].
      split; [done|]. split; [cbn; lia|].
      intros j z Hj. destruct (Hz j z Hj) as (? & ? & ? & ?).
      split; [done|]. split; [done|]. split; [by right|done].
    + destruct (IH (zones ++ [mkZone tiles (centroidOfTiles g tiles)
                                     (ZoneNumber (length zones + 1))]))
        as (gz & Hf & Hcat & Hl & Hz).
      exists (mkZone tiles (centroidOfTiles g tiles) (ZoneNumber (length zones + 1)) :: gz).
      split; [by rewrite Hf, <- app_assoc|]. split; [cbn; by rewrite Hcat|].
      split; [cbn; lia|].
      intros [|j] z Hj.
      * injection Hj as <-. cbn. split; [|split; [done|split; [left|f_equal; lia]]].
        intros ->. done.
      * cbn in Hj. destruct (Hz j z Hj) as (? & ? & ? & Hn).
        split; [done|]. split; [done|]. split; [by right|]. rewrite Hn.
        rewrite length_app. cbn. f_equal. lia.
Qed.

Lemma rescueDeadEnds_id zones : rescueDeadEnds g zones = zones.
Proof.
  unfold rescueDeadEnds. apply rescue_leaves_zoned.
  intros leaf Hl. apply list_elem_of_filter in Hl. tauto.
Qed.

Variable s : Settings.
Variable env : Env.
Variables (reserved : list nat) (courts : list FoodCourt).

Hypothesis valid_nodup : NoDup validIds.
Hypothesis valid_apart : ∀ a b, a ∈ validIds → b ∈ validIds →
                                node_xy g a = node_xy g b → a = b.
Hypothesis valid_box : ∀ t, t ∈ validIds → in_box (node_xy g t).
Hypothesis tiles_pos : 0 < tilesPerHandyman s.
Hypothesis courts_nodup : NoDup (concat (map fc_tiles courts)).
Hypothesis courts_valid : ∀ t, t ∈ concat (map fc_tiles courts) → t ∈ validIds.
Hypothesis courts_reserved : ∀ t, t ∈ reserved ↔ t ∈ concat (map fc_tiles courts).
Hypothesis courts_off : enableFoodCourts s = false → courts = [].

(** [buildHandymanZones] when some valid tile is not reserved. *)
Lemma buildHandymanZones_part old :
  filter (λ id, id ∉ reserved) validIds ≠ [] →
  ∃ czones gzones,
    buildHandymanZones g s env validIds reserved courts old = Some (czones ++ gzones)
    ∧ concat (map z_tiles (czones ++ gzones)) ≡ₚ validIds
    ∧ concat (map z_tiles czones) = concat (map fc_tiles courts)
    ∧ length czones ≤ length courts
    ∧ 1 ≤ length gzones
      ≤ zones_needed s env (length (filter (λ id, id ∉ reserved) validIds))
    ∧ (∀ z, z ∈ czones → ∃ c, c ∈ courts ∧ z_tiles z = fc_tiles c ∧ z_name z = fc_name c)
    ∧ (∀ j z, gzones !! j = Some z → z_name z = ZoneNumber (length czones + j + 1))
    ∧ ∀ z, z ∈ czones ++ gzones →
        z_tiles z ≠ [] ∧ z_centroid z = centroidOfTiles g (z_tiles z).
Proof.
  intros Hpool. unfold buildHandymanZones.
  set (pool := filter (λ id, id ∉ reserved) validIds) in *.
  assert (length pool ≠ 0) as Hlen by (destruct pool; done).
  rewrite (proj2 (Nat.eqb_neq _ 0) Hlen).
  assert (Hpool_in : ∀ t, t ∈ pool ↔ t ∈ validIds ∧ t ∉ reserved).
  { intros t. unfold pool. rewrite list_elem_of_filter. tauto. }
  assert (NoDup pool) as Hpnd by by apply NoDup_filter.
  (* the court zones *)
  assert (∃ czones,
            handyman_pool g s validIds reserved courts = (czones, pool)
            ∧ concat (map z_tiles czones) = concat (map fc_tiles courts)
            ∧ length czones ≤ length courts
            ∧ ∀ z, z ∈ czones →
                z_tiles z ≠ [] ∧ z_centroid z = centroidOfTiles g (z_tiles z)
                ∧ ∃ c, c ∈ courts ∧ z_tiles z = fc_tiles c ∧ z_name z = fc_name c)
    as (czones & Hhp & Hcat & Hclen & Hcz).
  { unfold handyman_pool. fold pool.
    destruct (enableFoodCourts s && negb (length courts =? 0)) eqn:Hen.
    - destruct (court_zones_fold pool courts []) as (cz & Hf & ? & ? & ?).
      + intros c Hc. split.
        * apply list_elem_of_lookup in Hc as [i Hi].
          assert (sublist (fc_tiles c) (concat (map fc_tiles courts))) as Hsl.
          { clear -Hi. revert i Hi. induction courts as [|c' cs IH]; intros i Hi; [done|].
            cbn [map concat]. destruct i as [|i].
            - injection Hi as ->. by apply sublist_inserts_r.
            - apply sublist_inserts_l. by apply (IH i). }
          exact (sublist_NoDup _ _ courts_nodup Hsl).
        * intros t Ht.
          assert (t ∈ concat (map fc_tiles courts)) as Hin.
          { apply elem_of_concat. exists (fc_tiles c). split; [|done].
            apply list_elem_of_fmap. by exists c. }
          split; [by apply courts_valid|]. rewrite Hpool_in.
          intros [_ Hn]. apply Hn. by apply courts_reserved.
      + exists cz. done.
    - exists []. split; [done|].
      assert (courts = []) as ->.
      { destruct (enableFoodCourts s); [|by apply courts_off].
        cbn in Hen. destruct courts; [done|]. done. }
      split; [done|]. split; [done|]. intros z Hz. by apply elem_of_nil in Hz. }
  rewrite Hhp.
  (* the seeds *)
  pose proof (zones_needed_bounds s env (length pool) tiles_pos ltac:(lia)) as Hneed.
  destruct (pickSeeds_spec g (env_random env) pool (zones_needed s env (length pool)))
    as (Hslen & Hsnd & Hssub & _); [done| |lia|].
  { intros a b Ha Hb. apply valid_apart; by apply Hpool_in. }
  set (seeds := pickSeeds g (env_random env) pool (zones_needed s env (length pool))) in *.
  (* the flood *)
  destruct (balancedFlood_part g pool seeds (tilesPerHandyman s) Hpnd Hsnd)
    as (grown & Hbf & Hglen & Hgnd & Hgsub & Hperm).
  rewrite Hbf. cbn [mbind option_bind].
  assert (concat grown ≡ₚ pool) as Hgp.
  { apply Hperm.
    - destruct seeds as [|s0 ?] eqn:E; [cbn in Hslen; lia|].
      exists s0. split; [left|]. apply Hssub. left.
    - intros t Ht. apply valid_box. by apply Hpool_in. }
  destruct (push_grown_fold grown czones) as (gz & Hpf & Hgcat & Hgl & Hgz).
  exists czones, gz.
  assert (Hres : (if allowDeadEndRescue s
                  then rescueDeadEnds g (foldl (push_grown g) czones grown)
                  else foldl (push_grown g) czones grown) = czones ++ gz).
  { rewrite rescueDeadEnds_id, Hpf. by destruct (allowDeadEndRescue s). }
  rewrite Hres. split; [done|]. split.
  { rewrite map_app, concat_app, Hcat, Hgcat, Hgp.
    assert (concat (map fc_tiles courts) ≡ₚ filter (λ id, id ∈ reserved) validIds) as ->.
    { apply NoDup_Permutation; [done|by apply NoDup_filter|].
      intros t. rewrite list_elem_of_filter, courts_reserved. split; [|tauto].
      intros Ht. split; [done|by apply courts_valid]. }
    unfold pool. apply filter_app_complement. }
  split; [done|]. split; [done|]. split.
  { split; [|lia]. destruct gz; [|cbn; lia]. exfalso.
    cbn in Hgcat. rewrite <- Hgcat in Hgp. apply Permutation_nil_l in Hgp.
    rewrite <- Hgp in Hlen. done. }
  split.
  { intros z Hz. destruct (Hcz z Hz) as (_ & _ & ?). done. }
  split.
  { intros j z Hj. destruct (Hgz j z Hj) as (_ & _ & _ & ?). done. }
  intros z Hz. apply elem_of_app in Hz as [Hz|Hz].
  - destruct (Hcz z Hz) as (? & ? & _). done.
  - apply list_elem_of_lookup in Hz as [j Hj]. destruct (Hgz j z Hj) as (? & ? & _). done.
Qed.
End HandymanZones.

(** ** The preview run *)

(** The passes of a successful preview run. *)
Lemma onPreview_parts s env m plan :
  onPreview s env m = Some plan →
  ∃ bg valid courts reserved zones exits clusters,
    buildPathGraph (includeFacilitiesCuldesacs s) (foodCourtIncludeSeatingBins s) m = Some bg
    ∧ pruneSceneryBranches (edges (bg_graph bg)) (bg_attractors bg)
                           (length (nodes (bg_graph bg))) (bg_valid bg) = Some valid
    ∧ (if enableFoodCourts s then
         shops ← getLikelyShopEntranceCoords m;
         detectFoodCourts (bg_graph bg) valid (foodCourtRadius s * foodCourtRadius s)%Z
                          (foodCourtMaxTiles s) (foodCourtTilesPerCleaner s)
                          (foodCourtStallThreshold s) shops
       else Some ([], [])) = Some (courts, reserved)
    ∧ (if enableHandymen s
       then buildHandymanZones (bg_graph bg) s env valid reserved courts []
       else Some []) = Some zones
    ∧ (if enableMechanics s then buildMechanicRoutes s m (bg_graph bg) valid
       else Some ([], [])) = Some (exits, clusters)
    ∧ plan = mkPlan true
                    (computeKpis s (length valid) (length courts) zones clusters courts).2
                    (computeKpis s (length valid) (length courts) zones clusters courts).1
                    (bg_graph bg) valid (bg_attractors bg) courts reserved zones exits clusters.
Proof.
  unfold onPreview. intros Hp.
  apply bind_Some in Hp as (bg & Hbg & Hp).
  apply bind_Some in Hp as (valid & Hvalid & Hp).
  apply bind_Some in Hp as ([courts reserved] & Hc & Hp).
  apply bind_Some in Hp as (zones & Hz & Hp).
  apply bind_Some in Hp as ([exits clusters] & Hm & Hp).
  exists bg, valid, courts, reserved, zones, exits, clusters.
  do 5 (split; [done|]).
  destruct (computeKpis _ _ _ _ _ _) as [k w]. by injection Hp as <-.
Qed.

(** The valid set of a run is duplicate-free and made of node ids; the
    nodes sit on pairwise distinct tiles of the map. *)
Lemma pruned_valid_facts fac sb m bg valid :
  buildPathGraph fac sb m = Some bg →
  pruneSceneryBranches (edges (bg_graph bg)) (bg_attractors bg)
                       (length (nodes (bg_graph bg))) (bg_valid bg) = Some valid →
  NoDup valid
  ∧ (∀ t, t ∈ valid → t < length (nodes (bg_graph bg)))
  ∧ (∀ a b, a ∈ valid → b ∈ valid →
            node_xy (bg_graph bg) a = node_xy (bg_graph bg) b → a = b)
  ∧ ∀ t, t ∈ valid → (0 ≤ (node_xy (bg_graph bg) t).1 < Z.of_nat (map_w m))%Z
                     ∧ (0 ≤ (node_xy (bg_graph bg) t).2 < Z.of_nat (map_h m))%Z.
Proof.
  intros Hb Hp.
  destruct (buildPathGraph_wf m _ _ _ Hb) as [[Hsym Hnd Hr Hset] Hseq].
  pose proof (prune_sublist _ _ _ _ _ Hp) as Hsl.
  assert (Hrange : ∀ t, t ∈ valid → t < length (nodes (bg_graph bg))).
  { intros t Ht. apply Hr. by eapply elem_of_sublist. }
  split; [exact (sublist_NoDup _ _ Hset Hsl)|]. split; [done|]. split.
  - intros a b Ha Hbb. apply (built_node_xy_inj _ _ _ _ a b Hb); by apply Hrange.
  - intros t Ht. destruct (lookup_lt_is_Some_2 _ _ (Hrange t Ht)) as [n Hn].
    destruct (built_node_inside m _ _ _ Hb t n Hn) as (_ & x & y & Hx & Hy & _ & Hnx & Hny).
    unfold node_xy. rewrite (list_lookup_total_correct _ _ _ Hn). cbn [fst snd]. lia.
Qed.

Lemma sum_lengths_concat {A} (ls : list (list A)) :
  sum_list (map length ls) = length (concat ls).
Proof.
  induction ls as [|l ls IH]; [done|]. cbn [map sum_list sum_list_with concat].
  rewrite length_app. unfold sum_list in IH. cbn. rewrite <- IH. done.
Qed.

Lemma large_court_not_coverage s courts r :
  CoverageWarning r ∉
    flat_map (λ fc,
                let need := Nat.max 1 (ceil_div (length (fc_tiles fc))
                                                (foodCourtTilesPerCleaner s)) in
                if 1 <? need then [LargeFoodCourt (fc_name fc) (length (fc_tiles fc)) need]
                else []) courts.
Proof.
  induction courts as [|c courts IH]; cbn [flat_map]; [by intros H%elem_of_nil|].
  intros H. apply elem_of_app in H as [H|H]; [|done]. cbn zeta in H.
  destruct (1 <? _); [|by apply elem_of_nil in H].
  by apply list_elem_of_singleton in H.
Qed.

(** The coverage warning of [computeKpis]. *)
Lemma coverage_warning_spec s validTiles nCourts zones clusters courts r :
  CoverageWarning r ∈ (computeKpis s validTiles nCourts zones clusters courts).2 ↔
  enableHandymen s = true
  ∧ r = coverage_ratio (sum_list (map (λ z, length (z_tiles z)) zones)) validTiles
  ∧ (r < 100)%Z.
Proof.
  cbn [computeKpis snd]. unfold kpi_warnings. rewrite !elem_of_app.
  set (covered := sum_list (map (λ z, length (z_tiles z)) zones)).
  split.
  - intros [H|[H|H]].
    + destruct (enableHandymen s); [|by apply elem_of_nil in H]. cbn zeta in H.
      destruct (coverage_ratio covered validTiles <? 100)%Z eqn:Hlt;
        [|by apply elem_of_nil in H].
      apply list_elem_of_singleton in H as [= ->]. apply Z.ltb_lt in Hlt. done.
    + destruct (enableMechanics s); [|by apply elem_of_nil in H].
      destruct (length clusters =? 0); [|by apply elem_of_nil in H].
      by apply list_elem_of_singleton in H.
    + destruct (enableFoodCourts s && _); [|by apply elem_of_nil in H].
      by apply large_court_not_coverage in H.
  - intros (-> & -> & Hlt). left. cbn zeta.
    rewrite (proj2 (Z.ltb_lt _ _) Hlt). left.
Qed.

(** The courts of a run, as [buildHandymanZones] needs them. *)
Lemma preview_courts_facts s m g valid courts reserved :
  (if enableFoodCourts s then
     shops ← getLikelyShopEntranceCoords m;
     detectFoodCourts g valid (foodCourtRadius s * foodCourtRadius s)%Z
                      (foodCourtMaxTiles s) (foodCourtTilesPerCleaner s)
                      (foodCourtStallThreshold s) shops
   else Some ([], [])) = Some (courts, reserved) →
  NoDup (concat (map fc_tiles courts))
  ∧ (∀ t, t ∈ concat (map fc_tiles courts) → t ∈ valid)
  ∧ (∀ t, t ∈ reserved ↔ t ∈ concat (map fc_tiles courts))
  ∧ (enableFoodCourts s = false → courts = [])
  ∧ (∀ c, c ∈ courts → 20 ≤ length (fc_tiles c)).
Proof.
  destruct (enableFoodCourts s).
  - intros Hc. apply bind_Some in Hc as (shops & _ & Hd).
    destruct (detectFoodCourts_facts g valid (foodCourtRadius s * foodCourtRadius s)
                (foodCourtMaxTiles s) (foodCourtTilesPerCleaner s)
                (foodCourtStallThreshold s) shops) as (st & Hd' & Hinv & _ & Hshape).
    rewrite Hd in Hd'. injection Hd' as -> ->.
    destruct Hinv as [Hvis Hdis Hres Hsz].
    assert (Hcat : ∀ t, t ∈ concat (map fc_tiles (cs_courts st))
                        ↔ ∃ court, court ∈ cs_courts st ∧ t ∈ fc_tiles court).
    { intros t. rewrite elem_of_concat. split.
      - intros (l & Hl & Ht). apply list_elem_of_fmap in Hl as (c & -> & Hc). by exists c.
      - intros (c & Hc & Ht). exists (fc_tiles c). split; [|done].
        apply list_elem_of_fmap. by exists c. }
    split.
    { apply NoDup_concat_disjoint.
      - intros l Hl. apply list_elem_of_fmap in Hl as (c & -> & Hc).
        apply list_elem_of_lookup in Hc as [i Hi].
        destruct (Hshape i c Hi) as ([Hnd _ _ _ _] & _). done.
      - intros i j li lj t Hij Hi Hj.
        change map with (@fmap list _) in Hi, Hj. rewrite list_lookup_fmap in Hi, Hj.
        destruct (cs_courts st !! i) as [ci|] eqn:Hci; [|done].
        destruct (cs_courts st !! j) as [cj|] eqn:Hcj; [|done].
        injection Hi as <-. injection Hj as <-. by apply (Hdis i j ci cj t). }
    split.
    { intros t Ht. apply Hcat in Ht as (c & Hc & Ht). by destruct (Hvis c t Hc Ht). }
    split; [intros t; by rewrite Hres, Hcat|]. split; [done|done].
  - intros [= <- <-]. split; [apply NoDup_nil_2|]. split; [by intros t Ht%elem_of_nil|].
    split; [done|]. split; [done|]. by intros c Hc%elem_of_nil.
Qed.

(** X22: a preview run with handyman planning enabled, a positive zone
    size and a map of at most 500000000 tiles a side, in which some valid tile
    is not reserved by a food court: the handyman zones partition the valid
    tiles (every valid tile is in exactly one zone, and zones hold nothing
    else).  The zones are the food-court zones followed by between 1 and
    [needed] grown zones; no zone is empty, each carries the centroid of
    its tiles, grown zones are named "Zone k" by position, and the run
    reports full coverage and no coverage warning. *)
Theorem handyman_zones_partition_valid_tiles s env m plan :
  onPreview s env m = Some plan →
  enableHandymen s = true →
  0 < tilesPerHandyman s →
  (Z.of_nat (map_w m) ≤ 500000000)%Z → (Z.of_nat (map_h m) ≤ 500000000)%Z →
  (∃ t, t ∈ validNodeIds plan ∧ t ∉ reservedFoodTiles plan) →
  concat (map z_tiles (handymanZones plan)) ≡ₚ validNodeIds plan
  ∧ (∃ czones gzones,
       handymanZones plan = czones ++ gzones
       ∧ concat (map z_tiles czones) = concat (map fc_tiles (foodCourts plan))
       ∧ (∀ z, z ∈ czones → ∃ c, c ∈ foodCourts plan
                                 ∧ z_tiles z = fc_tiles c ∧ z_name z = fc_name c)
       ∧ 1 ≤ length gzones
         ≤ zones_needed s env
             (length (filter (λ id, id ∉ reservedFoodTiles plan) (validNodeIds plan)))
       ∧ ∀ j z, gzones !! j = Some z → z_name z = ZoneNumber (length czones + j + 1))
  ∧ (∀ z, z ∈ handymanZones plan →
          z_tiles z ≠ [] ∧ z_centroid z = centroidOfTiles (graph plan) (z_tiles z))
  ∧ coveredTiles (kpis plan) = validPathTiles (kpis plan)
  ∧ ∀ r, CoverageWarning r ∉ warnings plan.
Proof.
  intros Hp Hen Htph Hw Hh (t0 & Ht0 & Hres0).
  apply onPreview_parts in Hp
    as (bg & valid & courts & reserved & zones & exits & clusters
        & Hb & Hpr & Hc & Hz & _ & ->).
  cbn [handymanZones validNodeIds foodCourts reservedFoodTiles graph kpis warnings] in *.
  rewrite Hen in Hz.
  destruct (pruned_valid_facts _ _ _ _ _ Hb Hpr) as (Hnd & Hrange & Hinj & Hpos).
  destruct (preview_courts_facts _ _ _ _ _ _ Hc) as (Hcnd & Hcv & Hcr & Hoff & _).
  destruct (buildHandymanZones_part (bg_graph bg) valid s env reserved courts
              Hnd Hinj) with (old := @nil Zone)
    as (cz & gz & Hbz & Hperm & Hcat & _ & Hglen & Hcz & Hgz & Hall);
    try done.
  { intros t Ht. destruct (Hpos t Ht). split; lia. }
  { intros E. assert (t0 ∈ filter (λ id, id ∉ reserved) valid) as Hin.
    { apply list_elem_of_filter. done. }
    rewrite E in Hin. by apply elem_of_nil in Hin. }
  rewrite Hbz in Hz. injection Hz as <-.
  split; [done|]. split; [exists cz, gz; done|]. split; [done|].
  assert (Hcov : sum_list (map (λ z, length (z_tiles z)) (cz ++ gz)) = length valid).
  { rewrite <- (Permutation_length Hperm), <- sum_lengths_concat.
    by rewrite map_map. }
  split.
  - cbn [computeKpis fst coveredTiles validPathTiles]. exact Hcov.
  - intros r Hr. apply coverage_warning_spec in Hr as (_ & -> & Hlt).
    rewrite Hcov in Hlt. unfold coverage_ratio in Hlt.
    assert (length valid ≠ 0) as Hne by (destruct valid; [by apply elem_of_nil in Ht0|done]).
    rewrite (proj2 (Nat.eqb_neq _ 0) Hne) in Hlt. unfold round_div in Hlt.
    assert (100 ≤ (2 * (100 * Z.of_nat (length valid)) + Z.of_nat (length valid))
                  / (2 * Z.of_nat (length valid)))%Z; [|lia].
    apply Z.div_le_lower_bound; lia.
Qed.

Lemma handyman_zones_partition_valid_tiles_witness :
  concat (map z_tiles (handymanZones court_plan_small)) ≡ₚ validNodeIds court_plan_small
  ∧ (∃ czones gzones,
       handymanZones court_plan_small = czones ++ gzones
       ∧ concat (map z_tiles czones) = concat (map fc_tiles (foodCourts court_plan_small))
       ∧ (∀ z, z ∈ czones → ∃ c, c ∈ foodCourts court_plan_small
                                 ∧ z_tiles z = fc_tiles c ∧ z_name z = fc_name c)
       ∧ 1 ≤ length gzones
         ≤ zones_needed small_radius_settings (mkEnv 0 0)
             (length (filter (λ id, id ∉ reservedFoodTiles court_plan_small)
                             (validNodeIds court_plan_small)))
       ∧ ∀ j z, gzones !! j = Some z → z_name z = ZoneNumber (length czones + j + 1))
  ∧ (∀ z, z ∈ handymanZones court_plan_small →
          z_tiles z ≠ []
          ∧ z_centroid z = centroidOfTiles (graph court_plan_small) (z_tiles z))
  ∧ coveredTiles (kpis court_plan_small) = validPathTiles (kpis court_plan_small)
  ∧ ∀ r, CoverageWarning r ∉ warnings court_plan_small.
Proof.
  apply (handyman_zones_partition_valid_tiles small_radius_settings (mkEnv 0 0) court_map).
  - vm_compute; reflexivity.
  - reflexivity.
  - cbn; lia.
  - cbn; lia.
  - cbn; lia.
  - exists 20. split.
    + apply (bool_decide_unpack _). vm_compute. exact I.
    + apply (bool_decide_unpack _). vm_compute. exact I.
Defined.

(** X23: when every valid tile of a run is reserved by a food court (or
    there is no valid tile at all), handyman planning returns before it
    creates any zone, the food-court zones included: the plan has no
    handyman zone, covers no tile and carries the warning "Coverage 0%". *)
Theorem no_zone_when_all_tiles_reserved s env m plan :
  onPreview s env m = Some plan →
  enableHandymen s = true →
  (∀ t, t ∈ validNodeIds plan → t ∈ reservedFoodTiles plan) →
  handymanZones plan = []
  ∧ coveredTiles (kpis plan) = 0
  ∧ CoverageWarning 0 ∈ warnings plan.
Proof.
  intros Hp Hen Hall.
  apply onPreview_parts in Hp
    as (bg & valid & courts & reserved & zones & exits & clusters
        & Hb & Hpr & Hc & Hz & _ & ->).
  cbn [handymanZones validNodeIds foodCourts reservedFoodTiles graph kpis warnings] in *.
  rewrite Hen in Hz. unfold buildHandymanZones in Hz.
  assert (filter (λ id, id ∉ reserved) valid = []) as Hnil.
  { apply elem_of_nil_inv. intros t Ht. apply list_elem_of_filter in Ht as [Hn Ht].
    by apply Hn, Hall. }
  rewrite Hnil in Hz. cbn in Hz. injection Hz as <-.
  split; [done|]. split; [done|].
  apply coverage_warning_spec. split; [done|]. cbn [map sum_list sum_list_with].
  unfold coverage_ratio. destruct (Nat.eqb_spec (length valid) 0) as [|Hne]; [done|].
  assert (round_div (100 * Z.of_nat 0) (Z.of_nat (length valid)) = 0%Z) as ->; [|done].
  unfold round_div. apply Z.div_small. lia.
Qed.

Lemma no_zone_when_all_tiles_reserved_witness :
  handymanZones court_plan_all = []
  ∧ coveredTiles (kpis court_plan_all) = 0
  ∧ CoverageWarning 0 ∈ warnings court_plan_all.
Proof.
  apply (no_zone_when_all_tiles_reserved default_settings (mkEnv 0 0) court_map).
  - vm_compute; reflexivity.
  - reflexivity.
  - intros t Ht. apply (bool_decide_unpack _).
    assert (t < 25) as Hlt.
    { revert Ht. change (validNodeIds court_plan_all) with (validNodeIds court_plan_all).
      intros Ht. assert (validNodeIds court_plan_all = seq 0 25) as E by (vm_compute; reflexivity).
      rewrite E in Ht. apply elem_of_seq in Ht. lia. }
    do 25 (destruct t as [|t]; [vm_compute; exact I|]). lia.
Defined.

(** * The settings window *)

Lemma clamp_between v lo hi : (lo ≤ hi)%Z → (lo ≤ clamp v lo hi ≤ hi)%Z.
Proof. unfold clamp. lia. Qed.

Lemma clamp_inside v lo hi : (lo ≤ v ≤ hi)%Z → clamp v lo hi = v.
Proof. unfold clamp. lia. Qed.

Lemma openWindow_ok s ui : in_ranges s → window_ok (openWindow s ui).
Proof.
  intros Hr. split; [done|]. split; [|done].
  intros sp. cbn. symmetry. apply clamp_inside, Hr.
Qed.

Lemma spin_step_ok sp delta w : window_ok w → window_ok (spin_step sp delta w).
Proof.
  intros (Hr & Ht & Hc). split; [|split].
  - intros sp'. specialize (Hr sp'). destruct sp, sp'; cbn in *; unfold clamp; lia.
  - intros sp'. specialize (Ht sp'). specialize (Hr sp').
    destruct sp, sp'; cbn in *; unfold clamp in *; lia.
  - intros c. unfold spin_step. cbn [w_checked w_set w_ui]. rewrite (Hc c).
    by destruct sp, c.
Qed.

Lemma preset_ok (s s' : Settings) ui ui' text checked :
  window_ok (mkWindow s ui text checked) →
  (∀ sp, spin_get sp s' = spin_get sp s
         ∨ ((sp = SpTiles ∨ sp = SpMx ∨ sp = SpMst ∨ sp = SpDia)
            ∧ (spin_lo sp ≤ spin_get sp s' ≤ spin_hi sp)%Z)) →
  (∀ sp, (sp = SpTiles ∨ sp = SpMx ∨ sp = SpMst ∨ sp = SpDia) →
         (spin_lo sp ≤ spin_get sp s' ≤ spin_hi sp)%Z) →
  (∀ c, chk_get c s' ui' = chk_get c s ui) →
  window_ok (refreshWindow (mkWindow s' ui' text checked)).
Proof.
  intros (Hr & Ht & Hc) Hsp Hpre Hchk. cbn [w_set w_ui w_text w_checked] in *.
  split; [|split].
  - intros sp. unfold refreshWindow. cbn [w_set].
    destruct (Hsp sp) as [->|[_ ?]]; [apply Hr|done].
  - intros sp. unfold refreshWindow. cbn [w_text w_set].
    destruct sp; cbv iota;
      first [ symmetry; apply clamp_inside, Hpre; auto 6
            | match goal with
              | |- spin_get ?sp _ = _ =>
                destruct (Hsp sp) as [Heq|[Hin _]];
                [rewrite Heq; apply (Ht sp)|destruct Hin as [?|[?|[?|?]]]; discriminate]
              end ].
  - intros c. unfold refreshWindow. cbn [w_checked w_set w_ui]. rewrite Hchk. apply Hc.
Qed.

Lemma ui_step_ok w e w' : window_ok w → ui_step w e = Some w' → window_ok w'.
Proof.
  intros Hok He. destruct e as [sp|sp|c|i|i|i|i]; cbn [ui_step] in He.
  - injection He as <-. by apply spin_step_ok.
  - injection He as <-. by apply spin_step_ok.
  - destruct (chk_change c (negb (w_checked w c)) (w_set w) (w_ui w)) as [s ui] eqn:Hcc.
    injection He as <-. destruct Hok as (Hr & Ht & Hc). split; [|split]; cbn.
    + intros sp. specialize (Hr sp). destruct c; injection Hcc as <- <-; exact Hr.
    + intros sp. specialize (Ht sp). destruct c; injection Hcc as <- <-; exact Ht.
    + intros c'. pose proof (Hc c') as Hc'.
      destruct c; injection Hcc as <- <-; destruct c'; cbn in *; done.
  - destruct (setHandymanPreset _ _ _) as [s ui] eqn:Hp. injection He as <-.
    unfold setHandymanPreset in Hp. injection Hp as <- <-.
    destruct w as [s0 ui0 text checked]. cbn [w_set w_ui w_text w_checked].
    apply (preset_ok s0 _ ui0 _ text checked Hok).
    + intros sp. destruct sp; cbn; auto. right. split; [auto|].
      destruct (name_is _ _); [cbn; lia|]. destruct (name_is _ _); cbn; lia.
    + intros sp _. destruct Hok as (Hr & _). specialize (Hr sp).
      destruct sp; cbn in *; try done.
      destruct (name_is _ _); [cbn; lia|]. destruct (name_is _ _); cbn; lia.
    + intros c. by destruct c.
  - destruct (setMechPreset _ _ _) as [s ui] eqn:Hp. injection He as <-.
    unfold setMechPreset in Hp. injection Hp as <- <-.
    destruct w as [s0 ui0 text checked]. cbn [w_set w_ui w_text w_checked].
    apply (preset_ok s0 _ ui0 _ text checked Hok).
    + intros sp.
      destruct (name_is _ "Compact Routes"); [|destruct (name_is _ "Standard Routes")];
        destruct sp; cbn; auto; right; (split; [auto|lia]).
    + intros sp _. destruct Hok as (Hr & _). specialize (Hr sp).
      destruct (name_is _ "Compact Routes"); [|destruct (name_is _ "Standard Routes")];
        destruct sp; cbn in *; lia.
    + intros c.
      destruct (name_is _ "Compact Routes"); [|destruct (name_is _ "Standard Routes")];
        by destruct c.
  - injection He as <-. destruct Hok as (Hr & Ht & Hc). split; [done|]. split; [done|].
    intros c. cbn. rewrite Hc. by destruct c.
  - apply bind_Some in He as (p & _ & [= <-]). destruct Hok as (Hr & Ht & Hc).
    split; [|split]; cbn.
    + intros sp. specialize (Hr sp). by destruct sp.
    + intros sp. specialize (Ht sp). by destruct sp.
    + intros c. rewrite Hc. by destruct c.
Qed.

Lemma ui_run_ok es : ∀ w w', window_ok w → ui_run w es = Some w' → window_ok w'.
Proof.
  unfold ui_run. induction es as [|e es IH]; intros w w' Hok Hr; cbn [foldl] in Hr.
  - by injection Hr as <-.
  - cbn [mbind option_bind] in Hr. destruct (ui_step w e) as [w1|] eqn:He.
    + eapply IH; [|exact Hr]. by eapply ui_step_ok.
    + exfalso. clear -Hr. induction es as [|e' es IH]; [done|]. cbn [foldl] in Hr. by apply IH.
Qed.

Lemma default_Some {A} (o : option A) (d : A) :
  match o with Some _ => true | None => false end = true → o = Some (default d o).
Proof. by destruct o. Qed.

(** X24: whatever sequence of spinner clicks, checkbox toggles and
    dropdown selections the window receives after it is opened on the
    default settings, every numeric setting stays in the range of its
    spinner (tiles per handyman in 80..400, stall threshold in 1..10,
    radius in 3..20, tiles per court cleaner in 60..240, court size in
    60..500, exits in 1..10, both caps in 40..400), each checkbox shows its
    setting, and each spinner shows a value that clamps to its setting (the
    displayed number itself is not clamped).  In particular the zone size
    is positive and the diameter cap is below 1e9. *)
Theorem settings_stay_in_range es w :
  ui_run (openWindow default_settings default_ui) es = Some w →
  window_ok w
  ∧ 0 < tilesPerHandyman (w_set w)
  ∧ 0 < foodCourtTilesPerCleaner (w_set w)
  ∧ (mechDiameterCap (w_set w) < INF)%Z.
Proof.
  intros Hr.
  assert (window_ok w) as Hok.
  { eapply ui_run_ok; [|exact Hr]. apply openWindow_ok. intros sp. destruct sp; cbn; lia. }
  split; [done|]. destruct Hok as (Hrange & _).
  pose proof (Hrange SpTiles) as H1. pose proof (Hrange SpFctc) as H2.
  pose proof (Hrange SpDia) as H3. cbn in H1, H2, H3. unfold INF. lia.
Qed.

Lemma settings_stay_in_range_witness :
  window_ok clicked
  ∧ 0 < tilesPerHandyman (w_set clicked)
  ∧ 0 < foodCourtTilesPerCleaner (w_set clicked)
  ∧ (mechDiameterCap (w_set clicked) < INF)%Z.
Proof.
  apply (settings_stay_in_range clicks clicked).
  apply default_Some. vm_compute. reflexivity.
Defined.

(** * The figures of [computeKpis] *)

Lemma foldl_max_spec (l : list nat) : ∀ a,
  a ≤ foldl Nat.max a l
  ∧ (∀ x, x ∈ l → x ≤ foldl Nat.max a l)
  ∧ (foldl Nat.max a l = a ∨ foldl Nat.max a l ∈ l).
Proof.
  induction l as [|x l IH]; intros a; cbn [foldl].
  - split; [done|]. split; [by intros x Hx%elem_of_nil|by left].
  - destruct (IH (Nat.max a x)) as (H1 & H2 & H3). split; [lia|]. split.
    + intros y Hy. apply elem_of_cons in Hy as [->|Hy]; [lia|by apply H2].
    + destruct H3 as [H3|H3]; [|right; by right].
      destruct (Nat.max_spec a x) as [[_ Hm]|[_ Hm]].
      * right. rewrite H3, Hm. left.
      * left. by rewrite H3, Hm.
Qed.

Lemma foldl_max_by_spec {A} (f : A → nat) (l : list A) : ∀ a,
  a ≤ foldl (λ m x, Nat.max m (f x)) a l
  ∧ (∀ x, x ∈ l → f x ≤ foldl (λ m x, Nat.max m (f x)) a l)
  ∧ (foldl (λ m x, Nat.max m (f x)) a l = a
     ∨ ∃ x, x ∈ l ∧ foldl (λ m x, Nat.max m (f x)) a l = f x).
Proof.
  induction l as [|x l IH]; intros a; cbn [foldl].
  - split; [done|]. split; [by intros x Hx%elem_of_nil|by left].
  - destruct (IH (Nat.max a (f x))) as (H1 & H2 & H3). split; [lia|]. split.
    + intros y Hy. apply elem_of_cons in Hy as [->|Hy]; [lia|by apply H2].
    + destruct H3 as [H3|(y & Hy & H3)]; [|right; exists y; split; [by right|done]].
      destruct (Nat.max_spec a (f x)) as [[_ Hm]|[_ Hm]].
      * right. exists x. split; [left|]. by rewrite H3, Hm.
      * left. by rewrite H3, Hm.
Qed.

Lemma sum_list_between (l : list nat) lo hi :
  (∀ x, x ∈ l → lo ≤ x ≤ hi) →
  lo * length l ≤ sum_list l ≤ hi * length l.
Proof.
  induction l as [|x l IH]; intros Hl; [cbn; lia|].
  cbn [sum_list sum_list_with length].
  assert (lo ≤ x ≤ hi) by (apply Hl; left).
  assert (lo * length l ≤ sum_list l ≤ hi * length l) as IH'.
  { apply IH. intros y Hy. apply Hl. by right. }
  unfold sum_list, id in *. rewrite !Nat.mul_succ_r. lia.
Qed.

Lemma round_div_nat_between (a c lo hi : nat) :
  0 < c → lo * c ≤ a ≤ hi * c →
  (Z.of_nat lo ≤ round_div (Z.of_nat a) (Z.of_nat c) ≤ Z.of_nat hi)%Z.
Proof. intros Hc Ha. apply round_div_between; nia. Qed.

(** X25: the figures [computeKpis] reports.  The covered-tile count is
    the sum of the zone sizes; the maximum load is the size of a largest
    zone and the average load lies between the sizes of a smallest and a
    largest zone; the longest route is the length of a longest route of
    any cluster (0 when there is none); the average exit count lies
    between the smallest and the largest cluster. *)
Theorem computeKpis_figures s validTiles nCourts zones clusters courts :
  let k := (computeKpis s validTiles nCourts zones clusters courts).1 in
  validPathTiles k = validTiles
  ∧ k_foodCourts k = nCourts
  ∧ k_mechClusters k = length clusters
  ∧ coveredTiles k = length (concat (map z_tiles zones))
  ∧ (∀ z, z ∈ zones → length (z_tiles z) ≤ handymanMaxTiles k)
  ∧ (zones = [] → handymanMaxTiles k = 0 ∧ handymanAvgTiles k = 0%Z)
  ∧ (zones ≠ [] → ∃ z, z ∈ zones ∧ handymanMaxTiles k = length (z_tiles z))
  ∧ (∀ lo hi, zones ≠ [] → (∀ z, z ∈ zones → lo ≤ length (z_tiles z) ≤ hi) →
              (Z.of_nat lo ≤ handymanAvgTiles k ≤ Z.of_nat hi)%Z)
  ∧ (∀ mc r, mc ∈ clusters → r ∈ mc_routes mc →
             length (r_pathIds r) ≤ mechLongestRoute k)
  ∧ (mechLongestRoute k = 0
     ∨ ∃ mc r, mc ∈ clusters ∧ r ∈ mc_routes mc
               ∧ mechLongestRoute k = length (r_pathIds r))
  ∧ (clusters = [] → mechAvgExits k = 0%Z)
  ∧ (∀ lo hi, clusters ≠ [] → (∀ mc, mc ∈ clusters → lo ≤ length (mc_exits mc) ≤ hi) →
              (Z.of_nat lo ≤ mechAvgExits k ≤ Z.of_nat hi)%Z).
Proof.
  cbn zeta. cbn [computeKpis fst validPathTiles k_foodCourts k_mechClusters coveredTiles
                 handymanMaxTiles handymanAvgTiles mechLongestRoute mechAvgExits].
  split; [done|]. split; [done|]. split; [done|].
  set (loads := map (λ z, length (z_tiles z)) zones).
  assert (Hloads : ∀ x, x ∈ loads ↔ ∃ z, z ∈ zones ∧ x = length (z_tiles z)).
  { intros x. unfold loads. rewrite list_elem_of_fmap. split; intros (z & ? & ?); eauto. }
  destruct (foldl_max_spec loads 0) as (_ & Hmax & Hatt).
  split.
  { unfold loads. rewrite <- sum_lengths_concat, map_map. done. }
  split.
  { intros z Hz. apply Hmax, Hloads. eauto. }
  split.
  { intros ->. done. }
  split.
  { intros Hne. destruct Hatt as [H0|Hin].
    - destruct zones as [|z zs]; [done|]. exists z. split; [left|].
      rewrite H0. symmetry. apply Nat.le_0_r. rewrite <- H0. apply Hmax. left.
    - apply Hloads in Hin as (z & Hz & Heq). eauto. }
  split.
  { intros lo hi Hne Hb.
    assert (length loads = length zones) as Hll by apply length_map.
    destruct (Nat.eqb_spec (length loads) 0) as [E|E]; [destruct zones; [done|by cbn in E]|].
    apply round_div_nat_between; [lia|].
    apply sum_list_between. intros x Hx. apply Hloads in Hx as (z & Hz & ->). by apply Hb. }
  set (longest := λ mc, foldl (λ l r, Nat.max l (length (r_pathIds r))) 0 (mc_routes mc)).
  destruct (foldl_max_by_spec longest clusters 0) as (_ & Hlmax & Hlatt).
  split.
  { intros mc r Hmc Hr. etrans; [|apply (Hlmax mc Hmc)].
    destruct (foldl_max_by_spec (λ r, length (r_pathIds r)) (mc_routes mc) 0) as (_ & H & _).
    by apply H. }
  split.
  { destruct Hlatt as [H0|(mc & Hmc & Heq)]; [by left|].
    destruct (foldl_max_by_spec (λ r, length (r_pathIds r)) (mc_routes mc) 0)
      as (_ & _ & [H0|(r & Hr & Hreq)]).
    - left. fold (longest mc) in H0.
      change (foldl (λ lr mc, Nat.max lr (longest mc)) 0 clusters = 0). by rewrite Heq.
    - right. exists mc, r. split; [done|]. split; [done|].
      change (foldl (λ lr mc, Nat.max lr (longest mc)) 0 clusters = length (r_pathIds r)).
      by rewrite Heq. }
  split.
  { intros ->. done. }
  intros lo hi Hne Hb.
  destruct (Nat.eqb_spec (length clusters) 0) as [E|E]; [by destruct clusters|].
  apply round_div_nat_between; [lia|].
  rewrite <- (length_map (λ mc, length (mc_exits mc)) clusters).
  apply sum_list_between. intros x Hx. apply list_elem_of_fmap in Hx as (mc & -> & Hmc).
  by apply Hb.
Qed.

(** ** The mechanic figures of a preview run *)

(** The warning about missing clusters. *)
Lemma no_clusters_warning_spec s validTiles nCourts zones clusters courts :
  NoMechanicClusters ∈ (computeKpis s validTiles nCourts zones clusters courts).2 ↔
  enableMechanics s = true ∧ clusters = [].
Proof.
  cbn [computeKpis snd]. unfold kpi_warnings. rewrite !elem_of_app. split.
  - intros [H|[H|H]].
    + destruct (enableHandymen s); [|by apply elem_of_nil in H]. cbn zeta in H.
      destruct (_ <? 100)%Z; [|by apply elem_of_nil in H].
      by apply list_elem_of_singleton in H.
    + destruct (enableMechanics s); [|by apply elem_of_nil in H].
      destruct clusters; [done|]. by apply elem_of_nil in H.
    + destruct (enableFoodCourts s && _); [|by apply elem_of_nil in H].
      exfalso. clear -H. induction courts as [|c courts IH]; cbn [flat_map] in H;
        [by apply elem_of_nil in H|].
      apply elem_of_app in H as [H|H]; [|done]. cbn zeta in H.
      destruct (1 <? _); [|by apply elem_of_nil in H].
      by apply list_elem_of_singleton in H.
  - intros [-> ->]. right. left. cbn. left.
Qed.

(** X26: a preview run with mechanic planning enabled and a diameter cap
    below 1e9.  The exits of the plan are the ride exits on valid tiles,
    every one of them is in exactly one cluster, and the warning "No
    mechanic clusters detected" is raised exactly when there is no such
    exit.  The longest route reported has at most [mechDiameterCap + 1]
    tiles, and the average number of exits per cluster lies between 1 and
    [max(1, mechMaxExits)] whenever there is an exit. *)
Theorem mechanic_figures_within_caps s env m plan :
  onPreview s env m = Some plan →
  enableMechanics s = true →
  (mechDiameterCap s < INF)%Z →
  (∀ e, e ∈ mechExits plan → ex_nodeId e ∈ validNodeIds plan)
  ∧ concat (map mc_exits (mechClusters plan)) ≡ₚ seq 0 (length (mechExits plan))
  ∧ (NoMechanicClusters ∈ warnings plan ↔ mechExits plan = [])
  ∧ k_mechClusters (kpis plan) ≤ length (mechExits plan)
  ∧ (Z.of_nat (mechLongestRoute (kpis plan)) ≤ Z.max 0 (mechDiameterCap s + 1))%Z
  ∧ (mechExits plan ≠ [] →
     (1 ≤ mechAvgExits (kpis plan) ≤ Z.of_nat (Nat.max 1 (mechMaxExits s)))%Z).
Proof.
  intros Hp Hen Hcap.
  apply onPreview_parts in Hp
    as (bg & valid & courts & reserved & zones & exits & clusters
        & Hb & Hpr & _ & _ & Hm & ->).
  cbn [mechExits mechClusters validNodeIds kpis warnings].
  rewrite Hen in Hm.
  destruct (built_route_facts s m bg valid exits clusters Hb Hm Hcap)
    as (dist & Hd & Hroutes).
  pose proof Hm as Hparts.
  apply buildMechanicRoutes_parts in Hparts
    as (dist' & cl & He & _ & Hc & Hne & Hmap & _).
  destruct (cluster_exits_full _ _ _ _ _ _ Hc) as [Hperm Hall].
  rewrite <- Hmap in Hperm.
  assert (Hsize : ∀ mc, mc ∈ clusters →
                        1 ≤ length (mc_exits mc) ≤ Nat.max 1 (mechMaxExits s)).
  { intros mc Hmc. assert (mc_exits mc ∈ cl) as Hin.
    { rewrite <- Hmap. apply list_elem_of_fmap. by exists mc. }
    destruct (Hall _ Hin) as (Hn & Hl & _). split; [|done].
    destruct (mc_exits mc); [done|cbn; lia]. }
  assert (Hcount : length clusters ≤ length exits).
  { assert (length (concat (map mc_exits clusters)) = length exits) as <-.
    { rewrite (Permutation_length Hperm). apply length_seq. }
    rewrite <- sum_lengths_concat, map_map.
    pose proof (sum_list_between (map (λ mc, length (mc_exits mc)) clusters) 1
                  (Nat.max 1 (mechMaxExits s))) as Hs.
    rewrite length_map in Hs. destruct Hs as [Hs _]; [|lia].
    intros x Hx. apply list_elem_of_fmap in Hx as (mc & -> & Hmc). by apply Hsize. }
  split.
  { intros e Hin. by apply (collect_exits_valid _ _ _ _ He). }
  split; [done|]. split.
  { rewrite no_clusters_warning_spec. split.
    - intros [_ ->]. cbn in Hperm. apply Permutation_length in Hperm.
      rewrite length_seq in Hperm. cbn in Hperm. by destruct exits.
    - intros ->. split; [done|]. cbn in Hcount. by destruct clusters; [|cbn in Hcount; lia]. }
  split; [done|]. split.
  { cbn [computeKpis fst mechLongestRoute].
    set (longest := λ mc, foldl (λ l r, Nat.max l (length (r_pathIds r))) 0 (mc_routes mc)).
    assert (Hfold : foldl (λ lr mc, Nat.max lr (foldl (λ l r, Nat.max l (length (r_pathIds r)))
                                                      0 (mc_routes mc))) 0 clusters
                    = foldl (λ lr mc, Nat.max lr (longest mc)) 0 clusters) by done.
    rewrite Hfold.
    destruct (foldl_max_by_spec longest clusters 0) as (_ & _ & [H0|(mc & Hmc & Heq)]).
    - rewrite H0. lia.
    - rewrite Heq. unfold longest.
      destruct (foldl_max_by_spec (λ r, length (r_pathIds r)) (mc_routes mc) 0)
        as (_ & _ & [H0|(r & Hr & Hreq)]).
      + rewrite H0. lia.
      + rewrite Hreq. destruct (Hroutes mc Hmc) as [_ Hr'].
        destruct (Hr' r Hr) as (_ & _ & _ & _ & Hlen & Hle). lia. }
  intros Hex. cbn [computeKpis fst mechAvgExits].
  destruct (Nat.eqb_spec (length clusters) 0) as [E|E].
  { destruct clusters; [|done]. cbn in Hperm. apply Permutation_length in Hperm.
    rewrite length_seq in Hperm. cbn in Hperm. by destruct exits. }
  change 1%Z with (Z.of_nat 1). apply round_div_nat_between; [lia|].
  rewrite <- (length_map (λ mc, length (mc_exits mc)) clusters).
  apply sum_list_between. intros x Hx. apply list_elem_of_fmap in Hx as (mc & -> & Hmc).
  by apply Hsize.
Qed.

Lemma mechanic_figures_within_caps_witness :
  (∀ e, e ∈ mechExits pair_plan → ex_nodeId e ∈ validNodeIds pair_plan)
  ∧ concat (map mc_exits (mechClusters pair_plan)) ≡ₚ seq 0 (length (mechExits pair_plan))
  ∧ (NoMechanicClusters ∈ warnings pair_plan ↔ mechExits pair_plan = [])
  ∧ k_mechClusters (kpis pair_plan) ≤ length (mechExits pair_plan)
  ∧ (Z.of_nat (mechLongestRoute (kpis pair_plan))
     ≤ Z.max 0 (mechDiameterCap default_settings + 1))%Z
  ∧ (mechExits pair_plan ≠ [] →
     (1 ≤ mechAvgExits (kpis pair_plan)
      ≤ Z.of_nat (Nat.max 1 (mechMaxExits default_settings)))%Z).
Proof.
  apply (mechanic_figures_within_caps default_settings (mkEnv 0 0) pair_map).
  - vm_compute; reflexivity.
  - reflexivity.
  - reflexivity.
Defined.

(** * The routes of every finalized cluster *)

(** The edges of Prim's loop join the members of the cluster into a tree. *)
Lemma prim_edges_spanning dist c :
  NoDup c →
  (∀ u v, u ∈ c → v ∈ c → dist_at dist u v = dist_at dist v u) →
  (∀ u v, u ∈ c → v ∈ c → u ≠ v → (dist_at dist u v < INF)%Z) →
  (∀ u v, u ∈ c → v ∈ c → (0 ≤ dist_at dist u v)%Z) →
  spanning_tree c (prim_edges dist c).
Proof.
  intros Hnd Hsym Hfin Hpos. destruct c as [|c0 rest].
  - split; [|done]. split.
    + intros e He. by apply elem_of_nil in He.
    + intros x Hx. by apply elem_of_nil in Hx.
  - destruct (prim_loop_spec dist (c0 :: rest) c0 Hnd Hsym Hfin Hpos
                (length (c0 :: rest)) [c0] [])
      as (Hlen & Hin & Hreach & _).
    { apply prim_inv_init. left. }
    { simpl. lia. }
    change (prim_edges dist (c0 :: rest))
      with (prim_loop dist (length (c0 :: rest)) (c0 :: rest) [c0] []).
    split; [|done]. split; done.
Qed.

(** C5: on the graph built from a map, whenever the exits can be collected
    and the diameter cap is below [1e9], the mechanic planner returns and
    records one cluster for every cluster the greedy clustering finalizes,
    in the same order and with the same member exits.  Every such cluster
    with [k] members has finite pairwise distances between its different
    members; the end-point pairs of its routes are exactly [k - 1] edges
    between members that link every member to the first one (a spanning
    tree of the cluster; no edge when [k ≤ 1]); and the sum of the
    distance-matrix weights of these edges is the weight of a minimum
    spanning tree of the complete graph on the members under that
    matrix. *)
Theorem routes_form_minimum_spanning_tree s m bg valid exits :
  buildPathGraph (includeFacilitiesCuldesacs s) (foodCourtIncludeSeatingBins s) m = Some bg →
  collect_exits (bg_graph bg) valid m = Some exits →
  (mechDiameterCap s < INF)%Z →
  ∃ dist clusters mcs,
    dist_matrix (bg_graph bg) valid exits = Some dist
    ∧ cluster_exits dist (mechMaxExits s) (mechMstCap s) (mechDiameterCap s) (length exits)
      = Some clusters
    ∧ buildMechanicRoutes s m (bg_graph bg) valid = Some (exits, mcs)
    ∧ map mc_exits mcs = clusters
    ∧ concat clusters ≡ₚ seq 0 (length exits)
    ∧ ∀ mc, mc ∈ mcs →
        mc_exits mc ≠ []
        ∧ (∀ u v, u ∈ mc_exits mc → v ∈ mc_exits mc → u ≠ v → (dist_at dist u v < INF)%Z)
        ∧ spanning_tree (mc_exits mc) (route_ends (mc_routes mc))
        ∧ length (mc_routes mc) = length (mc_exits mc) - 1
        ∧ mst_weight dist (mc_exits mc)
                     (edges_weight dist (route_ends (mc_routes mc))).
Proof.
  intros Hb Hc Hcap.
  destruct (buildPathGraph_wf m _ _ _ Hb) as [[Hsym _ _ _] _].
  pose proof (collect_exits_valid _ _ _ _ Hc) as Hex.
  destruct (dist_matrix_total (bg_graph bg) valid exits) as [dist Hd].
  pose proof (dist_matrix_sym (bg_graph bg) valid Hsym exits dist Hex Hd) as Hdsym.
  pose proof (dist_matrix_nonneg (bg_graph bg) valid exits dist Hd) as Hdpos.
  destruct (clusters_routes_minimal (bg_graph bg) valid exits dist
              (mechMaxExits s) (mechMstCap s) (mechDiameterCap s) (length exits)
              Hdsym Hdpos Hcap)
    as (clusters & Hcl & Hok).
  assert (is_Some (build_clusters (bg_graph bg) valid dist exits clusters)) as [mcs Hm].
  { unfold build_clusters. apply mapM_is_Some, Forall_forall. intros c Hin.
    apply list_elem_of_filter in Hin as [_ Hin].
    destruct (Hok c Hin) as (_ & mc & Hbc & _). unfold compose. rewrite Hbc. by eexists. }
  assert (buildMechanicRoutes s m (bg_graph bg) valid = Some (exits, mcs)) as Hbm.
  { unfold buildMechanicRoutes. rewrite Hc. cbn [mbind option_bind].
    rewrite Hd. cbn [mbind option_bind]. rewrite Hcl. cbn [mbind option_bind].
    by rewrite Hm. }
  destruct (buildMechanicRoutes_parts _ _ _ _ _ _ Hbm)
    as (dist' & clusters' & _ & Hd' & Hcl' & _ & Hmap & Hf2).
  rewrite Hd in Hd'. injection Hd' as <-. rewrite Hcl in Hcl'. injection Hcl' as <-.
  destruct (cluster_exits_full _ _ _ _ _ _ Hcl) as [Hperm Hfull].
  destruct (cluster_exits_spec dist (mechMaxExits s) (mechMstCap s) (mechDiameterCap s)
              (length exits)) as (clusters' & Hcl' & Hspec).
  rewrite Hcl in Hcl'. injection Hcl' as <-.
  exists dist, clusters, mcs. do 5 (split; [done|]).
  intros mc Hin. apply list_elem_of_lookup in Hin as [i Hi].
  destruct (Forall2_lookup_r _ _ _ _ _ Hf2 Hi) as (c & Hci & Hbc).
  apply list_elem_of_lookup_2 in Hci.
  destruct (build_cluster_spec (bg_graph bg) valid dist exits c) as (mc0 & Hbc0 & Hexs & Hends).
  rewrite Hbc in Hbc0. injection Hbc0 as <-.
  destruct (Hok c Hci) as (Hfin & mc' & Hbc' & _ & Hlen & Hmst).
  rewrite Hbc in Hbc'. injection Hbc' as <-.
  destruct (Hfull c Hci) as (Hne & _). destruct (Hspec c Hci) as [Hnd _].
  rewrite Hexs. split; [done|]. split; [done|]. split; [|done].
  rewrite Hends. apply prim_edges_spanning; auto.
Qed.

Lemma routes_form_minimum_spanning_tree_witness :
  ∃ mcs,
    buildMechanicRoutes default_settings line_map line_graph line_valid
    = Some (line_exits, mcs)
    ∧ map mc_exits mcs = [[0; 1; 2]; [3; 4]]
    ∧ ∀ mc, mc ∈ mcs →
        mc_exits mc ≠ []
        ∧ (∀ u v, u ∈ mc_exits mc → v ∈ mc_exits mc → u ≠ v →
                  (dist_at line_dist u v < INF)%Z)
        ∧ spanning_tree (mc_exits mc) (route_ends (mc_routes mc))
        ∧ length (mc_routes mc) = length (mc_exits mc) - 1
        ∧ mst_weight line_dist (mc_exits mc)
                     (edges_weight line_dist (route_ends (mc_routes mc))).
Proof.
  destruct (routes_form_minimum_spanning_tree default_settings line_map
              line_built line_valid line_exits)
    as (dist & clusters & mcs & Hd & Hcl & Hm & Hmap & _ & Hall).
  - vm_compute; reflexivity.
  - vm_compute; reflexivity.
  - reflexivity.
  - assert (Some dist = Some line_dist) as Heq.
    { rewrite <- Hd. vm_compute. reflexivity. }
    injection Heq as ->.
    assert (Some clusters = Some [[0; 1; 2]; [3; 4]]) as Heq.
    { rewrite <- Hcl. vm_compute. reflexivity. }
    injection Heq as ->.
    exists mcs. split; [exact Hm|]. split; [exact Hmap|exact Hall].
Defined.
